(** * MotionEffects: a verified model of [assets/js/motion-effects.js]

    The file embeds the [MotionEffects] class and the part of the browser it
    talks to (DOM nodes, inline styles, class lists, listeners, timers, the
    animation-frame scheduler and the two observers) as executable functions
    over an explicit world state, and proves properties of the component.

    Conventions of the model.
    - JavaScript numbers are idealised as exact rationals ([Q]); every
      arithmetic expression is transcribed operator by operator.
    - A DOM node is an index into the node store; [createElement] appends to
      the store, so the index of a node never changes.  Node [body] is
      [document.body].  The host's nodes are listed in document order.
    - Only the inline style properties that the component reads back, or that
      the properties below speak of, are kept in [Style]: [position], [left],
      [top], [width], [height], [transform] and the custom properties [--x],
      [--y].  Colours, filters, animations and the like are write-only.
    - [setTimeout] callbacks are first-order [timer_action]s; the source only
      ever defers one class-list change or one node removal. *)

From Stdlib Require Import QArith Qminmax Qabs Qround Lqa ZArith Lia String List.
From stdpp Require Import base list strings.
Import ListNotations.

(** ** Values *)

(** A node is named by its index in the node store. *)
Abbreviation node_id := nat (only parsing).

(** [document.body]. *)
Definition body : node_id := 0.

(** A CSS length as the component writes it: [`${q}px`] or [`${q}%`]. *)
Inductive css_len : Type :=
| Px (q : Q)
| Pct (q : Q).

(** One function of a [transform] list.  [translate(..)] takes pixel or
    percentage arguments. *)
Inductive transform_fn : Type :=
| Translate (x y : css_len)
| Rotate (deg : Q)
| Scale (k : Q).

Record Style : Type := mkStyle {
  s_position : option string;
  s_left : option css_len;
  s_top : option css_len;
  s_width : option css_len;
  s_height : option css_len;
  s_transform : list transform_fn;
  s_x : option css_len;        (* --x *)
  s_y : option css_len         (* --y *)
}.

(** The inline style of a node fresh from [createElement]. *)
Definition no_style : Style :=
  {| s_position := None; s_left := None; s_top := None; s_width := None;
     s_height := None; s_transform := []; s_x := None; s_y := None |}.

(** Field updates of [Style]. *)
Definition set_s_position (v : option string) (r : Style) : Style :=
  {| s_position := v; s_left := s_left r; s_top := s_top r; s_width := s_width r; s_height :=
     s_height r; s_transform := s_transform r; s_x := s_x r; s_y := s_y r |}.
Definition set_s_left (v : option css_len) (r : Style) : Style :=
  {| s_position := s_position r; s_left := v; s_top := s_top r; s_width := s_width r; s_height :=
     s_height r; s_transform := s_transform r; s_x := s_x r; s_y := s_y r |}.
Definition set_s_top (v : option css_len) (r : Style) : Style :=
  {| s_position := s_position r; s_left := s_left r; s_top := v; s_width := s_width r; s_height :=
     s_height r; s_transform := s_transform r; s_x := s_x r; s_y := s_y r |}.
Definition set_s_width (v : option css_len) (r : Style) : Style :=
  {| s_position := s_position r; s_left := s_left r; s_top := s_top r; s_width := v; s_height :=
     s_height r; s_transform := s_transform r; s_x := s_x r; s_y := s_y r |}.
Definition set_s_height (v : option css_len) (r : Style) : Style :=
  {| s_position := s_position r; s_left := s_left r; s_top := s_top r; s_width := s_width r;
     s_height := v; s_transform := s_transform r; s_x := s_x r; s_y := s_y r |}.
Definition set_s_transform (v : list transform_fn) (r : Style) : Style :=
  {| s_position := s_position r; s_left := s_left r; s_top := s_top r; s_width := s_width r;
     s_height := s_height r; s_transform := v; s_x := s_x r; s_y := s_y r |}.
Definition set_s_x (v : option css_len) (r : Style) : Style :=
  {| s_position := s_position r; s_left := s_left r; s_top := s_top r; s_width := s_width r;
     s_height := s_height r; s_transform := s_transform r; s_x := v; s_y := s_y r |}.
Definition set_s_y (v : option css_len) (r : Style) : Style :=
  {| s_position := s_position r; s_left := s_left r; s_top := s_top r; s_width := s_width r;
     s_height := s_height r; s_transform := s_transform r; s_x := s_x r; s_y := v |}.

(** A DOM element.  [wired] counts how many times the component attached its
    five element listeners (mouseenter, mouseleave, mousedown, mouseup,
    click): they are always attached together, each time as fresh closures,
    so the browser never merges them. *)
Record Node : Type := mkNode {
  tag : string;
  classList : list string;
  style : Style;
  parent : option node_id;
  wired : nat
}.

Definition set_classList (v : list string) (r : Node) : Node :=
  {| tag := tag r; classList := v; style := style r; parent := parent r; wired := wired r |}.
Definition set_style (v : Style) (r : Node) : Node :=
  {| tag := tag r; classList := classList r; style := v; parent := parent r; wired := wired r |}.
Definition set_parent (v : option node_id) (r : Node) : Node :=
  {| tag := tag r; classList := classList r; style := style r; parent := v; wired := wired r |}.
Definition set_wired (v : nat) (r : Node) : Node :=
  {| tag := tag r; classList := classList r; style := style r; parent := parent r; wired := v |}.

(** [getBoundingClientRect()]. *)
Record Rect : Type := mkRect {
  rect_left : Q;
  rect_top : Q;
  rect_width : Q;
  rect_height : Q
}.

Definition rect_bottom (r : Rect) : Q := (rect_top r + rect_height r)%Q.

Record MouseEvent : Type := mkMouseEvent {
  clientX : Q;
  clientY : Q
}.

(** The body of a [setTimeout] callback. *)
Inductive timer_action : Type :=
| TRemoveNode (n : node_id)                   (* n.remove() *)
| TClassAdd (n : node_id) (c : string)        (* n.classList.add(c) *)
| TClassRemove (n : node_id) (c : string).    (* n.classList.remove(c) *)

(** ** The instance fields of [MotionEffects]

    [intersectionObserver] records whether the field holds an observer
    ([false] is [null]); [floatingShapes] is [None] while [undefined]. *)
Record MotionEffects : Type := mkMotionEffects {
  motionBackground : option node_id;
  layers : list node_id;
  particles : list node_id;
  mouseX : Q;
  mouseY : Q;
  centerX : Q;
  centerY : Q;
  mouseVelocity : Q * Q;
  lastMouseX : Q;
  lastMouseY : Q;
  cursor : option node_id;
  cursorDot : option node_id;
  cursorVisible : bool;
  cursorHover : bool;
  cursorActive : bool;
  cursorTrail : list node_id;
  maxTrailLength : nat;
  animatedElements : list node_id;
  staggerGroups : list node_id;
  intersectionObserver : bool;
  animationFrameId : option nat;
  lastScrollTime : Z;
  lastMouseMoveTime : Z;
  scrollThrottle : Z;
  mouseMoveThrottle : Z;
  prefersReducedMotion : bool;
  gridElement : option node_id;
  floatingShapes : option (list node_id)
}.

(** Assignments to one instance field. *)
Definition set_motionBackground (v : option node_id) (r : MotionEffects) : MotionEffects :=
  {| motionBackground := v; layers := layers r; particles := particles r; mouseX := mouseX r;
     mouseY := mouseY r; centerX := centerX r; centerY := centerY r; mouseVelocity :=
     mouseVelocity r; lastMouseX := lastMouseX r; lastMouseY := lastMouseY r; cursor := cursor r;
     cursorDot := cursorDot r; cursorVisible := cursorVisible r; cursorHover := cursorHover r;
     cursorActive := cursorActive r; cursorTrail := cursorTrail r; maxTrailLength :=
     maxTrailLength r; animatedElements := animatedElements r; staggerGroups := staggerGroups r;
     intersectionObserver := intersectionObserver r; animationFrameId := animationFrameId r;
     lastScrollTime := lastScrollTime r; lastMouseMoveTime := lastMouseMoveTime r; scrollThrottle
     := scrollThrottle r; mouseMoveThrottle := mouseMoveThrottle r; prefersReducedMotion :=
     prefersReducedMotion r; gridElement := gridElement r; floatingShapes := floatingShapes r |}.
Definition set_layers (v : list node_id) (r : MotionEffects) : MotionEffects :=
  {| motionBackground := motionBackground r; layers := v; particles := particles r; mouseX :=
     mouseX r; mouseY := mouseY r; centerX := centerX r; centerY := centerY r; mouseVelocity :=
     mouseVelocity r; lastMouseX := lastMouseX r; lastMouseY := lastMouseY r; cursor := cursor r;
     cursorDot := cursorDot r; cursorVisible := cursorVisible r; cursorHover := cursorHover r;
     cursorActive := cursorActive r; cursorTrail := cursorTrail r; maxTrailLength :=
     maxTrailLength r; animatedElements := animatedElements r; staggerGroups := staggerGroups r;
     intersectionObserver := intersectionObserver r; animationFrameId := animationFrameId r;
     lastScrollTime := lastScrollTime r; lastMouseMoveTime := lastMouseMoveTime r; scrollThrottle
     := scrollThrottle r; mouseMoveThrottle := mouseMoveThrottle r; prefersReducedMotion :=
     prefersReducedMotion r; gridElement := gridElement r; floatingShapes := floatingShapes r |}.
Definition set_particles (v : list node_id) (r : MotionEffects) : MotionEffects :=
  {| motionBackground := motionBackground r; layers := layers r; particles := v; mouseX := mouseX
     r; mouseY := mouseY r; centerX := centerX r; centerY := centerY r; mouseVelocity :=
     mouseVelocity r; lastMouseX := lastMouseX r; lastMouseY := lastMouseY r; cursor := cursor r;
     cursorDot := cursorDot r; cursorVisible := cursorVisible r; cursorHover := cursorHover r;
     cursorActive := cursorActive r; cursorTrail := cursorTrail r; maxTrailLength :=
     maxTrailLength r; animatedElements := animatedElements r; staggerGroups := staggerGroups r;
     intersectionObserver := intersectionObserver r; animationFrameId := animationFrameId r;
     lastScrollTime := lastScrollTime r; lastMouseMoveTime := lastMouseMoveTime r; scrollThrottle
     := scrollThrottle r; mouseMoveThrottle := mouseMoveThrottle r; prefersReducedMotion :=
     prefersReducedMotion r; gridElement := gridElement r; floatingShapes := floatingShapes r |}.
Definition set_mouseX (v : Q) (r : MotionEffects) : MotionEffects :=
  {| motionBackground := motionBackground r; layers := layers r; particles := particles r; mouseX
     := v; mouseY := mouseY r; centerX := centerX r; centerY := centerY r; mouseVelocity :=
     mouseVelocity r; lastMouseX := lastMouseX r; lastMouseY := lastMouseY r; cursor := cursor r;
     cursorDot := cursorDot r; cursorVisible := cursorVisible r; cursorHover := cursorHover r;
     cursorActive := cursorActive r; cursorTrail := cursorTrail r; maxTrailLength :=
     maxTrailLength r; animatedElements := animatedElements r; staggerGroups := staggerGroups r;
     intersectionObserver := intersectionObserver r; animationFrameId := animationFrameId r;
     lastScrollTime := lastScrollTime r; lastMouseMoveTime := lastMouseMoveTime r; scrollThrottle
     := scrollThrottle r; mouseMoveThrottle := mouseMoveThrottle r; prefersReducedMotion :=
     prefersReducedMotion r; gridElement := gridElement r; floatingShapes := floatingShapes r |}.
Definition set_mouseY (v : Q) (r : MotionEffects) : MotionEffects :=
  {| motionBackground := motionBackground r; layers := layers r; particles := particles r; mouseX
     := mouseX r; mouseY := v; centerX := centerX r; centerY := centerY r; mouseVelocity :=
     mouseVelocity r; lastMouseX := lastMouseX r; lastMouseY := lastMouseY r; cursor := cursor r;
     cursorDot := cursorDot r; cursorVisible := cursorVisible r; cursorHover := cursorHover r;
     cursorActive := cursorActive r; cursorTrail := cursorTrail r; maxTrailLength :=
     maxTrailLength r; animatedElements := animatedElements r; staggerGroups := staggerGroups r;
     intersectionObserver := intersectionObserver r; animationFrameId := animationFrameId r;
     lastScrollTime := lastScrollTime r; lastMouseMoveTime := lastMouseMoveTime r; scrollThrottle
     := scrollThrottle r; mouseMoveThrottle := mouseMoveThrottle r; prefersReducedMotion :=
     prefersReducedMotion r; gridElement := gridElement r; floatingShapes := floatingShapes r |}.
Definition set_centerX (v : Q) (r : MotionEffects) : MotionEffects :=
  {| motionBackground := motionBackground r; layers := layers r; particles := particles r; mouseX
     := mouseX r; mouseY := mouseY r; centerX := v; centerY := centerY r; mouseVelocity :=
     mouseVelocity r; lastMouseX := lastMouseX r; lastMouseY := lastMouseY r; cursor := cursor r;
     cursorDot := cursorDot r; cursorVisible := cursorVisible r; cursorHover := cursorHover r;
     cursorActive := cursorActive r; cursorTrail := cursorTrail r; maxTrailLength :=
     maxTrailLength r; animatedElements := animatedElements r; staggerGroups := staggerGroups r;
     intersectionObserver := intersectionObserver r; animationFrameId := animationFrameId r;
     lastScrollTime := lastScrollTime r; lastMouseMoveTime := lastMouseMoveTime r; scrollThrottle
     := scrollThrottle r; mouseMoveThrottle := mouseMoveThrottle r; prefersReducedMotion :=
     prefersReducedMotion r; gridElement := gridElement r; floatingShapes := floatingShapes r |}.
Definition set_centerY (v : Q) (r : MotionEffects) : MotionEffects :=
  {| motionBackground := motionBackground r; layers := layers r; particles := particles r; mouseX
     := mouseX r; mouseY := mouseY r; centerX := centerX r; centerY := v; mouseVelocity :=
     mouseVelocity r; lastMouseX := lastMouseX r; lastMouseY := lastMouseY r; cursor := cursor r;
     cursorDot := cursorDot r; cursorVisible := cursorVisible r; cursorHover := cursorHover r;
     cursorActive := cursorActive r; cursorTrail := cursorTrail r; maxTrailLength :=
     maxTrailLength r; animatedElements := animatedElements r; staggerGroups := staggerGroups r;
     intersectionObserver := intersectionObserver r; animationFrameId := animationFrameId r;
     lastScrollTime := lastScrollTime r; lastMouseMoveTime := lastMouseMoveTime r; scrollThrottle
     := scrollThrottle r; mouseMoveThrottle := mouseMoveThrottle r; prefersReducedMotion :=
     prefersReducedMotion r; gridElement := gridElement r; floatingShapes := floatingShapes r |}.
Definition set_mouseVelocity (v : Q * Q) (r : MotionEffects) : MotionEffects :=
  {| motionBackground := motionBackground r; layers := layers r; particles := particles r; mouseX
     := mouseX r; mouseY := mouseY r; centerX := centerX r; centerY := centerY r; mouseVelocity :=
     v; lastMouseX := lastMouseX r; lastMouseY := lastMouseY r; cursor := cursor r; cursorDot :=
     cursorDot r; cursorVisible := cursorVisible r; cursorHover := cursorHover r; cursorActive :=
     cursorActive r; cursorTrail := cursorTrail r; maxTrailLength := maxTrailLength r;
     animatedElements := animatedElements r; staggerGroups := staggerGroups r;
     intersectionObserver := intersectionObserver r; animationFrameId := animationFrameId r;
     lastScrollTime := lastScrollTime r; lastMouseMoveTime := lastMouseMoveTime r; scrollThrottle
     := scrollThrottle r; mouseMoveThrottle := mouseMoveThrottle r; prefersReducedMotion :=
     prefersReducedMotion r; gridElement := gridElement r; floatingShapes := floatingShapes r |}.
Definition set_lastMouseX (v : Q) (r : MotionEffects) : MotionEffects :=
  {| motionBackground := motionBackground r; layers := layers r; particles := particles r; mouseX
     := mouseX r; mouseY := mouseY r; centerX := centerX r; centerY := centerY r; mouseVelocity :=
     mouseVelocity r; lastMouseX := v; lastMouseY := lastMouseY r; cursor := cursor r; cursorDot
     := cursorDot r; cursorVisible := cursorVisible r; cursorHover := cursorHover r; cursorActive
     := cursorActive r; cursorTrail := cursorTrail r; maxTrailLength := maxTrailLength r;
     animatedElements := animatedElements r; staggerGroups := staggerGroups r;
     intersectionObserver := intersectionObserver r; animationFrameId := animationFrameId r;
     lastScrollTime := lastScrollTime r; lastMouseMoveTime := lastMouseMoveTime r; scrollThrottle
     := scrollThrottle r; mouseMoveThrottle := mouseMoveThrottle r; prefersReducedMotion :=
     prefersReducedMotion r; gridElement := gridElement r; floatingShapes := floatingShapes r |}.
Definition set_lastMouseY (v : Q) (r : MotionEffects) : MotionEffects :=
  {| motionBackground := motionBackground r; layers := layers r; particles := particles r; mouseX
     := mouseX r; mouseY := mouseY r; centerX := centerX r; centerY := centerY r; mouseVelocity :=
     mouseVelocity r; lastMouseX := lastMouseX r; lastMouseY := v; cursor := cursor r; cursorDot
     := cursorDot r; cursorVisible := cursorVisible r; cursorHover := cursorHover r; cursorActive
     := cursorActive r; cursorTrail := cursorTrail r; maxTrailLength := maxTrailLength r;
     animatedElements := animatedElements r; staggerGroups := staggerGroups r;
     intersectionObserver := intersectionObserver r; animationFrameId := animationFrameId r;
     lastScrollTime := lastScrollTime r; lastMouseMoveTime := lastMouseMoveTime r; scrollThrottle
     := scrollThrottle r; mouseMoveThrottle := mouseMoveThrottle r; prefersReducedMotion :=
     prefersReducedMotion r; gridElement := gridElement r; floatingShapes := floatingShapes r |}.
Definition set_cursor (v : option node_id) (r : MotionEffects) : MotionEffects :=
  {| motionBackground := motionBackground r; layers := layers r; particles := particles r; mouseX
     := mouseX r; mouseY := mouseY r; centerX := centerX r; centerY := centerY r; mouseVelocity :=
     mouseVelocity r; lastMouseX := lastMouseX r; lastMouseY := lastMouseY r; cursor := v;
     cursorDot := cursorDot r; cursorVisible := cursorVisible r; cursorHover := cursorHover r;
     cursorActive := cursorActive r; cursorTrail := cursorTrail r; maxTrailLength :=
     maxTrailLength r; animatedElements := animatedElements r; staggerGroups := staggerGroups r;
     intersectionObserver := intersectionObserver r; animationFrameId := animationFrameId r;
     lastScrollTime := lastScrollTime r; lastMouseMoveTime := lastMouseMoveTime r; scrollThrottle
     := scrollThrottle r; mouseMoveThrottle := mouseMoveThrottle r; prefersReducedMotion :=
     prefersReducedMotion r; gridElement := gridElement r; floatingShapes := floatingShapes r |}.
Definition set_cursorDot (v : option node_id) (r : MotionEffects) : MotionEffects :=
  {| motionBackground := motionBackground r; layers := layers r; particles := particles r; mouseX
     := mouseX r; mouseY := mouseY r; centerX := centerX r; centerY := centerY r; mouseVelocity :=
     mouseVelocity r; lastMouseX := lastMouseX r; lastMouseY := lastMouseY r; cursor := cursor r;
     cursorDot := v; cursorVisible := cursorVisible r; cursorHover := cursorHover r; cursorActive
     := cursorActive r; cursorTrail := cursorTrail r; maxTrailLength := maxTrailLength r;
     animatedElements := animatedElements r; staggerGroups := staggerGroups r;
     intersectionObserver := intersectionObserver r; animationFrameId := animationFrameId r;
     lastScrollTime := lastScrollTime r; lastMouseMoveTime := lastMouseMoveTime r; scrollThrottle
     := scrollThrottle r; mouseMoveThrottle := mouseMoveThrottle r; prefersReducedMotion :=
     prefersReducedMotion r; gridElement := gridElement r; floatingShapes := floatingShapes r |}.
Definition set_cursorVisible (v : bool) (r : MotionEffects) : MotionEffects :=
  {| motionBackground := motionBackground r; layers := layers r; particles := particles r; mouseX
     := mouseX r; mouseY := mouseY r; centerX := centerX r; centerY := centerY r; mouseVelocity :=
     mouseVelocity r; lastMouseX := lastMouseX r; lastMouseY := lastMouseY r; cursor := cursor r;
     cursorDot := cursorDot r; cursorVisible := v; cursorHover := cursorHover r; cursorActive :=
     cursorActive r; cursorTrail := cursorTrail r; maxTrailLength := maxTrailLength r;
     animatedElements := animatedElements r; staggerGroups := staggerGroups r;
     intersectionObserver := intersectionObserver r; animationFrameId := animationFrameId r;
     lastScrollTime := lastScrollTime r; lastMouseMoveTime := lastMouseMoveTime r; scrollThrottle
     := scrollThrottle r; mouseMoveThrottle := mouseMoveThrottle r; prefersReducedMotion :=
     prefersReducedMotion r; gridElement := gridElement r; floatingShapes := floatingShapes r |}.
Definition set_cursorHover (v : bool) (r : MotionEffects) : MotionEffects :=
  {| motionBackground := motionBackground r; layers := layers r; particles := particles r; mouseX
     := mouseX r; mouseY := mouseY r; centerX := centerX r; centerY := centerY r; mouseVelocity :=
     mouseVelocity r; lastMouseX := lastMouseX r; lastMouseY := lastMouseY r; cursor := cursor r;
     cursorDot := cursorDot r; cursorVisible := cursorVisible r; cursorHover := v; cursorActive :=
     cursorActive r; cursorTrail := cursorTrail r; maxTrailLength := maxTrailLength r;
     animatedElements := animatedElements r; staggerGroups := staggerGroups r;
     intersectionObserver := intersectionObserver r; animationFrameId := animationFrameId r;
     lastScrollTime := lastScrollTime r; lastMouseMoveTime := lastMouseMoveTime r; scrollThrottle
     := scrollThrottle r; mouseMoveThrottle := mouseMoveThrottle r; prefersReducedMotion :=
     prefersReducedMotion r; gridElement := gridElement r; floatingShapes := floatingShapes r |}.
Definition set_cursorActive (v : bool) (r : MotionEffects) : MotionEffects :=
  {| motionBackground := motionBackground r; layers := layers r; particles := particles r; mouseX
     := mouseX r; mouseY := mouseY r; centerX := centerX r; centerY := centerY r; mouseVelocity :=
     mouseVelocity r; lastMouseX := lastMouseX r; lastMouseY := lastMouseY r; cursor := cursor r;
     cursorDot := cursorDot r; cursorVisible := cursorVisible r; cursorHover := cursorHover r;
     cursorActive := v; cursorTrail := cursorTrail r; maxTrailLength := maxTrailLength r;
     animatedElements := animatedElements r; staggerGroups := staggerGroups r;
     intersectionObserver := intersectionObserver r; animationFrameId := animationFrameId r;
     lastScrollTime := lastScrollTime r; lastMouseMoveTime := lastMouseMoveTime r; scrollThrottle
     := scrollThrottle r; mouseMoveThrottle := mouseMoveThrottle r; prefersReducedMotion :=
     prefersReducedMotion r; gridElement := gridElement r; floatingShapes := floatingShapes r |}.
Definition set_cursorTrail (v : list node_id) (r : MotionEffects) : MotionEffects :=
  {| motionBackground := motionBackground r; layers := layers r; particles := particles r; mouseX
     := mouseX r; mouseY := mouseY r; centerX := centerX r; centerY := centerY r; mouseVelocity :=
     mouseVelocity r; lastMouseX := lastMouseX r; lastMouseY := lastMouseY r; cursor := cursor r;
     cursorDot := cursorDot r; cursorVisible := cursorVisible r; cursorHover := cursorHover r;
     cursorActive := cursorActive r; cursorTrail := v; maxTrailLength := maxTrailLength r;
     animatedElements := animatedElements r; staggerGroups := staggerGroups r;
     intersectionObserver := intersectionObserver r; animationFrameId := animationFrameId r;
     lastScrollTime := lastScrollTime r; lastMouseMoveTime := lastMouseMoveTime r; scrollThrottle
     := scrollThrottle r; mouseMoveThrottle := mouseMoveThrottle r; prefersReducedMotion :=
     prefersReducedMotion r; gridElement := gridElement r; floatingShapes := floatingShapes r |}.
Definition set_animatedElements (v : list node_id) (r : MotionEffects) : MotionEffects :=
  {| motionBackground := motionBackground r; layers := layers r; particles := particles r; mouseX
     := mouseX r; mouseY := mouseY r; centerX := centerX r; centerY := centerY r; mouseVelocity :=
     mouseVelocity r; lastMouseX := lastMouseX r; lastMouseY := lastMouseY r; cursor := cursor r;
     cursorDot := cursorDot r; cursorVisible := cursorVisible r; cursorHover := cursorHover r;
     cursorActive := cursorActive r; cursorTrail := cursorTrail r; maxTrailLength :=
     maxTrailLength r; animatedElements := v; staggerGroups := staggerGroups r;
     intersectionObserver := intersectionObserver r; animationFrameId := animationFrameId r;
     lastScrollTime := lastScrollTime r; lastMouseMoveTime := lastMouseMoveTime r; scrollThrottle
     := scrollThrottle r; mouseMoveThrottle := mouseMoveThrottle r; prefersReducedMotion :=
     prefersReducedMotion r; gridElement := gridElement r; floatingShapes := floatingShapes r |}.
Definition set_staggerGroups (v : list node_id) (r : MotionEffects) : MotionEffects :=
  {| motionBackground := motionBackground r; layers := layers r; particles := particles r; mouseX
     := mouseX r; mouseY := mouseY r; centerX := centerX r; centerY := centerY r; mouseVelocity :=
     mouseVelocity r; lastMouseX := lastMouseX r; lastMouseY := lastMouseY r; cursor := cursor r;
     cursorDot := cursorDot r; cursorVisible := cursorVisible r; cursorHover := cursorHover r;
     cursorActive := cursorActive r; cursorTrail := cursorTrail r; maxTrailLength :=
     maxTrailLength r; animatedElements := animatedElements r; staggerGroups := v;
     intersectionObserver := intersectionObserver r; animationFrameId := animationFrameId r;
     lastScrollTime := lastScrollTime r; lastMouseMoveTime := lastMouseMoveTime r; scrollThrottle
     := scrollThrottle r; mouseMoveThrottle := mouseMoveThrottle r; prefersReducedMotion :=
     prefersReducedMotion r; gridElement := gridElement r; floatingShapes := floatingShapes r |}.
Definition set_intersectionObserver (v : bool) (r : MotionEffects) : MotionEffects :=
  {| motionBackground := motionBackground r; layers := layers r; particles := particles r; mouseX
     := mouseX r; mouseY := mouseY r; centerX := centerX r; centerY := centerY r; mouseVelocity :=
     mouseVelocity r; lastMouseX := lastMouseX r; lastMouseY := lastMouseY r; cursor := cursor r;
     cursorDot := cursorDot r; cursorVisible := cursorVisible r; cursorHover := cursorHover r;
     cursorActive := cursorActive r; cursorTrail := cursorTrail r; maxTrailLength :=
     maxTrailLength r; animatedElements := animatedElements r; staggerGroups := staggerGroups r;
     intersectionObserver := v; animationFrameId := animationFrameId r; lastScrollTime :=
     lastScrollTime r; lastMouseMoveTime := lastMouseMoveTime r; scrollThrottle := scrollThrottle
     r; mouseMoveThrottle := mouseMoveThrottle r; prefersReducedMotion := prefersReducedMotion r;
     gridElement := gridElement r; floatingShapes := floatingShapes r |}.
Definition set_animationFrameId (v : option nat) (r : MotionEffects) : MotionEffects :=
  {| motionBackground := motionBackground r; layers := layers r; particles := particles r; mouseX
     := mouseX r; mouseY := mouseY r; centerX := centerX r; centerY := centerY r; mouseVelocity :=
     mouseVelocity r; lastMouseX := lastMouseX r; lastMouseY := lastMouseY r; cursor := cursor r;
     cursorDot := cursorDot r; cursorVisible := cursorVisible r; cursorHover := cursorHover r;
     cursorActive := cursorActive r; cursorTrail := cursorTrail r; maxTrailLength :=
     maxTrailLength r; animatedElements := animatedElements r; staggerGroups := staggerGroups r;
     intersectionObserver := intersectionObserver r; animationFrameId := v; lastScrollTime :=
     lastScrollTime r; lastMouseMoveTime := lastMouseMoveTime r; scrollThrottle := scrollThrottle
     r; mouseMoveThrottle := mouseMoveThrottle r; prefersReducedMotion := prefersReducedMotion r;
     gridElement := gridElement r; floatingShapes := floatingShapes r |}.
Definition set_lastMouseMoveTime (v : Z) (r : MotionEffects) : MotionEffects :=
  {| motionBackground := motionBackground r; layers := layers r; particles := particles r; mouseX
     := mouseX r; mouseY := mouseY r; centerX := centerX r; centerY := centerY r; mouseVelocity :=
     mouseVelocity r; lastMouseX := lastMouseX r; lastMouseY := lastMouseY r; cursor := cursor r;
     cursorDot := cursorDot r; cursorVisible := cursorVisible r; cursorHover := cursorHover r;
     cursorActive := cursorActive r; cursorTrail := cursorTrail r; maxTrailLength :=
     maxTrailLength r; animatedElements := animatedElements r; staggerGroups := staggerGroups r;
     intersectionObserver := intersectionObserver r; animationFrameId := animationFrameId r;
     lastScrollTime := lastScrollTime r; lastMouseMoveTime := v; scrollThrottle := scrollThrottle
     r; mouseMoveThrottle := mouseMoveThrottle r; prefersReducedMotion := prefersReducedMotion r;
     gridElement := gridElement r; floatingShapes := floatingShapes r |}.
Definition set_gridElement (v : option node_id) (r : MotionEffects) : MotionEffects :=
  {| motionBackground := motionBackground r; layers := layers r; particles := particles r; mouseX
     := mouseX r; mouseY := mouseY r; centerX := centerX r; centerY := centerY r; mouseVelocity :=
     mouseVelocity r; lastMouseX := lastMouseX r; lastMouseY := lastMouseY r; cursor := cursor r;
     cursorDot := cursorDot r; cursorVisible := cursorVisible r; cursorHover := cursorHover r;
     cursorActive := cursorActive r; cursorTrail := cursorTrail r; maxTrailLength :=
     maxTrailLength r; animatedElements := animatedElements r; staggerGroups := staggerGroups r;
     intersectionObserver := intersectionObserver r; animationFrameId := animationFrameId r;
     lastScrollTime := lastScrollTime r; lastMouseMoveTime := lastMouseMoveTime r; scrollThrottle
     := scrollThrottle r; mouseMoveThrottle := mouseMoveThrottle r; prefersReducedMotion :=
     prefersReducedMotion r; gridElement := v; floatingShapes := floatingShapes r |}.
Definition set_floatingShapes (v : option (list node_id)) (r : MotionEffects) : MotionEffects :=
  {| motionBackground := motionBackground r; layers := layers r; particles := particles r; mouseX
     := mouseX r; mouseY := mouseY r; centerX := centerX r; centerY := centerY r; mouseVelocity :=
     mouseVelocity r; lastMouseX := lastMouseX r; lastMouseY := lastMouseY r; cursor := cursor r;
     cursorDot := cursorDot r; cursorVisible := cursorVisible r; cursorHover := cursorHover r;
     cursorActive := cursorActive r; cursorTrail := cursorTrail r; maxTrailLength :=
     maxTrailLength r; animatedElements := animatedElements r; staggerGroups := staggerGroups r;
     intersectionObserver := intersectionObserver r; animationFrameId := animationFrameId r;
     lastScrollTime := lastScrollTime r; lastMouseMoveTime := lastMouseMoveTime r; scrollThrottle
     := scrollThrottle r; mouseMoveThrottle := mouseMoveThrottle r; prefersReducedMotion :=
     prefersReducedMotion r; gridElement := gridElement r; floatingShapes := v |}.

(** ** The world: the instance and the browser state it acts on

    [rects], the viewport sizes, [reducedMotionPref], [clock] and [random]
    are inputs from the environment; [timers], [rafPending], [ioObserved],
    [moActive] and [docListening] are the registrations the component made
    with the browser. *)
Record World : Type := mkWorld {
  this : MotionEffects;
  nodes : list Node;
  rects : node_id -> Rect;
  innerWidth : Q;
  innerHeight : Q;
  clientHeight : Q;               (* document.documentElement.clientHeight *)
  reducedMotionPref : bool;       (* matchMedia('(prefers-reduced-motion: reduce)').matches *)
  clock : Z;                      (* milliseconds; Date.now() *)
  timers : list (Z * timer_action);   (* pending setTimeout callbacks with their due time *)
  rafPending : list nat;          (* handles of the pending requestAnimationFrame(animate) *)
  rafCounter : nat;               (* last animation-frame handle handed out *)
  ioObserved : list node_id;      (* targets of the IntersectionObserver *)
  moActive : bool;                (* the MutationObserver is observing document.body *)
  docListening : bool;            (* setupEventListeners has run *)
  random : nat -> Q;              (* the successive results of Math.random() *)
  randomPos : nat
}.

Definition with_this (v : MotionEffects) (r : World) : World :=
  {| this := v; nodes := nodes r; rects := rects r; innerWidth := innerWidth r; innerHeight :=
     innerHeight r; clientHeight := clientHeight r; reducedMotionPref := reducedMotionPref r;
     clock := clock r; timers := timers r; rafPending := rafPending r; rafCounter := rafCounter r;
     ioObserved := ioObserved r; moActive := moActive r; docListening := docListening r; random :=
     random r; randomPos := randomPos r |}.
Definition with_nodes (v : list Node) (r : World) : World :=
  {| this := this r; nodes := v; rects := rects r; innerWidth := innerWidth r; innerHeight :=
     innerHeight r; clientHeight := clientHeight r; reducedMotionPref := reducedMotionPref r;
     clock := clock r; timers := timers r; rafPending := rafPending r; rafCounter := rafCounter r;
     ioObserved := ioObserved r; moActive := moActive r; docListening := docListening r; random :=
     random r; randomPos := randomPos r |}.
Definition with_rects (v : node_id -> Rect) (r : World) : World :=
  {| this := this r; nodes := nodes r; rects := v; innerWidth := innerWidth r; innerHeight :=
     innerHeight r; clientHeight := clientHeight r; reducedMotionPref := reducedMotionPref r;
     clock := clock r; timers := timers r; rafPending := rafPending r; rafCounter := rafCounter r;
     ioObserved := ioObserved r; moActive := moActive r; docListening := docListening r; random :=
     random r; randomPos := randomPos r |}.
Definition with_innerWidth (v : Q) (r : World) : World :=
  {| this := this r; nodes := nodes r; rects := rects r; innerWidth := v; innerHeight :=
     innerHeight r; clientHeight := clientHeight r; reducedMotionPref := reducedMotionPref r;
     clock := clock r; timers := timers r; rafPending := rafPending r; rafCounter := rafCounter r;
     ioObserved := ioObserved r; moActive := moActive r; docListening := docListening r; random :=
     random r; randomPos := randomPos r |}.
Definition with_innerHeight (v : Q) (r : World) : World :=
  {| this := this r; nodes := nodes r; rects := rects r; innerWidth := innerWidth r; innerHeight
     := v; clientHeight := clientHeight r; reducedMotionPref := reducedMotionPref r; clock :=
     clock r; timers := timers r; rafPending := rafPending r; rafCounter := rafCounter r;
     ioObserved := ioObserved r; moActive := moActive r; docListening := docListening r; random :=
     random r; randomPos := randomPos r |}.
Definition with_clock (v : Z) (r : World) : World :=
  {| this := this r; nodes := nodes r; rects := rects r; innerWidth := innerWidth r; innerHeight
     := innerHeight r; clientHeight := clientHeight r; reducedMotionPref := reducedMotionPref r;
     clock := v; timers := timers r; rafPending := rafPending r; rafCounter := rafCounter r;
     ioObserved := ioObserved r; moActive := moActive r; docListening := docListening r; random :=
     random r; randomPos := randomPos r |}.
Definition with_timers (v : list (Z * timer_action)) (r : World) : World :=
  {| this := this r; nodes := nodes r; rects := rects r; innerWidth := innerWidth r; innerHeight
     := innerHeight r; clientHeight := clientHeight r; reducedMotionPref := reducedMotionPref r;
     clock := clock r; timers := v; rafPending := rafPending r; rafCounter := rafCounter r;
     ioObserved := ioObserved r; moActive := moActive r; docListening := docListening r; random :=
     random r; randomPos := randomPos r |}.
Definition with_rafPending (v : list nat) (r : World) : World :=
  {| this := this r; nodes := nodes r; rects := rects r; innerWidth := innerWidth r; innerHeight
     := innerHeight r; clientHeight := clientHeight r; reducedMotionPref := reducedMotionPref r;
     clock := clock r; timers := timers r; rafPending := v; rafCounter := rafCounter r; ioObserved
     := ioObserved r; moActive := moActive r; docListening := docListening r; random := random r;
     randomPos := randomPos r |}.
Definition with_rafCounter (v : nat) (r : World) : World :=
  {| this := this r; nodes := nodes r; rects := rects r; innerWidth := innerWidth r; innerHeight
     := innerHeight r; clientHeight := clientHeight r; reducedMotionPref := reducedMotionPref r;
     clock := clock r; timers := timers r; rafPending := rafPending r; rafCounter := v; ioObserved
     := ioObserved r; moActive := moActive r; docListening := docListening r; random := random r;
     randomPos := randomPos r |}.
Definition with_ioObserved (v : list node_id) (r : World) : World :=
  {| this := this r; nodes := nodes r; rects := rects r; innerWidth := innerWidth r; innerHeight
     := innerHeight r; clientHeight := clientHeight r; reducedMotionPref := reducedMotionPref r;
     clock := clock r; timers := timers r; rafPending := rafPending r; rafCounter := rafCounter r;
     ioObserved := v; moActive := moActive r; docListening := docListening r; random := random r;
     randomPos := randomPos r |}.
Definition with_moActive (v : bool) (r : World) : World :=
  {| this := this r; nodes := nodes r; rects := rects r; innerWidth := innerWidth r; innerHeight
     := innerHeight r; clientHeight := clientHeight r; reducedMotionPref := reducedMotionPref r;
     clock := clock r; timers := timers r; rafPending := rafPending r; rafCounter := rafCounter r;
     ioObserved := ioObserved r; moActive := v; docListening := docListening r; random := random
     r; randomPos := randomPos r |}.
Definition with_docListening (v : bool) (r : World) : World :=
  {| this := this r; nodes := nodes r; rects := rects r; innerWidth := innerWidth r; innerHeight
     := innerHeight r; clientHeight := clientHeight r; reducedMotionPref := reducedMotionPref r;
     clock := clock r; timers := timers r; rafPending := rafPending r; rafCounter := rafCounter r;
     ioObserved := ioObserved r; moActive := moActive r; docListening := v; random := random r;
     randomPos := randomPos r |}.
Definition with_randomPos (v : nat) (r : World) : World :=
  {| this := this r; nodes := nodes r; rects := rects r; innerWidth := innerWidth r; innerHeight
     := innerHeight r; clientHeight := clientHeight r; reducedMotionPref := reducedMotionPref r;
     clock := clock r; timers := timers r; rafPending := rafPending r; rafCounter := rafCounter r;
     ioObserved := ioObserved r; moActive := moActive r; docListening := docListening r; random :=
     random r; randomPos := v |}.

(** ** JavaScript helpers *)

(** [parseFloat] of an inline length: the leading number, or [NaN] ([None])
    for the empty string of an unset property. *)
Definition parseFloat (v : option css_len) : option Q :=
  match v with
  | Some (Px q) => Some q
  | Some (Pct q) => Some q
  | None => None
  end.

(** [a || b] on numbers: [b] when [a] is [NaN] or [0]. *)
Definition num_or (a : option Q) (b : Q) : Q :=
  match a with
  | Some q => if Qeq_bool q 0 then b else q
  | None => b
  end.

(** [classList.add] and [classList.remove] on the ordered token set. *)
Definition token_add (c : string) (l : list string) : list string :=
  if bool_decide (c ∈ l) then l else l ++ [c].

Definition token_remove (c : string) (l : list string) : list string :=
  List.filter (fun x => negb (String.eqb x c)) l.

(** ** DOM primitives *)

Definition upd_this (f : MotionEffects -> MotionEffects) (w : World) : World :=
  with_this (f (this w)) w.

Definition upd_node (n : node_id) (f : Node -> Node) (w : World) : World :=
  with_nodes (alter f n (nodes w)) w.

Definition createElement (t : string) (w : World) : node_id * World :=
  (length (nodes w), with_nodes (nodes w ++ [mkNode t [] no_style None 0]) w).

Definition set_className (n : node_id) (cs : list string) : World -> World :=
  upd_node n (set_classList cs).

(** [n.style.cssText = ...] replaces the whole inline style. *)
Definition set_cssText (n : node_id) (st : Style) : World -> World :=
  upd_node n (set_style st).

Definition upd_style (n : node_id) (f : Style -> Style) : World -> World :=
  upd_node n (fun nd => set_style (f (style nd)) nd).

Definition appendChild (p c : node_id) : World -> World :=
  upd_node c (set_parent (Some p)).

Definition remove (n : node_id) : World -> World :=
  upd_node n (set_parent None).

Definition classList_add (n : node_id) (c : string) : World -> World :=
  upd_node n (fun nd => set_classList (token_add c (classList nd)) nd).

Definition classList_remove (n : node_id) (c : string) : World -> World :=
  upd_node n (fun nd => set_classList (token_remove c (classList nd)) nd).

Definition has_class (c : string) (nd : Node) : bool := bool_decide (c ∈ classList nd).

Definition style_of (w : World) (n : node_id) : Style :=
  match nodes w !! n with
  | Some nd => style nd
  | None => no_style
  end.

Definition Math_random (w : World) : Q * World :=
  (random w (randomPos w), with_randomPos (S (randomPos w)) w).

(** [forEach] and counted [for] loops thread the world through the body. *)
Definition for_each {A : Type} (l : list A) (f : A -> World -> World) (w : World) : World :=
  fold_left (fun w x => f x w) l w.

(** *** The document tree *)

(** [connected fuel ns n]: following parent links from [n] reaches
    [document.body] within [fuel] steps. *)
Fixpoint connected (fuel : nat) (ns : list Node) (n : node_id) : bool :=
  if Nat.eqb n body then true else
  match fuel with
  | O => false
  | S f =>
      match ns !! n with
      | Some nd =>
          match parent nd with
          | Some p => connected f ns p
          | None => false
          end
      | None => false
      end
  end.

Definition in_document (w : World) (n : node_id) : bool :=
  connected (length (nodes w)) (nodes w) n.

(** The strict ancestors of [n], nearest first. *)
Fixpoint ancestors (fuel : nat) (ns : list Node) (n : node_id) : list node_id :=
  match fuel with
  | O => []
  | S f =>
      match ns !! n with
      | Some nd =>
          match parent nd with
          | Some p => p :: ancestors f ns p
          | None => []
          end
      | None => []
      end
  end.

Definition ancestors_of (w : World) (n : node_id) : list node_id :=
  ancestors (length (nodes w)) (nodes w) n.

(** *** Selectors *)

Definition matches (sel : Node -> bool) (w : World) (n : node_id) : bool :=
  match nodes w !! n with
  | Some nd => sel nd
  | None => false
  end.

Definition all_ids (w : World) : list node_id := seq 0 (length (nodes w)).

Definition document_querySelectorAll (sel : Node -> bool) (w : World) : list node_id :=
  List.filter (fun n => in_document w n && matches sel w n) (all_ids w).

(** The store keeps no list of children: the children of [p] are the
    nodes whose [parent] is [p], and siblings stand in the store in their
    order in the tree.  [appendChild] keeps it so: the component appends
    only nodes it has just made, which have the highest id and go last. *)
Definition is_child (ns : list Node) (p n : node_id) : bool :=
  match ns !! n with
  | Some nd => bool_decide (parent nd = Some p)
  | None => false
  end.

Definition children (ns : list Node) (p : node_id) : list node_id :=
  List.filter (is_child ns p) (seq 0 (length ns)).

(** The nodes below [n], [n] first, in tree order (depth first, a node
    before its children), down to depth [fuel]. *)
Fixpoint preorder (fuel : nat) (ns : list Node) (n : node_id) : list node_id :=
  match fuel with
  | O => []
  | S f => n :: flat_map (preorder f ns) (children ns n)
  end.

(** The elements of the document in document order.  No node lies deeper
    than there are nodes. *)
Definition document_order (w : World) : list node_id :=
  preorder (S (length (nodes w))) (nodes w) body.

(** [document.querySelector]: the first match in document order. *)
Definition document_querySelector (sel : Node -> bool) (w : World) : option node_id :=
  head (List.filter (matches sel w) (document_order w)).

(** [root.querySelectorAll]: the matching strict descendants of [root]. *)
Definition node_querySelectorAll (root : node_id) (sel : Node -> bool) (w : World)
  : list node_id :=
  List.filter (fun n => bool_decide (root ∈ ancestors_of w n) && matches sel w n) (all_ids w).

Definition has_tag (ts : list string) (nd : Node) : bool := bool_decide (tag nd ∈ ts).

Definition has_any_class (cs : list string) (nd : Node) : bool :=
  existsb (fun c => has_class c nd) cs.

(** ['a, button, .btn, .nav-btn, .card, .kpi-card, input, select, .icon,
    .history-card-delete'] *)
Definition sel_interactive (nd : Node) : bool :=
  has_tag ["a"; "button"; "input"; "select"] nd
  || has_any_class ["btn"; "nav-btn"; "card"; "kpi-card"; "icon"; "history-card-delete"] nd.

(** ['.card, .kpi-card, .history-card'] *)
Definition sel_card : Node -> bool := has_any_class ["card"; "kpi-card"; "history-card"].

Definition sel_class (c : string) : Node -> bool := has_class c.

(** *** Timers and animation frames *)

(** A new timer runs after every pending timer that is due no later. *)
Fixpoint enqueue (t : Z) (a : timer_action) (q : list (Z * timer_action))
  : list (Z * timer_action) :=
  match q with
  | [] => [(t, a)]
  | (t', a') :: q' =>
      if (t' <=? t)%Z then (t', a') :: enqueue t a q' else (t, a) :: q
  end.

Definition setTimeout (a : timer_action) (delay : Z) (w : World) : World :=
  with_timers (enqueue (clock w + delay)%Z a (timers w)) w.

Definition requestAnimationFrame (w : World) : nat * World :=
  let id := S (rafCounter w) in
  (id, with_rafCounter id (with_rafPending (rafPending w ++ [id]) w)).

Definition cancelAnimationFrame (id : nat) (w : World) : World :=
  with_rafPending (List.filter (fun i => negb (Nat.eqb i id)) (rafPending w)) w.

(** ** The component, in source order *)

(** A [cssText] with the tracked declarations it contains. *)
Definition css (pos : string) (l t wd ht : option css_len) (tr : list transform_fn) : Style :=
  {| s_position := Some pos; s_left := l; s_top := t; s_width := wd; s_height := ht;
     s_transform := tr; s_x := None; s_y := None |}.

(** [`layer-${i}`] for the loop values [1..4]. *)
Definition layer_class (i : nat) : string :=
  match i with
  | 1 => "layer-1"
  | 2 => "layer-2"
  | 3 => "layer-3"
  | _ => "layer-4"
  end.

(** One iteration of [for (let i = 1; i <= 4; i++)]: [inset: -100px] sets
    [left] and [top]; the gradient and blur are not tracked. *)
Definition create_layer (mb : node_id) (i : nat) (w : World) : World :=
  let '(layer, w) := createElement "div" w in
  let w := set_className layer ["layer"; layer_class i] w in
  let w := set_cssText layer
             (css "absolute" (Some (Px (-100))) (Some (Px (-100))) None None []) w in
  let w := appendChild mb layer w in
  upd_this (fun t => set_layers (layers t ++ [layer]) t) w.

(** One iteration of [for (let i = 0; i < 20; i++)].  Seven random numbers
    are drawn: size, left, top, duration, delay, animation type, rotation. *)
Definition create_particle (container : node_id) (i : nat) (w : World) : World :=
  let '(particle, w) := createElement "div" w in
  let w := set_className particle ["particle"] w in
  let '(r, w) := Math_random w in
  let size := (8 + r * 17)%Q in
  let '(rl, w) := Math_random w in
  let '(rt, w) := Math_random w in
  let w := set_cssText particle
             (css "absolute" (Some (Pct (rl * 100))) (Some (Pct (rt * 100)))
                  (Some (Px size)) (Some (Px size)) []) w in
  let '(_, w) := Math_random w in
  let '(_, w) := Math_random w in
  let '(_, w) := Math_random w in
  let '(_, w) := Math_random w in
  let w := appendChild container particle w in
  upd_this (fun t => set_particles (particles t ++ [particle]) t) w.

(** One iteration of [for (let i = 0; i < 25; i++)]: size, left, top, shape
    type and colour are drawn first, then the rotation of squares and lines,
    then duration and delay. *)
Definition create_shape (container : node_id) (i : nat) (w : World) : World :=
  let '(shape, w) := createElement "div" w in
  let w := set_className shape ["floating-shape"] w in
  let '(r, w) := Math_random w in
  let size := (20 + r * 60)%Q in
  let '(rl, w) := Math_random w in
  let lft := Some (Pct (rl * 100)) in
  let '(rt, w) := Math_random w in
  let tp := Some (Pct (rt * 100)) in
  let '(rs, w) := Math_random w in
  let shapeType := Qfloor (rs * 4) in
  let '(_, w) := Math_random w in
  let '(shapeStyles, w) :=
    if (shapeType =? 0)%Z then
      (css "absolute" lft tp (Some (Px size)) (Some (Px size)) [], w)
    else if (shapeType =? 1)%Z then
      let '(rr, w) := Math_random w in
      (css "absolute" lft tp (Some (Px size)) (Some (Px size)) [Rotate (rr * 45)], w)
    else if (shapeType =? 2)%Z then
      (css "absolute" lft tp (Some (Px 0)) (Some (Px 0)) [], w)
    else
      let '(rr, w) := Math_random w in
      (css "absolute" lft tp (Some (Px (size * 2))) (Some (Px 2)) [Rotate (rr * 360)], w) in
  let w := set_cssText shape shapeStyles w in
  let '(_, w) := Math_random w in
  let '(_, w) := Math_random w in
  let w := appendChild container shape w in
  upd_this (fun t =>
    set_floatingShapes (Some (default [] (floatingShapes t) ++ [shape])) t) w.

Definition createMotionBackground (w : World) : World :=
  if prefersReducedMotion (this w) then w else
  let '(mb, w) := createElement "div" w in
  let w := upd_this (set_motionBackground (Some mb)) w in
  let w := set_className mb ["motion-background"] w in
  let w := set_cssText mb (css "fixed" (Some (Px 0)) (Some (Px 0)) None None []) w in
  let w := appendChild body mb w in
  let '(grid, w) := createElement "div" w in
  let w := upd_this (set_gridElement (Some grid)) w in
  let w := set_cssText grid (css "absolute" (Some (Px 0)) (Some (Px 0)) None None []) w in
  let w := appendChild mb grid w in
  let w := for_each (seq 1 4) (create_layer mb) w in
  let '(particlesContainer, w) := createElement "div" w in
  let w := set_className particlesContainer ["particles"] w in
  let w := set_cssText particlesContainer
             (css "absolute" (Some (Px 0)) (Some (Px 0)) None None []) w in
  let w := appendChild mb particlesContainer w in
  let w := for_each (seq 0 20) (create_particle particlesContainer) w in
  let '(iconsContainer, w) := createElement "div" w in
  let w := set_className iconsContainer ["floating-icons"] w in
  let w := set_cssText iconsContainer
             (css "absolute" (Some (Px 0)) (Some (Px 0)) None None []) w in
  let w := appendChild mb iconsContainer w in
  for_each (seq 0 25) (create_shape iconsContainer) w.

(** The five listeners of one interactive element. *)
Definition addInteractiveListeners (el : node_id) : World -> World :=
  upd_node el (fun nd => set_wired (S (wired nd)) nd).

Definition observeNewElements (w : World) : World := with_moActive true w.

(** [setupInteractiveElements] attaches, inline, the same five listeners as
    [addInteractiveListeners]. *)
Definition setupInteractiveElements (w : World) : World :=
  let interactiveElements := document_querySelectorAll sel_interactive w in
  let w := for_each interactiveElements addInteractiveListeners w in
  observeNewElements w.

(** One iteration of [for (let i = 0; i < this.maxTrailLength; i++)]. *)
Definition create_trail_dot (i : nat) (w : World) : World :=
  let '(trailDot, w) := createElement "div" w in
  let w := set_className trailDot ["custom-cursor-trail"] w in
  let w := set_cssText trailDot
             (css "fixed" None None (Some (Px 4)) (Some (Px 4)) []) w in
  let w := appendChild body trailDot w in
  upd_this (fun t => set_cursorTrail (cursorTrail t ++ [trailDot]) t) w.

Definition createCustomCursor (w : World) : World :=
  if prefersReducedMotion (this w) then w else
  let '(c, w) := createElement "div" w in
  let w := upd_this (set_cursor (Some c)) w in
  let w := set_className c ["custom-cursor"] w in
  let w := appendChild body c w in
  let '(d, w) := createElement "div" w in
  let w := upd_this (set_cursorDot (Some d)) w in
  let w := set_className d ["custom-cursor-dot"] w in
  let w := appendChild body d w in
  let w := for_each (seq 0 (maxTrailLength (this w))) create_trail_dot w in
  let w := upd_style c (set_s_top (Some (Px (-100)))) w in
  let w := upd_style c (set_s_left (Some (Px (-100)))) w in
  let w := upd_style d (set_s_top (Some (Px (-100)))) w in
  let w := upd_style d (set_s_left (Some (Px (-100)))) w in
  setupInteractiveElements w.

(** The callback of the [MutationObserver].  [added] lists the element nodes
    of all [addedNodes] of the batch, in order.  For a node that itself
    matches the selector the source calls [push] on the [NodeList] returned
    by [querySelectorAll]; a [NodeList] has no [push], so the call throws and
    the rest of the batch is skipped. *)
Fixpoint mutation_callback (added : list node_id) (w : World) : World :=
  match added with
  | [] => w
  | node :: rest =>
      let interactiveElements := node_querySelectorAll node sel_interactive w in
      if matches sel_interactive w node then w
      else mutation_callback rest (for_each interactiveElements addInteractiveListeners w)
  end.

Definition createRippleEffect (currentTarget : node_id) (event : MouseEvent) (w : World)
  : World :=
  if prefersReducedMotion (this w) then w else
  let '(ripple, w) := createElement "div" w in
  let w := set_cssText ripple (css "absolute" None None None None [Scale 0]) w in
  let rect := rects w currentTarget in
  let size := Qmax (rect_width rect) (rect_height rect) in
  let x := (clientX event - rect_left rect - size / 2)%Q in
  let y := (clientY event - rect_top rect - size / 2)%Q in
  let w := upd_style ripple (set_s_height (Some (Px size))) w in
  let w := upd_style ripple (set_s_width (Some (Px size))) w in
  let w := upd_style ripple (set_s_left (Some (Px x))) w in
  let w := upd_style ripple (set_s_top (Some (Px y))) w in
  let w := upd_style currentTarget (set_s_position (Some "relative")) w in
  let w := appendChild currentTarget ripple w in
  setTimeout (TRemoveNode ripple) 600 w.

(** [observe] ignores a target that is already observed. *)
Definition io_observe (el : node_id) (w : World) : World :=
  if bool_decide (el ∈ ioObserved w) then w else with_ioObserved (ioObserved w ++ [el]) w.

(** The callback of the [IntersectionObserver] on one entry. *)
Definition io_entry (entry : node_id * bool) (w : World) : World :=
  let '(target, isIntersecting) := entry in
  if isIntersecting then
    let w := classList_add target "visible" w in
    if matches (sel_class "stagger-group") w target
    then classList_add target "visible" w
    else w
  else w.

Definition io_callback (entries : list (node_id * bool)) : World -> World :=
  for_each entries io_entry.

Definition setupScrollAnimations (w : World) : World :=
  let w := upd_this (set_intersectionObserver true) w in
  let w := upd_this
             (set_animatedElements (document_querySelectorAll (sel_class "animate-on-scroll") w))
             w in
  let w := upd_this
             (set_staggerGroups (document_querySelectorAll (sel_class "stagger-group") w)) w in
  let w := for_each (animatedElements (this w)) io_observe w in
  for_each (staggerGroups (this w)) io_observe w.

Definition setupEventListeners (w : World) : World := with_docListening true w.

Definition handleMouseMove (e : MouseEvent) (w : World) : World :=
  let now := clock w in
  if (now - lastMouseMoveTime (this w) <? mouseMoveThrottle (this w))%Z then w else
  let w := upd_this (set_lastMouseMoveTime now) w in
  let w := upd_this (fun t =>
             set_mouseVelocity ((clientX e - lastMouseX t)%Q, snd (mouseVelocity t)) t) w in
  let w := upd_this (fun t =>
             set_mouseVelocity (fst (mouseVelocity t), (clientY e - lastMouseY t)%Q) t) w in
  let w := upd_this (set_lastMouseX (clientX e)) w in
  let w := upd_this (set_lastMouseY (clientY e)) w in
  let w := upd_this (set_mouseX (clientX e)) w in
  upd_this (set_mouseY (clientY e)) w.

Definition card_hover (e : MouseEvent) (card : node_id) (w : World) : World :=
  let rect := rects w card in
  let x := (clientX e - rect_left rect)%Q in
  let y := (clientY e - rect_top rect)%Q in
  let w := upd_style card (set_s_x (Some (Px x))) w in
  upd_style card (set_s_y (Some (Px y))) w.

Definition handleCardHover (e : MouseEvent) (w : World) : World :=
  let cards := document_querySelectorAll sel_card w in
  for_each cards (card_hover e) w.

Definition isElementInViewport (el : node_id) (w : World) : bool :=
  let rect := rects w el in
  let windowHeight := num_or (Some (innerHeight w)) (clientHeight w) in
  let threshold := 100%Q in
  Qle_bool (rect_top rect) (windowHeight - threshold) && Qle_bool 0 (rect_bottom rect).

Definition checkElementsInViewport (w : World) : World :=
  if prefersReducedMotion (this w) then
    let w := for_each (animatedElements (this w)) (fun el => classList_add el "visible") w in
    for_each (staggerGroups (this w)) (fun group => classList_add group "visible") w
  else
    let w := for_each (animatedElements (this w))
               (fun el w => if isElementInViewport el w then classList_add el "visible" w
                            else w) w in
    for_each (staggerGroups (this w))
      (fun group w => if isElementInViewport group w then classList_add group "visible" w
                      else w) w.

Definition handleResize (w : World) : World :=
  let w := upd_this (set_centerX (innerWidth w / 2)%Q) w in
  let w := upd_this (set_centerY (innerHeight w / 2)%Q) w in
  checkElementsInViewport w.

Definition handleThemeChange (w : World) : World :=
  let w := classList_add body "theme-transitioning" w in
  setTimeout (TClassRemove body "theme-transitioning") 600 w.

(** [`translate(${x}px, ${y}px)`] and the trailing [translate(-50%, -50%)]. *)
Definition translate_px (x y : Q) : transform_fn := Translate (Px x) (Px y).
Definition centred : transform_fn := Translate (Pct (-50)) (Pct (-50)).

(** One iteration of [for (let i = this.cursorTrail.length - 1; i > 0; i--)]. *)
Definition trail_step (x y : Q) (i : nat) (w : World) : World :=
  match cursorTrail (this w) !! i, cursorTrail (this w) !! (i - 1) with
  | Some current, Some previous =>
      let currentX := num_or (parseFloat (s_left (style_of w current))) x in
      let currentY := num_or (parseFloat (s_top (style_of w current))) y in
      let previousX := num_or (parseFloat (s_left (style_of w previous))) x in
      let previousY := num_or (parseFloat (s_top (style_of w previous))) y in
      let newX := (currentX + (previousX - currentX) * (3 # 10))%Q in
      let newY := (currentY + (previousY - currentY) * (3 # 10))%Q in
      upd_style current (set_s_transform [translate_px newX newY; centred]) w
  | _, _ => w
  end.

Definition updateCursorTrail (x y : Q) (w : World) : World :=
  let w := for_each (rev (seq 1 (length (cursorTrail (this w)) - 1))) (trail_step x y) w in
  match cursorTrail (this w) !! 0 with
  | Some first => upd_style first (set_s_transform [translate_px x y; centred]) w
  | None => w
  end.

Definition updateCursor (w : World) : World :=
  match cursor (this w), cursorDot (this w) with
  | Some c, Some d =>
      if prefersReducedMotion (this w) then w else
      let targetX := mouseX (this w) in
      let targetY := mouseY (this w) in
      let currentX := num_or (parseFloat (s_left (style_of w c))) targetX in
      let currentY := num_or (parseFloat (s_top (style_of w c))) targetY in
      let newX := (currentX + (targetX - currentX) * (1 # 10))%Q in
      let newY := (currentY + (targetY - currentY) * (1 # 10))%Q in
      let w := upd_style c (set_s_transform [translate_px newX newY; centred]) w in
      let w := upd_style d (set_s_transform [translate_px targetX targetY; centred]) w in
      updateCursorTrail targetX targetY w
  | _, _ => w
  end.

(** [forEach((x, index) => ...)]. *)
Definition indexed {A : Type} (l : list A) : list (nat * A) := combine (seq 0 (length l)) l.

Definition of_nat (n : nat) : Q := inject_Z (Z.of_nat n).

Definition is_translate (f : transform_fn) : bool :=
  match f with
  | Translate _ _ => true
  | _ => false
  end.

(** [currentTransform.replace(/translate\([^)]*\)/g, '')]. *)
Definition strip_translate (tr : list transform_fn) : list transform_fn :=
  List.filter (fun f => negb (is_translate f)) tr.

Definition updateMotionBackground (w : World) : World :=
  if Nat.eqb (length (layers (this w))) 0 || prefersReducedMotion (this w) then w else
  let distX := (mouseX (this w) - centerX (this w) + fst (mouseVelocity (this w)) * 2)%Q in
  let distY := (mouseY (this w) - centerY (this w) + snd (mouseVelocity (this w)) * 2)%Q in
  let w := for_each (indexed (layers (this w))) (fun '(index, layer) w =>
             let intensity := (of_nat (index + 1) * (2 # 100))%Q in
             let translateX := (distX * intensity)%Q in
             let translateY := (distY * intensity)%Q in
             let rotation := (distX * (2 # 10000) + distY * (2 # 10000))%Q in
             upd_style layer
               (set_s_transform [translate_px translateX translateY; Rotate rotation]) w) w in
  let w := match gridElement (this w) with
           | Some grid =>
               let gridIntensity := (15 # 100)%Q in
               let gridTranslateX := (distX * gridIntensity)%Q in
               let gridTranslateY := (distY * gridIntensity)%Q in
               let gridRotation := ((distX + distY) * (5 # 10000))%Q in
               let gridScale :=
                 (1 + Qabs (fst (mouseVelocity (this w)) + snd (mouseVelocity (this w)))
                      * (1 # 10000))%Q in
               upd_style grid
                 (set_s_transform [translate_px gridTranslateX gridTranslateY;
                                   Rotate gridRotation; Scale gridScale]) w
           | None => w
           end in
  let w := for_each (indexed (particles (this w))) (fun '(index, particle) w =>
             let intensity := ((5 # 1000) + of_nat (index mod 3) * (2 # 1000))%Q in
             let translateX := (distX * intensity)%Q in
             let translateY := (distY * intensity)%Q in
             let baseTransform := strip_translate (s_transform (style_of w particle)) in
             upd_style particle
               (set_s_transform (translate_px translateX translateY :: baseTransform)) w) w in
  match floatingShapes (this w) with
  | Some shapes =>
      for_each (indexed shapes) (fun '(index, shape) w =>
        let intensity := ((3 # 100) + of_nat (index mod 5) * (1 # 100))%Q in
        let translateX := (distX * intensity)%Q in
        let translateY := (distY * intensity)%Q in
        let scale := (1 + Qabs (distX + distY) * (1 # 10000))%Q in
        upd_style shape (set_s_transform [translate_px translateX translateY; Scale scale]) w)
        w
  | None => w
  end.

(** The frame callback. *)
Definition animate (w : World) : World :=
  let w := updateCursor w in
  let w := updateMotionBackground w in
  let '(id, w) := requestAnimationFrame w in
  upd_this (set_animationFrameId (Some id)) w.

Definition startAnimationLoop (w : World) : World := animate w.

Definition animatePageTransition (w : World) : World :=
  match document_querySelector (sel_class "main") w with
  | Some mainContent =>
      let w := classList_add mainContent "page-transition" w in
      setTimeout (TClassAdd mainContent "active") 50 w
  | None => w
  end.

Definition addShimmerLoading (element : node_id) (w : World) : World :=
  if prefersReducedMotion (this w) then w else
  let w := classList_add element "loading" w in
  setTimeout (TClassRemove element "loading") 2000 w.

Definition triggerPageTransition (w : World) : World :=
  let sections := document_querySelectorAll (sel_class "dashboard-section") w in
  for_each sections (fun section w =>
    let w := classList_add section "page-transition" w in
    setTimeout (TClassAdd section "active") 100 w) w.

(** In [destroy], a handle is truthy when it is neither [null] nor [0]. *)
Definition destroy (w : World) : World :=
  let w := match animationFrameId (this w) with
           | Some (S _ as id) => cancelAnimationFrame id w
           | _ => w
           end in
  let w := if intersectionObserver (this w) then with_ioObserved [] w else w in
  let w := match cursor (this w) with Some c => remove c w | None => w end in
  let w := match cursorDot (this w) with Some d => remove d w | None => w end in
  let w := for_each (cursorTrail (this w)) remove w in
  match motionBackground (this w) with
  | Some mb => remove mb w
  | None => w
  end.

Definition init (w : World) : World :=
  let w := createMotionBackground w in
  let w := createCustomCursor w in
  let w := setupScrollAnimations w in
  let w := setupEventListeners w in
  let w := startAnimationLoop w in
  animatePageTransition w.

(** The field initialisers of the constructor, given the viewport size and
    the reduced-motion preference it reads. *)
Definition fields_at (width height : Q) (reduced : bool) : MotionEffects :=
  {| motionBackground := None; layers := []; particles := [];
     mouseX := 0; mouseY := 0;
     centerX := (width / 2)%Q; centerY := (height / 2)%Q;
     mouseVelocity := (0%Q, 0%Q); lastMouseX := 0; lastMouseY := 0;
     cursor := None; cursorDot := None; cursorVisible := true; cursorHover := false;
     cursorActive := false; cursorTrail := []; maxTrailLength := 8;
     animatedElements := []; staggerGroups := []; intersectionObserver := false;
     animationFrameId := None; lastScrollTime := 0; lastMouseMoveTime := 0;
     scrollThrottle := 16; mouseMoveThrottle := 8;
     prefersReducedMotion := reduced;
     gridElement := None; floatingShapes := None |}.

Definition new_fields (w : World) : MotionEffects :=
  fields_at (innerWidth w) (innerHeight w) (reducedMotionPref w).

(** [new MotionEffects()] on the page [w]. *)
Definition construct (w : World) : World := init (with_this (new_fields w) w).

(** ** The browser's side: delivering events, timers and frames *)

Definition fire (a : timer_action) : World -> World :=
  match a with
  | TRemoveNode n => remove n
  | TClassAdd n c => classList_add n c
  | TClassRemove n c => classList_remove n c
  end.

(** The timers at the head of the queue that are due at [now], and the rest. *)
Fixpoint due_prefix (now : Z) (q : list (Z * timer_action)) : list (Z * timer_action) :=
  match q with
  | [] => []
  | (t, a) :: q' => if (t <=? now)%Z then (t, a) :: due_prefix now q' else []
  end.

Fixpoint due_rest (now : Z) (q : list (Z * timer_action)) : list (Z * timer_action) :=
  match q with
  | [] => []
  | (t, a) :: q' => if (t <=? now)%Z then due_rest now q' else q
  end.

(** [d] milliseconds pass and every timer that has become due runs, once. *)
Definition advance (d : Z) (w : World) : World :=
  let now := (clock w + d)%Z in
  let due := due_prefix now (timers w) in
  let w := with_timers (due_rest now (timers w)) (with_clock now w) in
  for_each due (fun ta => fire (snd ta)) w.

(** The browser runs the frame callbacks that were pending when the frame
    began. *)
Definition run_frame (w : World) : World :=
  let pending := rafPending w in
  for_each pending (fun _ => animate) (with_rafPending [] w).

Definition wired_of (w : World) (n : node_id) : nat :=
  match nodes w !! n with
  | Some nd => wired nd
  | None => 0
  end.

(** An event travelling along [path] runs, at each element, the listener the
    component attached there, once per time it was attached. *)
Definition dispatch (handler : node_id -> World -> World) (path : list node_id)
  : World -> World :=
  for_each path (fun n w => Nat.iter (wired_of w n) (handler n) w).

Definition event_path (w : World) (target : node_id) : list node_id :=
  target :: ancestors_of w target.

(** [this.cursor.classList.f(c); this.cursorDot.classList.f(c)].  Reading
    [classList] of [null] throws, which ends the listener. *)
Definition cursor_classes (f : node_id -> string -> World -> World) (c : string) (w : World)
  : World :=
  match cursor (this w) with
  | Some cur =>
      let w := f cur c w in
      match cursorDot (this w) with
      | Some dot => f dot c w
      | None => w
      end
  | None => w
  end.

Definition on_mouseenter (el : node_id) (w : World) : World :=
  cursor_classes classList_add "hover" (upd_this (set_cursorHover true) w).

Definition on_mouseleave (el : node_id) (w : World) : World :=
  cursor_classes classList_remove "hover" (upd_this (set_cursorHover false) w).

Definition on_mousedown (el : node_id) (w : World) : World :=
  cursor_classes classList_add "active" (upd_this (set_cursorActive true) w).

Definition on_mouseup (el : node_id) (w : World) : World :=
  cursor_classes classList_remove "active" (upd_this (set_cursorActive false) w).

Definition on_click (e : MouseEvent) (el : node_id) (w : World) : World :=
  createRippleEffect el e w.

(** A listener registered on [document] runs for an event that bubbles from
    a target inside the document, once [setupEventListeners] has run. *)
Definition at_document (target : node_id) (f : World -> World) (w : World) : World :=
  if docListening w && in_document w target then f w else w.

(** What can happen to a constructed component. *)
Inductive op : Type :=
| OpFrame                                         (* an animation frame *)
| OpAdvance (d : Z)                               (* time passes, timers run *)
| OpMouseMove (e : MouseEvent)                    (* mousemove reaching document *)
| OpDocMouseEnter
| OpDocMouseLeave
| OpMouseEnter (el : node_id)
| OpMouseLeave (el : node_id)
| OpMouseDown (target : node_id)
| OpMouseUp (target : node_id)
| OpClick (target : node_id) (e : MouseEvent)
| OpResize (width height : Q)
| OpLayout (r : node_id -> Rect)                  (* the page is laid out anew *)
| OpThemeChange
| OpIntersect (entries : list (node_id * bool))
| OpMutation (added : list node_id)
| OpAddShimmerLoading (el : node_id)
| OpTriggerPageTransition
| OpDestroy.

Definition step (o : op) (w : World) : World :=
  match o with
  | OpFrame => run_frame w
  | OpAdvance d => advance d w
  | OpMouseMove e =>
      if docListening w then handleCardHover e (handleMouseMove e w) else w
  | OpDocMouseEnter =>
      if docListening w then upd_this (set_cursorVisible true) w else w
  | OpDocMouseLeave =>
      if docListening w then upd_this (set_cursorVisible false) w else w
  | OpMouseEnter el => dispatch on_mouseenter [el] w
  | OpMouseLeave el => dispatch on_mouseleave [el] w
  | OpMouseDown target =>
      let w' := dispatch on_mousedown (event_path w target) w in
      at_document target (upd_this (set_cursorActive true)) w'
  | OpMouseUp target =>
      let w' := dispatch on_mouseup (event_path w target) w in
      at_document target (upd_this (set_cursorActive false)) w'
  | OpClick target e => dispatch (on_click e) (event_path w target) w
  | OpResize width height =>
      let w := with_innerHeight height (with_innerWidth width w) in
      if docListening w then handleResize w else w
  | OpLayout r => with_rects r w
  | OpThemeChange => if docListening w then handleThemeChange w else w
  | OpIntersect entries =>
      io_callback (List.filter (fun en => bool_decide (fst en ∈ ioObserved w)) entries) w
  | OpMutation added => if moActive w then mutation_callback added w else w
  | OpAddShimmerLoading el => addShimmerLoading el w
  | OpTriggerPageTransition => triggerPageTransition w
  | OpDestroy => destroy w
  end.

Definition run (ops : list op) (w : World) : World := for_each ops step w.

(** A page before the component exists: it has a body and the component has
    registered nothing with the browser. *)
Definition pristine (w : World) : Prop :=
  0 < length (nodes w)
  ∧ timers w = [] ∧ rafPending w = [] ∧ ioObserved w = []
  ∧ moActive w = false ∧ docListening w = false
  ∧ ∀ n nd, nodes w !! n = Some nd → wired nd = 0.

(** A sample page: the body holds a container with a button, two cards (the
    second absolutely positioned by an inline style), a scroll-tagged
    paragraph, a main element and a dashboard section. *)
Definition el (t : string) (cs : list string) (p : node_id) : Node :=
  mkNode t cs no_style (Some p) 0.

Definition sample_rects (n : node_id) : Rect :=
  match n with
  | 2 => mkRect 10 20 80 30
  | 3 => mkRect 0 100 200 100
  | 4 => mkRect 300 100 200 100
  | 5 => mkRect 0 5000 400 50
  | _ => mkRect 0 0 1000 800
  end.

Definition sample_page (reduced : bool) : World :=
  {| this := fields_at 0 0 false;
     nodes := [mkNode "body" [] no_style None 0;
               el "div" [] 0;
               el "button" [] 1;
               el "div" ["card"] 0;
               mkNode "div" ["card"] (set_s_position (Some "absolute") no_style) (Some 0) 0;
               el "p" ["animate-on-scroll"] 0;
               el "div" ["main"] 0;
               el "section" ["dashboard-section"] 6];
     rects := sample_rects;
     innerWidth := 1000; innerHeight := 800; clientHeight := 800;
     reducedMotionPref := reduced;
     clock := 1000000; timers := []; rafPending := []; rafCounter := 0;
     ioObserved := []; moActive := false; docListening := false;
     random := fun i => (Z.of_nat (i mod 10) # 10); randomPos := 0 |}.

(** * Properties *)

(** ** Basic facts about the primitives *)

Lemma for_each_app {A : Type} (l1 l2 : list A) (f : A -> World -> World) (w : World) :
  for_each (l1 ++ l2) f w = for_each l2 f (for_each l1 f w).
Proof. unfold for_each. apply fold_left_app. Qed.

Lemma for_each_cons {A : Type} (x : A) (l : list A) (f : A -> World -> World) (w : World) :
  for_each (x :: l) f w = for_each l f (f x w).
Proof. reflexivity. Qed.

(** A property kept by every iteration is kept by the loop. *)
Lemma for_each_inv {A : Type} (P : World -> Prop) (l : list A) (f : A -> World -> World) :
  (forall x w, In x l -> P w -> P (f x w)) -> forall w, P w -> P (for_each l f w).
Proof.
  induction l as [|x l IH]; intros Hf w Hw; [exact Hw|].
  rewrite for_each_cons. apply IH.
  - intros y w' Hy. apply Hf. now right.
  - apply Hf; [now left | exact Hw].
Qed.

Lemma iter_inv (P : World -> Prop) (k : nat) (f : World -> World) :
  (forall w, P w -> P (f w)) -> forall w, P w -> P (Nat.iter k f w).
Proof. intros Hf w Hw. induction k; simpl; auto. Qed.

Lemma lookup_upd_node (n m : node_id) (f : Node -> Node) (w : World) :
  nodes (upd_node n f w) !! m
  = if decide (n = m) then f <$> nodes w !! n else nodes w !! m.
Proof. unfold upd_node; simpl. apply list_lookup_alter. Qed.

Lemma lookup_upd_node_eq (n : node_id) (f : Node -> Node) (w : World) :
  nodes (upd_node n f w) !! n = f <$> nodes w !! n.
Proof. rewrite lookup_upd_node. now destruct (decide (n = n)). Qed.

Lemma lookup_upd_node_ne (n m : node_id) (f : Node -> Node) (w : World) :
  n <> m -> nodes (upd_node n f w) !! m = nodes w !! m.
Proof. intros H. rewrite lookup_upd_node. now destruct (decide (n = m)). Qed.

Lemma length_upd_node (n : node_id) (f : Node -> Node) (w : World) :
  length (nodes (upd_node n f w)) = length (nodes w).
Proof. unfold upd_node; simpl. apply length_alter. Qed.

(** ** Pointer-move throttling (C7) *)

(** The pointer-move event [e] is handled when [Date.now()] reads [t]. *)
Definition mousemove_at (t : Z) (e : MouseEvent) (w : World) : World :=
  handleMouseMove e (with_clock t w).

(** Whether the event arriving at [t] passes the throttle. *)
Definition updates (t : Z) (w : World) : bool :=
  negb (t - lastMouseMoveTime (this w) <? mouseMoveThrottle (this w))%Z.

(** The arrival times, in order, of the events of a sequence that update the
    pointer state. *)
Fixpoint update_times (evs : list (Z * MouseEvent)) (w : World) : list Z :=
  match evs with
  | [] => []
  | (t, e) :: rest =>
      (if updates t w then [t] else []) ++ update_times rest (mousemove_at t e w)
  end.

(** The number of updates that fall in the window [[a, a + 8)]. *)
Definition updates_in_window (a : Z) (ts : list Z) : nat :=
  length (List.filter (fun t => (a <=? t)%Z && (t <? a + 8)%Z) ts).

(** [gapped lo ts]: each time of [ts] is at least 8 ms after the one before
    it, the first at least 8 ms after [lo]. *)
Fixpoint gapped (lo : Z) (ts : list Z) : Prop :=
  match ts with
  | [] => True
  | t :: rest => (lo + 8 <= t)%Z /\ gapped t rest
  end.

Lemma gapped_lower (lo : Z) (ts : list Z) :
  gapped lo ts -> forall t, In t ts -> (lo + 8 <= t)%Z.
Proof.
  revert lo. induction ts as [|x ts IH]; intros lo H t Ht; [destruct Ht|].
  destruct H as [H1 H2]. destruct Ht as [->|Ht]; [exact H1|].
  specialize (IH x H2 t Ht). lia.
Qed.

Lemma gapped_window (lo : Z) (ts : list Z) (a : Z) :
  gapped lo ts -> updates_in_window a ts <= 1.
Proof.
  unfold updates_in_window. revert lo.
  induction ts as [|x ts IH]; intros lo H; simpl; [lia|].
  destruct H as [H1 H2].
  destruct ((a <=? x)%Z && (x <? a + 8)%Z) eqn:Hx.
  - apply andb_prop in Hx as [Ha Hb].
    apply Z.leb_le in Ha. apply Z.ltb_lt in Hb.
    assert (Hnil : List.filter (fun t => (a <=? t)%Z && (t <? a + 8)%Z) ts = []).
    { clear IH. pose proof (gapped_lower x ts H2) as Hlow.
      induction ts as [|y ts IHts]; [reflexivity|]. simpl.
      assert (x + 8 <= y)%Z by (apply Hlow; now left).
      replace (y <? a + 8)%Z with false by (symmetry; apply Z.ltb_ge; lia).
      rewrite andb_false_r. apply IHts.
      - destruct H2 as [_ H2]. destruct ts as [|z ts']; [exact I|].
        destruct H2 as [Hz H2]. split; [lia | exact H2].
      - intros t Ht. apply Hlow. now right. }
    rewrite Hnil. simpl. lia.
  - eapply IH. exact H2.
Qed.

Lemma mousemove_at_throttle (t : Z) (e : MouseEvent) (w : World) :
  mouseMoveThrottle (this (mousemove_at t e w)) = mouseMoveThrottle (this w).
Proof.
  unfold mousemove_at, handleMouseMove. simpl.
  destruct (t - lastMouseMoveTime (this w) <? mouseMoveThrottle (this w))%Z; reflexivity.
Qed.

Lemma mousemove_at_last (t : Z) (e : MouseEvent) (w : World) :
  lastMouseMoveTime (this (mousemove_at t e w))
  = if updates t w then t else lastMouseMoveTime (this w).
Proof.
  unfold updates, mousemove_at, handleMouseMove. simpl.
  destruct (t - lastMouseMoveTime (this w) <? mouseMoveThrottle (this w))%Z; reflexivity.
Qed.

Lemma update_times_gapped (evs : list (Z * MouseEvent)) (w : World) :
  mouseMoveThrottle (this w) = 8%Z ->
  gapped (lastMouseMoveTime (this w)) (update_times evs w).
Proof.
  revert w. induction evs as [|[t e] evs IH]; intros w Hk; simpl; [exact I|].
  assert (Hk' : mouseMoveThrottle (this (mousemove_at t e w)) = 8%Z)
    by (rewrite mousemove_at_throttle; exact Hk).
  specialize (IH _ Hk'). rewrite mousemove_at_last in IH.
  destruct (updates t w) eqn:Hu; simpl.
  - split; [|exact IH].
    unfold updates in Hu. rewrite Hk in Hu.
    apply negb_true_iff, Z.ltb_ge in Hu. lia.
  - exact IH.
Qed.

(** The fields a pointer-move event may write. *)
Definition pointer_state (w : World) : Q * Q * Q * Q * (Q * Q) * Z :=
  (mouseX (this w), mouseY (this w), lastMouseX (this w), lastMouseY (this w),
   mouseVelocity (this w), lastMouseMoveTime (this w)).

(** C7.  A pointer-move event that arrives less than 8 ms after the last
    update leaves the raw position, the last position, the velocity and the
    time of the last update unchanged; an event that arrives 8 ms or more
    after it sets the raw and last position to the event's coordinates, the
    velocity to the difference with the previous last position and the time
    of the last update to its arrival time; and in a run of events no 8 ms
    window [[a, a + 8)] holds more than one update. *)
Theorem mousemove_throttled (w : World) (t : Z) (e : MouseEvent)
    (evs : list (Z * MouseEvent)) (a : Z) :
  mouseMoveThrottle (this w) = 8%Z ->
  ((t - lastMouseMoveTime (this w) < 8)%Z ->
     pointer_state (mousemove_at t e w) = pointer_state w)
  /\ ((8 <= t - lastMouseMoveTime (this w))%Z ->
     pointer_state (mousemove_at t e w)
     = (clientX e, clientY e, clientX e, clientY e,
        ((clientX e - lastMouseX (this w))%Q, (clientY e - lastMouseY (this w))%Q), t))
  /\ updates_in_window a (update_times evs w) <= 1.
Proof.
  intros Hk. split; [|split].
  - intros Hlt. unfold pointer_state, mousemove_at, handleMouseMove. simpl.
    rewrite Hk. replace (t - lastMouseMoveTime (this w) <? 8)%Z with true
      by (symmetry; apply Z.ltb_lt; lia).
    reflexivity.
  - intros Hge. unfold pointer_state, mousemove_at, handleMouseMove. simpl.
    rewrite Hk. replace (t - lastMouseMoveTime (this w) <? 8)%Z with false
      by (symmetry; apply Z.ltb_ge; lia).
    reflexivity.
  - eapply gapped_window. apply update_times_gapped. exact Hk.
Qed.

(** ** What no operation of the component does

    [Rn nd nd'] relates a node before and after some operations: the class
    [visible] is not taken away, an inline [position: relative] is not
    changed, and the node is not given a new parent (it may be detached).
    [Rel k b w w'] says so of every node below [b], that the store only
    grows, that the configuration fields keep their value, that no timer
    taking [visible] away is scheduled and, as far as the mode [k] asks, that
    the node-holding fields and the frame request are left alone. *)

Definition Rn (nd nd' : Node) : Prop :=
  (In "visible" (classList nd) -> In "visible" (classList nd'))
  /\ (s_position (style nd) = Some "relative" -> s_position (style nd') = Some "relative")
  /\ (parent nd' = parent nd \/ parent nd' = None).

(** How much an operation may change: a [quiet] one leaves the frame
    request and the node-holding fields alone, a [framing] one may reschedule
    the frame, a [building] one may fill the node-holding fields. *)
Record mode : Type := mkMode {
  keeps_frame : bool;
  keeps_fields : bool
}.

Definition quiet : mode := mkMode true true.
Definition framing : mode := mkMode false true.
Definition building : mode := mkMode true false.

(** Fields that are set by the constructor and never assigned again. *)
Definition config_fields (t : MotionEffects) : bool * Z * nat :=
  (prefersReducedMotion t, mouseMoveThrottle t, maxTrailLength t).

(** Fields that hold the nodes made by the builders. *)
Definition owned_fields (t : MotionEffects)
  : option node_id * option node_id * option node_id * list node_id :=
  (motionBackground t, cursor t, cursorDot t, cursorTrail t).

Definition frame_fields (w : World) : list nat * nat * option nat :=
  (rafPending w, rafCounter w, animationFrameId (this w)).

Definition benign (a : timer_action) : Prop :=
  match a with
  | TClassRemove _ c => c <> "visible"
  | _ => True
  end.

Definition good_timers (w : World) : Prop := Forall (fun ta => benign (snd ta)) (timers w).

Record Rel (k : mode) (b : nat) (w w' : World) : Prop := mkRel {
  rel_length : length (nodes w) <= length (nodes w');
  rel_nodes : forall i nd, i < b -> nodes w !! i = Some nd ->
              exists nd', nodes w' !! i = Some nd' /\ Rn nd nd';
  rel_config : config_fields (this w') = config_fields (this w);
  rel_owned : keeps_fields k = true -> owned_fields (this w') = owned_fields (this w);
  rel_timers : good_timers w -> good_timers w';
  rel_frame : keeps_frame k = true -> frame_fields w' = frame_fields w
}.

(** The conditions under which an operation is run. *)
Definition ok (b : nat) (w : World) : Prop := b <= length (nodes w) /\ good_timers w.

Lemma Rn_refl (nd : Node) : Rn nd nd.
Proof. unfold Rn; auto. Qed.

Lemma Rn_trans (a b c : Node) : Rn a b -> Rn b c -> Rn a c.
Proof.
  intros (H1 & H2 & H3) (H4 & H5 & H6). repeat split; auto.
  destruct H6 as [H6|H6]; [rewrite H6; exact H3 | now right].
Qed.

Lemma Rel_refl (k : mode) (b : nat) (w : World) : Rel k b w w.
Proof. split; auto. intros i nd _ H. exists nd. split; [exact H | apply Rn_refl]. Qed.

Lemma Rel_trans (k : mode) (b : nat) (w1 w2 w3 : World) :
  Rel k b w1 w2 -> Rel k b w2 w3 -> Rel k b w1 w3.
Proof.
  intros [L1 N1 C1 F1 T1 A1] [L2 N2 C2 F2 T2 A2]. split.
  - lia.
  - intros i nd Hi H. destruct (N1 i nd Hi H) as (nd2 & H2 & R2).
    destruct (N2 i nd2 Hi H2) as (nd3 & H3 & R3).
    exists nd3. split; [exact H3 | eapply Rn_trans; eauto].
  - congruence.
  - intros Hk. rewrite (F2 Hk). auto.
  - auto.
  - intros Hk. rewrite (A2 Hk). auto.
Qed.

Lemma Rel_weaken (k : mode) (b : nat) (w w' : World) : Rel quiet b w w' -> Rel k b w w'.
Proof. intros [L N C F T A]. split; auto. Qed.

Lemma Rel_relax (k k' : mode) (b b' : nat) (w w' : World) :
  (keeps_frame k' = true -> keeps_frame k = true) ->
  (keeps_fields k' = true -> keeps_fields k = true) ->
  b' <= b ->
  Rel k b w w' -> Rel k' b' w w'.
Proof.
  intros Hf Ho Hb [L N C F T A]. split; auto.
  intros i nd Hi. apply N. lia.
Qed.

Lemma Rel_ok (k : mode) (b : nat) (w w' : World) : ok b w -> Rel k b w w' -> ok b w'.
Proof. intros [Hb Ht] [L N C F T A]. split; [lia | auto]. Qed.

(** A change that leaves the node store alone. *)
Lemma Rel_same_nodes (k : mode) (b : nat) (w w' : World) :
  nodes w' = nodes w ->
  config_fields (this w') = config_fields (this w) ->
  (keeps_fields k = true -> owned_fields (this w') = owned_fields (this w)) ->
  (good_timers w -> good_timers w') ->
  (keeps_frame k = true -> frame_fields w' = frame_fields w) ->
  Rel k b w w'.
Proof.
  intros Hn Hc Hf Ht Ha. split; auto.
  - rewrite Hn. lia.
  - intros i nd _ H. exists nd. rewrite Hn. split; [exact H | apply Rn_refl].
Qed.

Lemma Rel_upd_node (k : mode) (b : nat) (n : node_id) (f : Node -> Node) (w : World) :
  (n < b -> forall nd, Rn nd (f nd)) -> Rel k b w (upd_node n f w).
Proof.
  intros Hf. split; try reflexivity; auto.
  - rewrite length_upd_node. lia.
  - intros i nd Hi H. rewrite lookup_upd_node.
    destruct (decide (n = i)) as [->|Hne].
    + rewrite H. simpl. exists (f nd). split; [reflexivity | now apply Hf].
    + exists nd. split; [exact H | apply Rn_refl].
Qed.

Lemma Rel_alloc (k : mode) (b : nat) (nd : Node) (w : World) :
  Rel k b w (with_nodes (nodes w ++ [nd]) w).
Proof.
  split; try reflexivity; auto.
  - simpl. rewrite length_app. lia.
  - intros i nd0 _ H. exists nd0. split; [|apply Rn_refl].
    simpl. rewrite lookup_app_l; [exact H|]. eapply lookup_lt_Some; eauto.
Qed.

Lemma Rel_upd_this (k : mode) (b : nat) (f : MotionEffects -> MotionEffects) (w : World) :
  config_fields (f (this w)) = config_fields (this w) ->
  (keeps_fields k = true -> owned_fields (f (this w)) = owned_fields (this w)) ->
  animationFrameId (f (this w)) = animationFrameId (this w) ->
  Rel k b w (upd_this f w).
Proof.
  intros Hc Hf Ha. apply Rel_same_nodes; auto.
  intros _. unfold frame_fields. simpl. now rewrite Ha.
Qed.

Lemma Forall_enqueue (P : Z * timer_action -> Prop) (t : Z) (a : timer_action)
    (q : list (Z * timer_action)) :
  P (t, a) -> Forall P q -> Forall P (enqueue t a q).
Proof.
  intros Ha. induction 1 as [|[t' a'] q Hx Hq IH]; simpl.
  - repeat constructor; exact Ha.
  - destruct (t' <=? t)%Z; repeat constructor; auto.
Qed.

Lemma Rel_setTimeout (k : mode) (b : nat) (a : timer_action) (d : Z) (w : World) :
  benign a -> Rel k b w (setTimeout a d w).
Proof.
  intros Ha. apply Rel_same_nodes; auto.
  intros Ht. unfold good_timers, setTimeout; simpl. now apply Forall_enqueue.
Qed.

(** The node functions of the component and what they keep. *)
Lemma In_token_add (c x : string) (l : list string) : In x l -> In x (token_add c l).
Proof.
  unfold token_add. destruct (bool_decide (c ∈ l)); [auto|].
  intros H. apply in_or_app. now left.
Qed.

Lemma In_token_add_self (c : string) (l : list string) : In c (token_add c l).
Proof.
  unfold token_add. destruct (bool_decide (c ∈ l)) eqn:H.
  - apply bool_decide_eq_true in H. now apply list_elem_of_In.
  - apply in_or_app. right. now left.
Qed.

Lemma In_token_remove (c x : string) (l : list string) :
  x <> c -> In x l -> In x (token_remove c l).
Proof.
  intros Hne H. unfold token_remove. apply filter_In. split; [exact H|].
  apply negb_true_iff. now apply String.eqb_neq.
Qed.

Lemma Rn_class_add (c : string) (nd : Node) :
  Rn nd (set_classList (token_add c (classList nd)) nd).
Proof. unfold Rn; simpl. repeat split; auto. apply In_token_add. Qed.

Lemma Rn_class_remove (c : string) (nd : Node) :
  c <> "visible" -> Rn nd (set_classList (token_remove c (classList nd)) nd).
Proof.
  intros Hc. unfold Rn; simpl. repeat split; auto.
  apply In_token_remove. congruence.
Qed.

Lemma Rn_detach (nd : Node) : Rn nd (set_parent None nd).
Proof. unfold Rn; simpl. auto. Qed.

Lemma Rn_wired (k : nat) (nd : Node) : Rn nd (set_wired k nd).
Proof. unfold Rn; simpl. auto. Qed.

Lemma Rn_style (f : Style -> Style) (nd : Node) :
  (s_position (style nd) = Some "relative" -> s_position (f (style nd)) = Some "relative") ->
  Rn nd (set_style (f (style nd)) nd).
Proof. intros H. unfold Rn; simpl. auto. Qed.

Lemma Rel_classList_add (k : mode) (b : nat) (n : node_id) (c : string) (w : World) :
  Rel k b w (classList_add n c w).
Proof. apply Rel_upd_node. intros _ nd. apply Rn_class_add. Qed.

Lemma Rel_classList_remove (k : mode) (b : nat) (n : node_id) (c : string) (w : World) :
  c <> "visible" -> Rel k b w (classList_remove n c w).
Proof. intros Hc. apply Rel_upd_node. intros _ nd. now apply Rn_class_remove. Qed.

Lemma Rel_remove (k : mode) (b : nat) (n : node_id) (w : World) : Rel k b w (remove n w).
Proof. apply Rel_upd_node. intros _ nd. apply Rn_detach. Qed.

Lemma Rel_addInteractiveListeners (k : mode) (b : nat) (n : node_id) (w : World) :
  Rel k b w (addInteractiveListeners n w).
Proof. apply Rel_upd_node. intros _ nd. apply Rn_wired. Qed.

Lemma Rel_upd_style (k : mode) (b : nat) (n : node_id) (f : Style -> Style) (w : World) :
  (n < b -> forall s, s_position s = Some "relative" -> s_position (f s) = Some "relative") ->
  Rel k b w (upd_style n f w).
Proof. intros H. apply Rel_upd_node. intros Hn nd. apply Rn_style. now apply H. Qed.

(** Loops: every iteration is run under [ok] and relates its own start to
    its end. *)
Lemma Rel_for_each {A : Type} (k : mode) (b : nat) (l : list A) (f : A -> World -> World)
    (w : World) :
  ok b w ->
  (forall x w', In x l -> ok b w' -> Rel k b w' (f x w')) ->
  Rel k b w (for_each l f w).
Proof.
  intros Hok Hf.
  apply (for_each_inv (fun w' => Rel k b w w') l f); [|apply Rel_refl].
  intros x w' Hx Hw'. eapply Rel_trans; [exact Hw'|].
  apply Hf; [exact Hx | eapply Rel_ok; eauto].
Qed.

Lemma Rel_iter (k : mode) (b : nat) (n : nat) (f : World -> World) (w : World) :
  ok b w ->
  (forall w', ok b w' -> Rel k b w' (f w')) ->
  Rel k b w (Nat.iter n f w).
Proof.
  intros Hok Hf.
  apply (iter_inv (fun w' => Rel k b w w') n f); [|apply Rel_refl].
  intros w' Hw'. eapply Rel_trans; [exact Hw'|].
  apply Hf. eapply Rel_ok; eauto.
Qed.

(** Sequencing. *)
Lemma Rel_then (k : mode) (b : nat) (w w' : World) (g : World -> World) :
  ok b w -> Rel k b w w' -> (ok b w' -> Rel k b w' (g w')) -> Rel k b w (g w').
Proof.
  intros Hok H1 H2. eapply Rel_trans; [exact H1|]. apply H2. eapply Rel_ok; eauto.
Qed.

Create HintDb rel.

(** [rel_prim] closes a goal about one primitive; [rel] walks through a
    sequence of them, a conditional or a loop. *)
Ltac rel_prim :=
  idtac;
  lazymatch goal with
  | |- Rel _ _ ?w ?w => apply Rel_refl
  | |- Rel _ _ _ (classList_add _ _ _) => apply Rel_classList_add
  | |- Rel _ _ _ (classList_remove _ _ _) => apply Rel_classList_remove; discriminate
  | |- Rel _ _ _ (remove _ _) => apply Rel_remove
  | |- Rel _ _ _ (addInteractiveListeners _ _) => apply Rel_addInteractiveListeners
  | |- Rel _ _ _ (setTimeout _ _ _) =>
      apply Rel_setTimeout; simpl; first [exact I | discriminate]
  | |- Rel _ _ _ (upd_style _ _ _) => apply Rel_upd_style; intros _ s Hs; exact Hs
  | |- Rel _ _ _ (upd_this _ _) =>
      apply Rel_upd_this; first [reflexivity | intros _; reflexivity | discriminate]
  | |- Rel _ _ _ (with_nodes (nodes _ ++ [_]) _) => apply Rel_alloc
  | |- Rel _ _ _ (with_moActive _ _) => apply Rel_same_nodes; auto
  | |- Rel _ _ _ (with_docListening _ _) => apply Rel_same_nodes; auto
  | |- Rel _ _ _ (with_ioObserved _ _) => apply Rel_same_nodes; auto
  | |- Rel _ _ _ (with_rects _ _) => apply Rel_same_nodes; auto
  | |- Rel _ _ _ (with_innerWidth _ _) => apply Rel_same_nodes; auto
  | |- Rel _ _ _ (with_innerHeight _ _) => apply Rel_same_nodes; auto
  | |- Rel _ _ _ (with_clock _ _) => apply Rel_same_nodes; auto
  | |- Rel _ _ _ (with_randomPos _ _) => apply Rel_same_nodes; auto
  | |- Rel framing _ _ (cancelAnimationFrame _ _) =>
      apply Rel_same_nodes; auto; discriminate
  | _ => solve [auto with rel]
  end.

(** [chain tac] splits a sequence of steps and runs [tac] on each. *)
Ltac chain tac :=
  lazymatch goal with
  | |- Rel _ _ ?w ?w => apply Rel_refl
  | |- Rel _ _ ?w (?g ?w) => tac
  | |- Rel _ _ ?w (?g ?w') =>
      apply (Rel_then _ _ w w' g);
      [assumption | chain tac | generalize w'; intros ? ?; tac]
  end.

Ltac rel_with tac :=
  cbv beta iota;
  lazymatch goal with
  | |- Rel _ _ ?w ?w => apply Rel_refl
  | |- Rel ?k ?b ?w (let x := ?v in @?body x) =>
      lazymatch type of v with
      | World =>
          apply (Rel_then k b w v body);
          [assumption | rel_with tac | generalize v; intros ? ?; rel_with tac]
      | _ => change (Rel k b w (body v)); rel_with tac
      end
  | |- Rel _ _ _ (if ?c then _ else _) => destruct c; rel_with tac
  | |- Rel _ _ _ (match (if ?c then _ else _) with _ => _ end) => destruct c; rel_with tac
  | |- Rel _ _ _ (match ?x with _ => _ end) => destruct x; rel_with tac
  | |- Rel _ _ _ (match ?x with _ => _ end _) => destruct x; rel_with tac
  | |- Rel _ _ ?w (for_each _ _ ?w) =>
      apply Rel_for_each; [assumption | intros; rel_with tac]
  | |- Rel _ _ ?w (Nat.iter _ _ ?w) =>
      apply Rel_iter; [assumption | intros; rel_with tac]
  | |- Rel _ _ ?w (?g ?w) => tac
  | |- Rel _ _ ?w (?g ?w') =>
      apply (Rel_then _ _ w w' g);
      [assumption | rel_with tac | generalize w'; intros ? ?; rel_with tac]
  end.

Ltac rel := rel_with rel_prim.

(** With bound [0] nothing is asked of the nodes. *)
Ltac rel0_prim :=
  idtac;
  first
    [ rel_prim
    | unfold set_className, set_cssText, upd_style, appendChild;
      apply Rel_upd_node; intros; lia ].

Ltac rel0 := rel_with rel0_prim.

Lemma Rel_handleMouseMove (k : mode) (b : nat) (e : MouseEvent) (w : World) :
  ok b w -> Rel k b w (handleMouseMove e w).
Proof. intros Hok. unfold handleMouseMove. rel. Qed.

Lemma Rel_handleCardHover (k : mode) (b : nat) (e : MouseEvent) (w : World) :
  ok b w -> Rel k b w (handleCardHover e w).
Proof. intros Hok. unfold handleCardHover, card_hover. rel. Qed.

Lemma Rel_checkElementsInViewport (k : mode) (b : nat) (w : World) :
  ok b w -> Rel k b w (checkElementsInViewport w).
Proof. intros Hok. unfold checkElementsInViewport. rel. Qed.

#[local] Hint Extern 1 (Rel _ _ _ (handleMouseMove _ _)) => apply Rel_handleMouseMove : rel.
#[local] Hint Extern 1 (Rel _ _ _ (handleCardHover _ _)) => apply Rel_handleCardHover : rel.
#[local] Hint Extern 1 (Rel _ _ _ (checkElementsInViewport _)) => apply Rel_checkElementsInViewport : rel.

Lemma Rel_handleResize (k : mode) (b : nat) (w : World) :
  ok b w -> Rel k b w (handleResize w).
Proof. intros Hok. unfold handleResize. rel. Qed.

Lemma Rel_handleThemeChange (k : mode) (b : nat) (w : World) :
  ok b w -> Rel k b w (handleThemeChange w).
Proof. intros Hok. unfold handleThemeChange. rel. Qed.

Lemma Rel_io_callback (k : mode) (b : nat) (entries : list (node_id * bool)) (w : World) :
  ok b w -> Rel k b w (io_callback entries w).
Proof. intros Hok. unfold io_callback, io_entry. rel. Qed.

Lemma Rel_mutation_callback (k : mode) (b : nat) (added : list node_id) (w : World) :
  ok b w -> Rel k b w (mutation_callback added w).
Proof.
  revert w. induction added as [|node rest IH]; intros w Hok; simpl; [apply Rel_refl|].
  destruct (matches sel_interactive w node); [apply Rel_refl|].
  eapply Rel_then; [exact Hok | rel | apply IH].
Qed.

Lemma Rel_createRippleEffect (k : mode) (b : nat) (el : node_id) (e : MouseEvent)
    (w : World) :
  ok b w -> Rel k b w (createRippleEffect el e w).
Proof.
  intros Hok. pose proof Hok as [Hb _].
  unfold createRippleEffect, createElement, set_cssText, appendChild.
  destruct (prefersReducedMotion (this w)); [apply Rel_refl|].
  cbv beta iota zeta.
  chain ltac:(first
    [ apply Rel_alloc
    | apply Rel_setTimeout; exact I
    | apply Rel_upd_style; intros Hlt; first [exfalso; lia | intros s Hs; reflexivity]
    | apply Rel_upd_node; intros Hlt; exfalso; lia ]).
Qed.

Lemma Rel_updateCursorTrail (k : mode) (b : nat) (x y : Q) (w : World) :
  ok b w -> Rel k b w (updateCursorTrail x y w).
Proof. intros Hok. unfold updateCursorTrail, trail_step. rel. Qed.

#[local] Hint Extern 1 (Rel _ _ _ (updateCursorTrail _ _ _)) => apply Rel_updateCursorTrail : rel.
#[local] Hint Extern 1 (Rel _ _ _ (createRippleEffect _ _ _)) => apply Rel_createRippleEffect : rel.

Lemma Rel_updateCursor (k : mode) (b : nat) (w : World) :
  ok b w -> Rel k b w (updateCursor w).
Proof. intros Hok. unfold updateCursor. rel. Qed.

Lemma Rel_updateMotionBackground (k : mode) (b : nat) (w : World) :
  ok b w -> Rel k b w (updateMotionBackground w).
Proof. intros Hok. unfold updateMotionBackground. rel. Qed.

#[local] Hint Extern 1 (Rel _ _ _ (updateCursor _)) => apply Rel_updateCursor : rel.
#[local] Hint Extern 1 (Rel _ _ _ (updateMotionBackground _)) => apply Rel_updateMotionBackground : rel.

(** Requesting a frame touches only the scheduler and the stored handle. *)
Lemma Rel_request (b : nat) (w : World) :
  Rel framing b w
    (upd_this (set_animationFrameId (Some (fst (requestAnimationFrame w))))
       (snd (requestAnimationFrame w))).
Proof. apply Rel_same_nodes; auto. discriminate. Qed.

Lemma Rel_animate (b : nat) (w : World) : ok b w -> Rel framing b w (animate w).
Proof.
  intros Hok. unfold animate. cbv zeta.
  set (w2 := updateMotionBackground (updateCursor w)).
  assert (H2 : Rel framing b w w2) by (subst w2; rel).
  eapply Rel_trans; [exact H2|].
  destruct (requestAnimationFrame w2) as [id w3] eqn:E.
  pose proof (Rel_request b w2) as H3. rewrite E in H3. exact H3.
Qed.

Lemma Rel_run_frame (b : nat) (w : World) : ok b w -> Rel framing b w (run_frame w).
Proof.
  intros Hok. unfold run_frame.
  eapply Rel_then; [exact Hok | |].
  - apply Rel_same_nodes; auto. discriminate.
  - intros Hok'. apply Rel_for_each; [exact Hok'|].
    intros _ w' _ Hw'. now apply Rel_animate.
Qed.

Lemma due_prefix_incl (now : Z) (q : list (Z * timer_action)) (ta : Z * timer_action) :
  In ta (due_prefix now q) -> In ta q.
Proof.
  induction q as [|[t a] q IH]; simpl; [auto|].
  destruct (t <=? now)%Z; simpl; [|tauto]. intros [H|H]; auto.
Qed.

Lemma due_rest_incl (now : Z) (q : list (Z * timer_action)) (ta : Z * timer_action) :
  In ta (due_rest now q) -> In ta q.
Proof.
  induction q as [|[t a] q IH]; simpl; [auto|].
  destruct (t <=? now)%Z; simpl; [|tauto]. intros H; auto.
Qed.

Lemma Rel_fire (k : mode) (b : nat) (a : timer_action) (w : World) :
  benign a -> Rel k b w (fire a w).
Proof.
  intros Ha. destruct a as [n|n c|n c]; simpl.
  - apply Rel_remove.
  - apply Rel_classList_add.
  - now apply Rel_classList_remove.
Qed.

Lemma Rel_advance (k : mode) (b : nat) (d : Z) (w : World) :
  ok b w -> Rel k b w (advance d w).
Proof.
  intros Hok. pose proof Hok as [_ Ht]. unfold advance. cbv zeta.
  eapply Rel_then; [exact Hok | |].
  - apply Rel_same_nodes; auto.
    intros _. unfold good_timers in *. simpl. rewrite List.Forall_forall in *.
    intros ta Hta. apply Ht. eapply due_rest_incl; eauto.
  - intros Hok'. apply Rel_for_each; [exact Hok'|].
    intros ta w' Hta _. apply Rel_fire.
    unfold good_timers in Ht. rewrite List.Forall_forall in Ht.
    apply Ht. eapply due_prefix_incl; eauto.
Qed.

Lemma Rel_cursor_classes_add (k : mode) (b : nat) (c : string) (w : World) :
  ok b w -> Rel k b w (cursor_classes classList_add c w).
Proof. intros Hok. unfold cursor_classes. rel. Qed.

Lemma Rel_cursor_classes_remove (k : mode) (b : nat) (c : string) (w : World) :
  c <> "visible" -> ok b w -> Rel k b w (cursor_classes classList_remove c w).
Proof.
  intros Hc Hok. unfold cursor_classes.
  destruct (cursor (this w)) as [cur|]; [|apply Rel_refl]. cbv zeta.
  destruct (cursorDot (this (classList_remove cur c w))) as [dot|].
  - eapply Rel_trans; now apply Rel_classList_remove.
  - now apply Rel_classList_remove.
Qed.

Lemma Rel_on_mouseenter (k : mode) (b : nat) (el : node_id) (w : World) :
  ok b w -> Rel k b w (on_mouseenter el w).
Proof.
  intros Hok. unfold on_mouseenter.
  eapply Rel_then; [exact Hok | rel | apply Rel_cursor_classes_add].
Qed.

Lemma Rel_on_mousedown (k : mode) (b : nat) (el : node_id) (w : World) :
  ok b w -> Rel k b w (on_mousedown el w).
Proof.
  intros Hok. unfold on_mousedown.
  eapply Rel_then; [exact Hok | rel | apply Rel_cursor_classes_add].
Qed.

Lemma Rel_on_mouseleave (k : mode) (b : nat) (el : node_id) (w : World) :
  ok b w -> Rel k b w (on_mouseleave el w).
Proof.
  intros Hok. unfold on_mouseleave.
  eapply Rel_then; [exact Hok | rel | apply Rel_cursor_classes_remove; discriminate].
Qed.

Lemma Rel_on_mouseup (k : mode) (b : nat) (el : node_id) (w : World) :
  ok b w -> Rel k b w (on_mouseup el w).
Proof.
  intros Hok. unfold on_mouseup.
  eapply Rel_then; [exact Hok | rel | apply Rel_cursor_classes_remove; discriminate].
Qed.

Lemma Rel_dispatch (k : mode) (b : nat) (handler : node_id -> World -> World)
    (path : list node_id) (w : World) :
  (forall n w', ok b w' -> Rel k b w' (handler n w')) ->
  ok b w -> Rel k b w (dispatch handler path w).
Proof.
  intros Hh Hok. unfold dispatch. apply Rel_for_each; [exact Hok|].
  intros n w' _ Hok'. apply Rel_iter; [exact Hok'|]. intros. now apply Hh.
Qed.

Lemma Rel_at_document (k : mode) (b : nat) (target : node_id) (f : World -> World)
    (w : World) :
  Rel k b w (f w) -> Rel k b w (at_document target f w).
Proof.
  intros H. unfold at_document.
  destruct (docListening w && in_document w target); [exact H | apply Rel_refl].
Qed.

Lemma Rel_addShimmerLoading (k : mode) (b : nat) (el : node_id) (w : World) :
  ok b w -> Rel k b w (addShimmerLoading el w).
Proof. intros Hok. unfold addShimmerLoading. rel. Qed.

Lemma Rel_triggerPageTransition (k : mode) (b : nat) (w : World) :
  ok b w -> Rel k b w (triggerPageTransition w).
Proof. intros Hok. unfold triggerPageTransition. rel. Qed.

Lemma Rel_destroy (b : nat) (w : World) : ok b w -> Rel framing b w (destroy w).
Proof. intros Hok. unfold destroy. rel. Qed.

(** Every operation relates the world before it to the world after it. *)
Definition reschedules (o : op) : bool :=
  match o with
  | OpFrame | OpDestroy => true
  | _ => false
  end.

Lemma Rel_step_mode (k : mode) (b : nat) (o : op) (w : World) :
  (keeps_frame k = true -> reschedules o = false) ->
  ok b w -> Rel k b w (step o w).
Proof.
  intros Hk Hok.
  assert (Hloose : reschedules o = true -> forall w',
            Rel framing b w w' -> Rel k b w w').
  { intros Ho w'. apply Rel_relax; [|auto|lia].
    intros Hf. rewrite (Hk Hf) in Ho. discriminate. }
  destruct o; cbn [step].
  - apply Hloose; [reflexivity|]. now apply Rel_run_frame.
  - now apply Rel_advance.
  - destruct (docListening w); [|apply Rel_refl].
    eapply Rel_then; [exact Hok | now apply Rel_handleMouseMove
                     | apply Rel_handleCardHover].
  - rel.
  - rel.
  - apply Rel_dispatch; [apply Rel_on_mouseenter | exact Hok].
  - apply Rel_dispatch; [apply Rel_on_mouseleave | exact Hok].
  - eapply Rel_then; [exact Hok | apply Rel_dispatch; [apply Rel_on_mousedown | exact Hok] |].
    intros Hok'. apply Rel_at_document. rel.
  - eapply Rel_then; [exact Hok | apply Rel_dispatch; [apply Rel_on_mouseup | exact Hok] |].
    intros Hok'. apply Rel_at_document. rel.
  - apply Rel_dispatch; [|exact Hok]. intros n w' Hw'. now apply Rel_createRippleEffect.
  - set (w1 := with_innerHeight height (with_innerWidth width w)).
    assert (H1 : Rel k b w w1) by (apply Rel_same_nodes; auto).
    destruct (docListening w1); [|exact H1].
    eapply Rel_then; [exact Hok | exact H1 | apply Rel_handleResize].
  - apply Rel_same_nodes; auto.
  - destruct (docListening w); [now apply Rel_handleThemeChange | apply Rel_refl].
  - now apply Rel_io_callback.
  - destruct (moActive w); [now apply Rel_mutation_callback | apply Rel_refl].
  - now apply Rel_addShimmerLoading.
  - now apply Rel_triggerPageTransition.
  - apply Hloose; [reflexivity|]. now apply Rel_destroy.
Qed.

Lemma Rel_step (b : nat) (o : op) (w : World) : ok b w -> Rel framing b w (step o w).
Proof. apply Rel_step_mode. discriminate. Qed.


Lemma Rel_run (b : nat) (ops : list op) (w : World) : ok b w -> Rel framing b w (run ops w).
Proof.
  intros Hok. unfold run. apply Rel_for_each; [exact Hok|].
  intros o w' _ Hw'. now apply Rel_step.
Qed.

(** ** What the constructor does *)

Lemma ok_0 (w : World) : good_timers w -> ok 0 w.
Proof. intros H. split; [lia | exact H]. Qed.

Lemma Rel_create_layer (mb i : nat) (k : mode) (w : World) :
  ok 0 w -> Rel k 0 w (create_layer mb i w).
Proof. intros Hok. unfold create_layer, createElement. rel0. Qed.

Lemma Rel_create_particle (c i : nat) (k : mode) (w : World) :
  ok 0 w -> Rel k 0 w (create_particle c i w).
Proof. intros Hok. unfold create_particle, createElement, Math_random. rel0. Qed.

Lemma Rel_create_shape (c i : nat) (k : mode) (w : World) :
  ok 0 w -> Rel k 0 w (create_shape c i w).
Proof. intros Hok. unfold create_shape, createElement, Math_random. rel0. Qed.

Lemma Rel_create_trail_dot (i : nat) (w : World) :
  ok 0 w -> Rel building 0 w (create_trail_dot i w).
Proof. intros Hok. unfold create_trail_dot, createElement. rel0. Qed.

#[local] Hint Extern 1 (Rel _ _ _ (create_layer _ _ _)) => apply Rel_create_layer : rel.
#[local] Hint Extern 1 (Rel _ _ _ (create_particle _ _ _)) => apply Rel_create_particle : rel.
#[local] Hint Extern 1 (Rel _ _ _ (create_shape _ _ _)) => apply Rel_create_shape : rel.
#[local] Hint Extern 1 (Rel _ _ _ (create_trail_dot _ _)) => apply Rel_create_trail_dot : rel.

Lemma Rel_createMotionBackground (w : World) :
  ok 0 w -> Rel building 0 w (createMotionBackground w).
Proof. intros Hok. unfold createMotionBackground, createElement. rel0. Qed.

Lemma Rel_setupInteractiveElements (k : mode) (b : nat) (w : World) :
  ok b w -> Rel k b w (setupInteractiveElements w).
Proof. intros Hok. unfold setupInteractiveElements, observeNewElements. rel. Qed.

#[local] Hint Extern 1 (Rel _ _ _ (setupInteractiveElements _)) => apply Rel_setupInteractiveElements : rel.

Lemma Rel_createCustomCursor (w : World) :
  ok 0 w -> Rel building 0 w (createCustomCursor w).
Proof. intros Hok. unfold createCustomCursor, createElement. rel0. Qed.

Lemma Rel_setupScrollAnimations (k : mode) (b : nat) (w : World) :
  ok b w -> Rel k b w (setupScrollAnimations w).
Proof. intros Hok. unfold setupScrollAnimations, io_observe. rel. Qed.

Lemma Rel_setupEventListeners (k : mode) (b : nat) (w : World) :
  ok b w -> Rel k b w (setupEventListeners w).
Proof. intros Hok. unfold setupEventListeners. rel. Qed.

Lemma Rel_animatePageTransition (k : mode) (b : nat) (w : World) :
  ok b w -> Rel k b w (animatePageTransition w).
Proof. intros Hok. unfold animatePageTransition. rel. Qed.

(** *** How many nodes the builders make *)

Lemma len_alloc (nd : Node) (w : World) :
  length (nodes (with_nodes (nodes w ++ [nd]) w)) = S (length (nodes w)).
Proof. simpl. rewrite length_app. simpl. lia. Qed.

Lemma len_upd_this (f : MotionEffects -> MotionEffects) (w : World) :
  length (nodes (upd_this f w)) = length (nodes w).
Proof. reflexivity. Qed.

Lemma len_with_randomPos (n : nat) (w : World) :
  length (nodes (with_randomPos n w)) = length (nodes w).
Proof. reflexivity. Qed.

Lemma len_with_moActive (v : bool) (w : World) :
  length (nodes (with_moActive v w)) = length (nodes w).
Proof. reflexivity. Qed.

Lemma len_for_each {A : Type} (l : list A) (f : A -> World -> World) (k : nat) :
  (forall x w, length (nodes (f x w)) = k + length (nodes w)) ->
  forall w, length (nodes (for_each l f w)) = length l * k + length (nodes w).
Proof.
  intros Hf. induction l as [|x l IH]; intros w; [reflexivity|].
  rewrite for_each_cons, IH, Hf. simpl. lia.
Qed.

(** [lens] computes the size of the store after a sequence of primitives. *)
Ltac lens :=
  repeat first
    [ rewrite length_upd_node | rewrite len_alloc | rewrite len_upd_this
    | rewrite len_with_randomPos | rewrite len_with_moActive ].

Lemma len_create_layer (mb i : nat) (w : World) :
  length (nodes (create_layer mb i w)) = 1 + length (nodes w).
Proof.
  unfold create_layer, createElement, set_className, set_cssText, appendChild.
  cbv beta iota zeta. lens; reflexivity.
Qed.

Lemma len_create_particle (c i : nat) (w : World) :
  length (nodes (create_particle c i w)) = 1 + length (nodes w).
Proof.
  unfold create_particle, createElement, Math_random, set_className, set_cssText,
    appendChild.
  cbv beta iota zeta. lens; reflexivity.
Qed.

Lemma len_create_shape (c i : nat) (w : World) :
  length (nodes (create_shape c i w)) = 1 + length (nodes w).
Proof.
  unfold create_shape, createElement, Math_random, set_className, set_cssText,
    appendChild.
  cbv beta iota zeta.
  repeat match goal with
  | |- context [if ?c then _ else _] => destruct c
  end; cbv beta iota zeta; lens; reflexivity.
Qed.

Lemma len_create_trail_dot (i : nat) (w : World) :
  length (nodes (create_trail_dot i w)) = 1 + length (nodes w).
Proof.
  unfold create_trail_dot, createElement, set_className, set_cssText, appendChild.
  cbv beta iota zeta. lens; reflexivity.
Qed.

Lemma len_setupInteractiveElements (w : World) :
  length (nodes (setupInteractiveElements w)) = length (nodes w).
Proof.
  unfold setupInteractiveElements, observeNewElements. cbv zeta.
  rewrite len_with_moActive.
  rewrite (len_for_each _ addInteractiveListeners 0); [lia|].
  intros x w'. apply length_upd_node.
Qed.

Lemma len_createMotionBackground (w : World) :
  prefersReducedMotion (this w) = false ->
  length (nodes (createMotionBackground w)) = 53 + length (nodes w).
Proof.
  intros Hm. unfold createMotionBackground. rewrite Hm.
  unfold createElement, set_className, set_cssText, appendChild.
  cbv beta iota zeta.
  rewrite (len_for_each _ _ 1) by (intros; apply len_create_shape).
  lens.
  rewrite (len_for_each _ _ 1) by (intros; apply len_create_particle).
  lens.
  rewrite (len_for_each _ _ 1) by (intros; apply len_create_layer).
  lens. simpl. lia.
Qed.

(** *** The tree the background builder makes

    [closed a c ns]: every node strictly between [a] and [c] is detached or
    hangs under a node of [[a, c)]. *)
Definition closed (a c : nat) (ns : list Node) : Prop :=
  forall n nd, a < n -> n < c -> ns !! n = Some nd ->
    parent nd = None \/ exists p, parent nd = Some p /\ a <= p /\ p < c.

(** While the builder runs, the bound is the current size of the store. *)
Definition tidy (a : nat) (w : World) : Prop := closed a (length (nodes w)) (nodes w).

Lemma tidy_same (a : nat) (w w' : World) : nodes w' = nodes w -> tidy a w -> tidy a w'.
Proof. unfold tidy. intros ->. auto. Qed.

Lemma tidy_alloc (a : nat) (nd : Node) (w : World) :
  parent nd = None -> tidy a w -> tidy a (with_nodes (nodes w ++ [nd]) w).
Proof.
  unfold tidy. intros Hp H n nd' Ha Hn Hl. rewrite len_alloc in *. simpl in Hl.
  destruct (decide (n < length (nodes w))) as [Hlt|Hge].
  - rewrite lookup_app_l in Hl by exact Hlt.
    destruct (H n nd' Ha Hlt Hl) as [H0|(p & H1 & H2 & H3)]; [now left|].
    right. exists p. repeat split; auto.
  - assert (n = length (nodes w)) as -> by lia.
    rewrite list_lookup_middle in Hl by reflexivity.
    injection Hl as <-. now left.
Qed.

Lemma tidy_upd (a n : nat) (f : Node -> Node) (w : World) :
  (forall nd, parent (f nd) = parent nd) -> tidy a w -> tidy a (upd_node n f w).
Proof.
  unfold tidy. intros Hf H m nd' Ha Hm Hl. rewrite length_upd_node in *.
  rewrite lookup_upd_node in Hl. destruct (decide (n = m)) as [->|Hne].
  - destruct (nodes w !! m) as [nd|] eqn:E; [|discriminate]. simpl in Hl.
    injection Hl as <-. rewrite Hf. eapply H; eauto.
  - eapply H; eauto.
Qed.

Lemma tidy_appendChild (a p c : nat) (w : World) :
  (a < c -> a <= p /\ p < length (nodes w)) -> tidy a w -> tidy a (appendChild p c w).
Proof.
  unfold tidy, appendChild. intros Hpc H m nd' Ha Hm Hl. rewrite length_upd_node in *.
  rewrite lookup_upd_node in Hl. destruct (decide (c = m)) as [->|Hne].
  - destruct (nodes w !! m) as [nd|] eqn:E; [|discriminate]. simpl in Hl.
    injection Hl as <-. simpl. right. exists p. split; [reflexivity | now apply Hpc].
  - eapply H; eauto.
Qed.

Lemma tidy_upd_this (a : nat) (f : MotionEffects -> MotionEffects) (w : World) :
  tidy a w -> tidy a (upd_this f w).
Proof. apply tidy_same. reflexivity. Qed.

Lemma tidy_with_randomPos (a n : nat) (w : World) :
  tidy a w -> tidy a (with_randomPos n w).
Proof. apply tidy_same. reflexivity. Qed.

(** [tidy_chain] follows a sequence of primitives; what remains are the
    conditions on the arguments of [appendChild]. *)
Ltac tidy_chain :=
  repeat lazymatch goal with
  | |- tidy _ (appendChild _ _ _) => apply tidy_appendChild
  | |- tidy _ (upd_node _ _ _) => apply tidy_upd; [intros; reflexivity|]
  | |- tidy _ (with_nodes (nodes _ ++ [_]) _) => apply tidy_alloc; [reflexivity|]
  | |- tidy _ (upd_this _ _) => apply tidy_upd_this
  | |- tidy _ (with_randomPos _ _) => apply tidy_with_randomPos
  end.

Lemma tidy_create_layer (a mb i : nat) (w : World) :
  a <= mb -> mb < length (nodes w) -> tidy a w -> tidy a (create_layer mb i w).
Proof.
  intros H1 H2 H. unfold create_layer, createElement, set_className, set_cssText.
  cbv beta iota zeta. tidy_chain; [|exact H].
  intros _. lens. lia.
Qed.

Lemma tidy_create_particle (a c i : nat) (w : World) :
  a <= c -> c < length (nodes w) -> tidy a w -> tidy a (create_particle c i w).
Proof.
  intros H1 H2 H.
  unfold create_particle, createElement, Math_random, set_className, set_cssText.
  cbv beta iota zeta. tidy_chain; [|exact H].
  intros _. lens. lia.
Qed.

Lemma tidy_create_shape (a c i : nat) (w : World) :
  a <= c -> c < length (nodes w) -> tidy a w -> tidy a (create_shape c i w).
Proof.
  intros H1 H2 H.
  unfold create_shape, createElement, Math_random, set_className, set_cssText.
  cbv beta iota zeta.
  repeat match goal with
  | |- context [if ?c then _ else _] => destruct c
  end; cbv beta iota zeta; (tidy_chain; [|exact H]);
  intros _; lens; lia.
Qed.

Lemma tidy_for_each (a c : nat) (l : list nat) (f : nat -> nat -> World -> World) :
  (forall i w, length (nodes (f c i w)) = 1 + length (nodes w)) ->
  (forall i w, a <= c -> c < length (nodes w) -> tidy a w -> tidy a (f c i w)) ->
  forall w, a <= c -> c < length (nodes w) -> tidy a w -> tidy a (for_each l (f c) w).
Proof.
  intros Hlen Hf w Ha Hc Hw.
  apply (for_each_inv (fun w' => c < length (nodes w') /\ tidy a w') l (f c)); [|auto].
  intros i w' _ [Hc' Hw']. split; [rewrite Hlen; lia | now apply Hf].
Qed.

(** [built a k w]: the store holds [a + k] nodes and is tidy above [a]. *)
Definition built (a k : nat) (w : World) : Prop :=
  tidy a w /\ length (nodes w) = a + k.

Lemma built_alloc (a k : nat) (nd : Node) (w : World) :
  parent nd = None -> built a k w -> built a (S k) (with_nodes (nodes w ++ [nd]) w).
Proof.
  intros Hp [H L]. split; [now apply tidy_alloc | rewrite len_alloc; lia].
Qed.

Lemma built_upd (a k n : nat) (f : Node -> Node) (w : World) :
  (forall nd, parent (f nd) = parent nd) -> built a k w -> built a k (upd_node n f w).
Proof.
  intros Hf [H L]. split; [now apply tidy_upd | now rewrite length_upd_node].
Qed.

Lemma built_upd_this (a k : nat) (f : MotionEffects -> MotionEffects) (w : World) :
  built a k w -> built a k (upd_this f w).
Proof. intros [H L]. split; [now apply tidy_upd_this | exact L]. Qed.

Lemma built_appendChild (a k p c : nat) (w : World) :
  (a < c -> a <= p /\ p < a + k) -> built a k w -> built a k (appendChild p c w).
Proof.
  intros Hpc [H L]. split.
  - apply tidy_appendChild; [rewrite L; exact Hpc | exact H].
  - unfold appendChild. now rewrite length_upd_node.
Qed.

Lemma built_for_each (a k c : nat) (l : list nat) (f : nat -> nat -> World -> World)
    (w : World) :
  (forall i w, length (nodes (f c i w)) = 1 + length (nodes w)) ->
  (forall i w, a <= c -> c < length (nodes w) -> tidy a w -> tidy a (f c i w)) ->
  a <= c -> c < a + k ->
  built a k w -> built a (length l + k) (for_each l (f c) w).
Proof.
  intros Hlen Hf Ha Hc [H L]. split.
  - apply tidy_for_each; auto. lia.
  - rewrite (len_for_each _ _ 1) by apply Hlen. lia.
Qed.

(** [built_chain] proves [built] of a short sequence of primitives from the
    hypothesis about the world it starts from. *)
Ltac built_chain :=
  repeat lazymatch goal with
  | |- built _ _ (appendChild _ _ _) => eapply built_appendChild
  | |- built _ _ (upd_node _ _ _) => eapply built_upd; [intros; reflexivity|]
  | |- built _ _ (with_nodes (nodes _ ++ [_]) _) => eapply built_alloc; [reflexivity|]
  | |- built _ _ (upd_this _ _) => eapply built_upd_this
  end.

(** The facts about sizes that are at hand, for [lia]. *)
Ltac sizes :=
  intros;
  repeat match goal with
  | H : built _ _ _ |- _ => destruct H as [_ H]
  end;
  cbn [length seq] in *; lia.

(** [built_step] names the world bound by the next [let] and records that
    it is [built]. *)
Ltac built_step :=
  lazymatch goal with
  | |- tidy ?a (let x := for_each ?l (?f ?c) ?w0 in @?body x) =>
      let Hn := fresh "Hb" in
      let wn := fresh "w" in
      eassert (Hn : built a _ (for_each l (f c) w0));
      [ eapply (built_for_each _ _ _ _ f);
        [ lazymatch f with
          | create_layer => apply len_create_layer
          | create_particle => apply len_create_particle
          | create_shape => apply len_create_shape
          end
        | lazymatch f with
          | create_layer => apply tidy_create_layer
          | create_particle => apply tidy_create_particle
          | create_shape => apply tidy_create_shape
          end
        | | | eassumption ]; sizes
      | change (tidy a (body (for_each l (f c) w0)));
        set (wn := for_each l (f c) w0) in *; clearbody wn; cbv beta ]
  | |- tidy ?a (let x := ?V in @?body x) =>
      let Hn := fresh "Hb" in
      let wn := fresh "w" in
      eassert (Hn : built a _ V);
      [ unfold set_className, set_cssText; built_chain; [ idtac .. | eassumption ]; sizes
      | change (tidy a (body V)); set (wn := V) in *; clearbody wn; cbv beta ]
  end.

Lemma tidy_createMotionBackground (w : World) :
  tidy (length (nodes w)) (createMotionBackground w).
Proof.
  set (a := length (nodes w)).
  assert (H0 : built a 0 w).
  { split; [|subst a; lia]. intros n nd Ha Hn. subst a. lia. }
  clearbody a.
  cbv delta [createMotionBackground createElement]. cbv beta iota.
  destruct (prefersReducedMotion (this w)); [exact (proj1 H0)|].
  repeat built_step.
  lazymatch goal with
  | H : built _ _ ?w' |- tidy _ (for_each _ _ ?w') => pose proof (proj1 H) as Ht
  end.
  apply (tidy_for_each _ _ _ create_shape);
    [apply len_create_shape | apply tidy_create_shape | | | exact Ht]; sizes.
Qed.


(** *** The cursor builder *)

Lemma this_for_each_addInteractiveListeners (l : list node_id) (w : World) :
  this (for_each l addInteractiveListeners w) = this w.
Proof.
  apply (for_each_inv (fun w' => this w' = this w)); [|reflexivity].
  intros x w' _ Hw'. exact Hw'.
Qed.

Lemma this_setupInteractiveElements (w : World) :
  this (setupInteractiveElements w) = this w.
Proof.
  unfold setupInteractiveElements, observeNewElements. cbv zeta.
  change (this (for_each (document_querySelectorAll sel_interactive w)
                  addInteractiveListeners w) = this w).
  apply this_for_each_addInteractiveListeners.
Qed.

Lemma trail_for_each (l : list nat) (w : World) :
  cursorTrail (this (for_each l create_trail_dot w))
  = cursorTrail (this w) ++ seq (length (nodes w)) (length l)
  /\ cursor (this (for_each l create_trail_dot w)) = cursor (this w)
  /\ cursorDot (this (for_each l create_trail_dot w)) = cursorDot (this w)
  /\ motionBackground (this (for_each l create_trail_dot w)) = motionBackground (this w).
Proof.
  revert w. induction l as [|i l IH]; intros w.
  - simpl. rewrite app_nil_r. auto.
  - rewrite for_each_cons. destruct (IH (create_trail_dot i w)) as (H1 & H2 & H3 & H4).
    rewrite H1, H2, H3, H4, len_create_trail_dot.
    change (cursorTrail (this (create_trail_dot i w)))
      with (cursorTrail (this w) ++ [length (nodes w)]).
    rewrite <- app_assoc. simpl. auto.
Qed.

Lemma this_upd_node (n : node_id) (f : Node -> Node) (w : World) :
  this (upd_node n f w) = this w.
Proof. reflexivity. Qed.

Lemma this_upd_this (f : MotionEffects -> MotionEffects) (w : World) :
  this (upd_this f w) = f (this w).
Proof. reflexivity. Qed.

Lemma this_with_nodes (l : list Node) (w : World) : this (with_nodes l w) = this w.
Proof. reflexivity. Qed.

(** The fields and the size of the store after [createCustomCursor]. *)
Lemma createCustomCursor_fields (w : World) :
  prefersReducedMotion (this w) = false ->
  cursorTrail (this w) = [] ->
  let c := length (nodes w) in
  let w' := createCustomCursor w in
  cursor (this w') = Some c
  /\ cursorDot (this w') = Some (S c)
  /\ cursorTrail (this w') = seq (S (S c)) (maxTrailLength (this w))
  /\ motionBackground (this w') = motionBackground (this w)
  /\ length (nodes w') = maxTrailLength (this w) + (2 + c).
Proof.
  intros Hm Ht c w'. subst w'. unfold createCustomCursor. rewrite Hm.
  unfold createElement, set_className, set_cssText, upd_style, appendChild.
  cbv beta iota zeta.
  rewrite this_setupInteractiveElements, len_setupInteractiveElements.
  lens. rewrite !this_upd_node.
  change (maxTrailLength (this _)) with (maxTrailLength (this w)).
  match goal with
  | |- context [for_each ?l create_trail_dot ?W] =>
      destruct (trail_for_each l W) as (H1 & H2 & H3 & H4);
      pose proof (len_for_each l create_trail_dot 1 len_create_trail_dot W) as H5;
      rewrite H1, H2, H3, H4, H5
  end.
  lens. rewrite !this_upd_node, !this_upd_this, !this_with_nodes.
  rewrite !this_upd_node, !this_upd_this, !this_with_nodes.
  rewrite length_seq. simpl. rewrite Ht. simpl.
  repeat split; try reflexivity. subst c. lia.
Qed.

Lemma Rel_owned (k : mode) (b : nat) (w w' : World) :
  keeps_fields k = true -> Rel k b w w' ->
  motionBackground (this w') = motionBackground (this w)
  /\ cursor (this w') = cursor (this w)
  /\ cursorDot (this w') = cursorDot (this w)
  /\ cursorTrail (this w') = cursorTrail (this w).
Proof.
  intros Hk [_ _ _ HO _ _]. specialize (HO Hk). unfold owned_fields in HO.
  injection HO as H1 H2 H3 H4. auto.
Qed.

Lemma Rel_config (k : mode) (b : nat) (w w' : World) :
  Rel k b w w' ->
  prefersReducedMotion (this w') = prefersReducedMotion (this w)
  /\ mouseMoveThrottle (this w') = mouseMoveThrottle (this w)
  /\ maxTrailLength (this w') = maxTrailLength (this w).
Proof.
  intros [_ _ HC _ _ _]. unfold config_fields in HC.
  injection HC as H1 H2 H3. auto.
Qed.

Lemma createMotionBackground_owner (w : World) :
  prefersReducedMotion (this w) = false -> good_timers w ->
  let w' := createMotionBackground w in
  motionBackground (this w') = Some (length (nodes w))
  /\ cursor (this w') = cursor (this w)
  /\ cursorDot (this w') = cursorDot (this w)
  /\ cursorTrail (this w') = cursorTrail (this w).
Proof.
  intros Hm Ht w'. subst w'.
  cbv delta [createMotionBackground createElement]. cbv beta iota.
  rewrite Hm.
  lazymatch goal with
  | |- motionBackground (this (let x := ?V in @?body x)) = _ /\ _ =>
      assert (Hok : ok 0 V) by (apply ok_0; exact Ht);
      assert (HR : Rel quiet 0 V (body V)) by rel0;
      exact (Rel_owned quiet 0 V (body V) eq_refl HR)
  end.
Qed.

(** Above the bound, a primitive acts on nodes that were made since. *)
Ltac relb_prim :=
  idtac;
  first
    [ rel_prim
    | unfold set_className, set_cssText, upd_style, appendChild;
      apply Rel_upd_node; intros Hlt; exfalso;
      repeat match goal with
             | H : ok _ _ |- _ => destruct H as [H _]
             end;
      revert Hlt; lens; lia ].

Ltac relb := rel_with relb_prim.

Lemma Rel_create_trail_dot_above (b i : nat) (w : World) :
  ok b w -> Rel building b w (create_trail_dot i w).
Proof. intros Hok. unfold create_trail_dot, createElement. relb. Qed.

Lemma Rel_createCustomCursor_above (b : nat) (w : World) :
  ok b w -> Rel building b w (createCustomCursor w).
Proof.
  intros Hok. unfold createCustomCursor, createElement.
  rel_with ltac:(idtac; first [apply Rel_create_trail_dot_above; assumption | relb_prim]).
Qed.

(** ** Teardown (C2) *)

Definition parent_of (w : World) (n : node_id) : option node_id :=
  match nodes w !! n with
  | Some nd => parent nd
  | None => None
  end.

(** The nodes the instance keeps a reference to for [destroy]. *)
Definition roots (t : MotionEffects) : list node_id :=
  option_list (motionBackground t) ++ option_list (cursor t)
  ++ option_list (cursorDot t) ++ cursorTrail t.

(** The first node made by the builders, the first made by the cursor
    builder, and the first made after them. *)
Definition built_from (h : World) : nat := length (nodes h).

Definition background_end (h : World) : nat :=
  length (nodes (createMotionBackground (with_this (new_fields h) h))).

Definition built_to (h : World) : nat :=
  length (nodes (createCustomCursor (createMotionBackground (with_this (new_fields h) h)))).

(** [installed a c e w]: the nodes [[a, e)] are those of the builders; the
    ones below [c] hang under the container [a], the others are referenced
    by the instance. *)
Definition installed (a c e : nat) (w : World) : Prop :=
  0 < a /\ a <= c /\ c <= e /\ e <= length (nodes w)
  /\ (a < c -> In a (roots (this w)))
  /\ closed a c (nodes w)
  /\ forall n, c <= n -> n < e -> In n (roots (this w)).

(** [uprooted a c e w]: as [installed], with every referenced node detached. *)
Definition uprooted (a c e : nat) (w : World) : Prop :=
  0 < a /\ a <= c /\ c <= e /\ e <= length (nodes w)
  /\ (a < c -> parent_of w a = None)
  /\ closed a c (nodes w)
  /\ forall n, c <= n -> n < e -> parent_of w n = None.

Lemma closed_Rel (k : mode) (a c b : nat) (w w' : World) :
  c <= b -> c <= length (nodes w) ->
  Rel k b w w' -> closed a c (nodes w) -> closed a c (nodes w').
Proof.
  intros Hcb Hcl [_ N _ _ _ _] H n nd' Ha Hn Hl.
  destruct (lookup_lt_is_Some_2 (nodes w) n) as [nd Hnd]; [lia|].
  destruct (N n nd ltac:(lia) Hnd) as (nd2 & H2 & _ & _ & Hp).
  rewrite Hl in H2. injection H2 as <-.
  destruct Hp as [Hp|Hp]; [|now left].
  rewrite Hp. eapply H; eauto.
Qed.

Lemma parent_of_Rel (k : mode) (b n : nat) (w w' : World) :
  n < b -> n < length (nodes w) ->
  Rel k b w w' -> parent_of w n = None -> parent_of w' n = None.
Proof.
  intros Hb Hl [_ N _ _ _ _] H. unfold parent_of in *.
  destruct (lookup_lt_is_Some_2 (nodes w) n Hl) as [nd Hnd].
  rewrite Hnd in H.
  destruct (N n nd Hb Hnd) as (nd2 & H2 & _ & _ & Hp). rewrite H2.
  destruct Hp as [Hp|Hp]; congruence.
Qed.

Lemma installed_Rel (k : mode) (a c e b : nat) (w w' : World) :
  keeps_fields k = true -> e <= b ->
  Rel k b w w' -> installed a c e w -> installed a c e w'.
Proof.
  intros Hk Hb HR (H1 & H2 & H3 & H4 & H5 & H6 & H7).
  destruct (Rel_owned k b w w' Hk HR) as (O1 & O2 & O3 & O4).
  assert (Hroots : roots (this w') = roots (this w))
    by (unfold roots; now rewrite O1, O2, O3, O4).
  pose proof (rel_length _ _ _ _ HR).
  repeat split; auto; try lia.
  - now rewrite Hroots.
  - apply (closed_Rel k a c b w w'); auto; lia.
  - intros n Hc He. rewrite Hroots. auto.
Qed.

Lemma uprooted_Rel (k : mode) (a c e b : nat) (w w' : World) :
  e <= b -> Rel k b w w' -> uprooted a c e w -> uprooted a c e w'.
Proof.
  intros Hb HR (H1 & H2 & H3 & H4 & H5 & H6 & H7).
  pose proof (rel_length _ _ _ _ HR).
  repeat split; auto; try lia.
  - intros Hac. apply (parent_of_Rel k b a w w'); auto; lia.
  - apply (closed_Rel k a c b w w'); auto; lia.
  - intros n Hc He. apply (parent_of_Rel k b n w w'); auto; lia.
Qed.

(** No node of an uprooted installation is in the document. *)
Lemma uprooted_disconnected (a c e : nat) (w : World) :
  uprooted a c e w ->
  forall fuel n, a <= n -> n < e -> connected fuel (nodes w) n = false.
Proof.
  intros (H1 & H2 & H3 & H4 & H5 & H6 & H7).
  induction fuel as [|fuel IH]; intros n Ha He; simpl.
  - destruct n; [lia | reflexivity].
  - destruct n as [|n']; [lia|]. simpl. set (n := S n') in *.
    destruct (nodes w !! n) as [nd|] eqn:E; [|reflexivity].
    destruct (parent nd) as [p|] eqn:Ep; [|reflexivity].
    assert (Hpo : parent_of w n = Some p) by (unfold parent_of; now rewrite E).
    destruct (decide (n < c)) as [Hlt|Hge].
    + destruct (decide (n = a)) as [->|Hne].
      * rewrite H5 in Hpo by lia. discriminate.
      * destruct (H6 n nd ltac:(lia) Hlt E) as [H0|(p' & Hp' & Hlo & Hhi)];
          [congruence|].
        assert (p' = p) as -> by congruence. apply IH; lia.
    + rewrite H7 in Hpo by lia. discriminate.
Qed.

Lemma parent_of_remove_hit (n : node_id) (w : World) : parent_of (remove n w) n = None.
Proof.
  unfold parent_of, remove. rewrite lookup_upd_node_eq.
  destruct (nodes w !! n); reflexivity.
Qed.

Lemma parent_of_remove_keep (n m : node_id) (w : World) :
  parent_of w n = None -> parent_of (remove m w) n = None.
Proof.
  intros H. destruct (decide (m = n)) as [->|Hne]; [apply parent_of_remove_hit|].
  unfold parent_of, remove in *. now rewrite lookup_upd_node_ne.
Qed.

Lemma parent_of_for_each_remove (l : list node_id) (n : node_id) (w : World) :
  In n l \/ parent_of w n = None -> parent_of (for_each l remove w) n = None.
Proof.
  revert w. induction l as [|m l IH]; intros w [H|H]; try (now destruct H); auto.
  - rewrite for_each_cons. apply IH. destruct H as [->|H]; [|now left].
    right. apply parent_of_remove_hit.
  - rewrite for_each_cons. apply IH. right. now apply parent_of_remove_keep.
Qed.

Lemma destroy_detaches_roots (w : World) (n : node_id) :
  In n (roots (this w)) -> parent_of (destroy w) n = None.
Proof.
  destruct w as [t ns rc iw ih ch rm ck tm rp rcn io mo dl rnd rpos].
  destruct t as [mb ly pa mx my cx cy mv lx ly' cur dot cv chv ca tr mt ae sg iob af
                   ls lm st mmt prm ge fs].
  unfold roots, destroy. cbn [this motionBackground cursor cursorDot cursorTrail
                              animationFrameId intersectionObserver].
  intros Hin.
  set (w1 := match af with
             | Some (S _ as id) => cancelAnimationFrame id _
             | _ => _
             end).
  assert (Ht1 : this w1 = mkMotionEffects mb ly pa mx my cx cy mv lx ly' cur dot cv chv ca
                            tr mt ae sg iob af ls lm st mmt prm ge fs)
    by (subst w1; destruct af as [[|?]|]; reflexivity).
  cbv zeta. rewrite Ht1.
  cbn [this motionBackground cursor cursorDot cursorTrail intersectionObserver].
  set (w2 := if iob then with_ioObserved [] w1 else w1).
  assert (Ht2 : this w2 = this w1) by (subst w2; destruct iob; reflexivity).
  rewrite Ht2, Ht1. cbn [cursor].
  set (w3 := match cur with Some c => remove c w2 | None => w2 end).
  assert (Ht3 : this w3 = this w1) by (subst w3; destruct cur; exact Ht2).
  assert (H3 : In n (option_list cur) -> parent_of w3 n = None).
  { subst w3. destruct cur as [c|]; simpl; [|tauto].
    intros [->|[]]. apply parent_of_remove_hit. }
  rewrite Ht3, Ht1. cbn [cursorDot].
  set (w4 := match dot with Some d => remove d w3 | None => w3 end).
  assert (Ht4 : this w4 = this w1) by (subst w4; destruct dot; exact Ht3).
  assert (H4 : In n (option_list cur ++ option_list dot) -> parent_of w4 n = None).
  { subst w4. intros Hc. apply in_app_or in Hc. destruct Hc as [Hc|Hc].
    - specialize (H3 Hc). destruct dot; [now apply parent_of_remove_keep | exact H3].
    - destruct dot as [d|]; simpl in Hc; [|tauto].
      destruct Hc as [->|[]]. apply parent_of_remove_hit. }
  rewrite Ht4, Ht1. cbn [cursorTrail].
  set (w5 := for_each tr remove w4).
  assert (Ht5 : this w5 = this w1).
  { subst w5. apply (for_each_inv (fun w' => this w' = this w1)); [|exact Ht4].
    intros x w' _ Hw'. exact Hw'. }
  assert (H5 : In n (option_list cur ++ option_list dot ++ tr) -> parent_of w5 n = None).
  { subst w5. intros Hc. apply parent_of_for_each_remove.
    rewrite app_assoc in Hc. apply in_app_or in Hc. destruct Hc as [Hc|Hc]; auto. }
  rewrite Ht5, Ht1. cbn [motionBackground].
  apply in_app_or in Hin. destruct Hin as [Hin|Hin].
  - destruct mb as [m|]; simpl in Hin; [|tauto].
    destruct Hin as [->|[]]. apply parent_of_remove_hit.
  - specialize (H5 Hin). destruct mb; [now apply parent_of_remove_keep | exact H5].
Qed.

Lemma destroy_uproots (a c e : nat) (w : World) :
  good_timers w -> installed a c e w -> uprooted a c e (destroy w).
Proof.
  intros Ht (H1 & H2 & H3 & H4 & H5 & H6 & H7).
  assert (Hok : ok e w) by (split; [lia | exact Ht]).
  pose proof (Rel_destroy e w Hok) as HR.
  pose proof (rel_length _ _ _ _ HR).
  repeat split; auto; try lia.
  - intros Hac. apply destroy_detaches_roots. auto.
  - apply (closed_Rel framing a c e w (destroy w)); auto; lia.
  - intros n Hc He. apply destroy_detaches_roots. auto.
Qed.

(** The part of [init] that follows the builders. *)
Lemma Rel_init_tail (b : nat) (w : World) :
  ok b w ->
  Rel framing b w
    (animatePageTransition
       (startAnimationLoop (setupEventListeners (setupScrollAnimations w)))).
Proof.
  intros Hok.
  eapply Rel_then; [exact Hok | | apply Rel_animatePageTransition].
  eapply Rel_then; [exact Hok | | apply Rel_animate].
  eapply Rel_then; [exact Hok | apply Rel_setupScrollAnimations; exact Hok
                   | apply Rel_setupEventListeners].
Qed.

Lemma pristine_good (h : World) : pristine h -> good_timers h.
Proof. intros (_ & Ht & _). unfold good_timers. rewrite Ht. constructor. Qed.

Lemma construct_installed (h : World) :
  pristine h ->
  installed (built_from h) (background_end h) (built_to h) (construct h)
  /\ good_timers (construct h).
Proof.
  intros Hp. pose proof (pristine_good h Hp) as Hg. destruct Hp as (Hpos & _).
  unfold built_from, background_end, built_to, construct, init.
  set (h0 := with_this (new_fields h) h).
  assert (Hg0 : good_timers h0) by exact Hg.
  set (W := createMotionBackground h0).
  set (WC := createCustomCursor W).
  cbv zeta.
  assert (HRW : Rel building 0 h0 W) by (apply Rel_createMotionBackground, ok_0, Hg0).
  assert (HgW : good_timers W) by (apply (rel_timers _ _ _ _ HRW), Hg0).
  assert (HokW : ok (length (nodes W)) W) by (split; [lia | exact HgW]).
  assert (HRC : Rel building (length (nodes W)) W WC)
    by (apply Rel_createCustomCursor_above, HokW).
  assert (HgC : good_timers WC) by (apply (rel_timers _ _ _ _ HRC), HgW).
  assert (HokC : ok (length (nodes WC)) WC) by (split; [lia | exact HgC]).
  pose proof (Rel_init_tail _ _ HokC) as HRT.
  split; [|apply (rel_timers _ _ _ _ HRT), HgC].
  apply (installed_Rel framing _ _ _ (length (nodes WC)) WC); [reflexivity | lia | exact HRT |].
  assert (Hlen0 : length (nodes h0) = length (nodes h)) by reflexivity.
  pose proof (tidy_createMotionBackground h0) as Htidy. fold W in Htidy.
  unfold tidy in Htidy. rewrite Hlen0 in Htidy.
  destruct (Rel_config _ _ _ _ HRW) as (Hc1 & _ & Hc3).
  change (prefersReducedMotion (this h0)) with (reducedMotionPref h) in Hc1.
  change (maxTrailLength (this h0)) with 8 in Hc3.
  destruct (reducedMotionPref h) eqn:Hred.
  - (* reduced motion: nothing is built *)
    assert (HW : W = h0).
    { subst W. unfold createMotionBackground.
      change (prefersReducedMotion (this h0)) with (reducedMotionPref h).
      now rewrite Hred. }
    assert (HWC : WC = h0).
    { subst WC. rewrite HW. unfold createCustomCursor.
      change (prefersReducedMotion (this h0)) with (reducedMotionPref h).
      now rewrite Hred. }
    rewrite HWC, HW, Hlen0.
    repeat split; auto; try lia; intros n; intros; lia.
  - (* the builders run *)
    assert (Hm0 : prefersReducedMotion (this h0) = false) by exact Hred.
    destruct (createMotionBackground_owner h0 Hm0 Hg0) as (O1 & O2 & O3 & O4).
    fold W in O1, O2, O3, O4. rewrite Hlen0 in O1.
    change (cursorTrail (this h0)) with (@nil nat) in O4.
    pose proof (len_createMotionBackground h0 Hm0) as HlenW. fold W in HlenW.
    rewrite Hlen0 in HlenW.
    destruct (createCustomCursor_fields W Hc1 O4) as (F1 & F2 & F3 & F4 & F5).
    fold WC in F1, F2, F3, F4, F5. rewrite Hc3 in F3, F5. rewrite O1 in F4.
    assert (Hroots : roots (this WC)
                     = length (nodes h) :: length (nodes W) :: S (length (nodes W))
                       :: seq (S (S (length (nodes W)))) 8).
    { unfold roots. rewrite F1, F2, F3, F4. reflexivity. }
    repeat split; try lia.
    + intros _. rewrite Hroots. now left.
    + apply (closed_Rel building _ _ (length (nodes W)) W WC); auto.
    + intros n Hc He. rewrite Hroots. right.
      destruct (decide (n = length (nodes W))) as [->|H1]; [now left|]. right.
      destruct (decide (n = S (length (nodes W)))) as [->|H2]; [now left|]. right.
      apply in_seq. lia.
Qed.

(** *** The frame loop *)

(** Either no frame is requested, or exactly one is and the instance holds
    its handle. *)
Definition scheduled (w : World) : Prop :=
  rafPending w = []
  \/ exists id, rafPending w = [S id] /\ animationFrameId (this w) = Some (S id).

Lemma Rel_frame (k : mode) (b : nat) (w w' : World) :
  keeps_frame k = true -> Rel k b w w' ->
  rafPending w' = rafPending w /\ rafCounter w' = rafCounter w
  /\ animationFrameId (this w') = animationFrameId (this w).
Proof.
  intros Hk [_ _ _ _ _ HF]. specialize (HF Hk). unfold frame_fields in HF.
  injection HF as H1 H2 H3. auto.
Qed.

Lemma animate_frame (w : World) :
  good_timers w ->
  rafPending (animate w) = rafPending w ++ [S (rafCounter w)]
  /\ animationFrameId (this (animate w)) = Some (S (rafCounter w)).
Proof.
  intros Ht. assert (Hok : ok 0 w) by now apply ok_0.
  assert (HR : Rel quiet 0 w (updateMotionBackground (updateCursor w))) by rel.
  destruct (Rel_frame quiet _ _ _ eq_refl HR) as (H1 & H2 & _).
  unfold animate, requestAnimationFrame.
  set (w2 := updateMotionBackground (updateCursor w)) in *.
  cbn [rafPending this upd_this with_this with_rafCounter with_rafPending
       animationFrameId set_animationFrameId].
  now rewrite H1, H2.
Qed.

Lemma run_frame_idle (w : World) : rafPending w = [] -> step OpFrame w = w.
Proof.
  intros H. cbn [step]. unfold run_frame. rewrite H.
  destruct w; simpl in *; subst; reflexivity.
Qed.

Lemma destroy_rafPending (w : World) :
  good_timers w ->
  rafPending (destroy w)
  = match animationFrameId (this w) with
    | Some (S _ as id) => List.filter (fun i => negb (Nat.eqb i id)) (rafPending w)
    | _ => rafPending w
    end.
Proof.
  intros Ht. cbv delta [destroy]. cbv beta.
  lazymatch goal with
  | |- rafPending (let x := ?V in @?body x) = _ =>
      assert (Hok : ok 0 V)
        by (apply ok_0; destruct (animationFrameId (this w)) as [[|?]|]; exact Ht);
      assert (HR : Rel quiet 0 V (body V)) by rel;
      transitivity (rafPending V);
      [exact (proj1 (Rel_frame quiet _ _ _ eq_refl HR))|]
  end.
  destruct (animationFrameId (this w)) as [[|?]|]; reflexivity.
Qed.

Lemma destroy_cancels (w : World) :
  good_timers w -> scheduled w -> rafPending (destroy w) = [].
Proof.
  intros Ht Hs. rewrite destroy_rafPending by exact Ht.
  destruct Hs as [H|(id & H1 & H2)].
  - rewrite H. destruct (animationFrameId (this w)) as [[|?]|]; reflexivity.
  - rewrite H1, H2. simpl. now rewrite Nat.eqb_refl.
Qed.

Lemma scheduled_step (o : op) (w : World) :
  good_timers w -> scheduled w -> scheduled (step o w).
Proof.
  intros Ht Hs. destruct (reschedules o) eqn:Ho.
  - destruct o; try discriminate.
    + cbn [step]. unfold run_frame. destruct Hs as [H|(id & H1 & H2)].
      * rewrite H. now left.
      * rewrite H1. unfold for_each; simpl.
        destruct (animate_frame (with_rafPending [] w) Ht) as (A1 & A2).
        right. exists (rafCounter w). split; [exact A1 | exact A2].
    + left. now apply destroy_cancels.
  - assert (HR : Rel quiet 0 w (step o w))
      by (apply Rel_step_mode; [auto | now apply ok_0]).
    destruct (Rel_frame quiet _ _ _ eq_refl HR) as (H1 & _ & H3).
    unfold scheduled. now rewrite H1, H3.
Qed.

Lemma cancelled_step (o : op) (w : World) :
  good_timers w -> rafPending w = [] -> rafPending (step o w) = [].
Proof.
  intros Ht Hs. destruct (reschedules o) eqn:Ho.
  - destruct o; try discriminate.
    + now rewrite run_frame_idle.
    + apply destroy_cancels; [exact Ht | now left].
  - assert (HR : Rel quiet 0 w (step o w))
      by (apply Rel_step_mode; [auto | now apply ok_0]).
    destruct (Rel_frame quiet _ _ _ eq_refl HR) as (H1 & _). now rewrite H1.
Qed.

Lemma construct_scheduled (h : World) : pristine h -> scheduled (construct h).
Proof.
  intros Hp. pose proof (pristine_good h Hp) as Hg.
  destruct Hp as (_ & _ & Hraf & _).
  unfold construct, init. cbv zeta.
  set (h0 := with_this (new_fields h) h).
  assert (Hg0 : good_timers h0) by exact Hg.
  assert (HR : Rel building 0 h0
                 (setupEventListeners
                    (setupScrollAnimations
                       (createCustomCursor (createMotionBackground h0))))).
  { assert (Hok : ok 0 h0) by now apply ok_0.
    eapply Rel_then; [exact Hok | | apply Rel_setupEventListeners].
    eapply Rel_then; [exact Hok | | apply Rel_setupScrollAnimations].
    eapply Rel_then; [exact Hok | now apply Rel_createMotionBackground
                     | apply Rel_createCustomCursor]. }
  set (w1 := setupEventListeners _) in *.
  destruct (Rel_frame building _ _ _ eq_refl HR) as (H1 & H2 & _).
  assert (Hg1 : good_timers w1) by (apply (rel_timers _ _ _ _ HR), Hg0).
  destruct (animate_frame w1 Hg1) as (A1 & A2).
  assert (Hg2 : good_timers (animate w1)).
  { apply (rel_timers _ _ _ _ (Rel_animate 0 w1 (ok_0 _ Hg1))), Hg1. }
  assert (HR2 : Rel quiet 0 (animate w1) (animatePageTransition (animate w1)))
    by (apply Rel_animatePageTransition; now apply ok_0).
  destruct (Rel_frame quiet _ _ _ eq_refl HR2) as (B1 & _ & B3).
  right. exists (rafCounter w1). unfold startAnimationLoop.
  rewrite B1, B3, A1, A2, H1.
  change (rafPending h0) with (rafPending h). rewrite Hraf. auto.
Qed.

(** ** Worlds that a constructed component can reach *)

Lemma run_app (ops1 ops2 : list op) (w : World) :
  run (ops1 ++ ops2) w = run ops2 (run ops1 w).
Proof. apply for_each_app. Qed.

Lemma reachable_good (h : World) (ops : list op) :
  pristine h -> good_timers (run ops (construct h)).
Proof.
  intros Hp. destruct (construct_installed h Hp) as (_ & Hg).
  apply (rel_timers _ _ _ _ (Rel_run 0 ops _ (ok_0 _ Hg))), Hg.
Qed.

Lemma reachable_installed (h : World) (ops : list op) :
  pristine h ->
  installed (built_from h) (background_end h) (built_to h) (run ops (construct h)).
Proof.
  intros Hp. destruct (construct_installed h Hp) as (Hi & Hg).
  pose proof Hi as (_ & _ & _ & He & _).
  apply (installed_Rel framing _ _ _ (built_to h) (construct h)); auto.
  apply Rel_run. split; [exact He | exact Hg].
Qed.

Lemma reachable_scheduled (h : World) (ops : list op) :
  pristine h -> scheduled (run ops (construct h)).
Proof.
  intros Hp. induction ops as [|o ops IH] using rev_ind.
  - now apply construct_scheduled.
  - rewrite run_app. apply scheduled_step; [now apply reachable_good | exact IH].
Qed.

Lemma sample_pristine (reduced : bool) : pristine (sample_page reduced).
Proof.
  repeat split; simpl; try lia.
  intros n nd H.
  do 8 (destruct n as [|n]; [injection H as <-; reflexivity|]).
  discriminate.
Qed.

(** C2, as the code has it.  On a page where the component was constructed
    and has run any operations, [destroy()] followed by any further
    operations leaves every node made by the background, cursor and trail
    builders outside the document, leaves no animation frame requested, and
    an animation frame then changes nothing. *)
Theorem destroy_removes_builder_nodes (h : World) (ops rest : list op) (n : node_id)
    (fuel : nat) :
  pristine h ->
  let w := run rest (step OpDestroy (run ops (construct h))) in
  (built_from h <= n -> n < built_to h -> connected fuel (nodes w) n = false)
  /\ rafPending w = []
  /\ step OpFrame w = w.
Proof.
  intros Hp w.
  set (w0 := run ops (construct h)) in *.
  assert (Hg0 : good_timers w0) by now apply reachable_good.
  assert (Hi0 : installed (built_from h) (background_end h) (built_to h) w0)
    by now apply reachable_installed.
  assert (Hs0 : scheduled w0) by now apply reachable_scheduled.
  pose proof (destroy_uproots _ _ _ w0 Hg0 Hi0) as Hu.
  set (w1 := step OpDestroy w0) in *.
  assert (Hg1 : good_timers w1).
  { apply (rel_timers _ _ _ _ (Rel_destroy 0 w0 (ok_0 _ Hg0))), Hg0. }
  assert (Hc1 : rafPending w1 = []) by now apply destroy_cancels.
  assert (Hraf : rafPending w = []).
  { subst w. clear Hu. induction rest as [|o rest IH] using rev_ind; [exact Hc1|].
    rewrite run_app. apply cancelled_step; [|exact IH].
    apply (rel_timers _ _ _ _ (Rel_run 0 rest _ (ok_0 _ Hg1))), Hg1. }
  split; [|split; [exact Hraf | now apply run_frame_idle]].
  intros Ha He. apply (uprooted_disconnected (built_from h) (background_end h) (built_to h));
    [|exact Ha|exact He].
  pose proof Hu as (_ & _ & _ & Hlen & _).
  apply (uprooted_Rel framing _ _ _ (built_to h) w1); [lia | | exact Hu].
  apply Rel_run. split; [exact Hlen | exact Hg1].
Qed.

Lemma destroy_removes_builder_nodes_witness :
  pristine (sample_page false)
  /\ let w := run [OpFrame; OpMouseMove (mkMouseEvent 50 150)]
                (step OpDestroy
                   (run [OpMouseMove (mkMouseEvent 5 5); OpFrame]
                      (construct (sample_page false)))) in
     connected 100 (nodes w) 61 = false /\ rafPending w = [] /\ step OpFrame w = w.
Proof.
  split; [apply sample_pristine|].
  destruct (destroy_removes_builder_nodes (sample_page false)
              [OpMouseMove (mkMouseEvent 5 5); OpFrame]
              [OpFrame; OpMouseMove (mkMouseEvent 50 150)] 61 100
              (sample_pristine false)) as (H1 & H2 & H3).
  split; [|split; [exact H2 | exact H3]].
  apply H1; vm_compute; lia.
Defined.

(** The claim C2 as stated also promises that nothing of the component
    mutates the DOM after teardown. *)
Definition silent_after_destroy : Prop :=
  forall (h : World) (ops : list op) (o : op),
    pristine h ->
    let w := step OpDestroy (run ops (construct h)) in
    nodes (step o w) = nodes w.

(** Against C2 as stated: after [destroy()] the card-spotlight listener is
    still registered on the document, and a pointer move writes [--x] on a
    card. *)
Lemma destroy_leaves_listeners : ~ silent_after_destroy.
Proof.
  intros H.
  specialize (H (sample_page false) [] (OpMouseMove (mkMouseEvent 50 150))
                (sample_pristine false)).
  apply (f_equal (fun ns => option_map (fun nd => s_x (style nd)) (ns !! 3))) in H.
  vm_compute in H. discriminate H.
Qed.

(** ** Scroll reveal is permanent (C8) *)

(** C8.  Once an element carries the class [visible], no sequence of
    operations of the component (animation frames, timers, pointer and
    keyboard events on wired elements, resize, theme change, observer
    callbacks, the public methods, [destroy]) takes it away. *)
Theorem visible_is_permanent (h : World) (before after : list op) (n : node_id) :
  pristine h ->
  let w := run before (construct h) in
  matches (sel_class "visible") w n = true ->
  matches (sel_class "visible") (run after w) n = true.
Proof.
  intros Hp w Hv.
  assert (Hg : good_timers w) by now apply reachable_good.
  unfold matches in *. destruct (nodes w !! n) as [nd|] eqn:E; [|discriminate].
  assert (Hn : n < length (nodes w)) by (eapply lookup_lt_Some; eauto).
  assert (Hok : ok (S n) w) by (split; [lia | exact Hg]).
  destruct (rel_nodes _ _ _ _ (Rel_run (S n) after w Hok) n nd ltac:(lia) E)
    as (nd' & E' & Hvis & _).
  rewrite E'. unfold sel_class, has_class in *.
  apply bool_decide_eq_true. apply bool_decide_eq_true in Hv.
  apply list_elem_of_In. apply Hvis. now apply list_elem_of_In.
Qed.

Lemma visible_is_permanent_witness :
  pristine (sample_page false)
  /\ matches (sel_class "visible")
       (run [OpIntersect [(5, true)]] (construct (sample_page false))) 5 = true
  /\ matches (sel_class "visible")
       (run [OpResize 10 10; OpThemeChange; OpAdvance 5000; OpDestroy; OpFrame]
          (run [OpIntersect [(5, true)]] (construct (sample_page false)))) 5 = true.
Proof.
  split; [apply sample_pristine|].
  assert (H : matches (sel_class "visible")
                (run [OpIntersect [(5, true)]] (construct (sample_page false))) 5 = true)
    by (vm_compute; reflexivity).
  split; [exact H|].
  exact (visible_is_permanent (sample_page false) [OpIntersect [(5, true)]]
           [OpResize 10 10; OpThemeChange; OpAdvance 5000; OpDestroy; OpFrame] 5
           (sample_pristine false) H).
Defined.

(** ** Click ripples (C5, C6) *)

Lemma alter_last {A : Type} (f : A -> A) (l : list A) (x : A) (n : nat) :
  n = length l -> alter f n (l ++ [x]) = l ++ [f x].
Proof.
  intros ->. replace (length l) with (length l + 0) by lia.
  rewrite alter_app_r. reflexivity.
Qed.

Lemma alter_front {A : Type} (f : A -> A) (l : list A) (x : A) (n : nat) :
  n < length l -> alter f n (l ++ [x]) = alter f n l ++ [x].
Proof. intros H. now apply alter_app_l. Qed.

(** The ripple node as [createRippleEffect] leaves it. *)
Definition ripple_node (el : node_id) (e : MouseEvent) (w : World) : Node :=
  let rect := rects w el in
  let size := Qmax (rect_width rect) (rect_height rect) in
  {| tag := "div"; classList := [];
     style := {| s_position := Some "absolute";
                 s_left := Some (Px (clientX e - rect_left rect - size / 2)%Q);
                 s_top := Some (Px (clientY e - rect_top rect - size / 2)%Q);
                 s_width := Some (Px size); s_height := Some (Px size);
                 s_transform := [Scale 0]; s_x := None; s_y := None |};
     parent := Some el; wired := 0 |}.

Definition force_relative (nd : Node) : Node :=
  set_style (set_s_position (Some "relative") (style nd)) nd.

Lemma nodes_createRippleEffect (el : node_id) (e : MouseEvent) (w : World) :
  prefersReducedMotion (this w) = false -> el < length (nodes w) ->
  nodes (createRippleEffect el e w)
  = alter force_relative el (nodes w) ++ [ripple_node el e w].
Proof.
  intros Hm Hel. unfold createRippleEffect. rewrite Hm.
  unfold createElement, set_cssText, upd_style, appendChild, setTimeout, upd_node.
  cbn [nodes with_nodes with_timers rects].
  rewrite !(alter_last _ (nodes w)) by reflexivity.
  rewrite alter_front by exact Hel.
  rewrite alter_last by (now rewrite length_alter).
  reflexivity.
Qed.

Lemma timers_createRippleEffect (el : node_id) (e : MouseEvent) (w : World) :
  prefersReducedMotion (this w) = false ->
  timers (createRippleEffect el e w)
  = enqueue (clock w + 600)%Z (TRemoveNode (length (nodes w))) (timers w)
  /\ clock (createRippleEffect el e w) = clock w.
Proof. intros Hm. unfold createRippleEffect. rewrite Hm. split; reflexivity. Qed.

Lemma enqueue_due (t now : Z) (a : timer_action) (q : list (Z * timer_action)) :
  (t <= now)%Z -> In (t, a) (due_prefix now (enqueue t a q)).
Proof.
  intros Ht. induction q as [|[t' a'] q IH]; simpl.
  - replace (t <=? now)%Z with true by (symmetry; now apply Z.leb_le). now left.
  - destruct (t' <=? t)%Z eqn:E; simpl.
    + apply Z.leb_le in E.
      replace (t' <=? now)%Z with true by (symmetry; apply Z.leb_le; lia).
      right. exact IH.
    + replace (t <=? now)%Z with true by (symmetry; now apply Z.leb_le). now left.
Qed.

Lemma parent_of_fire_keep (a : timer_action) (n : node_id) (w : World) :
  parent_of w n = None -> parent_of (fire a w) n = None.
Proof.
  intros H. destruct a as [m|m c|m c]; simpl.
  - now apply parent_of_remove_keep.
  - unfold parent_of, classList_add in *. rewrite lookup_upd_node.
    destruct (decide (m = n)) as [->|]; [|exact H].
    destruct (nodes w !! n); [exact H | reflexivity].
  - unfold parent_of, classList_remove in *. rewrite lookup_upd_node.
    destruct (decide (m = n)) as [->|]; [|exact H].
    destruct (nodes w !! n); [exact H | reflexivity].
Qed.

(** A node whose removal timer is among those that run is detached. *)
Lemma fired_detached (due : list (Z * timer_action)) (t : Z) (n : node_id) (w : World) :
  In (t, TRemoveNode n) due \/ parent_of w n = None ->
  parent_of (for_each due (fun ta => fire (snd ta)) w) n = None.
Proof.
  revert w. induction due as [|ta due IH]; intros w [H|H]; try (now destruct H); auto.
  - rewrite for_each_cons. apply IH. destruct H as [->|H]; [|now left].
    right. apply parent_of_remove_hit.
  - rewrite for_each_cons. apply IH. right. now apply parent_of_fire_keep.
Qed.

Lemma wired_of_upd_node (m n : node_id) (f : Node -> Node) (w : World) :
  (forall nd, wired (f nd) = wired nd) -> wired_of (upd_node m f w) n = wired_of w n.
Proof.
  intros Hf. unfold wired_of. rewrite lookup_upd_node.
  destruct (decide (m = n)) as [->|]; [|reflexivity].
  destruct (nodes w !! n); simpl; auto.
Qed.

Lemma wired_of_alloc (nd : Node) (n : node_id) (w : World) :
  wired nd = 0 -> wired_of (with_nodes (nodes w ++ [nd]) w) n = wired_of w n.
Proof.
  intros H0. unfold wired_of. simpl.
  destruct (decide (n < length (nodes w))) as [Hlt|Hge].
  - now rewrite lookup_app_l.
  - rewrite (lookup_ge_None_2 (nodes w) n) by lia.
    destruct (decide (n = length (nodes w))) as [->|Hne].
    + rewrite list_lookup_middle by reflexivity. exact H0.
    + rewrite lookup_ge_None_2; [reflexivity|]. rewrite length_app. simpl. lia.
Qed.

Lemma wired_of_createRippleEffect (el n : node_id) (e : MouseEvent) (w : World) :
  wired_of (createRippleEffect el e w) n = wired_of w n.
Proof.
  unfold createRippleEffect.
  destruct (prefersReducedMotion (this w)); [reflexivity|].
  unfold createElement, set_cssText, upd_style, appendChild.
  cbv beta iota zeta.
  change (wired_of (setTimeout ?a ?d ?w') n) with (wired_of w' n).
  rewrite !wired_of_upd_node by (intros; reflexivity).
  now apply wired_of_alloc.
Qed.

Lemma In_enqueue (t : Z) (a : timer_action) (q : list (Z * timer_action)) :
  In (t, a) (enqueue t a q).
Proof.
  induction q as [|[t' a'] q IH]; simpl; [now left|].
  destruct (t' <=? t)%Z; simpl; auto.
Qed.

(** The page moves the container of the button (node 1) within the
    document: the mutation observer attaches the listeners to the button
    (node 2) a second time, and one click then appends two nodes to it. *)
Example rewired_click_trace :
  let w1 := run [OpMutation [1]] (construct (sample_page false)) in
  let w2 := step (OpClick 2 (mkMouseEvent 50 35)) w1 in
  wired_of w1 2 = 2
  /\ length (nodes w2) = 2 + length (nodes w1)
  /\ parent_of w2 71 = Some 2 /\ parent_of w2 72 = Some 2.
Proof. vm_compute. repeat split; reflexivity. Qed.

(** [relative_at w n]: node [n] exists with inline [position: relative]. *)
Definition relative_at (w : World) (n : node_id) : Prop :=
  exists nd, nodes w !! n = Some nd /\ s_position (style nd) = Some "relative".

Lemma relative_at_style (w : World) (n : node_id) :
  relative_at w n -> s_position (style_of w n) = Some "relative".
Proof. intros (nd & E & H). unfold style_of. now rewrite E. Qed.

Lemma relative_at_Rel (k : mode) (b n : nat) (w w' : World) :
  n < b -> Rel k b w w' -> relative_at w n -> relative_at w' n.
Proof.
  intros Hb [_ N _ _ _ _] (nd & E & H).
  destruct (N n nd Hb E) as (nd' & E' & _ & Hpos & _).
  exists nd'. auto.
Qed.

Lemma createRippleEffect_relative (el : node_id) (e : MouseEvent) (w : World) :
  prefersReducedMotion (this w) = false -> el < length (nodes w) ->
  relative_at (createRippleEffect el e w) el.
Proof.
  intros Hm Hel. unfold relative_at.
  rewrite (nodes_createRippleEffect el e w Hm Hel).
  destruct (lookup_lt_is_Some_2 (nodes w) el Hel) as [nd E].
  exists (force_relative nd). split; [|reflexivity].
  rewrite lookup_app_l by (now rewrite length_alter).
  rewrite list_lookup_alter. destruct (decide (el = el)); [|congruence].
  now rewrite E.
Qed.

(** C6, as the code has it.  With reduced motion inactive, a click on an
    element that carries the component's click listener leaves the element
    with the inline style [position: relative], whatever it was before, and
    no later operation of the component changes it. *)
Theorem click_forces_relative (h : World) (before after : list op) (target : node_id)
    (e : MouseEvent) :
  pristine h ->
  let w := run before (construct h) in
  prefersReducedMotion (this w) = false ->
  0 < wired_of w target ->
  let w' := step (OpClick target e) w in
  s_position (style_of w' target) = Some "relative"
  /\ s_position (style_of (run after w') target) = Some "relative".
Proof.
  intros Hp w Hm Hw w'.
  assert (Hg : good_timers w) by now apply reachable_good.
  assert (Hex : target < length (nodes w)).
  { unfold wired_of in Hw. destruct (nodes w !! target) eqn:E; [|lia].
    eapply lookup_lt_Some; eauto. }
  assert (Hok : ok (S target) w) by (split; [lia | exact Hg]).
  assert (Hrel : relative_at w' target).
  { subst w'. cbn [step]. unfold dispatch, event_path. rewrite for_each_cons.
    destruct (wired_of w target) as [|k] eqn:Ek; [lia|]. cbn [Nat.iter].
    set (wk := Nat.iter k (on_click e target) w).
    assert (HRk : Rel quiet (S target) w wk).
    { subst wk. apply Rel_iter; [exact Hok|]. intros w1 H1.
      now apply Rel_createRippleEffect. }
    assert (Hokk : ok (S target) wk) by (eapply Rel_ok; eauto).
    assert (Hmk : prefersReducedMotion (this wk) = false).
    { rewrite (proj1 (Rel_config _ _ _ _ HRk)). exact Hm. }
    assert (H1 : relative_at (on_click e target wk) target).
    { apply createRippleEffect_relative; [exact Hmk | destruct Hokk; lia]. }
    assert (Hok1 : ok (S target) (on_click e target wk)).
    { eapply Rel_ok; [exact Hokk | apply (Rel_createRippleEffect quiet); exact Hokk]. }
    apply (relative_at_Rel quiet (S target) target (on_click e target wk)); [lia | | exact H1].
    apply Rel_for_each; [exact Hok1|].
    intros a w1 _ Hw1. apply Rel_iter; [exact Hw1|].
    intros w2 Hw2. now apply Rel_createRippleEffect. }
  split; [now apply relative_at_style|].
  apply relative_at_style.
  apply (relative_at_Rel framing (S target) target w'); [lia | | exact Hrel].
  apply Rel_run. eapply Rel_ok; [exact Hok | apply (Rel_step (S target) _ w Hok)].
Qed.

Lemma click_forces_relative_witness :
  pristine (sample_page false)
  /\ s_position (style_of (run [] (construct (sample_page false))) 4) = Some "absolute"
  /\ s_position
       (style_of (run [OpAdvance 600; OpDestroy]
                    (step (OpClick 4 (mkMouseEvent 310 110))
                       (run [] (construct (sample_page false)))))
          4) = Some "relative".
Proof.
  split; [apply sample_pristine|]. split; [vm_compute; reflexivity|].
  assert (Hm : prefersReducedMotion (this (run [] (construct (sample_page false)))) = false)
    by (vm_compute; reflexivity).
  assert (Hw : 0 < wired_of (run [] (construct (sample_page false))) 4)
    by (vm_compute; lia).
  destruct (click_forces_relative (sample_page false) [] [OpAdvance 600; OpDestroy] 4
              (mkMouseEvent 310 110) (sample_pristine false) Hm Hw) as [_ H].
  exact H.
Defined.

(** The claim C6 as stated: the inline [position] is only written when it
    was unset. *)
Definition relative_only_if_unset : Prop :=
  forall (h : World) (ops : list op) (target : node_id) (e : MouseEvent),
    pristine h ->
    let w := run ops (construct h) in
    0 < wired_of w target ->
    s_position (style_of w target) <> None ->
    s_position (style_of (step (OpClick target e) w) target)
    = s_position (style_of w target).

(** Against C6 as stated: the second card of the sample page has
    [position: absolute] inline; a click on it overwrites that with
    [relative]. *)
Lemma click_overwrites_position : ~ relative_only_if_unset.
Proof.
  intros H.
  specialize (H (sample_page false) [] 4 (mkMouseEvent 310 110) (sample_pristine false)).
  vm_compute in H. specialize (H ltac:(lia) ltac:(discriminate)). discriminate H.
Qed.

(** ** The card spotlight (C9) *)

(** A loop that updates, in place, the node it is given. *)
Lemma lookup_for_each_local (P : World -> Prop) (F : node_id -> World -> World)
    (g : node_id -> Node -> Node) (l : list node_id) :
  (forall n w, P w -> nodes (F n w) = alter (g n) n (nodes w) /\ P (F n w)) ->
  List.NoDup l ->
  forall w m, P w ->
    nodes (for_each l F w) !! m
    = if bool_decide (m ∈ l) then g m <$> nodes w !! m else nodes w !! m.
Proof.
  intros HF. induction l as [|n l IH]; intros Hnd w m Hw.
  - change (for_each [] F w) with w.
    rewrite bool_decide_eq_false_2; [reflexivity|]. apply not_elem_of_nil.
  - inversion Hnd as [|? ? Hnotin Hnd']; subst.
    rewrite for_each_cons. destruct (HF n w Hw) as (Hn & Hw').
    rewrite (IH Hnd' (F n w) m Hw'), Hn, list_lookup_alter.
    destruct (decide (n = m)) as [->|Hne].
    + rewrite (bool_decide_eq_false_2 (m ∈ l)) by (now rewrite list_elem_of_In).
      rewrite bool_decide_eq_true_2 by (apply list_elem_of_In; now left). reflexivity.
    + destruct (bool_decide (m ∈ l)) eqn:E.
      * apply bool_decide_eq_true in E.
        rewrite bool_decide_eq_true_2 by (rewrite elem_of_cons; now right). reflexivity.
      * apply bool_decide_eq_false in E.
        rewrite bool_decide_eq_false_2; [reflexivity|].
        rewrite elem_of_cons. intros [?|?]; [congruence | tauto].
Qed.

Lemma NoDup_querySelectorAll (sel : Node -> bool) (w : World) :
  List.NoDup (document_querySelectorAll sel w).
Proof. unfold document_querySelectorAll, all_ids. apply List.NoDup_filter, List.seq_NoDup. Qed.

Lemma In_querySelectorAll (sel : Node -> bool) (w : World) (n : node_id) (nd : Node) :
  nodes w !! n = Some nd ->
  In n (document_querySelectorAll sel w) <-> in_document w n && sel nd = true.
Proof.
  intros E. unfold document_querySelectorAll, all_ids, matches.
  rewrite filter_In, in_seq, E.
  pose proof (lookup_lt_Some _ _ _ E) as Hlt. split; [tauto|].
  intros Hc. split; [lia | exact Hc].
Qed.

(** What the spotlight listener writes on a card. *)
Definition spotlight (e : MouseEvent) (r : Rect) (nd : Node) : Node :=
  set_style (set_s_y (Some (Px (clientY e - rect_top r)%Q))
               (set_s_x (Some (Px (clientX e - rect_left r)%Q)) (style nd))) nd.

(** C9, as the code has it.  A pointer move writes [--x] and [--y] on every
    element of the document that matches ['.card, .kpi-card, .history-card'],
    hovered or not, each relative to its own bounding box, and leaves every
    other node as it was. *)
Theorem handleCardHover_writes_every_card (w : World) (e : MouseEvent) (n : node_id)
    (nd : Node) :
  nodes w !! n = Some nd ->
  nodes (handleCardHover e w) !! n
  = Some (if in_document w n && sel_card nd then spotlight e (rects w n) nd else nd).
Proof.
  intros E. unfold handleCardHover. cbv zeta.
  rewrite (lookup_for_each_local (fun w' => rects w' = rects w) (card_hover e)
             (fun m => spotlight e (rects w m))).
  - rewrite E. destruct (in_document w n && sel_card nd) eqn:Hc.
    + rewrite bool_decide_eq_true_2; [reflexivity|].
      apply list_elem_of_In. now apply (In_querySelectorAll sel_card w n nd E).
    + rewrite bool_decide_eq_false_2; [reflexivity|].
      rewrite list_elem_of_In, (In_querySelectorAll sel_card w n nd E), Hc. discriminate.
  - intros m w' Hr. split; [|exact Hr].
    unfold card_hover, upd_style, upd_node. cbn [nodes with_nodes rects]. rewrite Hr.
    rewrite list_alter_alter_eq. reflexivity.
  - apply NoDup_querySelectorAll.
  - reflexivity.
Qed.

Lemma handleCardHover_writes_every_card_witness :
  let w := construct (sample_page false) in
  let e := mkMouseEvent 50 150 in
  exists nd, nodes w !! 4 = Some nd
    /\ nodes (handleCardHover e w) !! 4 = Some (spotlight e (rects w 4) nd).
Proof.
  intros w e.
  assert (H : exists nd, nodes w !! 4 = Some nd /\ in_document w 4 && sel_card nd = true).
  { vm_compute. eexists. split; reflexivity. }
  destruct H as (nd & E & Hc). exists nd. split; [exact E|].
  rewrite (handleCardHover_writes_every_card w e 4 nd E), Hc. reflexivity.
Defined.

(** The pointer is over a card when it lies within the card's bounding box. *)
Definition hovered (r : Rect) (e : MouseEvent) : Prop :=
  (rect_left r <= clientX e /\ clientX e <= rect_left r + rect_width r
   /\ rect_top r <= clientY e /\ clientY e <= rect_top r + rect_height r)%Q.

(** The claim C9 as stated: only the hovered card is written. *)
Definition spotlight_only_on_hovered : Prop :=
  forall (w : World) (e : MouseEvent) (n : node_id),
    s_x (style_of (handleCardHover e w) n) <> s_x (style_of w n) ->
    hovered (rects w n) e.

(** Against C9 as stated: with the pointer over the first card of the sample
    page, the second card, 300 px to the right, is written as well. *)
Lemma spotlight_reaches_unhovered_card : ~ spotlight_only_on_hovered.
Proof.
  intros H.
  specialize (H (construct (sample_page false)) (mkMouseEvent 50 150) 4).
  assert (Hx : s_x (style_of (handleCardHover (mkMouseEvent 50 150)
                                (construct (sample_page false))) 4)
               <> s_x (style_of (construct (sample_page false)) 4))
    by (vm_compute; discriminate).
  destruct (H Hx) as (Hl & _). vm_compute in Hl. apply Hl. reflexivity.
Qed.

Lemma mousemove_throttled_witness :
  let w := mousemove_at 1000000 (mkMouseEvent 1 2) (construct (sample_page false)) in
  mouseMoveThrottle (this w) = 8%Z
  /\ pointer_state (mousemove_at 1000005 (mkMouseEvent 10 20) w) = pointer_state w
  /\ updates_in_window 1000010
       (update_times [(1000010, mkMouseEvent 3 4); (1000012, mkMouseEvent 5 6);
                      (1000018, mkMouseEvent 7 8)]%Z w) <= 1.
Proof.
  intros w.
  assert (Hk : mouseMoveThrottle (this w) = 8%Z) by (vm_compute; reflexivity).
  destruct (mousemove_throttled w 1000005 (mkMouseEvent 10 20)
              [(1000010, mkMouseEvent 3 4); (1000012, mkMouseEvent 5 6);
               (1000018, mkMouseEvent 7 8)]%Z 1000010 Hk) as (H1 & _ & H3).
  split; [exact Hk|]. split; [|exact H3].
  apply H1. vm_compute. reflexivity.
Defined.

(** ** Reduced motion at construction (C1) *)

(** Under reduced motion the two builders return at once. *)
Lemma reduced_motion_builds_nothing (h : World) :
  pristine h -> reducedMotionPref h = true ->
  built_to h = built_from h
  /\ motionBackground (this (construct h)) = None
  /\ cursor (this (construct h)) = None
  /\ cursorDot (this (construct h)) = None
  /\ cursorTrail (this (construct h)) = [].
Proof.
  intros Hp Hred. pose proof (pristine_good h Hp) as Hg. unfold built_to, built_from.
  set (h0 := with_this (new_fields h) h).
  assert (Hm : prefersReducedMotion (this h0) = true) by exact Hred.
  assert (HW : createMotionBackground h0 = h0)
    by (unfold createMotionBackground; now rewrite Hm).
  assert (HC : createCustomCursor h0 = h0)
    by (unfold createCustomCursor; now rewrite Hm).
  rewrite HW, HC. split; [reflexivity|].
  unfold construct, init. cbv zeta. fold h0. rewrite HW, HC.
  assert (Hok : ok 0 h0) by (apply ok_0; exact Hg).
  exact (Rel_owned framing 0 h0 _ eq_refl (Rel_init_tail 0 h0 Hok)).
Qed.

(** C1 on the sample page with reduced motion preferred: nothing is built,
    but the scroll-tagged paragraph (node 5) is not marked visible by the
    constructor; it is marked by the first resize.  [init] never calls
    [checkElementsInViewport], whose reduced-motion branch would do it. *)
Example reduced_motion_init_reveals_nothing :
  let w := construct (sample_page true) in
  length (nodes w) = length (nodes (sample_page true))
  /\ roots (this w) = []
  /\ matches (sel_class "animate-on-scroll") w 5 = true
  /\ matches (sel_class "visible") w 5 = false
  /\ matches (sel_class "visible") (step (OpResize 1000 800) w) 5 = true.
Proof. vm_compute. repeat split; reflexivity. Qed.

(** ** The cursor ring and the trail (C3, C4) *)

(** The pixel translation that heads the [transform] of a node. *)
Definition translation (w : World) (n : node_id) : option (Q * Q) :=
  match s_transform (style_of w n) with
  | Translate (Px x) (Px y) :: _ => Some (x, y)
  | _ => None
  end.

Definition at_point (p : option (Q * Q)) (x y : Q) : Prop :=
  match p with
  | Some (a, b) => (a == x /\ b == y)%Q
  | None => False
  end.

Definition ring_position (w : World) : option (Q * Q) :=
  match cursor (this w) with
  | Some c => translation w c
  | None => None
  end.

Definition dot_position (w : World) : option (Q * Q) :=
  match cursorDot (this w) with
  | Some d => translation w d
  | None => None
  end.

(** The pointer arrives at [(x, y)] when the clock reads [t]; a frame follows. *)
Definition move_then_frame (t : Z) (x y : Q) (w : World) : World :=
  step OpFrame (step (OpMouseMove (mkMouseEvent x y)) (with_clock t w)).

(** C3 on the sample page.  The pointer moves to (200, 100).  The dot is
    there after each frame, but the ring is at (-70, -80) after the first
    frame and still there after the second and the third: [updateCursor]
    reads the ring's previous position from [style.left] and [style.top],
    which stay at [-100px], while it writes the new one to
    [style.transform].  From (-70, -80) the claimed rule would give
    (-43, -62). *)
Example ring_ignores_previous_position :
  let w1 := move_then_frame 1000100 200 100 (construct (sample_page false)) in
  let w2 := step OpFrame w1 in
  let w3 := step OpFrame w2 in
  at_point (dot_position w1) 200 100 /\ at_point (dot_position w2) 200 100
  /\ at_point (ring_position w1) (-70) (-80)
  /\ at_point (ring_position w2) (-70) (-80)
  /\ at_point (ring_position w3) (-70) (-80)
  /\ (-70 + (200 - -70) * (1 # 10) == -43)%Q
  /\ (-80 + (100 - -80) * (1 # 10) == -62)%Q
  /\ ~ at_point (ring_position w2) (-43) (-62).
Proof.
  vm_compute. repeat split; try reflexivity. intros [H _]. discriminate H.
Qed.

(** C4 on the sample page.  The pointer moves to (200, 100), a frame runs,
    the pointer moves to (300, 100), a frame runs.  After each frame every
    trail dot, not only the head, is exactly at the pointer: the trail dots
    have no inline [left] or [top], so [parseFloat] yields [NaN] and
    [updateCursorTrail] takes the pointer for both the dot and its
    predecessor.  From 200 the claimed rule would put dot 1 at 200 (towards
    the old head) or 230 (towards the new head). *)
Example trail_snaps_to_pointer :
  let w1 := move_then_frame 1000100 200 100 (construct (sample_page false)) in
  let w2 := move_then_frame 1000200 300 100 w1 in
  Forall (fun n => at_point (translation w1 n) 200 100) (cursorTrail (this w1))
  /\ Forall (fun n => at_point (translation w2 n) 300 100) (cursorTrail (this w2))
  /\ length (cursorTrail (this w2)) = 8
  /\ (200 + (200 - 200) * (3 # 10) == 200)%Q
  /\ (200 + (300 - 200) * (3 # 10) == 230)%Q.
Proof.
  vm_compute. repeat split; repeat constructor; reflexivity.
Qed.

(** ** Re-triggering the page transition (C10) *)

(** The effect of a timer on the node store. *)
Definition fire_nodes (a : timer_action) (ns : list Node) : list Node :=
  match a with
  | TRemoveNode n => alter (set_parent None) n ns
  | TClassAdd n c => alter (fun nd => set_classList (token_add c (classList nd)) nd) n ns
  | TClassRemove n c =>
      alter (fun nd => set_classList (token_remove c (classList nd)) nd) n ns
  end.

Definition fire_all (due : list (Z * timer_action)) (ns : list Node) : list Node :=
  fold_left (fun ns ta => fire_nodes (snd ta) ns) due ns.

Lemma nodes_fire_all (due : list (Z * timer_action)) (w : World) :
  nodes (for_each due (fun ta => fire (snd ta)) w) = fire_all due (nodes w).
Proof.
  revert w. induction due as [|[t a] due IH]; intros w; [reflexivity|].
  rewrite for_each_cons, IH. destruct a; reflexivity.
Qed.

Lemma nodes_advance (d : Z) (w : World) :
  nodes (advance d w) = fire_all (due_prefix (clock w + d) (timers w)) (nodes w).
Proof. unfold advance. cbv zeta. now rewrite nodes_fire_all. Qed.

(** The node store decides the result of a query. *)
Definition query (sel : Node -> bool) (ns : list Node) : list node_id :=
  List.filter
    (fun n => connected (length ns) ns n
              && match ns !! n with Some nd => sel nd | None => false end)
    (seq 0 (length ns)).

Lemma querySelectorAll_query (sel : Node -> bool) (w : World) :
  document_querySelectorAll sel w = query sel (nodes w).
Proof. reflexivity. Qed.

Lemma connected_alter (f : Node -> Node) (m : node_id) (ns : list Node) :
  (forall nd, parent (f nd) = parent nd) ->
  forall fuel n, connected fuel (alter f m ns) n = connected fuel ns n.
Proof.
  intros Hf. induction fuel as [|fuel IH]; intros n; simpl; [reflexivity|].
  destruct (Nat.eqb n body); [reflexivity|].
  rewrite list_lookup_alter. destruct (decide (m = n)) as [->|Hne].
  - destruct (ns !! n) as [nd|]; simpl; [|reflexivity].
    rewrite Hf. destruct (parent nd); [apply IH | reflexivity].
  - destruct (ns !! n) as [nd|]; [|reflexivity].
    destruct (parent nd); [apply IH | reflexivity].
Qed.

Lemma query_alter (sel : Node -> bool) (f : Node -> Node) (m : node_id) (ns : list Node) :
  (forall nd, parent (f nd) = parent nd) -> (forall nd, sel (f nd) = sel nd) ->
  query sel (alter f m ns) = query sel ns.
Proof.
  intros Hp Hs. unfold query. rewrite length_alter.
  apply filter_ext. intros n. rewrite connected_alter by exact Hp.
  rewrite list_lookup_alter. destruct (decide (m = n)) as [->|]; [|reflexivity].
  destruct (ns !! n); simpl; [now rewrite Hs | reflexivity].
Qed.

(** Applying an idempotent update along a list of nodes. *)
Definition alter_all (f : Node -> Node) (ms : list node_id) (ns : list Node) : list Node :=
  fold_left (fun ns m => alter f m ns) ms ns.

Lemma lookup_alter_all (f : Node -> Node) (ms : list node_id) (ns : list Node) (k : nat) :
  (forall nd, f (f nd) = f nd) ->
  alter_all f ms ns !! k = if bool_decide (k ∈ ms) then f <$> ns !! k else ns !! k.
Proof.
  intros Hf. revert ns. induction ms as [|m ms IH]; intros ns.
  - cbn [alter_all fold_left]. case_bool_decide as E; [|reflexivity].
    now apply not_elem_of_nil in E.
  - change (alter_all f (m :: ms) ns) with (alter_all f ms (alter f m ns)).
    rewrite IH, list_lookup_alter.
    destruct (decide (m = k)) as [->|Hne].
    + case_bool_decide as E; case_bool_decide as E'; try reflexivity.
      * destruct (ns !! k); simpl; now rewrite ?Hf.
      * exfalso. apply E'. rewrite elem_of_cons. now right.
      * exfalso. apply E'. rewrite elem_of_cons. now left.
    + case_bool_decide as E; case_bool_decide as E'; try reflexivity.
      * exfalso. apply E'. rewrite elem_of_cons. now right.
      * exfalso. rewrite elem_of_cons in E'. destruct E'; [congruence | tauto].
Qed.

Lemma alter_all_twice (f : Node -> Node) (ms : list node_id) (ns : list Node) :
  (forall nd, f (f nd) = f nd) ->
  alter_all f ms (alter_all f ms ns) = alter_all f ms ns.
Proof.
  intros Hf. apply list_eq. intros k. rewrite !lookup_alter_all by exact Hf.
  destruct (bool_decide (k ∈ ms)); [|reflexivity].
  destruct (ns !! k); simpl; now rewrite ?Hf.
Qed.

Lemma query_alter_all (sel : Node -> bool) (f : Node -> Node) (ms : list node_id)
    (ns : list Node) :
  (forall nd, parent (f nd) = parent nd) -> (forall nd, sel (f nd) = sel nd) ->
  query sel (alter_all f ms ns) = query sel ns.
Proof.
  intros Hp Hs. revert ns. induction ms as [|m ms IH]; intros ns; [reflexivity|].
  change (alter_all f (m :: ms) ns) with (alter_all f ms (alter f m ns)).
  rewrite IH. now apply query_alter.
Qed.

Definition add_class (c : string) (nd : Node) : Node :=
  set_classList (token_add c (classList nd)) nd.

Lemma token_add_twice (c : string) (l : list string) :
  token_add c (token_add c l) = token_add c l.
Proof.
  unfold token_add at 1. rewrite bool_decide_eq_true_2; [reflexivity|].
  apply list_elem_of_In, In_token_add_self.
Qed.

Lemma add_class_twice (c : string) (nd : Node) : add_class c (add_class c nd) = add_class c nd.
Proof. unfold add_class. simpl. now rewrite token_add_twice. Qed.

Lemma has_class_add (c c' : string) (nd : Node) :
  c <> c' -> has_class c (add_class c' nd) = has_class c nd.
Proof.
  intros Hne. unfold has_class, add_class, token_add. simpl.
  destruct (bool_decide (c' ∈ classList nd)); [reflexivity|].
  apply bool_decide_ext. rewrite elem_of_app, list_elem_of_singleton. tauto.
Qed.

(** *** The timer queue *)

Definition blocked (t : Z) (q : list (Z * timer_action)) : Prop :=
  match q with
  | [] => True
  | (t', _) :: _ => (t < t')%Z
  end.

Definition all_by (t : Z) (q : list (Z * timer_action)) : Prop :=
  Forall (fun ta => (fst ta <= t)%Z) q.

Lemma due_split (t : Z) (q : list (Z * timer_action)) :
  q = due_prefix t q ++ due_rest t q
  /\ all_by t (due_prefix t q) /\ blocked t (due_rest t q).
Proof.
  induction q as [|[t' a] q (IH1 & IH2 & IH3)]; simpl; [repeat split; constructor|].
  destruct (t' <=? t)%Z eqn:E.
  - apply Z.leb_le in E. simpl. repeat split; [now f_equal | | exact IH3].
    constructor; [exact E | exact IH2].
  - apply Z.leb_gt in E. repeat split; [constructor | exact E].
Qed.

Lemma enqueue_after (t : Z) (a : timer_action) (p r : list (Z * timer_action)) :
  all_by t p -> blocked t r -> enqueue t a (p ++ r) = p ++ (t, a) :: r.
Proof.
  intros Hp Hr. induction Hp as [|[t' a'] p Hle Hp IH]; simpl.
  - destruct r as [|[t' a'] r]; [reflexivity|]. simpl in *.
    replace (t' <=? t)%Z with false by (symmetry; apply Z.leb_gt; exact Hr). reflexivity.
  - simpl in Hle. replace (t' <=? t)%Z with true by (symmetry; apply Z.leb_le; exact Hle).
    now rewrite IH.
Qed.

(** Timers set at the same time queue up, in order, behind those due no
    later. *)
Lemma enqueue_all (t : Z) (A : node_id -> timer_action) (ms : list node_id)
    (p r : list (Z * timer_action)) :
  all_by t p -> blocked t r ->
  fold_left (fun q m => enqueue t (A m) q) ms (p ++ r)
  = p ++ map (fun m => (t, A m)) ms ++ r.
Proof.
  revert p. induction ms as [|m ms IH]; intros p Hp Hr; [reflexivity|]. simpl.
  rewrite enqueue_after by assumption.
  change (p ++ (t, A m) :: r) with (p ++ [(t, A m)] ++ r). rewrite app_assoc.
  rewrite IH; [now rewrite <- app_assoc | | exact Hr].
  apply Forall_app. split; [exact Hp|]. constructor; [simpl; lia | constructor].
Qed.

Lemma due_prefix_all (T : Z) (p r : list (Z * timer_action)) :
  all_by T p -> due_prefix T (p ++ r) = p ++ due_prefix T r.
Proof.
  induction 1 as [|[t a] p Hle Hp IH]; [reflexivity|]. simpl in *.
  replace (t <=? T)%Z with true by (symmetry; apply Z.leb_le; exact Hle).
  now rewrite IH.
Qed.

Lemma due_prefix_blocked (T : Z) (r : list (Z * timer_action)) :
  blocked T r -> due_prefix T r = [].
Proof.
  destruct r as [|[t a] r]; [reflexivity|]. simpl. intros H.
  replace (t <=? T)%Z with false by (symmetry; apply Z.leb_gt; exact H). reflexivity.
Qed.

(** Before their time, timers queued behind [p] do not count. *)
Lemma due_prefix_early (T : Z) (p r r' : list (Z * timer_action)) :
  blocked T r -> blocked T r' -> due_prefix T (p ++ r) = due_prefix T (p ++ r').
Proof.
  intros Hr Hr'. induction p as [|[t a] p IH]; simpl.
  - now rewrite !due_prefix_blocked.
  - destruct (t <=? T)%Z; [now rewrite IH | reflexivity].
Qed.

Lemma all_by_mono (t T : Z) (q : list (Z * timer_action)) :
  (t <= T)%Z -> all_by t q -> all_by T q.
Proof. intros Hle H. unfold all_by in *. eapply List.Forall_impl; [|exact H]. simpl. intros ta ?. lia. Qed.

Lemma blocked_mono (t T : Z) (r : list (Z * timer_action)) :
  (T <= t)%Z -> blocked t r -> blocked T r.
Proof. destruct r as [|[t' a] r]; simpl; lia. Qed.

Lemma blocked_map (t T : Z) (A : node_id -> timer_action) (ms : list node_id)
    (r : list (Z * timer_action)) :
  (T < t)%Z -> blocked T r -> blocked T (map (fun m => (t, A m)) ms ++ r).
Proof. intros Hlt Hr. destruct ms as [|m ms]; simpl; [exact Hr | exact Hlt]. Qed.

Lemma all_by_map (t : Z) (A : node_id -> timer_action) (ms : list node_id) :
  all_by t (map (fun m => (t, A m)) ms).
Proof. induction ms; constructor; [simpl; lia | assumption]. Qed.

Lemma fire_all_app (a b : list (Z * timer_action)) (ns : list Node) :
  fire_all (a ++ b) ns = fire_all b (fire_all a ns).
Proof. apply fold_left_app. Qed.

Lemma fire_all_class_add (t : Z) (c : string) (ms : list node_id) (ns : list Node) :
  fire_all (map (fun m => (t, TClassAdd m c)) ms) ns = alter_all (add_class c) ms ns.
Proof.
  revert ns. induction ms as [|m ms IH]; intros ns; [reflexivity|].
  simpl. now rewrite <- IH.
Qed.

(** *** The transition itself *)

Definition dashboard_sections (w : World) : list node_id :=
  document_querySelectorAll (sel_class "dashboard-section") w.

Definition activation (t : Z) (ms : list node_id) : list (Z * timer_action) :=
  map (fun m => (t, TClassAdd m "active")) ms.

Lemma transition_for_each (ms : list node_id) (w : World) :
  let w' := for_each ms (fun section w =>
              let w := classList_add section "page-transition" w in
              setTimeout (TClassAdd section "active") 100 w) w in
  nodes w' = alter_all (add_class "page-transition") ms (nodes w)
  /\ timers w'
     = fold_left (fun q m => enqueue (clock w + 100) (TClassAdd m "active") q) ms (timers w)
  /\ clock w' = clock w.
Proof.
  cbv zeta. revert w. induction ms as [|m ms IH]; intros w; [now repeat split|].
  rewrite for_each_cons. destruct (IH (setTimeout (TClassAdd m "active") 100
    (classList_add m "page-transition" w))) as (IHn & IHt & IHc).
  rewrite IHn, IHt, IHc. now repeat split.
Qed.

(** After one call: the sections carry [page-transition], and their
    activation timers stand in the queue behind everything due within
    100 ms. *)
Lemma triggerPageTransition_effect (w : World) :
  let ms := dashboard_sections w in
  let t := (clock w + 100)%Z in
  nodes (triggerPageTransition w) = alter_all (add_class "page-transition") ms (nodes w)
  /\ timers (triggerPageTransition w)
     = due_prefix t (timers w) ++ activation t ms ++ due_rest t (timers w)
  /\ clock (triggerPageTransition w) = clock w
  /\ dashboard_sections (triggerPageTransition w) = ms.
Proof.
  cbv zeta. unfold triggerPageTransition. cbv zeta.
  fold (dashboard_sections w).
  destruct (transition_for_each (dashboard_sections w) w) as (Hn & Ht & Hc).
  cbv zeta in Hn, Ht, Hc.
  destruct (due_split (clock w + 100) (timers w)) as (Hq & Hp & Hr).
  repeat split; [exact Hn | | exact Hc |].
  - rewrite Ht. rewrite Hq at 1. now apply enqueue_all.
  - unfold dashboard_sections at 1. rewrite querySelectorAll_query, Hn.
    rewrite query_alter_all; [reflexivity | reflexivity |].
    intros nd. apply has_class_add. discriminate.
Qed.

Lemma due_split_app (t : Z) (p r : list (Z * timer_action)) :
  all_by t p -> blocked t r -> due_prefix t (p ++ r) = p /\ due_rest t (p ++ r) = r.
Proof.
  intros Hp Hr. induction Hp as [|[t' a] p Hle Hp IH]; simpl.
  - destruct r as [|[t' a] r]; [now split|]. simpl in *.
    replace (t' <=? t)%Z with false by (symmetry; apply Z.leb_gt; exact Hr). now split.
  - simpl in Hle. replace (t' <=? t)%Z with true by (symmetry; apply Z.leb_le; exact Hle).
    destruct IH as [-> ->]. now split.
Qed.

(** The classes of a node [n], as a set. *)
Definition class_set (w : World) (n : node_id) (c : string) : Prop :=
  exists nd, nodes w !! n = Some nd /\ In c (classList nd).

(** C10. Calling [triggerPageTransition] twice in succession leaves the
    document as calling it once does: straight after the calls the node
    stores (hence the class list of every [.dashboard-section] element)
    are equal, and they are still equal once any amount of time [d] has
    passed and the timers due by then, among them the delayed additions
    of [active], have run.  The call itself removes no class from any
    node. *)
Theorem triggerPageTransition_idempotent (w : World) (d : Z) :
  nodes (triggerPageTransition (triggerPageTransition w)) = nodes (triggerPageTransition w)
  /\ nodes (advance d (triggerPageTransition (triggerPageTransition w)))
     = nodes (advance d (triggerPageTransition w))
  /\ (forall n c, class_set w n c -> class_set (triggerPageTransition w) n c).
Proof.
  destruct (triggerPageTransition_effect w) as (Hn1 & Ht1 & Hc1 & Hs1).
  destruct (triggerPageTransition_effect (triggerPageTransition w)) as (Hn2 & Ht2 & Hc2 & _).
  cbv zeta in *. rewrite Hs1, Hc1 in *.
  set (ms := dashboard_sections w) in *. set (t := (clock w + 100)%Z) in *.
  destruct (due_split t (timers w)) as (Hq & Hp & Hr).
  set (p := due_prefix t (timers w)) in *. set (r := due_rest t (timers w)) in *.
  assert (HpL : all_by t (p ++ activation t ms)).
  { apply Forall_app. split; [exact Hp | apply all_by_map]. }
  assert (Hn : nodes (triggerPageTransition (triggerPageTransition w))
               = nodes (triggerPageTransition w)).
  { rewrite Hn2, Hn1. apply alter_all_twice. intros nd. apply add_class_twice. }
  assert (Ht : timers (triggerPageTransition (triggerPageTransition w))
               = (p ++ activation t ms) ++ activation t ms ++ r).
  { rewrite Ht2, Ht1, (app_assoc p).
    destruct (due_split_app t (p ++ activation t ms) r HpL Hr) as [-> ->]. reflexivity. }
  split; [exact Hn | split].
  - rewrite !nodes_advance, Hn, Hc2, Hc1, Ht, Ht1.
    set (T := (clock w + d)%Z). set (N := nodes (triggerPageTransition w)).
    destruct (Z_le_gt_dec t T) as [Hle|Hgt].
    + rewrite (app_assoc p), (app_assoc (p ++ activation t ms)).
      rewrite !due_prefix_all.
      * rewrite !fire_all_app. f_equal. unfold activation.
        rewrite !fire_all_class_add. apply alter_all_twice.
        intros nd. apply add_class_twice.
      * apply (all_by_mono t); [exact Hle | exact HpL].
      * apply (all_by_mono t); [exact Hle|].
        apply Forall_app. split; [exact HpL | apply all_by_map].
    + rewrite <- (app_assoc p). f_equal. apply due_prefix_early.
      * apply blocked_map; [lia|]. apply blocked_map; [lia|].
        apply (blocked_mono t); [lia | exact Hr].
      * apply blocked_map; [lia|]. apply (blocked_mono t); [lia | exact Hr].
  - intros n c (nd & Hnd & Hin). unfold class_set. rewrite Hn1.
    rewrite lookup_alter_all by (intros; apply add_class_twice). rewrite Hnd.
    destruct (bool_decide (n ∈ ms)); simpl; [|now exists nd].
    eexists. split; [reflexivity|]. simpl. now apply In_token_add.
Qed.

(** The sample page has one [.dashboard-section]; a second call changes
    nothing there, before or after the 100 ms delay. *)
Example triggerPageTransition_sample :
  let w := construct (sample_page false) in
  let once := advance 100 (triggerPageTransition w) in
  let twice := advance 100 (triggerPageTransition (triggerPageTransition w)) in
  dashboard_sections w = [7]
  /\ (classList <$> nodes once !! 7) = (classList <$> nodes twice !! 7)
  /\ (exists nd, nodes once !! 7 = Some nd
                 /\ In "page-transition" (classList nd) /\ In "active" (classList nd)).
Proof.
  vm_compute. repeat split. eexists. split; [reflexivity|]. simpl. tauto.
Qed.

(** * Further properties of the component *)

(** ** The frame loop keeps one request *)

(** Exactly one frame is requested and the instance holds its handle. *)
Definition running (w : World) : Prop :=
  exists id, rafPending w = [S id] /\ animationFrameId (this w) = Some (S id).

Definition is_destroy (o : op) : bool :=
  match o with
  | OpDestroy => true
  | _ => false
  end.

Lemma snoc_not_nil {A : Type} (l : list A) (x : A) : l ++ [x] <> [].
Proof. destruct l; discriminate. Qed.

Lemma scheduled_running (w : World) : scheduled w -> rafPending w <> [] -> running w.
Proof. intros [H|H] Hne; [contradiction | exact H]. Qed.

Lemma running_step (o : op) (w : World) :
  good_timers w -> is_destroy o = false -> running w -> running (step o w).
Proof.
  intros Ht Ho (id & H1 & H2).
  apply scheduled_running.
  - apply scheduled_step; [exact Ht|]. right. now exists id.
  - destruct (reschedules o) eqn:Hr.
    + destruct o; try discriminate.
      cbn [step]. unfold run_frame. rewrite H1.
      change (for_each [S id] (fun _ => animate) (with_rafPending [] w))
        with (animate (with_rafPending [] w)).
      destruct (animate_frame (with_rafPending [] w) Ht) as (A1 & _).
      rewrite A1. apply snoc_not_nil.
    + assert (HR : Rel quiet 0 w (step o w))
        by (apply Rel_step_mode; [auto | now apply ok_0]).
      destruct (Rel_frame quiet _ _ _ eq_refl HR) as (E & _).
      rewrite E, H1. discriminate.
Qed.

Lemma construct_rafPending (h : World) : pristine h -> rafPending (construct h) <> [].
Proof.
  intros Hp. pose proof (pristine_good h Hp) as Hg.
  unfold construct, init. cbv zeta.
  set (h0 := with_this (new_fields h) h).
  assert (Hg0 : good_timers h0) by exact Hg.
  assert (Hok : ok 0 h0) by now apply ok_0.
  assert (HR : Rel building 0 h0
                 (setupEventListeners
                    (setupScrollAnimations
                       (createCustomCursor (createMotionBackground h0))))).
  { eapply Rel_then; [exact Hok | | apply Rel_setupEventListeners].
    eapply Rel_then; [exact Hok | | apply Rel_setupScrollAnimations].
    eapply Rel_then; [exact Hok | now apply Rel_createMotionBackground
                     | apply Rel_createCustomCursor]. }
  set (w1 := setupEventListeners _) in *.
  assert (Hg1 : good_timers w1) by (apply (rel_timers _ _ _ _ HR), Hg0).
  destruct (animate_frame w1 Hg1) as (A1 & _).
  assert (HR2 : Rel quiet 0 (animate w1) (animatePageTransition (animate w1))).
  { apply Rel_animatePageTransition, ok_0.
    apply (rel_timers _ _ _ _ (Rel_animate 0 w1 (ok_0 _ Hg1))), Hg1. }
  destruct (Rel_frame quiet _ _ _ eq_refl HR2) as (B1 & _).
  unfold startAnimationLoop. rewrite B1, A1. apply snoc_not_nil.
Qed.

Lemma running_run (ops : list op) (w : World) :
  good_timers w -> forallb (fun o => negb (is_destroy o)) ops = true ->
  running w -> running (run ops w).
Proof.
  revert w. induction ops as [|o ops IH]; intros w Ht Hops Hr; [exact Hr|].
  simpl in Hops. apply andb_prop in Hops as [Ho Hops].
  change (run (o :: ops) w) with (run ops (step o w)).
  apply IH; [| exact Hops |].
  - apply (rel_timers _ _ _ _ (Rel_step 0 o w (ok_0 _ Ht))), Ht.
  - apply running_step; [exact Ht | now apply negb_true_iff | exact Hr].
Qed.

(** The animation loop of [startAnimationLoop] never piles up requests.  In
    every state the component can reach, at most one animation frame is
    requested and the instance holds its handle in [animationFrameId]; as
    long as [destroy()] has not been called, exactly one is requested. *)
Theorem frame_loop_keeps_one_request (h : World) (ops : list op) :
  pristine h ->
  let w := run ops (construct h) in
  (forall id, In id (rafPending w) ->
     rafPending w = [id] /\ animationFrameId (this w) = Some id)
  /\ (forallb (fun o => negb (is_destroy o)) ops = true ->
      exists id, rafPending w = [id] /\ animationFrameId (this w) = Some id).
Proof.
  intros Hp w.
  pose proof (reachable_scheduled h ops Hp) as Hs. change (scheduled w) in Hs.
  split.
  - intros id Hin. destruct Hs as [H|(i & H1 & H2)].
    + rewrite H in Hin. destruct Hin.
    + rewrite H1 in Hin. destruct Hin as [<-|[]]. now split.
  - intros Hops.
    assert (Hr : running (construct h)).
    { apply scheduled_running; [now apply construct_scheduled
                                | now apply construct_rafPending]. }
    destruct (running_run ops (construct h)
                (proj2 (construct_installed h Hp)) Hops Hr) as (id & H1 & H2).
    exists (S id). now split.
Qed.

Lemma frame_loop_keeps_one_request_witness :
  pristine (sample_page false)
  /\ exists id,
       rafPending (run [OpFrame; OpMouseMove (mkMouseEvent 5 5); OpFrame]
                       (construct (sample_page false))) = [id].
Proof.
  split; [apply sample_pristine|].
  destruct (frame_loop_keeps_one_request (sample_page false)
              [OpFrame; OpMouseMove (mkMouseEvent 5 5); OpFrame]
              (sample_pristine false)) as (_ & H).
  destruct (H eq_refl) as (id & H1 & _). now exists id.
Defined.

(** ** The configuration is read once *)

Lemma Rel_construct (h : World) :
  pristine h -> Rel (mkMode false false) 0 (with_this (new_fields h) h) (construct h).
Proof.
  intros Hp. pose proof (pristine_good h Hp) as Hg.
  unfold construct, init. cbv zeta.
  set (h0 := with_this (new_fields h) h).
  assert (Hok : ok 0 h0) by (apply ok_0; exact Hg).
  eapply Rel_trans.
  - apply (Rel_relax building (mkMode false false) 0 0); [discriminate | discriminate | lia |].
    eapply Rel_then; [exact Hok | now apply Rel_createMotionBackground
                     | apply Rel_createCustomCursor].
  - apply (Rel_relax framing (mkMode false false) 0 0); [discriminate | discriminate | lia |].
    apply Rel_init_tail.
    eapply Rel_ok; [exact Hok|].
    eapply Rel_then; [exact Hok | now apply Rel_createMotionBackground
                     | apply Rel_createCustomCursor].
Qed.

(** The constructor reads the reduced-motion preference once and fixes the
    throttle interval at 8 ms and the trail length at 8: in every state the
    component can reach, [prefersReducedMotion] is what the media query gave
    at construction, [mouseMoveThrottle] is 8 and [maxTrailLength] is 8. *)
Theorem configuration_is_fixed (h : World) (ops : list op) :
  pristine h ->
  let w := run ops (construct h) in
  prefersReducedMotion (this w) = reducedMotionPref h
  /\ mouseMoveThrottle (this w) = 8%Z
  /\ maxTrailLength (this w) = 8.
Proof.
  intros Hp w.
  destruct (Rel_config _ _ _ _ (Rel_construct h Hp)) as (A1 & A2 & A3).
  assert (Hok : ok 0 (construct h)) by (apply ok_0, (construct_installed h Hp)).
  destruct (Rel_config _ _ _ _ (Rel_run 0 ops (construct h) Hok)) as (B1 & B2 & B3).
  unfold w. rewrite B1, B2, B3, A1, A2, A3. now repeat split.
Qed.

Lemma configuration_is_fixed_witness :
  pristine (sample_page true)
  /\ prefersReducedMotion (this (run [OpResize 10 10; OpFrame] (construct (sample_page true))))
     = true.
Proof.
  split; [apply sample_pristine|].
  exact (proj1 (configuration_is_fixed (sample_page true) [OpResize 10 10; OpFrame]
                  (sample_pristine true))).
Defined.

(** ** [destroy] *)

(** The nodes [destroy] detaches, in the order of its statements. *)
Definition destroy_targets (t : MotionEffects) : list node_id :=
  option_list (cursor t) ++ option_list (cursorDot t) ++ cursorTrail t
  ++ option_list (motionBackground t).

Definition without_frame (t : MotionEffects) (pending : list nat) : list nat :=
  match animationFrameId t with
  | Some (S _ as id) => List.filter (fun i => negb (Nat.eqb i id)) pending
  | _ => pending
  end.

Lemma for_each_remove (l : list node_id) (ns : list Node) (w : World) :
  for_each l remove (with_nodes ns w)
  = with_nodes (alter_all (set_parent None) l ns) w.
Proof.
  revert ns. induction l as [|n l IH]; intros ns; [reflexivity|].
  rewrite for_each_cons. change (remove n (with_nodes ns w))
    with (with_nodes (alter (set_parent None) n ns) w).
  now rewrite IH.
Qed.

Lemma alter_all_app (f : Node -> Node) (l1 l2 : list node_id) (ns : list Node) :
  alter_all f (l1 ++ l2) ns = alter_all f l2 (alter_all f l1 ns).
Proof. apply fold_left_app. Qed.

Lemma alter_all_cons (f : Node -> Node) (n : node_id) (l : list node_id) (ns : list Node) :
  alter_all f (n :: l) ns = alter_all f l (alter f n ns).
Proof. reflexivity. Qed.

Lemma with_nodes_same (w : World) : with_nodes (nodes w) w = w.
Proof. now destruct w. Qed.

Lemma for_each_remove_all (l : list node_id) (w : World) :
  for_each l remove w = with_nodes (alter_all (set_parent None) l (nodes w)) w.
Proof. rewrite <- (with_nodes_same w) at 1. apply for_each_remove. Qed.

Lemma with_rafPending_same (w : World) : with_rafPending (rafPending w) w = w.
Proof. now destruct w. Qed.

Lemma with_ioObserved_same (w : World) : with_ioObserved (ioObserved w) w = w.
Proof. now destruct w. Qed.

Lemma cancel_eq (w : World) :
  match animationFrameId (this w) with
  | Some (S _ as id) => cancelAnimationFrame id w
  | _ => w
  end = with_rafPending (without_frame (this w) (rafPending w)) w.
Proof.
  unfold without_frame.
  destruct (animationFrameId (this w)) as [[|i]|];
    [now rewrite with_rafPending_same | reflexivity | now rewrite with_rafPending_same].
Qed.

Lemma disconnect_eq (w : World) :
  (if intersectionObserver (this w) then with_ioObserved [] w else w)
  = with_ioObserved (if intersectionObserver (this w) then [] else ioObserved w) w.
Proof.
  destruct (intersectionObserver (this w)); [reflexivity | now rewrite with_ioObserved_same].
Qed.

Lemma remove_opt_eq (o : option node_id) (w : World) :
  match o with Some n => remove n w | None => w end
  = with_nodes (alter_all (set_parent None) (option_list o) (nodes w)) w.
Proof.
  destruct o; [reflexivity|].
  change (w = with_nodes (nodes w) w). now rewrite with_nodes_same.
Qed.

(** What [destroy] amounts to: the frame request is withdrawn, the
    intersection observer forgets its targets, the referenced nodes are
    detached.  No field of the instance is assigned. *)
Lemma destroy_eq (w : World) :
  destroy w
  = with_nodes (alter_all (set_parent None) (destroy_targets (this w)) (nodes w))
      (with_ioObserved (if intersectionObserver (this w) then [] else ioObserved w)
         (with_rafPending (without_frame (this w) (rafPending w)) w)).
Proof.
  unfold destroy, destroy_targets.
  rewrite cancel_eq, disconnect_eq.
  set (w2 := with_ioObserved _ _).
  assert (E2 : this w2 = this w /\ nodes w2 = nodes w) by (split; reflexivity).
  destruct E2 as [Et En]. rewrite <- Et, <- En. clearbody w2.
  rewrite (remove_opt_eq (cursor (this w2)) w2).
  rewrite (remove_opt_eq (cursorDot _)), for_each_remove_all, (remove_opt_eq (motionBackground _)).
  cbn [this nodes with_nodes]. rewrite !alter_all_app.
  destruct w2. reflexivity.
Qed.

Lemma filter_twice {A : Type} (f : A -> bool) (l : list A) :
  List.filter f (List.filter f l) = List.filter f l.
Proof.
  induction l as [|x l IH]; [reflexivity|]. simpl.
  destruct (f x) eqn:E; simpl; rewrite ?E, IH; reflexivity.
Qed.

(** Calling [destroy()] a second time changes nothing: the frame request is
    already withdrawn, the observer already disconnected and the nodes
    already detached. *)
Theorem destroy_idempotent (w : World) : destroy (destroy w) = destroy w.
Proof.
  assert (Ht : this (destroy w) = this w) by (rewrite destroy_eq; reflexivity).
  rewrite (destroy_eq (destroy w)), Ht. rewrite (destroy_eq w).
  set (T := destroy_targets (this w)).
  cbn [this nodes rafPending ioObserved with_nodes with_ioObserved with_rafPending].
  rewrite alter_all_twice by reflexivity.
  replace (without_frame (this w) (without_frame (this w) (rafPending w)))
    with (without_frame (this w) (rafPending w)).
  - destruct (intersectionObserver (this w)); reflexivity.
  - unfold without_frame. destruct (animationFrameId (this w)) as [[|i]|]; try reflexivity.
    symmetry. apply filter_twice.
Qed.

(** ** Wiring the interactive elements *)

(** One more set of the five listeners on a node. *)
Definition wire (nd : Node) : Node := set_wired (S (wired nd)) nd.

Lemma lookup_wire_all (l : list node_id) (w : World) (m : node_id) :
  List.NoDup l ->
  nodes (for_each l addInteractiveListeners w) !! m
  = if bool_decide (m ∈ l) then wire <$> nodes w !! m else nodes w !! m.
Proof.
  intros Hnd.
  apply (lookup_for_each_local (fun _ => True) addInteractiveListeners (fun _ => wire));
    auto.
Qed.

(** [setupInteractiveElements] attaches the five listeners exactly once to
    every element of the document that matches the selector of interactive
    elements, touches no other node, and starts the mutation observer. *)
Theorem setupInteractiveElements_wires_each_once (w : World) (n : node_id) :
  nodes (setupInteractiveElements w) !! n
  = (fun nd => if in_document w n && sel_interactive nd then wire nd else nd)
      <$> nodes w !! n
  /\ moActive (setupInteractiveElements w) = true.
Proof.
  split; [|reflexivity].
  unfold setupInteractiveElements, observeNewElements. cbv zeta.
  change (nodes (with_moActive true ?x)) with (nodes x).
  rewrite lookup_wire_all by apply NoDup_querySelectorAll.
  destruct (nodes w !! n) as [nd|] eqn:E.
  - simpl. destruct (in_document w n && sel_interactive nd) eqn:Hc.
    + rewrite bool_decide_eq_true_2; [reflexivity|].
      apply list_elem_of_In. now apply (In_querySelectorAll sel_interactive w n nd E).
    + rewrite bool_decide_eq_false_2; [reflexivity|].
      rewrite list_elem_of_In, (In_querySelectorAll sel_interactive w n nd E), Hc.
      discriminate.
  - now destruct (bool_decide _).
Qed.

(** ** The mutation observer *)

(** Two node stores with the same tree and the same tags and classes. *)
Definition same_shape (ns ns' : list Node) : Prop :=
  length ns = length ns'
  /\ forall n nd, ns !! n = Some nd ->
       exists nd', ns' !! n = Some nd'
         /\ tag nd' = tag nd /\ classList nd' = classList nd /\ parent nd' = parent nd.

Lemma same_shape_refl (ns : list Node) : same_shape ns ns.
Proof. split; [reflexivity|]. intros n nd H. now exists nd. Qed.

Lemma same_shape_trans (a b c : list Node) :
  same_shape a b -> same_shape b c -> same_shape a c.
Proof.
  intros [L1 H1] [L2 H2]. split; [congruence|].
  intros n nd H. destruct (H1 n nd H) as (nd1 & E1 & T1 & C1 & P1).
  destruct (H2 n nd1 E1) as (nd2 & E2 & T2 & C2 & P2).
  exists nd2. repeat split; congruence.
Qed.

Lemma same_shape_lookup (ns ns' : list Node) (n : node_id) :
  same_shape ns ns' ->
  match ns !! n, ns' !! n with
  | Some nd, Some nd' =>
      tag nd' = tag nd /\ classList nd' = classList nd /\ parent nd' = parent nd
  | None, None => True
  | _, _ => False
  end.
Proof.
  intros [L H]. destruct (ns !! n) as [nd|] eqn:E.
  - destruct (H n nd E) as (nd' & -> & ?). assumption.
  - apply lookup_ge_None in E. rewrite L in E. apply lookup_ge_None in E. now rewrite E.
Qed.

Lemma same_shape_wire_all (l : list node_id) (w : World) :
  List.NoDup l -> same_shape (nodes w) (nodes (for_each l addInteractiveListeners w)).
Proof.
  intros Hnd. split.
  - apply (for_each_inv (fun w' => length (nodes w) = length (nodes w'))); [|reflexivity].
    intros x w' _ H. unfold addInteractiveListeners. now rewrite length_upd_node.
  - intros n nd E. rewrite lookup_wire_all, E by exact Hnd.
    destruct (bool_decide (n ∈ l)); simpl; eexists; (split; [reflexivity|]); auto.
Qed.

Lemma ancestors_same_shape (ns ns' : list Node) :
  same_shape ns ns' -> forall fuel n, ancestors fuel ns' n = ancestors fuel ns n.
Proof.
  intros Hs. induction fuel as [|fuel IH]; intros n; [reflexivity|]. simpl.
  pose proof (same_shape_lookup ns ns' n Hs) as H.
  destruct (ns !! n) as [nd|], (ns' !! n) as [nd'|]; try contradiction; [|reflexivity].
  destruct H as (_ & _ & ->). destruct (parent nd); [now rewrite IH | reflexivity].
Qed.

Lemma sel_interactive_shape (nd nd' : Node) :
  tag nd' = tag nd -> classList nd' = classList nd ->
  sel_interactive nd' = sel_interactive nd.
Proof.
  intros Ht Hc. unfold sel_interactive, has_tag, has_any_class, has_class.
  now rewrite Ht, Hc.
Qed.

Lemma matches_same_shape (w w' : World) (n : node_id) :
  same_shape (nodes w) (nodes w') ->
  matches sel_interactive w' n = matches sel_interactive w n.
Proof.
  intros Hs. unfold matches.
  pose proof (same_shape_lookup _ _ n Hs) as H.
  destruct (nodes w !! n) as [nd|], (nodes w' !! n) as [nd'|]; try contradiction;
    [|reflexivity].
  destruct H as (Ht & Hc & _). now apply sel_interactive_shape.
Qed.

Lemma ancestors_of_same_shape (w w' : World) (n : node_id) :
  same_shape (nodes w) (nodes w') -> ancestors_of w' n = ancestors_of w n.
Proof.
  intros Hs. unfold ancestors_of. rewrite <- (proj1 Hs). now apply ancestors_same_shape.
Qed.

Lemma querySelectorAll_same_shape (root : node_id) (w w' : World) :
  same_shape (nodes w) (nodes w') ->
  node_querySelectorAll root sel_interactive w'
  = node_querySelectorAll root sel_interactive w.
Proof.
  intros Hs. unfold node_querySelectorAll, all_ids. rewrite <- (proj1 Hs).
  apply filter_ext. intros n.
  now rewrite (ancestors_of_same_shape w w' n Hs), (matches_same_shape w w' n Hs).
Qed.

Lemma NoDup_node_querySelectorAll (root : node_id) (sel : Node -> bool) (w : World) :
  List.NoDup (node_querySelectorAll root sel w).
Proof. unfold node_querySelectorAll, all_ids. apply List.NoDup_filter, List.seq_NoDup. Qed.

Lemma In_node_querySelectorAll (root n : node_id) (sel : Node -> bool) (w : World) :
  In n (node_querySelectorAll root sel w)
  <-> bool_decide (root ∈ ancestors_of w n) && matches sel w n = true.
Proof.
  unfold node_querySelectorAll, all_ids. rewrite filter_In, in_seq.
  split; [tauto|]. intros H. split; [|exact H].
  apply andb_prop in H as [_ H]. unfold matches in H.
  destruct (nodes w !! n) eqn:E; [|discriminate].
  apply lookup_lt_Some in E. lia.
Qed.

(** The records of a batch that the callback gets through: those before the
    first added element that itself matches the selector.  For such an
    element the callback calls [push] on a [NodeList] and throws. *)
Fixpoint processed (w : World) (added : list node_id) : list node_id :=
  match added with
  | [] => []
  | a :: rest => if matches sel_interactive w a then [] else a :: processed w rest
  end.

Definition wired_by_batch (w : World) (added : list node_id) (n : node_id) : nat :=
  if matches sel_interactive w n
  then length (List.filter (fun a => bool_decide (a ∈ ancestors_of w n)) (processed w added))
  else 0.

Lemma wired_of_wire_all (l : list node_id) (w : World) (n : node_id) :
  List.NoDup l -> (In n l -> n < length (nodes w)) ->
  wired_of (for_each l addInteractiveListeners w) n
  = wired_of w n + (if bool_decide (n ∈ l) then 1 else 0).
Proof.
  intros Hnd Hin. unfold wired_of. rewrite lookup_wire_all by exact Hnd.
  case_bool_decide as E.
  - apply list_elem_of_In, Hin, lookup_lt_is_Some_2 in E. destruct E as [nd ->].
    simpl. lia.
  - destruct (nodes w !! n); simpl; lia.
Qed.

Lemma mutation_callback_wired (added : list node_id) (w0 w : World) (n : node_id) :
  same_shape (nodes w0) (nodes w) ->
  wired_of (mutation_callback added w) n = wired_of w n + wired_by_batch w0 added n.
Proof.
  revert w. induction added as [|a rest IH]; intros w Hs.
  - unfold wired_by_batch. simpl. destruct (matches sel_interactive w0 n); simpl; lia.
  - cbn [mutation_callback]. cbv zeta.
    rewrite (matches_same_shape w0 w a Hs).
    unfold wired_by_batch. cbn [processed].
    destruct (matches sel_interactive w0 a) eqn:Ha.
    + simpl. destruct (matches sel_interactive w0 n); simpl; lia.
    + set (l := node_querySelectorAll a sel_interactive w).
      assert (Hnd : List.NoDup l) by apply NoDup_node_querySelectorAll.
      rewrite IH.
      * rewrite wired_of_wire_all;
          [| exact Hnd
           | unfold l, node_querySelectorAll, all_ids; rewrite filter_In, in_seq; lia].
        unfold wired_by_batch. cbn [List.filter].
        assert (E : bool_decide (n ∈ l)
                    = bool_decide (a ∈ ancestors_of w0 n) && matches sel_interactive w0 n).
        { apply eq_true_iff_eq. rewrite bool_decide_eq_true, list_elem_of_In.
          unfold l. rewrite In_node_querySelectorAll.
          now rewrite (ancestors_of_same_shape w0 w n Hs), (matches_same_shape w0 w n Hs). }
        rewrite E.
        destruct (matches sel_interactive w0 n), (bool_decide (a ∈ ancestors_of w0 n));
          simpl; lia.
      * eapply same_shape_trans; [exact Hs | now apply same_shape_wire_all].
Qed.

(** The callback of the mutation observer attaches one more set of
    listeners to a matching element for each processed record whose added
    node is a strict ancestor of it, and none otherwise.  An added element
    that itself matches the selector gets none on its own account, and the
    records after it are not processed, because the callback throws there. *)
Theorem mutation_callback_wires_descendants (added : list node_id) (w : World)
    (n : node_id) :
  wired_of (mutation_callback added w) n = wired_of w n + wired_by_batch w added n.
Proof. apply mutation_callback_wired, same_shape_refl. Qed.

(** ** Resizing the window *)

Lemma lookup_alter_all_app (f : Node -> Node) (l1 l2 : list node_id) (ns : list Node)
    (k : nat) :
  (forall nd, f (f nd) = f nd) ->
  alter_all f l2 (alter_all f l1 ns) !! k
  = if bool_decide (k ∈ l1) || bool_decide (k ∈ l2) then f <$> ns !! k else ns !! k.
Proof.
  intros Hf. rewrite !lookup_alter_all by exact Hf.
  destruct (bool_decide (k ∈ l1)), (bool_decide (k ∈ l2)), (ns !! k); simpl;
    now rewrite ?Hf.
Qed.

Lemma bool_decide_filter (c : node_id -> bool) (l : list node_id) (k : node_id) :
  bool_decide (k ∈ List.filter c l) = bool_decide (k ∈ l) && c k.
Proof.
  apply eq_true_iff_eq.
  rewrite andb_true_iff, !bool_decide_eq_true, !list_elem_of_In, filter_In. tauto.
Qed.

(** A loop that marks the elements passing a test which does not depend on
    the node store. *)
Lemma nodes_for_each_reveal (test : node_id -> World -> bool) (l : list node_id) :
  (forall el x w, test el (classList_add x "visible" w) = test el w) ->
  forall w,
    let w' := for_each l (fun el w => if test el w then classList_add el "visible" w
                                      else w) w in
    nodes w' = alter_all (add_class "visible") (List.filter (fun el => test el w) l) (nodes w)
    /\ this w' = this w
    /\ (forall el, test el w' = test el w).
Proof.
  intros Ht. induction l as [|x l IH]; intros w; [now repeat split|].
  cbv zeta. rewrite for_each_cons. cbn [List.filter].
  destruct (test x w) eqn:E.
  - destruct (IH (classList_add x "visible" w)) as (Hn & Hthis & Htest).
    rewrite Hn, Hthis. split; [|split].
    + rewrite alter_all_cons. f_equal. apply filter_ext. intros el. apply Ht.
    + reflexivity.
    + intros el. now rewrite Htest, Ht.
  - exact (IH w).
Qed.

Lemma nodes_for_each_classList_add (c : string) (l : list node_id) (w : World) :
  nodes (for_each l (fun el => classList_add el c) w) = alter_all (add_class c) l (nodes w)
  /\ this (for_each l (fun el => classList_add el c) w) = this w.
Proof.
  revert w. induction l as [|x l IH]; intros w; [now split|].
  rewrite for_each_cons. destruct (IH (classList_add x c w)) as (Hn & Ht).
  rewrite Hn, Ht. now split.
Qed.

Definition tracked (w : World) (n : node_id) : bool :=
  bool_decide (n ∈ animatedElements (this w)) || bool_decide (n ∈ staggerGroups (this w)).

(** What [checkElementsInViewport] marks. *)
Definition revealed (w : World) (n : node_id) : bool :=
  tracked w n && (prefersReducedMotion (this w) || isElementInViewport n w).

Lemma checkElementsInViewport_nodes (w : World) (n : node_id) :
  nodes (checkElementsInViewport w) !! n
  = if revealed w n then add_class "visible" <$> nodes w !! n else nodes w !! n.
Proof.
  unfold checkElementsInViewport, revealed, tracked.
  destruct (prefersReducedMotion (this w)).
  - cbv zeta.
    destruct (nodes_for_each_classList_add "visible" (animatedElements (this w)) w)
      as (N1 & T1).
    set (w1 := for_each (animatedElements (this w)) _ w) in *.
    destruct (nodes_for_each_classList_add "visible" (staggerGroups (this w1)) w1)
      as (N2 & _).
    rewrite N2, N1, T1.
    rewrite lookup_alter_all_app by apply add_class_twice.
    now rewrite andb_true_r.
  - destruct (nodes_for_each_reveal isElementInViewport (animatedElements (this w))
                ltac:(reflexivity) w) as (N1 & T1 & V1).
    cbv zeta in N1, T1, V1. cbv zeta.
    set (w1 := for_each (animatedElements (this w)) _ w) in *.
    destruct (nodes_for_each_reveal isElementInViewport (staggerGroups (this w1))
                ltac:(reflexivity) w1) as (N2 & _).
    cbv zeta in N2. rewrite N2, N1, T1.
    rewrite lookup_alter_all_app by apply add_class_twice.
    rewrite !bool_decide_filter, V1. simpl.
    destruct (bool_decide (n ∈ animatedElements (this w))),
      (bool_decide (n ∈ staggerGroups (this w))), (isElementInViewport n w); reflexivity.
Qed.

(** On a resize the centre of the parallax becomes the centre of the new
    window, and exactly the elements tracked for scroll animation that pass
    the viewport test (all of them under reduced motion) get the class
    [visible]; no other node changes.  The test: the element's top is at
    most 100 px above the bottom of the window and its bottom is not above
    the top, where the window height is [innerHeight], or [clientHeight] of
    the document element if that is 0. *)
Theorem handleResize_reveals_elements_in_view (w : World) (n : node_id) :
  let w' := handleResize w in
  let height := if Qeq_bool (innerHeight w) 0 then clientHeight w else innerHeight w in
  centerX (this w') = (innerWidth w / 2)%Q
  /\ centerY (this w') = (innerHeight w / 2)%Q
  /\ nodes w' !! n
     = (if revealed w n then add_class "visible" <$> nodes w !! n else nodes w !! n)
  /\ isElementInViewport n w
     = Qle_bool (rect_top (rects w n)) (height - 100)
       && Qle_bool 0 (rect_top (rects w n) + rect_height (rects w n)).
Proof.
  cbv zeta. unfold handleResize. cbv zeta.
  set (w0 := upd_this _ (upd_this _ w)).
  assert (Hthis : this (checkElementsInViewport w0) = this w0).
  { unfold checkElementsInViewport.
    destruct (prefersReducedMotion (this w0)).
    - destruct (nodes_for_each_classList_add "visible" (animatedElements (this w0)) w0)
        as (_ & T1).
      set (w1 := for_each (animatedElements (this w0)) _ w0) in *.
      destruct (nodes_for_each_classList_add "visible" (staggerGroups (this w1)) w1)
        as (_ & T2).
      now rewrite T2.
    - destruct (nodes_for_each_reveal isElementInViewport (animatedElements (this w0))
                  ltac:(reflexivity) w0) as (_ & T1 & _). cbv zeta in T1.
      set (w1 := for_each (animatedElements (this w0)) _ w0) in *.
      destruct (nodes_for_each_reveal isElementInViewport (staggerGroups (this w1))
                  ltac:(reflexivity) w1) as (_ & T2 & _). cbv zeta in T2.
      now rewrite T2. }
  rewrite Hthis. repeat split.
  exact (checkElementsInViewport_nodes w0 n).
Qed.

(** ** Classes that come and go with a timer *)

(** Whether node [n] of a store carries class [c]. *)
Definition carries (c : string) (ns : list Node) (n : node_id) : bool :=
  match ns !! n with
  | Some nd => has_class c nd
  | None => false
  end.

Lemma carries_alter (c : string) (f : Node -> Node) (m n : node_id) (ns : list Node) :
  carries c (alter f m ns) n
  = if decide (m = n) then match ns !! n with
                           | Some nd => has_class c (f nd)
                           | None => false
                           end
    else carries c ns n.
Proof.
  unfold carries. rewrite list_lookup_alter.
  destruct (decide (m = n)) as [->|]; [|reflexivity]. now destruct (ns !! n).
Qed.

Lemma has_class_In (c : string) (nd : Node) : has_class c nd = true <-> In c (classList nd).
Proof. unfold has_class. now rewrite bool_decide_eq_true, list_elem_of_In. Qed.

Lemma has_class_added (c : string) (nd : Node) : has_class c (add_class c nd) = true.
Proof. apply has_class_In. apply In_token_add_self. Qed.

Lemma has_class_add_other (c c' : string) (nd : Node) :
  has_class c nd = true -> has_class c (add_class c' nd) = true.
Proof. rewrite !has_class_In. apply In_token_add. Qed.

Definition remove_class (c : string) (nd : Node) : Node :=
  set_classList (token_remove c (classList nd)) nd.

Lemma has_class_removed (c : string) (nd : Node) : has_class c (remove_class c nd) = false.
Proof.
  apply not_true_is_false. rewrite has_class_In. unfold remove_class, token_remove. simpl.
  rewrite filter_In, String.eqb_refl. intros [_ H]. discriminate H.
Qed.

Lemma has_class_remove_other (c c' : string) (nd : Node) :
  c <> c' -> has_class c (remove_class c' nd) = has_class c nd.
Proof.
  intros Hne. apply eq_true_iff_eq. rewrite !has_class_In.
  unfold remove_class, token_remove. simpl. rewrite filter_In.
  split; [tauto|]. intros H. split; [exact H|].
  apply negb_true_iff. now apply String.eqb_neq.
Qed.

Lemma has_class_set_parent (c : string) (p : option node_id) (nd : Node) :
  has_class c (set_parent p nd) = has_class c nd.
Proof. reflexivity. Qed.

(** A timer that does not add [c] to [n] leaves [n] without it. *)
Lemma fire_nodes_absent (a : timer_action) (c : string) (n : node_id) (ns : list Node) :
  a <> TClassAdd n c -> carries c ns n = false -> carries c (fire_nodes a ns) n = false.
Proof.
  intros Ha H. destruct a as [m|m c'|m c']; cbn [fire_nodes]; rewrite carries_alter;
    (destruct (decide (m = n)) as [->|]; [|exact H]);
    unfold carries in H; (destruct (ns !! n) as [nd|]; [|reflexivity]).
  - exact H.
  - fold (add_class c' nd). destruct (decide (c = c')) as [->|Hne]; [congruence|].
    now rewrite has_class_add.
  - fold (remove_class c' nd). destruct (decide (c = c')) as [->|Hne].
    + apply has_class_removed.
    + now rewrite has_class_remove_other.
Qed.

(** A timer that does not remove [c] from [n] leaves it there. *)
Lemma fire_nodes_present (a : timer_action) (c : string) (n : node_id) (ns : list Node) :
  a <> TClassRemove n c -> carries c ns n = true -> carries c (fire_nodes a ns) n = true.
Proof.
  intros Ha H. destruct a as [m|m c'|m c']; cbn [fire_nodes]; rewrite carries_alter;
    (destruct (decide (m = n)) as [->|]; [|exact H]);
    unfold carries in H; (destruct (ns !! n) as [nd|]; [|discriminate]).
  - exact H.
  - fold (add_class c' nd). now apply has_class_add_other.
  - fold (remove_class c' nd). destruct (decide (c = c')) as [->|Hne]; [congruence|].
    now rewrite has_class_remove_other.
Qed.

Lemma fire_all_removes (due : list (Z * timer_action)) (t : Z) (c : string) (n : node_id)
    (ns : list Node) :
  In (t, TClassRemove n c) due \/ carries c ns n = false ->
  Forall (fun ta => snd ta <> TClassAdd n c) due ->
  carries c (fire_all due ns) n = false.
Proof.
  revert ns. induction due as [|[t' a] due IH]; intros ns Hin Hall.
  - destruct Hin as [[]|H]. exact H.
  - inversion Hall as [|? ? Ha Hall']; subst. simpl in Ha.
    change (fire_all ((t', a) :: due) ns) with (fire_all due (fire_nodes a ns)).
    apply IH; [|exact Hall'].
    destruct Hin as [[E|Hin]|H].
    + injection E as -> ->. right. cbn [fire_nodes]. rewrite carries_alter.
      destruct (decide (n = n)); [|congruence]. destruct (ns !! n) as [nd|]; [|reflexivity].
      apply (has_class_removed c nd).
    + now left.
    + right. now apply fire_nodes_absent.
Qed.

Lemma fire_all_adds (due : list (Z * timer_action)) (t : Z) (c : string) (n : node_id)
    (ns : list Node) :
  n < length ns ->
  In (t, TClassAdd n c) due \/ carries c ns n = true ->
  Forall (fun ta => snd ta <> TClassRemove n c) due ->
  carries c (fire_all due ns) n = true.
Proof.
  revert ns. induction due as [|[t' a] due IH]; intros ns Hn Hin Hall.
  - destruct Hin as [[]|H]. exact H.
  - inversion Hall as [|? ? Ha Hall']; subst. simpl in Ha.
    change (fire_all ((t', a) :: due) ns) with (fire_all due (fire_nodes a ns)).
    apply IH; [| |exact Hall'].
    + destruct a; cbn [fire_nodes]; now rewrite length_alter.
    + destruct Hin as [[E|Hin]|H].
      * injection E as -> ->. right. cbn [fire_nodes]. rewrite carries_alter.
        destruct (decide (n = n)); [|congruence].
        destruct (lookup_lt_is_Some_2 ns n Hn) as [nd ->]. apply (has_class_added c nd).
      * now left.
      * right. now apply fire_nodes_present.
Qed.

Lemma due_prefix_due (now : Z) (q : list (Z * timer_action)) (ta : Z * timer_action) :
  In ta (due_prefix now q) -> (fst ta <= now)%Z.
Proof.
  induction q as [|[t a] q IH]; simpl; [tauto|].
  destruct (t <=? now)%Z eqn:E; simpl; [|tauto].
  intros [<-|H]; [now apply Z.leb_le | auto].
Qed.

Lemma In_enqueue_inv (t : Z) (a : timer_action) (q : list (Z * timer_action))
    (ta : Z * timer_action) :
  In ta (enqueue t a q) -> ta = (t, a) \/ In ta q.
Proof.
  induction q as [|[t' a'] q IH]; simpl; [intros [<-|[]]; now left|].
  destruct (t' <=? t)%Z; simpl.
  - intros [H|H]; [now right; left|]. destruct (IH H); auto.
  - intros [<-|[H|H]]; auto.
Qed.

(** The timers that run when [d] ms pass after [setTimeout (a, delay)]. *)
Lemma due_after_setTimeout (P : timer_action -> Prop) (a : timer_action) (delay d : Z)
    (w : World) :
  Forall (fun ta => P (snd ta)) (timers w) ->
  (P a \/ (d < delay)%Z) ->
  Forall (fun ta => P (snd ta))
    (due_prefix (clock w + d) (timers (setTimeout a delay w))).
Proof.
  intros Hq Ha. apply List.Forall_forall. intros ta Hin.
  pose proof (due_prefix_due _ _ _ Hin) as Hdue.
  apply due_prefix_incl in Hin. unfold setTimeout in Hin. cbn [timers with_timers] in Hin.
  apply In_enqueue_inv in Hin as [->|Hin].
  - destruct Ha as [Ha|Ha]; [exact Ha | simpl in Hdue; lia].
  - rewrite List.Forall_forall in Hq. now apply Hq.
Qed.

(** A class added now and taken away by a timer: it is on the node at
    once, it is still there before the delay has passed if no earlier timer
    takes it away, and it is gone once the delay has passed if no timer adds
    it again. *)
Lemma class_for_a_while (n : node_id) (c : string) (delay d : Z) (w : World) :
  n < length (nodes w) ->
  let w1 := setTimeout (TClassRemove n c) delay (classList_add n c w) in
  matches (sel_class c) w1 n = true
  /\ ((delay <= d)%Z ->
      Forall (fun ta => snd ta <> TClassAdd n c) (timers w) ->
      matches (sel_class c) (advance d w1) n = false)
  /\ ((d < delay)%Z ->
      Forall (fun ta => snd ta <> TClassRemove n c) (timers w) ->
      matches (sel_class c) (advance d w1) n = true).
Proof.
  intros Hn w1.
  assert (Hnow : carries c (nodes w1) n = true).
  { unfold w1, setTimeout, classList_add, upd_node. cbn [nodes with_nodes with_timers].
    rewrite carries_alter. destruct (decide (n = n)); [|congruence].
    destruct (lookup_lt_is_Some_2 (nodes w) n Hn) as [nd ->]. apply (has_class_added c nd). }
  assert (Hlen : n < length (nodes w1)).
  { unfold w1, setTimeout, classList_add. cbn [nodes with_timers].
    now rewrite length_upd_node. }
  change (matches (sel_class c) w1 n) with (carries c (nodes w1) n).
  split; [exact Hnow | split]; intros Hd Hq;
    change (matches (sel_class c) (advance d w1) n)
      with (carries c (nodes (advance d w1)) n);
    rewrite nodes_advance.
  - apply (fire_all_removes _ (clock w + delay)%Z).
    + left. unfold w1, setTimeout. cbn [timers with_timers clock].
      apply enqueue_due. change (clock (classList_add n c w)) with (clock w). lia.
    + apply (due_after_setTimeout (fun a => a <> TClassAdd n c) _ delay d
               (classList_add n c w)); [exact Hq | left; discriminate].
  - apply (fire_all_adds _ 0%Z); [exact Hlen | now right |].
    apply (due_after_setTimeout (fun a => a <> TClassRemove n c) _ delay d
             (classList_add n c w)); [exact Hq | now right].
Qed.

(** [handleThemeChange]: the body carries [theme-transitioning] at once; it
    has lost it once 600 ms have passed, unless a pending timer adds it
    again; and it keeps it for the whole 600 ms unless the timer of an
    earlier theme change is still pending. *)
Theorem handleThemeChange_marks_body_for_600ms (w : World) (d : Z) :
  0 < length (nodes w) ->
  let w1 := handleThemeChange w in
  matches (sel_class "theme-transitioning") w1 body = true
  /\ ((600 <= d)%Z ->
      Forall (fun ta => snd ta <> TClassAdd body "theme-transitioning") (timers w) ->
      matches (sel_class "theme-transitioning") (advance d w1) body = false)
  /\ ((d < 600)%Z ->
      Forall (fun ta => snd ta <> TClassRemove body "theme-transitioning") (timers w) ->
      matches (sel_class "theme-transitioning") (advance d w1) body = true).
Proof. intros Hn. exact (class_for_a_while body "theme-transitioning" 600 d w Hn). Qed.

Lemma handleThemeChange_marks_body_for_600ms_witness :
  let w := construct (sample_page false) in
  matches (sel_class "theme-transitioning") (handleThemeChange w) body = true
  /\ matches (sel_class "theme-transitioning") (advance 600 (handleThemeChange w)) body
     = false.
Proof.
  intros w.
  assert (Hn : 0 < length (nodes w)) by (vm_compute; lia).
  destruct (handleThemeChange_marks_body_for_600ms w 600 Hn) as (A & B & _).
  split; [exact A|]. apply B; [lia|].
  vm_compute. repeat constructor; discriminate.
Defined.

(** Two theme changes 300 ms apart: the timer of the first takes the class
    away 300 ms into the second transition. *)
Example second_theme_change_is_cut_short :
  let w := step OpThemeChange (step (OpAdvance 300)
             (step OpThemeChange (construct (sample_page false)))) in
  matches (sel_class "theme-transitioning") w body = true
  /\ matches (sel_class "theme-transitioning") (step (OpAdvance 300) w) body = false.
Proof. vm_compute. split; reflexivity. Qed.

(** [addShimmerLoading]: nothing happens under reduced motion; otherwise the
    element carries [loading] at once, has lost it once 2000 ms have passed
    (unless a pending timer adds it again), and keeps it until then unless
    the timer of an earlier call is still pending. *)
Theorem addShimmerLoading_marks_for_2000ms (element : node_id) (w : World) (d : Z) :
  element < length (nodes w) ->
  let w1 := addShimmerLoading element w in
  (prefersReducedMotion (this w) = true -> w1 = w)
  /\ (prefersReducedMotion (this w) = false ->
      matches (sel_class "loading") w1 element = true
      /\ ((2000 <= d)%Z ->
          Forall (fun ta => snd ta <> TClassAdd element "loading") (timers w) ->
          matches (sel_class "loading") (advance d w1) element = false)
      /\ ((d < 2000)%Z ->
          Forall (fun ta => snd ta <> TClassRemove element "loading") (timers w) ->
          matches (sel_class "loading") (advance d w1) element = true)).
Proof.
  intros Hn w1. unfold w1, addShimmerLoading.
  split; intros ->; [reflexivity|].
  exact (class_for_a_while element "loading" 2000 d w Hn).
Qed.

Lemma addShimmerLoading_marks_for_2000ms_witness :
  let w := construct (sample_page false) in
  matches (sel_class "loading") (addShimmerLoading 3 w) 3 = true
  /\ matches (sel_class "loading") (advance 2000 (addShimmerLoading 3 w)) 3 = false.
Proof.
  intros w.
  assert (Hn : 3 < length (nodes w)) by (vm_compute; lia).
  assert (Hm : prefersReducedMotion (this w) = false) by (vm_compute; reflexivity).
  destruct (addShimmerLoading_marks_for_2000ms 3 w 2000 Hn) as (_ & H).
  destruct (H Hm) as (A & B & _).
  split; [exact A|]. apply B; [lia|].
  vm_compute. repeat constructor; discriminate.
Defined.

(** ** The entry transition *)

(** The first match of a search and what precedes it. *)
Lemma head_filter_split {A : Type} (p : A -> bool) (l : list A) (m : A) :
  head (List.filter p l) = Some m ->
  p m = true
  /\ exists before after, l = before ++ m :: after /\ forall n, In n before -> p n = false.
Proof.
  induction l as [|x l IH]; [discriminate|].
  cbn [List.filter]. destruct (p x) eqn:E.
  - intros [= <-]. split; [exact E|]. exists [], l. split; [reflexivity | intros n []].
  - intros H. destruct (IH H) as (Hm & before & after & -> & Hb).
    split; [exact Hm|]. exists (x :: before), after. split; [reflexivity|].
    intros n [<-|Hn]; [exact E | now apply Hb].
Qed.

Lemma head_filter_none {A : Type} (p : A -> bool) (l : list A) :
  head (List.filter p l) = None -> forall n, In n l -> p n = false.
Proof.
  induction l as [|x l IH]; [intros _ n []|].
  cbn [List.filter]. destruct (p x) eqn:E; [discriminate|].
  intros H n [<-|Hn]; [exact E | now apply IH].
Qed.

(** The document in document order holds the nodes connected to the body,
    and no others. *)
Lemma connected_body_any (g : nat) (ns : list Node) : connected g ns body = true.
Proof. now destruct g. Qed.

Lemma connected_mono (ns : list Node) (g k : nat) (n : node_id) :
  connected g ns n = true -> connected (g + k) ns n = true.
Proof.
  revert n. induction g as [|g IH]; intros n.
  - simpl. destruct (Nat.eqb_spec n body) as [->|Hne]; [|discriminate].
    intros _. apply connected_body_any.
  - cbn [connected Nat.add]. destruct (Nat.eqb n body); [reflexivity|].
    destruct (ns !! n) as [nd|]; [|discriminate].
    destruct (parent nd) as [q|]; [|discriminate]. apply IH.
Qed.

Lemma In_children (ns : list Node) (p n : node_id) :
  In n (children ns p) <-> exists nd, ns !! n = Some nd /\ parent nd = Some p.
Proof.
  unfold children, is_child. rewrite filter_In, in_seq. split.
  - intros (_ & H). destruct (ns !! n) as [nd|]; [|discriminate].
    exists nd. split; [reflexivity|]. now apply bool_decide_eq_true in H.
  - intros (nd & E & Hp). rewrite E. split.
    + apply lookup_lt_Some in E. lia.
    + now apply bool_decide_eq_true.
Qed.

Lemma preorder_connected (ns : list Node) (f g : nat) (n x : node_id) :
  connected g ns n = true -> In x (preorder (S f) ns n) ->
  connected (g + f) ns x = true.
Proof.
  revert g n. induction f as [|f IH]; intros g n Hn Hx.
  - cbn [preorder] in Hx. destruct Hx as [<-|Hx]; [now apply connected_mono|].
    apply in_flat_map in Hx as (c & _ & []).
  - change (preorder (S (S f)) ns n)
      with (n :: flat_map (preorder (S f) ns) (children ns n)) in Hx.
    destruct Hx as [<-|Hx]; [now apply connected_mono|].
    apply in_flat_map in Hx as (c & Hc & Hx). apply In_children in Hc as (nd & E & Hp).
    replace (g + S f) with (S g + f) by lia. apply (IH (S g) c); [|exact Hx].
    cbn [connected]. destruct (Nat.eqb c body); [reflexivity|]. now rewrite E, Hp.
Qed.

Lemma preorder_step (ns : list Node) (f : nat) (r p x : node_id) :
  In p (preorder f ns r) -> In x (children ns p) -> In x (preorder (S f) ns r).
Proof.
  revert r. induction f as [|f IH]; intros r Hp Hx; [destruct Hp|].
  change (preorder (S (S f)) ns r) with (r :: flat_map (preorder (S f) ns) (children ns r)).
  cbn [preorder] in Hp. destruct Hp as [<-|Hp].
  - right. apply in_flat_map. exists x. split; [exact Hx | now left].
  - apply in_flat_map in Hp as (c & Hc & Hp).
    right. apply in_flat_map. exists c. split; [exact Hc | now apply IH].
Qed.

Lemma connected_preorder (ns : list Node) (g : nat) (x : node_id) :
  connected g ns x = true -> In x (preorder (S g) ns body).
Proof.
  revert x. induction g as [|g IH]; intros x.
  - simpl. destruct (Nat.eqb_spec x body) as [->|Hne]; [now left | discriminate].
  - cbn [connected]. destruct (Nat.eqb_spec x body) as [->|Hne]; [intros _; now left|].
    destruct (ns !! x) as [nd|] eqn:E; [|discriminate].
    destruct (parent nd) as [q|] eqn:Hq; [|discriminate].
    intros Hc. apply (preorder_step ns (S g) body q x); [now apply IH|].
    apply In_children. now exists nd.
Qed.

Lemma document_order_spec (w : World) (n : node_id) :
  In n (document_order w) <-> in_document w n = true.
Proof.
  unfold document_order, in_document. split.
  - apply (preorder_connected (nodes w) (length (nodes w)) 0 body n).
    apply connected_body_any.
  - intros H. apply (connected_preorder (nodes w) (length (nodes w)) n H).
Qed.

Lemma class_added_later (n : node_id) (c : string) (delay d : Z) (w : World) :
  n < length (nodes w) -> (delay <= d)%Z ->
  Forall (fun ta => snd ta <> TClassRemove n c) (timers w) ->
  matches (sel_class c) (advance d (setTimeout (TClassAdd n c) delay w)) n = true.
Proof.
  intros Hn Hd Hq.
  change (carries c (nodes (advance d (setTimeout (TClassAdd n c) delay w))) n = true).
  rewrite nodes_advance.
  apply (fire_all_adds _ (clock w + delay)%Z); [exact Hn | |].
  - left. unfold setTimeout. cbn [timers with_timers clock]. apply enqueue_due. lia.
  - apply (due_after_setTimeout (fun a => a <> TClassRemove n c) _ delay d w);
      [exact Hq | left; discriminate].
Qed.

(** [animatePageTransition] does nothing on a page without a [.main]
    element in the document.  Otherwise it picks the [.main] element that
    comes first in document order, whatever the ids are, gives it the class
    [page-transition] and touches no other node; once 50 ms have passed the
    element carries [active] as well, unless a pending timer takes it
    away. *)
Theorem animatePageTransition_marks_first_main (w : World) (d : Z) :
  match document_querySelector (sel_class "main") w with
  | None =>
      (forall n, in_document w n = true -> matches (sel_class "main") w n = false)
      /\ animatePageTransition w = w
  | Some m =>
      in_document w m && matches (sel_class "main") w m = true
      /\ (exists before after,
            document_order w = before ++ m :: after
            /\ forall n, In n before -> matches (sel_class "main") w n = false)
      /\ nodes (animatePageTransition w) = alter (add_class "page-transition") m (nodes w)
      /\ ((50 <= d)%Z ->
          Forall (fun ta => snd ta <> TClassRemove m "active") (timers w) ->
          matches (sel_class "active") (advance d (animatePageTransition w)) m = true)
  end.
Proof.
  unfold animatePageTransition.
  destruct (document_querySelector (sel_class "main") w) as [m|] eqn:E.
  - unfold document_querySelector in E.
    destruct (head_filter_split _ _ _ E) as (Hm & before & after & Ho & Hb).
    assert (Hd : in_document w m = true).
    { apply document_order_spec. rewrite Ho. apply in_or_app. right. now left. }
    split; [now rewrite Hd, Hm|]. split; [now exists before, after|].
    split; [reflexivity|]. intros Hd50 Hq.
    apply (class_added_later m "active" 50 d (classList_add m "page-transition" w));
      [| exact Hd50 | exact Hq].
    unfold classList_add. rewrite length_upd_node.
    unfold matches in Hm. destruct (nodes w !! m) eqn:El; [|discriminate].
    eapply lookup_lt_Some; eauto.
  - split; [|reflexivity]. intros n Hn.
    apply (head_filter_none _ _ E). now apply document_order_spec.
Qed.

(** The page [body > [div > [div.main], div.main]], with the nested
    [.main] numbered after the outer one: the transition goes to the nested
    element, which comes first in the document. *)
Example animatePageTransition_follows_the_tree :
  let page := [mkNode "body" [] no_style None 0;
               mkNode "div" [] no_style (Some 0) 0;
               mkNode "div" ["main"] no_style (Some 0) 0;
               mkNode "div" ["main"] no_style (Some 1) 0] in
  let w := with_nodes page (sample_page false) in
  document_order w = [0; 1; 3; 2]
  /\ document_querySelector (sel_class "main") w = Some 3
  /\ matches (sel_class "page-transition") (animatePageTransition w) 3 = true
  /\ matches (sel_class "page-transition") (animatePageTransition w) 2 = false.
Proof. vm_compute. repeat split; reflexivity. Qed.

(** ** What the builders build *)

(** A [div] as the builders leave it: classes, inline style and parent set,
    no listener attached. *)
Definition made (cs : list string) (st : Style) (p : node_id) : Node :=
  mkNode "div" cs st (Some p) 0.

Definition layer_node (mb i : nat) : Node :=
  made ["layer"; layer_class i]
       (css "absolute" (Some (Px (-100))) (Some (Px (-100))) None None []) mb.

(** The particle whose size, left and top are the draws [r], [r + 1] and
    [r + 2] of [Math.random()]. *)
Definition particle_node (container : node_id) (rnd : nat -> Q) (r : nat) : Node :=
  made ["particle"]
       (css "absolute" (Some (Pct (rnd (S r) * 100))) (Some (Pct (rnd (S (S r)) * 100)))
            (Some (Px (8 + rnd r * 17))) (Some (Px (8 + rnd r * 17))) [])
       container.

(** Each particle takes seven draws. *)
Fixpoint particle_nodes (container : node_id) (rnd : nat -> Q) (r n : nat) : list Node :=
  match n with
  | O => []
  | S n' => particle_node container rnd r :: particle_nodes container rnd (7 + r) n'
  end.

Definition trail_node : Node :=
  made ["custom-cursor-trail"] (css "fixed" None None (Some (Px 4)) (Some (Px 4)) []) body.

Definition push_layers (ids : list node_id) (t : MotionEffects) : MotionEffects :=
  set_layers (layers t ++ ids) t.

Definition push_particles (ids : list node_id) (t : MotionEffects) : MotionEffects :=
  set_particles (particles t ++ ids) t.

Definition push_shape (t : MotionEffects) (id : node_id) : MotionEffects :=
  set_floatingShapes (Some (default [] (floatingShapes t) ++ [id])) t.

Definition push_trail (ids : list node_id) (t : MotionEffects) : MotionEffects :=
  set_cursorTrail (cursorTrail t ++ ids) t.

Lemma push_layers_nil (t : MotionEffects) : push_layers [] t = t.
Proof. destruct t. unfold push_layers, set_layers. simpl. now rewrite app_nil_r. Qed.

Lemma push_layers_cons (id : node_id) (ids : list node_id) (t : MotionEffects) :
  push_layers ids (push_layers [id] t) = push_layers (id :: ids) t.
Proof. destruct t. unfold push_layers, set_layers. simpl. now rewrite <- app_assoc. Qed.

Lemma push_particles_nil (t : MotionEffects) : push_particles [] t = t.
Proof. destruct t. unfold push_particles, set_particles. simpl. now rewrite app_nil_r. Qed.

Lemma push_particles_cons (id : node_id) (ids : list node_id) (t : MotionEffects) :
  push_particles ids (push_particles [id] t) = push_particles (id :: ids) t.
Proof. destruct t. unfold push_particles, set_particles. simpl. now rewrite <- app_assoc. Qed.

Lemma push_trail_nil (t : MotionEffects) : push_trail [] t = t.
Proof. destruct t. unfold push_trail, set_cursorTrail. simpl. now rewrite app_nil_r. Qed.

Lemma push_trail_cons (id : node_id) (ids : list node_id) (t : MotionEffects) :
  push_trail ids (push_trail [id] t) = push_trail (id :: ids) t.
Proof. destruct t. unfold push_trail, set_cursorTrail. simpl. now rewrite <- app_assoc. Qed.

Lemma alter_end {A : Type} (f : A -> A) (l : list A) (x : A) :
  alter f (length l) (l ++ [x]) = l ++ [f x].
Proof. now apply alter_last. Qed.

Section Builders.

(** The parts of the world the builders leave alone. *)
Variables (rc : node_id -> Rect) (iw ih ch : Q) (rm : bool) (ck : Z)
          (tm : list (Z * timer_action)) (rp : list nat) (rcn : nat)
          (io : list node_id) (mo dl : bool) (rnd : nat -> Q).

Definition at_ (t : MotionEffects) (ns : list Node) (r : nat) : World :=
  mkWorld t ns rc iw ih ch rm ck tm rp rcn io mo dl rnd r.

Lemma create_layer_at (mb i : nat) (t : MotionEffects) (ns : list Node) (r : nat) :
  create_layer mb i (at_ t ns r)
  = at_ (push_layers [length ns] t) (ns ++ [layer_node mb i]) r.
Proof.
  cbv beta iota zeta delta
    [create_layer createElement upd_this upd_node set_className set_cssText appendChild
     with_this with_nodes at_ this nodes rects innerWidth innerHeight clientHeight
     reducedMotionPref clock timers rafPending rafCounter ioObserved moActive
     docListening random randomPos].
  rewrite !alter_end. reflexivity.
Qed.

Lemma create_particle_at (c i : nat) (t : MotionEffects) (ns : list Node) (r : nat) :
  create_particle c i (at_ t ns r)
  = at_ (push_particles [length ns] t) (ns ++ [particle_node c rnd r]) (7 + r).
Proof.
  cbv beta iota zeta delta
    [create_particle createElement upd_this upd_node set_className set_cssText appendChild
     Math_random with_this with_nodes with_randomPos at_ this nodes rects innerWidth
     innerHeight clientHeight reducedMotionPref clock timers rafPending rafCounter
     ioObserved moActive docListening random randomPos].
  rewrite !alter_end. reflexivity.
Qed.

Lemma create_shape_at (c i : nat) (t : MotionEffects) (ns : list Node) (r : nat) :
  exists st r',
    create_shape c i (at_ t ns r)
    = at_ (push_shape t (length ns)) (ns ++ [made ["floating-shape"] st c]) r'.
Proof.
  cbv beta iota zeta delta
    [create_shape createElement upd_this upd_node set_className set_cssText appendChild
     Math_random with_this with_nodes with_randomPos at_ this nodes rects innerWidth
     innerHeight clientHeight reducedMotionPref clock timers rafPending rafCounter
     ioObserved moActive docListening random randomPos].
  destruct (Qfloor (rnd (S (S (S r))) * 4) =? 0)%Z;
    [|destruct (Qfloor (rnd (S (S (S r))) * 4) =? 1)%Z;
      [|destruct (Qfloor (rnd (S (S (S r))) * 4) =? 2)%Z]];
    cbv beta iota; rewrite !alter_end; eexists; eexists; reflexivity.
Qed.

Lemma create_trail_dot_at (i : nat) (t : MotionEffects) (ns : list Node) (r : nat) :
  create_trail_dot i (at_ t ns r)
  = at_ (push_trail [length ns] t) (ns ++ [trail_node]) r.
Proof.
  cbv beta iota zeta delta
    [create_trail_dot createElement upd_this upd_node set_className set_cssText
     appendChild with_this with_nodes at_ this nodes rects innerWidth innerHeight
     clientHeight reducedMotionPref clock timers rafPending rafCounter ioObserved
     moActive docListening random randomPos].
  rewrite !alter_end. reflexivity.
Qed.

Lemma layers_loop (mb : nat) (l : list nat) (t : MotionEffects) (ns : list Node) (r : nat) :
  for_each l (create_layer mb) (at_ t ns r)
  = at_ (push_layers (seq (length ns) (length l)) t) (ns ++ map (layer_node mb) l) r.
Proof.
  revert t ns. induction l as [|i l IH]; intros t ns.
  - cbn [length seq map for_each fold_left]. now rewrite push_layers_nil, app_nil_r.
  - rewrite for_each_cons, create_layer_at, IH.
    rewrite length_app, Nat.add_1_r. cbn [length seq map].
    now rewrite push_layers_cons, <- app_assoc.
Qed.

Lemma particles_loop (c : nat) (l : list nat) (t : MotionEffects) (ns : list Node)
    (r : nat) :
  for_each l (create_particle c) (at_ t ns r)
  = at_ (push_particles (seq (length ns) (length l)) t)
        (ns ++ particle_nodes c rnd r (length l)) (7 * length l + r).
Proof.
  revert t ns r. induction l as [|i l IH]; intros t ns r.
  - cbn [length seq particle_nodes for_each fold_left].
    now rewrite push_particles_nil, app_nil_r.
  - rewrite for_each_cons, create_particle_at, IH.
    rewrite length_app, Nat.add_1_r. cbn [length seq particle_nodes].
    rewrite push_particles_cons, <- app_assoc. f_equal. lia.
Qed.

Lemma shapes_loop (c : nat) (l : list nat) (t : MotionEffects) (ns : list Node) (r : nat) :
  exists sts r',
    length sts = length l
    /\ for_each l (create_shape c) (at_ t ns r)
       = at_ (fold_left push_shape (seq (length ns) (length l)) t)
             (ns ++ map (fun st => made ["floating-shape"] st c) sts) r'.
Proof.
  revert t ns r. induction l as [|i l IH]; intros t ns r.
  - exists [], r. split; [reflexivity|].
    cbn [length seq map for_each fold_left]. now rewrite app_nil_r.
  - rewrite for_each_cons.
    destruct (create_shape_at c i t ns r) as (st & r1 & ->).
    destruct (IH (push_shape t (length ns)) (ns ++ [made ["floating-shape"] st c]) r1)
      as (sts & r' & Hlen & ->).
    exists (st :: sts), r'. split; [simpl; now rewrite Hlen|].
    rewrite length_app, Nat.add_1_r. cbn [length seq map fold_left].
    now rewrite <- app_assoc.
Qed.

Lemma trail_loop (l : list nat) (t : MotionEffects) (ns : list Node) (r : nat) :
  for_each l create_trail_dot (at_ t ns r)
  = at_ (push_trail (seq (length ns) (length l)) t)
        (ns ++ repeat trail_node (length l)) r.
Proof.
  revert t ns. induction l as [|i l IH]; intros t ns.
  - cbn [length seq repeat for_each fold_left]. now rewrite push_trail_nil, app_nil_r.
  - rewrite for_each_cons, create_trail_dot_at, IH.
    rewrite length_app, Nat.add_1_r. cbn [length seq repeat].
    now rewrite push_trail_cons, <- app_assoc.
Qed.


Definition background_nodes (a : nat) (rnd : nat -> Q) (r : nat) (sts : list Style)
  : list Node :=
  [made ["motion-background"] (css "fixed" (Some (Px 0)) (Some (Px 0)) None None []) body;
   made [] (css "absolute" (Some (Px 0)) (Some (Px 0)) None None []) a]
  ++ map (layer_node a) (seq 1 4)
  ++ [made ["particles"] (css "absolute" (Some (Px 0)) (Some (Px 0)) None None []) a]
  ++ particle_nodes (a + 6) rnd r 20
  ++ [made ["floating-icons"] (css "absolute" (Some (Px 0)) (Some (Px 0)) None None []) a]
  ++ map (fun st => made ["floating-shape"] st (a + 27)) sts.

Definition background_fields (a : nat) (t : MotionEffects) : MotionEffects :=
  fold_left push_shape (seq (a + 28) 25)
    (push_particles (seq (a + 7) 20)
       (push_layers (seq (a + 2) 4)
          (set_gridElement (Some (a + 1)) (set_motionBackground (Some a) t)))).

Lemma createElement_at (tg : string) (t : MotionEffects) (ns : list Node) (r : nat) :
  createElement tg (mkWorld t ns rc iw ih ch rm ck tm rp rcn io mo dl rnd r)
  = (length ns,
     mkWorld t (ns ++ [mkNode tg [] no_style None 0]) rc iw ih ch rm ck tm rp rcn io mo dl
             rnd r).
Proof. reflexivity. Qed.

Lemma alter_first_new {A : Type} (f : A -> A) (l : list A) (x : A) (rest : list A) :
  alter f (length l) (l ++ x :: rest) = l ++ f x :: rest.
Proof.
  replace (length l) with (length l + 0) by lia. now rewrite alter_app_r.
Qed.

Lemma alter_second_new {A : Type} (f : A -> A) (l : list A) (x y : A) (rest : list A) :
  alter f (length l + 1) (l ++ x :: y :: rest) = l ++ x :: f y :: rest.
Proof. now rewrite alter_app_r. Qed.

(** Flattens the node list and brings the ids to the form [length ns + k]. *)
Ltac tidy_ids :=
  rewrite <- ?app_assoc; cbn beta iota delta [app map seq particle_nodes repeat];
  rewrite ?length_app; cbn beta iota delta [length];
  rewrite <- ?Nat.add_assoc; cbn beta iota delta [Nat.add].

(** Runs the next statement of a builder on a world in the form [at_]. *)
Ltac build_step :=
  lazymatch goal with
  | |- ?P (let '(a, b) := createElement ?tg ?W in _) =>
      tidy_ids;
      lazymatch goal with
      | |- ?P (let '(a, b) := createElement ?tg
                                (mkWorld ?t ?ns _ _ _ _ _ _ _ _ _ _ _ _ _ ?r) in _) =>
          rewrite (createElement_at tg t ns r); cbv beta iota
      end
  | |- ?P (let x := for_each ?l (create_layer ?mb)
                      (mkWorld ?t ?ns _ _ _ _ _ _ _ _ _ _ _ _ _ ?r) in @?body x) =>
      let E := fresh "E" in
      pose proof (layers_loop mb l t ns r) as E; cbv delta [at_] in E; cbv beta in E;
      change (P (body (for_each l (create_layer mb)
                         (mkWorld t ns rc iw ih ch rm ck tm rp rcn io mo dl rnd r))));
      rewrite E; clear E; cbv beta
  | |- ?P (let x := for_each ?l (create_particle ?c)
                      (mkWorld ?t ?ns _ _ _ _ _ _ _ _ _ _ _ _ _ ?r) in @?body x) =>
      let E := fresh "E" in
      pose proof (particles_loop c l t ns r) as E; cbv delta [at_] in E; cbv beta in E;
      change (P (body (for_each l (create_particle c)
                         (mkWorld t ns rc iw ih ch rm ck tm rp rcn io mo dl rnd r))));
      rewrite E; clear E; cbv beta
  | |- ?P (let x := for_each ?l create_trail_dot
                      (mkWorld ?t ?ns _ _ _ _ _ _ _ _ _ _ _ _ _ ?r) in @?body x) =>
      let E := fresh "E" in
      pose proof (trail_loop l t ns r) as E; cbv delta [at_] in E; cbv beta in E;
      change (P (body (for_each l create_trail_dot
                         (mkWorld t ns rc iw ih ch rm ck tm rp rcn io mo dl rnd r))));
      rewrite E; clear E; cbv beta; rewrite ?length_seq; tidy_ids
  | |- ?P (let x := ?V in @?body x) =>
      let V' := eval cbv beta iota zeta delta
        [upd_this upd_node set_className set_cssText appendChild upd_style
         with_this with_nodes this nodes rects innerWidth innerHeight clientHeight
         reducedMotionPref clock timers rafPending rafCounter ioObserved moActive
         docListening random randomPos] in V in
      change (P (body V')); cbv beta;
      rewrite ?alter_end, ?alter_first_new, ?alter_second_new
  end.

Lemma createMotionBackground_cps (t : MotionEffects) (ns : list Node) (r : nat)
    (P : World -> Prop) :
  prefersReducedMotion t = false ->
  (forall sts r', length sts = 25 ->
     P (at_ (background_fields (length ns) t)
            (ns ++ background_nodes (length ns) rnd r sts) r')) ->
  P (createMotionBackground (at_ t ns r)).
Proof.
  intros Hm HP. cbv delta [createMotionBackground]. cbv beta.
  change (prefersReducedMotion (this (at_ t ns r))) with (prefersReducedMotion t).
  rewrite Hm. cbv iota. cbv delta [at_].
  repeat build_step.
  tidy_ids.
  lazymatch goal with
  | |- P (for_each ?l (create_shape ?c) (mkWorld ?t' ?ns' _ _ _ _ _ _ _ _ _ _ _ _ _ ?r')) =>
      pose proof (shapes_loop c l t' ns' r') as HS
  end.
  destruct HS as (sts & r2 & Hlen & E). cbv delta [at_] in E. cbv beta in E.
  rewrite E. clear E.
  tidy_ids.
  specialize (HP sts r2 Hlen).
  cbv beta iota zeta delta
    [background_fields background_nodes seq map app particle_nodes layer_node made
     set_parent set_style set_classList tag classList style parent wired at_ length
     fold_left] in HP.
  cbv beta iota zeta delta
    [background_fields background_nodes seq map app particle_nodes layer_node made
     set_parent set_style set_classList tag classList style parent wired at_ length
     fold_left].
  exact HP.
Qed.

(** What [createMotionBackground] builds when animations are on: 53 nodes
    appended to the store, and the fields that refer to them. *)
Lemma createMotionBackground_at (t : MotionEffects) (ns : list Node) (r : nat) :
  prefersReducedMotion t = false ->
  exists sts r',
    length sts = 25
    /\ createMotionBackground (at_ t ns r)
       = at_ (background_fields (length ns) t)
             (ns ++ background_nodes (length ns) rnd r sts) r'.
Proof.
  intros Hm.
  pose (P0 := fun W : World =>
          exists sts r', length sts = 25
            /\ W = at_ (background_fields (length ns) t)
                       (ns ++ background_nodes (length ns) rnd r sts) r').
  assert (HK : forall sts r', length sts = 25 ->
               P0 (at_ (background_fields (length ns) t)
                       (ns ++ background_nodes (length ns) rnd r sts) r')).
  { intros sts r' Hlen. exists sts, r'. split; [exact Hlen | reflexivity]. }
  exact (createMotionBackground_cps t ns r P0 Hm HK).
Qed.

(** The ring and the dot: no [cssText], only [top] and [left]. *)
Definition cursor_style : Style :=
  set_s_left (Some (Px (-100))) (set_s_top (Some (Px (-100))) no_style).

Definition cursor_nodes (n : nat) : list Node :=
  [made ["custom-cursor"] cursor_style body; made ["custom-cursor-dot"] cursor_style body]
  ++ repeat trail_node n.

Definition cursor_fields (a n : nat) (t : MotionEffects) : MotionEffects :=
  push_trail (seq (a + 2) n) (set_cursorDot (Some (a + 1)) (set_cursor (Some a) t)).

Lemma createCustomCursor_cps (t : MotionEffects) (ns : list Node) (r : nat)
    (P : World -> Prop) :
  prefersReducedMotion t = false ->
  P (setupInteractiveElements
       (at_ (cursor_fields (length ns) (maxTrailLength t) t)
            (ns ++ cursor_nodes (maxTrailLength t)) r)) ->
  P (createCustomCursor (at_ t ns r)).
Proof.
  intros Hm HP. cbv delta [createCustomCursor]. cbv beta.
  change (prefersReducedMotion (this (at_ t ns r))) with (prefersReducedMotion t).
  rewrite Hm. cbv iota. cbv delta [at_].
  do 8 build_step.
  match goal with
  | |- context [maxTrailLength (this ?W)] =>
      change (maxTrailLength (this W)) with (maxTrailLength t)
  end.
  repeat build_step.
  cbv beta iota zeta delta
    [cursor_fields cursor_nodes cursor_style made app set_parent set_style set_classList
     set_s_left set_s_top no_style tag classList style parent wired at_
     s_position s_left s_top s_width s_height s_transform s_x s_y] in HP.
  cbv beta iota zeta delta
    [cursor_fields cursor_nodes cursor_style made app set_parent set_style set_classList
     set_s_left set_s_top no_style tag classList style parent wired at_
     s_position s_left s_top s_width s_height s_transform s_x s_y].
  exact HP.
Qed.

End Builders.

Lemma particle_nodes_lookup (c : node_id) (rnd : nat -> Q) (n j r : nat) :
  j < n -> particle_nodes c rnd r n !! j = Some (particle_node c rnd (7 * j + r)).
Proof.
  revert j r. induction n as [|n IH]; intros j r Hj; [lia|].
  destruct j as [|j]; [reflexivity|].
  cbn [particle_nodes]. rewrite lookup_cons. rewrite IH by lia. do 2 f_equal. lia.
Qed.

Lemma length_particle_nodes (c : node_id) (rnd : nat -> Q) (r n : nat) :
  length (particle_nodes c rnd r n) = n.
Proof. revert r. induction n as [|n IH]; intros r; [reflexivity|]. simpl. now rewrite IH. Qed.

(** When animations are on, [createMotionBackground] appends 53 nodes to
    the document and changes nothing else of the page: the container, a
    child of the body; under it the grid, the four layers, the container of
    the 20 particles and the container of the 25 shapes.  It records the
    container, the grid, the layers, the particles and the shapes in the
    fields of the instance, in the order of their creation. *)
Theorem createMotionBackground_builds_tree (w : World) :
  prefersReducedMotion (this w) = false ->
  let a := length (nodes w) in
  exists sts r',
    length sts = 25
    /\ createMotionBackground w
       = with_randomPos r'
           (with_this (background_fields a (this w))
              (with_nodes (nodes w ++ background_nodes a (random w) (randomPos w) sts) w)).
Proof.
  intros Hm a. subst a.
  destruct w as [t ns rc iw ih ch rm ck tm rp rcn io mo dl rnd r].
  exact (createMotionBackground_at rc iw ih ch rm ck tm rp rcn io mo dl rnd t ns r Hm).
Qed.

Lemma createMotionBackground_builds_tree_witness :
  exists sts r',
    length sts = 25
    /\ createMotionBackground (with_this (new_fields (sample_page false)) (sample_page false))
       = with_randomPos r'
           (with_this (background_fields 8 (new_fields (sample_page false)))
              (with_nodes (nodes (sample_page false)
                           ++ background_nodes 8 (random (sample_page false)) 0 sts)
                 (with_this (new_fields (sample_page false)) (sample_page false)))).
Proof.
  exact (createMotionBackground_builds_tree
           (with_this (new_fields (sample_page false)) (sample_page false)) eq_refl).
Defined.

(** When animations are on, [createCustomCursor] appends the ring, the dot
    and [maxTrailLength] trail dots as children of the body, records them in
    [cursor], [cursorDot] and [cursorTrail], and then wires the interactive
    elements.  The ring and the dot get [top] and [left] of -100 px and no
    transform; the trail dots get no [top] and no [left] at all. *)
Theorem createCustomCursor_builds_cursor (w : World) :
  prefersReducedMotion (this w) = false ->
  let a := length (nodes w) in
  let n := maxTrailLength (this w) in
  createCustomCursor w
  = setupInteractiveElements
      (with_this (cursor_fields a n (this w)) (with_nodes (nodes w ++ cursor_nodes n) w))
  /\ Forall (fun nd => s_left (style nd) = None /\ s_top (style nd) = None)
            (repeat trail_node n).
Proof.
  intros Hm a n. subst a n. split.
  - destruct w as [t ns rc iw ih ch rm ck tm rp rcn io mo dl rnd r].
    apply (createCustomCursor_cps rc iw ih ch rm ck tm rp rcn io mo dl rnd t ns r
             (fun W => W = setupInteractiveElements _)); [exact Hm | reflexivity].
  - apply List.Forall_forall. intros nd Hin. apply repeat_spec in Hin. subst nd. now split.
Qed.

Lemma createCustomCursor_builds_cursor_witness :
  let w := with_this (new_fields (sample_page false)) (sample_page false) in
  createCustomCursor w
  = setupInteractiveElements
      (with_this (cursor_fields 8 8 (this w)) (with_nodes (nodes w ++ cursor_nodes 8) w)).
Proof.
  intros w. exact (proj1 (createCustomCursor_builds_cursor w eq_refl)).
Defined.

(** The particles are sized as the source comment says: with
    [Math.random()] in [[0, 1)], each of the 20 particles is a square of
    between 8 and 25 px, and it is recorded in [particles]. *)
Theorem particles_are_8_to_25_px (w : World) (j : nat) :
  prefersReducedMotion (this w) = false ->
  (forall i, (0 <= random w i /\ random w i < 1)%Q) ->
  j < 20 ->
  let n := length (nodes w) + 7 + j in
  exists nd q,
    nodes (createMotionBackground w) !! n = Some nd
    /\ In n (particles (this (createMotionBackground w)))
    /\ s_width (style nd) = Some (Px q) /\ s_height (style nd) = Some (Px q)
    /\ (8 <= q /\ q < 25)%Q.
Proof.
  intros Hm Hr Hj n.
  destruct (createMotionBackground_builds_tree w Hm) as (sts & r' & Hlen & E).
  cbv zeta in E. rewrite E. clear E.
  cbn [nodes this with_randomPos with_this with_nodes].
  set (q := (8 + random w (7 * j + randomPos w) * 17)%Q).
  exists (particle_node (length (nodes w) + 6) (random w) (7 * j + randomPos w)), q.
  split; [|split; [|split; [reflexivity | split; [reflexivity|]]]].
  - subst n. rewrite <- Nat.add_assoc, lookup_app_r by lia.
    replace (length (nodes w) + (7 + j) - length (nodes w)) with (7 + j) by lia.
    unfold background_nodes.
    do 3 (rewrite lookup_app_r by (simpl; lia)).
    rewrite lookup_app_l by (rewrite length_particle_nodes; simpl; lia).
    rewrite particle_nodes_lookup by (simpl; lia).
    do 3 f_equal. simpl. lia.
  - unfold background_fields.
    assert (Hp : forall ids t, particles (fold_left push_shape ids t) = particles t).
    { induction ids as [|id ids IH]; intros t; [reflexivity|]. simpl. now rewrite IH. }
    rewrite Hp. unfold push_particles. cbn [particles set_particles].
    apply in_or_app. right. apply in_seq. subst n. lia.
  - destruct (Hr (7 * j + randomPos w)) as [H0 H1]. subst q. split; lra.
Qed.

Lemma particles_are_8_to_25_px_witness :
  let w := with_this (new_fields (sample_page false)) (sample_page false) in
  exists nd q,
    nodes (createMotionBackground w) !! (length (nodes w) + 7 + 3) = Some nd
    /\ s_width (style nd) = Some (Px q) /\ (8 <= q /\ q < 25)%Q.
Proof.
  intros w.
  assert (Hr : forall i, (0 <= random w i /\ random w i < 1)%Q).
  { intros i. unfold w. cbn [random with_this sample_page].
    pose proof (Nat.mod_upper_bound i 10 ltac:(lia)) as Hb.
    unfold Qle, Qlt. simpl. lia. }
  destruct (particles_are_8_to_25_px w 3 eq_refl Hr ltac:(lia))
    as (nd & q & H1 & _ & H2 & _ & H3).
  exists nd, q. split; [exact H1 | split; [exact H2 | exact H3]].
Defined.

(** The parent of the [k]-th node of the background, the first being [a]. *)
Definition background_parent (a k : nat) : node_id :=
  if k =? 0 then body
  else if k <=? 6 then a
  else if k <=? 26 then a + 6
  else if k =? 27 then a
  else a + 27.

Lemma background_nodes_parent (a : nat) (rnd : nat -> Q) (r : nat) (sts : list Style)
    (k : nat) :
  length sts = 25 -> k < 53 ->
  exists nd, background_nodes a rnd r sts !! k = Some nd
             /\ parent nd = Some (background_parent a k).
Proof.
  intros Hlen Hk. unfold background_nodes.
  destruct (decide (k < 7)) as [H7|H7].
  { do 7 (destruct k as [|k]; [eexists; split; reflexivity|]). lia. }
  do 3 (rewrite lookup_app_r by (simpl; lia)).
  set (pre := [_; _]). set (lay := map _ _). set (pc := [_]).
  replace (k - length pre - length lay - length pc) with (k - 7) by (simpl; lia).
  clearbody pre lay pc.
  destruct (decide (k < 27)) as [Hp|Hp].
  - rewrite lookup_app_l by (rewrite length_particle_nodes; lia).
    rewrite particle_nodes_lookup by lia. eexists. split; [reflexivity|].
    unfold background_parent.
    destruct (Nat.eqb_spec k 0); [lia|]. destruct (Nat.leb_spec k 6); [lia|].
    destruct (Nat.leb_spec k 26); [reflexivity | lia].
  - rewrite lookup_app_r by (rewrite length_particle_nodes; lia).
    rewrite length_particle_nodes.
    destruct (decide (k = 27)) as [->|H27]; [eexists; split; reflexivity|].
    rewrite lookup_app_r by (simpl; lia).
    rewrite list_lookup_fmap.
    destruct (lookup_lt_is_Some_2 sts (k - 7 - 20 - length [made ["floating-icons"]
                (css "absolute" (Some (Px 0)) (Some (Px 0)) None None []) a])
                ltac:(simpl; lia)) as [st ->].
    eexists. split; [reflexivity|]. simpl.
    unfold background_parent.
    destruct (Nat.eqb_spec k 0); [lia|]. destruct (Nat.leb_spec k 6); [lia|].
    destruct (Nat.leb_spec k 26); [lia|]. destruct (Nat.eqb_spec k 27); [lia|].
    reflexivity.
Qed.

Lemma length_background_nodes (a : nat) (rnd : nat -> Q) (r : nat) (sts : list Style) :
  length (background_nodes a rnd r sts) = 28 + length sts.
Proof.
  unfold background_nodes. rewrite !length_app, length_particle_nodes, !length_map.
  simpl. lia.
Qed.

Lemma connected_body (f : nat) (ns : list Node) : connected f ns body = true.
Proof. destruct f; reflexivity. Qed.

Lemma connected_parent (f : nat) (ns : list Node) (n p : node_id) (nd : Node) :
  n <> body -> ns !! n = Some nd -> parent nd = Some p ->
  connected (S f) ns n = connected f ns p.
Proof.
  intros Hn E Hp. cbn [connected].
  destruct (Nat.eqb_spec n body) as [->|_]; [contradiction|]. now rewrite E, Hp.
Qed.

(** On a page that has a body, every node of the background is in the
    document once [createMotionBackground] has run. *)
Theorem createMotionBackground_attaches_all (w : World) (k : nat) :
  prefersReducedMotion (this w) = false ->
  0 < length (nodes w) -> k < 53 ->
  length (nodes (createMotionBackground w)) = length (nodes w) + 53
  /\ in_document (createMotionBackground w) (length (nodes w) + k) = true.
Proof.
  intros Hm Ha Hk.
  destruct (createMotionBackground_builds_tree w Hm) as (sts & r' & Hlen & E).
  cbv zeta in E. rewrite E. clear E. unfold in_document.
  cbn [nodes with_randomPos with_this with_nodes].
  set (a := length (nodes w)) in *.
  set (new := background_nodes a (random w) (randomPos w) sts).
  assert (Hnew : length new = 53)
    by (unfold new; rewrite length_background_nodes, Hlen; reflexivity).
  rewrite length_app, Hnew. fold a. split; [reflexivity|].
  assert (Hlook : forall j, j < 53 ->
            exists nd, (nodes w ++ new) !! (a + j) = Some nd
                       /\ parent nd = Some (background_parent a j)).
  { intros j Hj. rewrite lookup_app_r by (unfold a; lia).
    replace (a + j - length (nodes w)) with j by (unfold a; lia).
    now apply background_nodes_parent. }
  assert (A0 : forall f, connected (S f) (nodes w ++ new) a = true).
  { intros f. destruct (Hlook 0 ltac:(lia)) as (nd & E0 & P0).
    rewrite Nat.add_0_r in E0.
    rewrite (connected_parent f _ a body nd) by (auto; unfold body; lia).
    apply connected_body. }
  assert (A1 : forall f j, j < 53 -> background_parent a j = a ->
                 connected (S (S f)) (nodes w ++ new) (a + j) = true).
  { intros f j Hj Hp. destruct (Hlook j Hj) as (nd & E1 & P1). rewrite Hp in P1.
    rewrite (connected_parent (S f) _ (a + j) a nd) by (auto; unfold body; lia).
    apply A0. }
  replace (a + 53) with (S (S (S (a + 50)))) by lia.
  destruct (Hlook k Hk) as (nd & Ek & Pk).
  rewrite (connected_parent _ _ (a + k) _ nd ltac:(unfold body; lia) Ek Pk) .
  unfold background_parent.
  destruct (k =? 0); [apply connected_body|].
  destruct (k <=? 6); [apply A0|].
  destruct (k <=? 26); [apply (A1 _ 6); [lia | reflexivity]|].
  destruct (k =? 27); [apply A0|].
  apply (A1 _ 27); [lia | reflexivity].
Qed.

Lemma createMotionBackground_attaches_all_witness :
  let w := with_this (new_fields (sample_page false)) (sample_page false) in
  in_document (createMotionBackground w) (length (nodes w) + 30) = true.
Proof.
  intros w.
  exact (proj2 (createMotionBackground_attaches_all w 30 eq_refl ltac:(simpl; lia)
                  ltac:(lia))).
Defined.

(** ** A frame paints transforms, and only transforms *)

(** A write to the [transform] of a node, as a function of the old value. *)
Definition retransform (h : list transform_fn -> list transform_fn) (nd : Node) : Node :=
  set_style (set_s_transform (h (s_transform (style nd))) (style nd)) nd.

(** The writes of a frame, in order: which node, and what to. *)
Definition plan : Type := list (node_id * (list transform_fn -> list transform_fn)).

Definition apply_plan (p : plan) (ns : list Node) : list Node :=
  fold_left (fun ns wr => alter (retransform (snd wr)) (fst wr) ns) p ns.

Definition paint (p : plan) (w : World) : World := with_nodes (apply_plan p (nodes w)) w.

Definition style_in (ns : list Node) (n : node_id) : Style :=
  match ns !! n with
  | Some nd => style nd
  | None => no_style
  end.

Lemma paint_nil (w : World) : paint [] w = w.
Proof. apply with_nodes_same. Qed.

Lemma paint_paint (p q : plan) (w : World) : paint q (paint p w) = paint (p ++ q) w.
Proof. unfold paint, apply_plan. cbn [nodes with_nodes]. now rewrite fold_left_app. Qed.

Lemma upd_style_paint (n : node_id) (v : list transform_fn) (w : World) :
  upd_style n (set_s_transform v) w = paint [(n, fun _ => v)] w.
Proof. reflexivity. Qed.

Lemma style_in_alter (h : list transform_fn -> list transform_fn) (m n : node_id)
    (ns : list Node) :
  s_left (style_in (alter (retransform h) m ns) n) = s_left (style_in ns n)
  /\ s_top (style_in (alter (retransform h) m ns) n) = s_top (style_in ns n).
Proof.
  unfold style_in. rewrite list_lookup_alter.
  destruct (decide (m = n)) as [->|]; [|now split].
  destruct (ns !! n); now split.
Qed.

(** Painting leaves [left] and [top] of every node as they were. *)
Lemma style_in_apply_plan (p : plan) (ns : list Node) (n : node_id) :
  s_left (style_in (apply_plan p ns) n) = s_left (style_in ns n)
  /\ s_top (style_in (apply_plan p ns) n) = s_top (style_in ns n).
Proof.
  revert ns. induction p as [|[m h] p IH]; intros ns; [now split|].
  change (apply_plan ((m, h) :: p) ns) with (apply_plan p (alter (retransform h) m ns)).
  destruct (IH (alter (retransform h) m ns)) as [-> ->]. apply style_in_alter.
Qed.

(** *** The trail *)

Definition trail_write (t : MotionEffects) (ns : list Node) (x y : Q) (i : nat) : plan :=
  match cursorTrail t !! i, cursorTrail t !! (i - 1) with
  | Some current, Some previous =>
      let currentX := num_or (parseFloat (s_left (style_in ns current))) x in
      let currentY := num_or (parseFloat (s_top (style_in ns current))) y in
      let previousX := num_or (parseFloat (s_left (style_in ns previous))) x in
      let previousY := num_or (parseFloat (s_top (style_in ns previous))) y in
      let newX := (currentX + (previousX - currentX) * (3 # 10))%Q in
      let newY := (currentY + (previousY - currentY) * (3 # 10))%Q in
      [(current, fun _ => [translate_px newX newY; centred])]
  | _, _ => []
  end.

Definition trail_plan (t : MotionEffects) (ns : list Node) (x y : Q) : plan :=
  flat_map (trail_write t ns x y) (rev (seq 1 (length (cursorTrail t) - 1)))
  ++ match cursorTrail t !! 0 with
     | Some first => [(first, fun _ => [translate_px x y; centred])]
     | None => []
     end.

Lemma trail_step_paint (x y : Q) (i : nat) (w : World) :
  trail_step x y i w = paint (trail_write (this w) (nodes w) x y i) w.
Proof.
  unfold trail_step, trail_write.
  destruct (cursorTrail (this w) !! i) as [current|];
    [destruct (cursorTrail (this w) !! (i - 1)) as [previous|]|];
    [reflexivity | symmetry; apply paint_nil ..].
Qed.

Lemma trail_write_painted (t : MotionEffects) (p : plan) (ns : list Node) (x y : Q)
    (i : nat) :
  trail_write t (apply_plan p ns) x y i = trail_write t ns x y i.
Proof.
  unfold trail_write.
  destruct (cursorTrail t !! i) as [current|]; [|reflexivity].
  destruct (cursorTrail t !! (i - 1)) as [previous|]; [|reflexivity].
  destruct (style_in_apply_plan p ns current) as [-> ->].
  destruct (style_in_apply_plan p ns previous) as [-> ->]. reflexivity.
Qed.

Lemma trail_plan_painted (t : MotionEffects) (p : plan) (ns : list Node) (x y : Q) :
  trail_plan t (apply_plan p ns) x y = trail_plan t ns x y.
Proof.
  unfold trail_plan. f_equal. apply flat_map_ext. intros i. apply trail_write_painted.
Qed.

Lemma trail_loop_paint (x y : Q) (l : list nat) (w : World) :
  for_each l (trail_step x y) w
  = paint (flat_map (trail_write (this w) (nodes w) x y) l) w.
Proof.
  revert w. induction l as [|i l IH]; intros w; [symmetry; apply paint_nil|].
  rewrite for_each_cons, trail_step_paint, IH, paint_paint. cbn [flat_map].
  do 2 f_equal. apply flat_map_ext. intros j.
  apply (trail_write_painted (this w) _ (nodes w)).
Qed.

Lemma updateCursorTrail_paint (x y : Q) (w : World) :
  updateCursorTrail x y w = paint (trail_plan (this w) (nodes w) x y) w.
Proof.
  unfold updateCursorTrail, trail_plan. cbv zeta. rewrite trail_loop_paint.
  change (this (paint ?p w)) with (this w).
  destruct (cursorTrail (this w) !! 0) as [first|].
  - rewrite upd_style_paint. apply paint_paint.
  - now rewrite app_nil_r.
Qed.

(** *** The ring and the dot *)

Definition cursor_plan (t : MotionEffects) (ns : list Node) : plan :=
  match cursor t, cursorDot t with
  | Some c, Some d =>
      if prefersReducedMotion t then [] else
      let targetX := mouseX t in
      let targetY := mouseY t in
      let currentX := num_or (parseFloat (s_left (style_in ns c))) targetX in
      let currentY := num_or (parseFloat (s_top (style_in ns c))) targetY in
      let newX := (currentX + (targetX - currentX) * (1 # 10))%Q in
      let newY := (currentY + (targetY - currentY) * (1 # 10))%Q in
      [(c, fun _ => [translate_px newX newY; centred]);
       (d, fun _ => [translate_px targetX targetY; centred])]
      ++ trail_plan t ns targetX targetY
  | _, _ => []
  end.

Lemma updateCursor_paint (w : World) :
  updateCursor w = paint (cursor_plan (this w) (nodes w)) w.
Proof.
  unfold updateCursor, cursor_plan.
  destruct (cursor (this w)) as [c|]; [|symmetry; apply paint_nil].
  destruct (cursorDot (this w)) as [d|]; [|symmetry; apply paint_nil].
  destruct (prefersReducedMotion (this w)); [symmetry; apply paint_nil|].
  cbv zeta. rewrite !upd_style_paint, paint_paint, updateCursorTrail_paint, paint_paint.
  change (this (paint ?p w)) with (this w).
  change (nodes (paint ?p w)) with (apply_plan p (nodes w)).
  now rewrite trail_plan_painted.
Qed.

Lemma cursor_plan_painted (t : MotionEffects) (p : plan) (ns : list Node) :
  cursor_plan t (apply_plan p ns) = cursor_plan t ns.
Proof.
  unfold cursor_plan.
  destruct (cursor t) as [c|]; [|reflexivity].
  destruct (cursorDot t) as [d|]; [|reflexivity].
  destruct (prefersReducedMotion t); [reflexivity|].
  cbv zeta. rewrite trail_plan_painted.
  destruct (style_in_apply_plan p ns c) as [-> ->]. reflexivity.
Qed.

(** *** The background *)

Definition bg_plan (t : MotionEffects) : plan :=
  if Nat.eqb (length (layers t)) 0 || prefersReducedMotion t then [] else
  let distX := (mouseX t - centerX t + fst (mouseVelocity t) * 2)%Q in
  let distY := (mouseY t - centerY t + snd (mouseVelocity t) * 2)%Q in
  map (fun '(index, layer) =>
         let intensity := (of_nat (index + 1) * (2 # 100))%Q in
         let translateX := (distX * intensity)%Q in
         let translateY := (distY * intensity)%Q in
         let rotation := (distX * (2 # 10000) + distY * (2 # 10000))%Q in
         (layer, fun _ : list transform_fn =>
                   [translate_px translateX translateY; Rotate rotation]))
      (indexed (layers t))
  ++ match gridElement t with
     | Some grid =>
         let gridIntensity := (15 # 100)%Q in
         let gridTranslateX := (distX * gridIntensity)%Q in
         let gridTranslateY := (distY * gridIntensity)%Q in
         let gridRotation := ((distX + distY) * (5 # 10000))%Q in
         let gridScale :=
           (1 + Qabs (fst (mouseVelocity t) + snd (mouseVelocity t)) * (1 # 10000))%Q in
         [(grid, fun _ : list transform_fn =>
                   [translate_px gridTranslateX gridTranslateY;
                    Rotate gridRotation; Scale gridScale])]
     | None => []
     end
  ++ map (fun '(index, particle) =>
            let intensity := ((5 # 1000) + of_nat (index mod 3) * (2 # 1000))%Q in
            let translateX := (distX * intensity)%Q in
            let translateY := (distY * intensity)%Q in
            (particle, fun tr : list transform_fn =>
                         translate_px translateX translateY :: strip_translate tr))
         (indexed (particles t))
  ++ match floatingShapes t with
     | Some shapes =>
         map (fun '(index, shape) =>
                let intensity := ((3 # 100) + of_nat (index mod 5) * (1 # 100))%Q in
                let translateX := (distX * intensity)%Q in
                let translateY := (distY * intensity)%Q in
                let scale := (1 + Qabs (distX + distY) * (1 # 10000))%Q in
                (shape, fun _ : list transform_fn =>
                          [translate_px translateX translateY; Scale scale]))
             (indexed shapes)
     | None => []
     end.

(** A loop whose body paints one node and leaves the instance alone. *)
Lemma for_each_paint {A : Type} (l : list A) (F : A -> World -> World)
    (W : A -> node_id * (list transform_fn -> list transform_fn)) (w : World) :
  (forall a w', F a w' = paint [W a] w') ->
  for_each l F w = paint (map W l) w.
Proof.
  intros HF. revert w. induction l as [|a l IH]; intros w; [symmetry; apply paint_nil|].
  rewrite for_each_cons, HF, IH, paint_paint. reflexivity.
Qed.

Lemma strip_paint (n : node_id) (T : transform_fn) (w : World) :
  upd_style n (set_s_transform (T :: strip_translate (s_transform (style_of w n)))) w
  = paint [(n, fun tr => T :: strip_translate tr)] w.
Proof.
  unfold upd_style, upd_node, paint, apply_plan. cbn [fold_left fst snd]. f_equal.
  apply list_alter_ext; [|reflexivity].
  intros nd E. unfold style_of. rewrite E. reflexivity.
Qed.

Lemma for_each_indexed_const (l : list node_id) (V : nat -> list transform_fn)
    (w : World) :
  for_each (indexed l) (fun '(index, n) w => upd_style n (set_s_transform (V index)) w) w
  = paint (map (fun '(index, n) => (n, fun _ : list transform_fn => V index)) (indexed l))
      w.
Proof. apply for_each_paint. intros [index n] w'. apply upd_style_paint. Qed.

Lemma for_each_indexed_strip (l : list node_id) (T : nat -> transform_fn) (w : World) :
  for_each (indexed l)
    (fun '(index, n) w =>
       upd_style n
         (set_s_transform (T index :: strip_translate (s_transform (style_of w n)))) w) w
  = paint (map (fun '(index, n) =>
                  (n, fun tr : list transform_fn => T index :: strip_translate tr))
               (indexed l)) w.
Proof. apply for_each_paint. intros [index n] w'. apply strip_paint. Qed.

Lemma updateMotionBackground_paint (w : World) :
  updateMotionBackground w = paint (bg_plan (this w)) w.
Proof.
  unfold updateMotionBackground, bg_plan.
  destruct (Nat.eqb (length (layers (this w))) 0 || prefersReducedMotion (this w));
    [symmetry; apply paint_nil|].
  cbv zeta.
  set (distX := (mouseX (this w) - centerX (this w) + fst (mouseVelocity (this w)) * 2)%Q).
  set (distY := (mouseY (this w) - centerY (this w) + snd (mouseVelocity (this w)) * 2)%Q).
  rewrite for_each_indexed_const.
  change (this (paint ?p w)) with (this w).
  set (w1 := paint _ w).
  assert (Hg : match gridElement (this w) with
               | Some grid =>
                   upd_style grid
                     (set_s_transform
                        [translate_px (distX * (15 # 100)) (distY * (15 # 100));
                         Rotate ((distX + distY) * (5 # 10000));
                         Scale (1 + Qabs (fst (mouseVelocity (this w))
                                          + snd (mouseVelocity (this w))) * (1 # 10000))])
                     w1
               | None => w1
               end
               = paint match gridElement (this w) with
                       | Some grid =>
                           [(grid, fun _ : list transform_fn =>
                               [translate_px (distX * (15 # 100)) (distY * (15 # 100));
                                Rotate ((distX + distY) * (5 # 10000));
                                Scale (1 + Qabs (fst (mouseVelocity (this w))
                                                 + snd (mouseVelocity (this w)))
                                           * (1 # 10000))])]
                       | None => []
                       end w1).
  { destruct (gridElement (this w)); [reflexivity | symmetry; apply paint_nil]. }
  change (this w1) with (this w). rewrite Hg. clear Hg. unfold w1. clear w1.
  rewrite paint_paint.
  change (this (paint ?p w)) with (this w).
  rewrite for_each_indexed_strip, paint_paint.
  change (this (paint ?p w)) with (this w).
  destruct (floatingShapes (this w)) as [shapes|].
  - rewrite for_each_indexed_const, paint_paint, <- !app_assoc. reflexivity.
  - now rewrite app_nil_r, <- !app_assoc.
Qed.

(** *** Painting twice *)

(** The writes a frame makes are of two kinds: a value that does not depend
    on the old one, or a translation set in front of what the old value
    keeps once its translations are stripped. *)
Definition settled (h : list transform_fn -> list transform_fn) : Prop :=
  (exists c, forall v, h v = c)
  \/ (exists T, is_translate T = true /\ forall v, h v = T :: strip_translate v).

Definition settles (p : plan) : Prop := Forall (fun wr => settled (snd wr)) p.

Lemma strip_translate_twice (tr : list transform_fn) :
  strip_translate (strip_translate tr) = strip_translate tr.
Proof. apply filter_twice. Qed.

Lemma settled_idempotent (h : list transform_fn -> list transform_fn) :
  settled h -> forall v, h (h v) = h v.
Proof.
  intros [(c & Hc)|(T & HT & Hh)] v.
  - now rewrite !Hc.
  - rewrite !Hh. f_equal. unfold strip_translate at 1. cbn [List.filter].
    rewrite HT. cbn [negb]. apply strip_translate_twice.
Qed.

Lemma settled_compose (g h : list transform_fn -> list transform_fn) :
  settled g -> settled h -> settled (fun v => h (g v)).
Proof.
  intros Hg [(c & Hc)|(T & HT & Hh)].
  - left. exists c. intros v. apply Hc.
  - destruct Hg as [(c & Hc)|(T' & HT' & Hg)].
    + left. exists (T :: strip_translate c). intros v. now rewrite Hh, Hc.
    + right. exists T. split; [exact HT|]. intros v. rewrite Hh, Hg. f_equal.
      unfold strip_translate at 1. cbn [List.filter]. rewrite HT'. cbn [negb].
      apply strip_translate_twice.
Qed.

(** All the writes of a plan to node [k], composed in order. *)
Definition writes_to (k : node_id) (p : plan)
    (g : list transform_fn -> list transform_fn) : list transform_fn -> list transform_fn :=
  fold_left (fun g wr => if decide (fst wr = k) then fun v => snd wr (g v) else g) p g.

Lemma retransform_retransform (g h : list transform_fn -> list transform_fn) (nd : Node) :
  retransform h (retransform g nd) = retransform (fun v => h (g v)) nd.
Proof. reflexivity. Qed.

Lemma retransform_ext (g h : list transform_fn -> list transform_fn) (nd : Node) :
  (forall v, g v = h v) -> retransform g nd = retransform h nd.
Proof. intros H. unfold retransform. now rewrite H. Qed.

Lemma retransform_id (nd : Node) : retransform (fun v => v) nd = nd.
Proof. destruct nd as [? ? [] ? ?]. reflexivity. Qed.

Lemma lookup_apply_plan (p : plan) (g : list transform_fn -> list transform_fn)
    (ns : list Node) (k : node_id) :
  apply_plan p (alter (retransform g) k ns) !! k
  = retransform (writes_to k p g) <$> ns !! k.
Proof.
  revert g ns. induction p as [|[m h] p IH]; intros g ns.
  - apply list_lookup_alter_eq.
  - change (apply_plan ((m, h) :: p) ?l) with (apply_plan p (alter (retransform h) m l)).
    change (writes_to k ((m, h) :: p) g)
      with (writes_to k p (if decide (m = k) then fun v => h (g v) else g)).
    destruct (decide (m = k)) as [->|Hne].
    + rewrite list_alter_alter_eq. apply (IH (fun v => h (g v)) ns).
    + rewrite list_alter_alter_ne by exact Hne.
      now rewrite IH, list_lookup_alter_ne by exact Hne.
Qed.

Lemma lookup_apply_plan_id (p : plan) (ns : list Node) (k : node_id) :
  apply_plan p ns !! k = retransform (writes_to k p (fun v => v)) <$> ns !! k.
Proof.
  rewrite <- lookup_apply_plan. do 2 f_equal. symmetry.
  apply list_alter_id. apply retransform_id.
Qed.

Lemma writes_to_settled (k : node_id) (p : plan)
    (g : list transform_fn -> list transform_fn) :
  settles p -> (forall v, g (g v) = g v) /\ (settled g \/ forall v, g v = v) ->
  forall v, writes_to k p g (writes_to k p g v) = writes_to k p g v.
Proof.
  intros Hp. revert g. induction Hp as [|[m h] p Hh Hp IH]; intros g [Hg Hc]; [exact Hg|].
  change (writes_to k ((m, h) :: p) g)
    with (writes_to k p (if decide (m = k) then fun v => h (g v) else g)).
  cbn [snd] in Hh.
  destruct (decide (m = k)); [|apply IH; now split].
  apply IH. destruct Hc as [Hc|Hc].
  - pose proof (settled_compose g h Hc Hh) as Hs. split; [|now left].
    exact (settled_idempotent _ Hs).
  - assert (Hs : settled (fun v => h (g v))).
    { destruct Hh as [(c & Hc')|(T & HT & Hh)].
      - left. exists c. intros v. apply Hc'.
      - right. exists T. split; [exact HT|]. intros v. now rewrite Hc, Hh. }
    split; [exact (settled_idempotent _ Hs) | now left].
Qed.

(** Carrying out twice a plan of settled writes gives what carrying it out
    once gives. *)
Lemma apply_plan_twice (p : plan) (ns : list Node) :
  settles p -> apply_plan p (apply_plan p ns) = apply_plan p ns.
Proof.
  intros Hp. apply list_eq. intros k. rewrite !lookup_apply_plan_id.
  destruct (ns !! k) as [nd|]; [|reflexivity]. cbn [fmap option_fmap option_map].
  f_equal. rewrite retransform_retransform. apply retransform_ext.
  apply writes_to_settled; [exact Hp|]. split; [reflexivity | now right].
Qed.

(** *** A whole frame *)

Definition frame_plan (t : MotionEffects) (ns : list Node) : plan :=
  cursor_plan t ns ++ bg_plan t.

(** [animate] paints the plan of the frame, requests the next frame and
    stores its handle; it does nothing else. *)
Lemma animate_eq (w : World) :
  animate w
  = upd_this (set_animationFrameId (Some (S (rafCounter w))))
      (with_rafCounter (S (rafCounter w))
         (with_rafPending (rafPending w ++ [S (rafCounter w)])
            (paint (frame_plan (this w) (nodes w)) w))).
Proof.
  unfold animate. cbv zeta.
  rewrite updateCursor_paint, updateMotionBackground_paint, paint_paint.
  reflexivity.
Qed.

Ltac const_write := left; eexists; intros ?; cbv beta iota delta [snd]; reflexivity.

Lemma settles_trail_plan (t : MotionEffects) (ns : list Node) (x y : Q) :
  settles (trail_plan t ns x y).
Proof.
  unfold settles, trail_plan. apply Forall_app. split.
  - apply List.Forall_forall. intros wr Hin. apply in_flat_map in Hin as (i & _ & Hin).
    unfold trail_write in Hin.
    destruct (cursorTrail t !! i); [|destruct Hin].
    destruct (cursorTrail t !! (i - 1)); [|destruct Hin].
    destruct Hin as [<-|[]]. const_write.
  - destruct (cursorTrail t !! 0); [constructor; [const_write|constructor] | constructor].
Qed.

Lemma settles_cursor_plan (t : MotionEffects) (ns : list Node) : settles (cursor_plan t ns).
Proof.
  unfold cursor_plan.
  destruct (cursor t); [|constructor]. destruct (cursorDot t); [|constructor].
  destruct (prefersReducedMotion t); [constructor|].
  cbv zeta. apply Forall_app. split; [|apply settles_trail_plan].
  constructor; [const_write|constructor; [const_write|constructor]].
Qed.

Lemma settles_bg_plan (t : MotionEffects) : settles (bg_plan t).
Proof.
  unfold bg_plan.
  destruct (Nat.eqb (length (layers t)) 0 || prefersReducedMotion t); [constructor|].
  cbv zeta. unfold settles. rewrite !Forall_app. repeat split.
  - apply List.Forall_forall. intros wr Hin. apply in_map_iff in Hin as ([i n] & <- & _).
    const_write.
  - destruct (gridElement t); [constructor; [const_write|constructor] | constructor].
  - apply List.Forall_forall. intros wr Hin. apply in_map_iff in Hin as ([i n] & <- & _).
    right; eexists; split; [|intros ?; cbv beta iota delta [snd]; reflexivity]; reflexivity.
  - destruct (floatingShapes t); [|constructor].
    apply List.Forall_forall. intros wr Hin. apply in_map_iff in Hin as ([i n] & <- & _).
    const_write.
Qed.

Lemma settles_frame_plan (t : MotionEffects) (ns : list Node) : settles (frame_plan t ns).
Proof.
  apply Forall_app. split; [apply settles_cursor_plan | apply settles_bg_plan].
Qed.

Lemma nodes_animate (w : World) :
  nodes (animate w) = apply_plan (frame_plan (this w) (nodes w)) (nodes w).
Proof. now rewrite animate_eq. Qed.

(** A frame that follows a frame repaints what is there. *)
Lemma animate_repaints (w : World) : nodes (animate (animate w)) = nodes (animate w).
Proof.
  rewrite (nodes_animate (animate w)), (animate_eq w).
  cbn [this nodes upd_this with_this with_rafCounter with_rafPending].
  change (nodes (paint ?p w)) with (apply_plan p (nodes w)).
  change (this (paint ?p w)) with (this w).
  set (P := frame_plan (this w) (nodes w)).
  assert (E : frame_plan (set_animationFrameId (Some (S (rafCounter w))) (this w))
                (apply_plan P (nodes w)) = P).
  { unfold P, frame_plan. now rewrite cursor_plan_painted. }
  rewrite E. apply apply_plan_twice, settles_frame_plan.
Qed.

Lemma this_with_rafPending (r : list nat) (w : World) : this (with_rafPending r w) = this w.
Proof. reflexivity. Qed.

Lemma nodes_with_rafPending (r : list nat) (w : World) : nodes (with_rafPending r w) = nodes w.
Proof. reflexivity. Qed.

Lemma frame_after_frame (w : World) :
  scheduled w -> nodes (step OpFrame (step OpFrame w)) = nodes (step OpFrame w).
Proof.
  intros [H|(id & H1 & _)].
  - now rewrite !(run_frame_idle w H).
  - assert (E1 : step OpFrame w = animate (with_rafPending [] w)).
    { cbn [step]. unfold run_frame. now rewrite H1. }
    rewrite E1. set (w0 := with_rafPending [] w).
    assert (R0 : rafPending w0 = []) by reflexivity. clearbody w0.
    assert (E2 : step OpFrame (animate w0) = animate (with_rafPending [] (animate w0))).
    { cbn [step]. unfold run_frame. rewrite (animate_eq w0) at 1.
      cbn [rafPending upd_this with_this with_rafCounter with_rafPending].
      rewrite R0. reflexivity. }
    rewrite E2, (nodes_animate (with_rafPending [] (animate w0))).
    rewrite this_with_rafPending, nodes_with_rafPending, <- nodes_animate.
    apply animate_repaints.
Qed.

(** With the pointer at rest the animation is at rest: in every state the
    component can reach, an animation frame that directly follows another
    one changes nothing in the document. *)
Theorem second_frame_changes_nothing (h : World) (ops : list op) :
  pristine h ->
  let w := run ops (construct h) in
  nodes (step OpFrame (step OpFrame w)) = nodes (step OpFrame w).
Proof.
  intros Hp. exact (frame_after_frame _ (reachable_scheduled h ops Hp)).
Qed.

Lemma second_frame_changes_nothing_witness :
  pristine (sample_page false)
  /\ nodes (step OpFrame (step OpFrame (run [OpMouseMove (mkMouseEvent 200 100)]
                                             (construct (sample_page false)))))
     = nodes (step OpFrame (run [OpMouseMove (mkMouseEvent 200 100)]
                                (construct (sample_page false)))).
Proof.
  split; [apply sample_pristine|].
  exact (second_frame_changes_nothing (sample_page false)
           [OpMouseMove (mkMouseEvent 200 100)] (sample_pristine false)).
Defined.

Lemma length_apply_plan (p : plan) (ns : list Node) :
  length (apply_plan p ns) = length ns.
Proof.
  unfold apply_plan. revert ns.
  induction p as [|wr p IH]; intros ns; [reflexivity|].
  cbn [fold_left]. rewrite IH. apply length_alter.
Qed.

(** A frame writes transforms and nothing else: every node keeps its tag,
    classes, parent, listeners and every other inline style; no node is
    created; apart from the frame request and its handle the rest of the
    state is as before. *)
Theorem animate_writes_only_transforms (w : World) (n : node_id) :
  (exists g, nodes (animate w) !! n = retransform g <$> nodes w !! n)
  /\ length (nodes (animate w)) = length (nodes w)
  /\ timers (animate w) = timers w
  /\ set_animationFrameId (animationFrameId (this w)) (this (animate w)) = this w.
Proof.
  rewrite animate_eq.
  cbn [this nodes timers upd_this with_this with_rafCounter with_rafPending].
  change (nodes (paint ?p w)) with (apply_plan p (nodes w)).
  change (this (paint ?p w)) with (this w).
  change (timers (paint ?p w)) with (timers w).
  split; [|split; [|split]].
  - eexists. apply lookup_apply_plan_id.
  - apply length_apply_plan.
  - reflexivity.
  - now destruct (this w).
Qed.

(** ** What the component leaves alone

    The rest of the page has to live with the component.  [Kn strict nd nd']
    bounds what the component may have done to a node between two states:
    the tag and the inline [left], [top], [width] and [height] are the
    same, no listener was taken off, the inline [position] is the same or
    has become [relative], the parent is the same (or, if not [strict], the
    node was detached), and the class list differs at most in the classes
    the component hands out.  With [strict], which is what holds of the
    nodes of the page, the node was not detached, its [transform] is the
    same and the cursor classes were not touched. *)

Definition page_adds : list string :=
  ["visible"; "page-transition"; "active"; "theme-transitioning"; "loading"].

Definition page_drops : list string := ["theme-transitioning"; "loading"].

Definition adds (strict : bool) : list string :=
  if strict then page_adds else "hover" :: page_adds.

Definition drops (strict : bool) : list string :=
  if strict then page_drops else "hover" :: "active" :: page_drops.

Record Kn (strict : bool) (nd nd' : Node) : Prop := mkKn {
  kn_tag : tag nd' = tag nd;
  kn_left : s_left (style nd') = s_left (style nd);
  kn_top : s_top (style nd') = s_top (style nd);
  kn_width : s_width (style nd') = s_width (style nd);
  kn_height : s_height (style nd') = s_height (style nd);
  kn_wired : wired nd <= wired nd';
  kn_position : s_position (style nd') = s_position (style nd)
                \/ s_position (style nd') = Some "relative";
  kn_parent : parent nd' = parent nd \/ (strict = false /\ parent nd' = None);
  kn_kept : forall c, In c (classList nd) -> In c (classList nd') \/ In c (drops strict);
  kn_added : forall c, In c (classList nd') -> In c (classList nd) \/ In c (adds strict);
  kn_transform : strict = true -> s_transform (style nd') = s_transform (style nd)
}.

(** The nodes the frames write to, and all the nodes the instance refers
    to. *)
Definition painted (t : MotionEffects) : list node_id :=
  layers t ++ option_list (gridElement t) ++ particles t ++ default [] (floatingShapes t).

Definition owned (t : MotionEffects) : list node_id := roots t ++ painted t.

(** The fields no method assigns once the constructor has returned. *)
Definition static_fields (t : MotionEffects) :=
  (motionBackground t, gridElement t, layers t, particles t, floatingShapes t,
   cursor t, cursorDot t, cursorTrail t, maxTrailLength t,
   animatedElements t, staggerGroups t, intersectionObserver t,
   lastScrollTime t, scrollThrottle t, mouseMoveThrottle t, prefersReducedMotion t).

(** The timers the component schedules. *)
Definition tame (strict : bool) (b : nat) (a : timer_action) : Prop :=
  match a with
  | TRemoveNode n => strict = true -> b <= n
  | TClassAdd _ c => In c page_adds
  | TClassRemove _ c => In c page_drops
  end.

Definition tame_timers (strict : bool) (b : nat) (w : World) : Prop :=
  Forall (fun ta => tame strict b (snd ta)) (timers w).

Record Keep (strict : bool) (b : nat) (w w' : World) : Prop := mkKeep {
  keep_length : length (nodes w) <= length (nodes w');
  keep_nodes : forall i nd, i < b -> nodes w !! i = Some nd ->
               exists nd', nodes w' !! i = Some nd' /\ Kn strict nd nd';
  keep_static : static_fields (this w') = static_fields (this w);
  keep_timers : tame_timers strict b w -> tame_timers strict b w';
  keep_count : prefersReducedMotion (this w) = true -> length (nodes w') = length (nodes w)
}.

(** The conditions under which an operation is run: the nodes spoken of
    exist, the timers are the component's and, for [strict], the instance
    refers to no node below the bound. *)
Definition fit (strict : bool) (b : nat) (w : World) : Prop :=
  b <= length (nodes w) /\ tame_timers strict b w
  /\ (strict = true -> Forall (le b) (owned (this w))).

Lemma Kn_refl (s : bool) (nd : Node) : Kn s nd nd.
Proof. split; auto. Qed.

Lemma Kn_trans (s : bool) (a b c : Node) : Kn s a b -> Kn s b c -> Kn s a c.
Proof.
  intros [T1 L1 P1 W1 H1 I1 O1 Q1 K1 A1 F1] [T2 L2 P2 W2 H2 I2 O2 Q2 K2 A2 F2].
  split; try congruence; try lia.
  - destruct O2 as [O2|O2]; [rewrite O2; exact O1 | now right].
  - destruct Q2 as [Q2|Q2]; [rewrite Q2; exact Q1 | now right].
  - intros c0 Hc. destruct (K1 c0 Hc) as [H|H]; [apply K2, H | now right].
  - intros c0 Hc. destruct (A2 c0 Hc) as [H|H]; [apply A1, H | now right].
  - intros Hs. rewrite (F2 Hs). exact (F1 Hs).
Qed.

Lemma owned_static (t t' : MotionEffects) :
  static_fields t' = static_fields t -> owned t' = owned t.
Proof.
  unfold static_fields, owned, roots, painted. intros H. injection H as -> -> -> -> -> -> -> ->.
  reflexivity.
Qed.

Lemma static_reduced (t t' : MotionEffects) :
  static_fields t' = static_fields t -> prefersReducedMotion t' = prefersReducedMotion t.
Proof. unfold static_fields. intros H. now injection H. Qed.

Lemma Keep_refl (s : bool) (b : nat) (w : World) : Keep s b w w.
Proof. split; auto. intros i nd _ H. exists nd. split; [exact H | apply Kn_refl]. Qed.

Lemma Keep_trans (s : bool) (b : nat) (w1 w2 w3 : World) :
  Keep s b w1 w2 -> Keep s b w2 w3 -> Keep s b w1 w3.
Proof.
  intros [L1 N1 S1 T1 C1] [L2 N2 S2 T2 C2]. split; auto; try congruence; try lia.
  - intros i nd Hi H. destruct (N1 i nd Hi H) as (nd2 & H2 & R2).
    destruct (N2 i nd2 Hi H2) as (nd3 & H3 & R3).
    exists nd3. split; [exact H3 | eapply Kn_trans; eauto].
  - intros Hr. rewrite C2, C1; auto. now rewrite (static_reduced _ _ S1).
Qed.

Lemma Keep_fit (s : bool) (b : nat) (w w' : World) : fit s b w -> Keep s b w w' -> fit s b w'.
Proof.
  intros (Hb & Ht & Ho) [L N S T C]. split; [lia|]. split; [auto|].
  intros Hs. rewrite (owned_static _ _ S). auto.
Qed.

(** A change that leaves the node store alone. *)
Lemma Keep_same_nodes (s : bool) (b : nat) (w w' : World) :
  nodes w' = nodes w ->
  static_fields (this w') = static_fields (this w) ->
  (tame_timers s b w -> tame_timers s b w') ->
  Keep s b w w'.
Proof.
  intros Hn Hc Ht. split; auto.
  - rewrite Hn. lia.
  - intros i nd _ H. exists nd. rewrite Hn. split; [exact H | apply Kn_refl].
  - now rewrite Hn.
Qed.

Lemma Keep_upd_node (s : bool) (b : nat) (n : node_id) (f : Node -> Node) (w : World) :
  (n < b -> forall nd, Kn s nd (f nd)) -> Keep s b w (upd_node n f w).
Proof.
  intros Hf. split; try reflexivity; auto.
  - rewrite length_upd_node. lia.
  - intros i nd Hi H. rewrite lookup_upd_node.
    destruct (decide (n = i)) as [->|Hne].
    + rewrite H. simpl. exists (f nd). split; [reflexivity | now apply Hf].
    + exists nd. split; [exact H | apply Kn_refl].
  - intros _. apply length_upd_node.
Qed.

(** Nothing is asked of a node at or above the bound. *)
Lemma Keep_upd_above (s : bool) (b : nat) (n : node_id) (f : Node -> Node) (w : World) :
  b <= n -> Keep s b w (upd_node n f w).
Proof. intros Hn. apply Keep_upd_node. intros Hlt. exfalso. lia. Qed.

(** A node is only ever made when animations are on. *)
Lemma Keep_alloc (s : bool) (b : nat) (nd : Node) (w : World) :
  prefersReducedMotion (this w) = false -> Keep s b w (with_nodes (nodes w ++ [nd]) w).
Proof.
  intros Hm. split; try reflexivity; auto.
  - simpl. rewrite length_app. lia.
  - intros i nd0 _ H. exists nd0. split; [|apply Kn_refl].
    simpl. rewrite lookup_app_l; [exact H|]. eapply lookup_lt_Some; eauto.
  - rewrite Hm. discriminate.
Qed.

Lemma Keep_upd_this (s : bool) (b : nat) (f : MotionEffects -> MotionEffects) (w : World) :
  static_fields (f (this w)) = static_fields (this w) -> Keep s b w (upd_this f w).
Proof. intros Hc. apply Keep_same_nodes; auto. Qed.

Lemma Keep_setTimeout (s : bool) (b : nat) (a : timer_action) (d : Z) (w : World) :
  tame s b a -> Keep s b w (setTimeout a d w).
Proof.
  intros Ha. apply Keep_same_nodes; auto.
  intros Ht. unfold tame_timers, setTimeout; simpl. now apply Forall_enqueue.
Qed.

(** The node functions of the component and what they keep. *)
Lemma In_token_add_inv (c x : string) (l : list string) :
  In x (token_add c l) -> In x l \/ x = c.
Proof.
  unfold token_add. destruct (bool_decide (c ∈ l)); [auto|].
  intros H. apply in_app_or in H as [H|[H|[]]]; auto.
Qed.

Lemma In_token_remove_inv (c x : string) (l : list string) :
  In x (token_remove c l) -> In x l.
Proof. unfold token_remove. intros H. now apply filter_In in H. Qed.

Lemma In_token_remove_or (c x : string) (l : list string) :
  In x l -> In x (token_remove c l) \/ x = c.
Proof.
  intros H. destruct (String.eqb_spec x c) as [->|Hne]; [now right|].
  left. now apply In_token_remove.
Qed.

Lemma Kn_class_add (s : bool) (c : string) (nd : Node) :
  In c (adds s) -> Kn s nd (set_classList (token_add c (classList nd)) nd).
Proof.
  intros Hc. split; simpl; auto.
  all: intros c0 H;
    first [left; now apply In_token_add | apply In_token_add_inv in H as [H| ->]; auto].
Qed.

Lemma Kn_class_remove (s : bool) (c : string) (nd : Node) :
  In c (drops s) -> Kn s nd (set_classList (token_remove c (classList nd)) nd).
Proof.
  intros Hc. split; simpl; auto.
  all: intros c0 H;
    first [left; eapply In_token_remove_inv; eassumption
          | apply (In_token_remove_or c) in H as [H| ->]; auto].
Qed.

Lemma Kn_detach (nd : Node) : Kn false nd (set_parent None nd).
Proof. split; simpl; auto; discriminate. Qed.

Lemma Kn_wired (s : bool) (nd : Node) : Kn s nd (set_wired (S (wired nd)) nd).
Proof. split; simpl; auto. Qed.

(** A write to the inline style that is not one to [left], [top], [width]
    or [height]. *)
Definition gentle (s : bool) (f : Style -> Style) : Prop :=
  forall st,
    s_left (f st) = s_left st /\ s_top (f st) = s_top st
    /\ s_width (f st) = s_width st /\ s_height (f st) = s_height st
    /\ (s_position (f st) = s_position st \/ s_position (f st) = Some "relative")
    /\ (s = true -> s_transform (f st) = s_transform st).

Lemma Kn_style (s : bool) (f : Style -> Style) (nd : Node) :
  gentle s f -> Kn s nd (set_style (f (style nd)) nd).
Proof.
  intros H. destruct (H (style nd)) as (H1 & H2 & H3 & H4 & H5 & H6).
  split; simpl; auto.
Qed.

Lemma Keep_classList_add (s : bool) (b : nat) (n : node_id) (c : string) (w : World) :
  In c (adds s) -> Keep s b w (classList_add n c w).
Proof. intros Hc. apply Keep_upd_node. intros _ nd. now apply Kn_class_add. Qed.

Lemma Keep_classList_remove (s : bool) (b : nat) (n : node_id) (c : string) (w : World) :
  In c (drops s) -> Keep s b w (classList_remove n c w).
Proof. intros Hc. apply Keep_upd_node. intros _ nd. now apply Kn_class_remove. Qed.

Lemma Keep_remove (s : bool) (b : nat) (n : node_id) (w : World) :
  (s = true -> b <= n) -> Keep s b w (remove n w).
Proof.
  intros Hn. apply Keep_upd_node. intros Hlt nd.
  destruct s; [specialize (Hn eq_refl); lia | apply Kn_detach].
Qed.

Lemma Keep_addInteractiveListeners (s : bool) (b : nat) (n : node_id) (w : World) :
  Keep s b w (addInteractiveListeners n w).
Proof. apply Keep_upd_node. intros _ nd. apply Kn_wired. Qed.

Lemma Keep_upd_style (s : bool) (b : nat) (n : node_id) (f : Style -> Style) (w : World) :
  (n < b -> gentle s f) -> Keep s b w (upd_style n f w).
Proof. intros H. apply Keep_upd_node. intros Hn nd. apply Kn_style. now apply H. Qed.

(** Loops and sequences: every step is run under [fit] and relates its own
    start to its end. *)
Lemma Keep_for_each {A : Type} (s : bool) (b : nat) (l : list A) (f : A -> World -> World)
    (w : World) :
  fit s b w ->
  (forall x w', In x l -> fit s b w' -> Keep s b w' (f x w')) ->
  Keep s b w (for_each l f w).
Proof.
  intros Hok Hf.
  apply (for_each_inv (fun w' => Keep s b w w') l f); [|apply Keep_refl].
  intros x w' Hx Hw'. eapply Keep_trans; [exact Hw'|].
  apply Hf; [exact Hx | eapply Keep_fit; eauto].
Qed.

Lemma Keep_iter (s : bool) (b : nat) (n : nat) (f : World -> World) (w : World) :
  fit s b w ->
  (forall w', fit s b w' -> Keep s b w' (f w')) ->
  Keep s b w (Nat.iter n f w).
Proof.
  intros Hok Hf.
  apply (iter_inv (fun w' => Keep s b w w') n f); [|apply Keep_refl].
  intros w' Hw'. eapply Keep_trans; [exact Hw'|].
  apply Hf. eapply Keep_fit; eauto.
Qed.

Lemma Keep_then (s : bool) (b : nat) (w w' : World) (g : World -> World) :
  fit s b w -> Keep s b w w' -> (fit s b w' -> Keep s b w' (g w')) -> Keep s b w (g w').
Proof.
  intros Hok H1 H2. eapply Keep_trans; [exact H1|]. apply H2. eapply Keep_fit; eauto.
Qed.

Create HintDb keep.

Ltac in_list := simpl; tauto.

Ltac gentle_write :=
  intros _ st; cbn; repeat split; solve [auto | discriminate].

(** [keep_prim] closes a goal about one primitive; [keep] walks through a
    sequence of them, a conditional or a loop. *)
Ltac keep_prim :=
  idtac;
  lazymatch goal with
  | |- Keep _ _ ?w ?w => apply Keep_refl
  | |- Keep ?s _ _ (classList_add _ _ _) => apply Keep_classList_add; destruct s; in_list
  | |- Keep ?s _ _ (classList_remove _ _ _) =>
      apply Keep_classList_remove; destruct s; in_list
  | |- Keep _ _ _ (addInteractiveListeners _ _) => apply Keep_addInteractiveListeners
  | |- Keep _ _ _ (setTimeout _ _ _) => apply Keep_setTimeout; in_list
  | |- Keep _ _ _ (upd_style _ _ _) => apply Keep_upd_style; gentle_write
  | |- Keep _ _ _ (upd_this _ _) => apply Keep_upd_this; reflexivity
  | |- Keep _ _ _ (with_nodes (nodes _ ++ [_]) _) => apply Keep_alloc; assumption
  | |- Keep _ _ _ (with_moActive _ _) => apply Keep_same_nodes; auto
  | |- Keep _ _ _ (with_docListening _ _) => apply Keep_same_nodes; auto
  | |- Keep _ _ _ (with_ioObserved _ _) => apply Keep_same_nodes; auto
  | |- Keep _ _ _ (with_rects _ _) => apply Keep_same_nodes; auto
  | |- Keep _ _ _ (with_innerWidth _ _) => apply Keep_same_nodes; auto
  | |- Keep _ _ _ (with_innerHeight _ _) => apply Keep_same_nodes; auto
  | |- Keep _ _ _ (with_clock _ _) => apply Keep_same_nodes; auto
  | |- Keep _ _ _ (with_randomPos _ _) => apply Keep_same_nodes; auto
  | |- Keep _ _ _ (cancelAnimationFrame _ _) => apply Keep_same_nodes; auto
  | _ => solve [auto with keep]
  end.

Ltac keep_with tac :=
  cbv beta iota;
  lazymatch goal with
  | |- Keep _ _ ?w ?w => apply Keep_refl
  | |- Keep ?s ?b ?w (let x := ?v in @?body x) =>
      lazymatch type of v with
      | World =>
          apply (Keep_then s b w v body);
          [assumption | keep_with tac | generalize v; intros ? ?; keep_with tac]
      | _ => change (Keep s b w (body v)); keep_with tac
      end
  | |- Keep _ _ _ (if ?c then _ else _) => destruct c; keep_with tac
  | |- Keep _ _ _ (match (if ?c then _ else _) with _ => _ end) => destruct c; keep_with tac
  | |- Keep _ _ _ (match ?x with _ => _ end) => destruct x; keep_with tac
  | |- Keep _ _ _ (match ?x with _ => _ end _) => destruct x; keep_with tac
  | |- Keep _ _ ?w (for_each _ _ ?w) =>
      apply Keep_for_each; [assumption | intros; keep_with tac]
  | |- Keep _ _ ?w (Nat.iter _ _ ?w) =>
      apply Keep_iter; [assumption | intros; keep_with tac]
  | |- Keep _ _ ?w (?g ?w) => tac
  | |- Keep _ _ ?w (?g ?w') =>
      apply (Keep_then _ _ w w' g);
      [assumption | keep_with tac | generalize w'; intros ? ?; keep_with tac]
  end.

Ltac keep := keep_with keep_prim.

Lemma Keep_handleMouseMove (s : bool) (b : nat) (e : MouseEvent) (w : World) :
  fit s b w -> Keep s b w (handleMouseMove e w).
Proof. intros Hok. unfold handleMouseMove. keep. Qed.

Lemma Keep_handleCardHover (s : bool) (b : nat) (e : MouseEvent) (w : World) :
  fit s b w -> Keep s b w (handleCardHover e w).
Proof. intros Hok. unfold handleCardHover, card_hover. keep. Qed.

Lemma Keep_checkElementsInViewport (s : bool) (b : nat) (w : World) :
  fit s b w -> Keep s b w (checkElementsInViewport w).
Proof. intros Hok. unfold checkElementsInViewport. keep. Qed.

#[local] Hint Extern 1 (Keep _ _ _ (handleMouseMove _ _)) => apply Keep_handleMouseMove : keep.
#[local] Hint Extern 1 (Keep _ _ _ (handleCardHover _ _)) => apply Keep_handleCardHover : keep.
#[local] Hint Extern 1 (Keep _ _ _ (checkElementsInViewport _)) => apply Keep_checkElementsInViewport : keep.

Lemma Keep_handleResize (s : bool) (b : nat) (w : World) :
  fit s b w -> Keep s b w (handleResize w).
Proof. intros Hok. unfold handleResize. keep. Qed.

Lemma Keep_handleThemeChange (s : bool) (b : nat) (w : World) :
  fit s b w -> Keep s b w (handleThemeChange w).
Proof. intros Hok. unfold handleThemeChange. keep. Qed.

Lemma Keep_io_callback (s : bool) (b : nat) (entries : list (node_id * bool)) (w : World) :
  fit s b w -> Keep s b w (io_callback entries w).
Proof. intros Hok. unfold io_callback, io_entry. keep. Qed.

Lemma Keep_mutation_callback (s : bool) (b : nat) (added : list node_id) (w : World) :
  fit s b w -> Keep s b w (mutation_callback added w).
Proof.
  revert w. induction added as [|node rest IH]; intros w Hok; simpl; [apply Keep_refl|].
  destruct (matches sel_interactive w node); [apply Keep_refl|].
  eapply Keep_then; [exact Hok | keep | apply IH].
Qed.

Lemma Keep_addShimmerLoading (s : bool) (b : nat) (el : node_id) (w : World) :
  fit s b w -> Keep s b w (addShimmerLoading el w).
Proof. intros Hok. unfold addShimmerLoading. keep. Qed.

Lemma Keep_triggerPageTransition (s : bool) (b : nat) (w : World) :
  fit s b w -> Keep s b w (triggerPageTransition w).
Proof. intros Hok. unfold triggerPageTransition. keep. Qed.

Lemma Keep_animatePageTransition (s : bool) (b : nat) (w : World) :
  fit s b w -> Keep s b w (animatePageTransition w).
Proof. intros Hok. unfold animatePageTransition. keep. Qed.

(** *** Frames *)

Lemma writes_to_absent (k : node_id) (p : plan)
    (g : list transform_fn -> list transform_fn) :
  ~ In k (map fst p) -> writes_to k p g = g.
Proof.
  revert g. induction p as [|[m h] p IH]; intros g Hk; [reflexivity|].
  change (writes_to k ((m, h) :: p) g)
    with (writes_to k p (if decide (m = k) then fun v => h (g v) else g)).
  cbn [map fst In] in Hk.
  destruct (decide (m = k)) as [->|Hne]; [tauto|]. apply IH. tauto.
Qed.

Lemma lookup_apply_plan_absent (p : plan) (ns : list Node) (k : node_id) :
  ~ In k (map fst p) -> apply_plan p ns !! k = ns !! k.
Proof.
  intros Hk. rewrite lookup_apply_plan_id, writes_to_absent by exact Hk.
  destruct (ns !! k) as [nd|]; [|reflexivity]. simpl. now rewrite retransform_id.
Qed.

Lemma targets_indexed {B : Type} (F : nat * node_id -> node_id * B) (l : list node_id)
    (m : node_id) :
  (forall i x, fst (F (i, x)) = x) -> In m (map fst (map F (indexed l))) -> In m l.
Proof.
  intros HF H. rewrite map_map in H. apply in_map_iff in H as ([i x] & <- & Hin).
  rewrite HF. unfold indexed in Hin. eapply in_combine_r; eauto.
Qed.

Lemma In_lookup (l : list node_id) (i : nat) (x : node_id) : l !! i = Some x -> In x l.
Proof. intros H. apply list_elem_of_In. eapply list_elem_of_lookup_2; eauto. Qed.

Lemma targets_trail_plan (t : MotionEffects) (ns : list Node) (x y : Q) (m : node_id) :
  In m (map fst (trail_plan t ns x y)) -> In m (cursorTrail t).
Proof.
  unfold trail_plan. rewrite map_app, in_app_iff. intros [H|H].
  - apply in_map_iff in H as ([m' h] & <- & H). apply in_flat_map in H as (i & _ & H).
    unfold trail_write in H.
    destruct (cursorTrail t !! i) as [cur|] eqn:E; [|destruct H].
    destruct (cursorTrail t !! (i - 1)); [|destruct H].
    destruct H as [H|[]]. injection H as <- _. eapply In_lookup; eauto.
  - destruct (cursorTrail t !! 0) as [first|] eqn:E; [|destruct H].
    destruct H as [<-|[]]. eapply In_lookup; eauto.
Qed.

Lemma targets_cursor_plan (t : MotionEffects) (ns : list Node) (m : node_id) :
  In m (map fst (cursor_plan t ns)) -> In m (roots t).
Proof.
  unfold cursor_plan, roots.
  destruct (cursor t) as [c|]; [|intros []]. destruct (cursorDot t) as [d|]; [|intros []].
  destruct (prefersReducedMotion t); [intros []|]. cbv zeta.
  rewrite map_app, in_app_iff. rewrite !in_app_iff. intros [[<-|[<-|[]]]|H].
  - right. left. now left.
  - right. right. left. now left.
  - right. right. right. eapply targets_trail_plan; eauto.
Qed.

Lemma targets_bg_plan (t : MotionEffects) (m : node_id) :
  In m (map fst (bg_plan t)) -> In m (painted t).
Proof.
  unfold bg_plan, painted.
  destruct (Nat.eqb (length (layers t)) 0 || prefersReducedMotion t); [intros []|].
  cbv zeta. rewrite !map_app, !in_app_iff. intros [H|[H|[H|H]]].
  - left. eapply targets_indexed; [|exact H]. reflexivity.
  - right. left. destruct (gridElement t); [|destruct H]. destruct H as [<-|[]]. now left.
  - right. right. left. eapply targets_indexed; [|exact H]. reflexivity.
  - right. right. right. destruct (floatingShapes t) as [shapes|]; [|destruct H].
    eapply targets_indexed; [|exact H]. reflexivity.
Qed.

Lemma targets_frame_plan (t : MotionEffects) (ns : list Node) (m : node_id) :
  In m (map fst (frame_plan t ns)) -> In m (owned t).
Proof.
  unfold frame_plan, owned. rewrite map_app, !in_app_iff. intros [H|H].
  - left. eapply targets_cursor_plan; eauto.
  - right. now apply targets_bg_plan.
Qed.

Lemma Kn_retransform (g : list transform_fn -> list transform_fn) (nd : Node) :
  Kn false nd (retransform g nd).
Proof. split; simpl; auto; discriminate. Qed.

Lemma Keep_animate (s : bool) (b : nat) (w : World) : fit s b w -> Keep s b w (animate w).
Proof.
  intros (Hb & Ht & Ho). rewrite animate_eq. split.
  - cbn [nodes upd_this with_this with_rafCounter with_rafPending paint with_nodes].
    rewrite length_apply_plan. lia.
  - intros i nd Hi H.
    cbn [nodes upd_this with_this with_rafCounter with_rafPending paint with_nodes].
    destruct s.
    + exists nd. split; [|apply Kn_refl].
      rewrite lookup_apply_plan_absent; [exact H|].
      intros Hin. apply targets_frame_plan in Hin.
      specialize (Ho eq_refl). rewrite List.Forall_forall in Ho.
      specialize (Ho i Hin). lia.
    + rewrite lookup_apply_plan_id, H. eexists. split; [reflexivity|].
      apply Kn_retransform.
  - reflexivity.
  - intros H. exact H.
  - intros _.
    cbn [nodes upd_this with_this with_rafCounter with_rafPending paint with_nodes].
    apply length_apply_plan.
Qed.

Lemma Keep_run_frame (s : bool) (b : nat) (w : World) : fit s b w -> Keep s b w (run_frame w).
Proof.
  intros Hok. unfold run_frame.
  eapply Keep_then; [exact Hok | |].
  - apply Keep_same_nodes; auto.
  - intros Hok'. apply Keep_for_each; [exact Hok'|].
    intros _ w' _ Hw'. now apply Keep_animate.
Qed.

(** *** Timers *)

Lemma Keep_fire (s : bool) (b : nat) (a : timer_action) (w : World) :
  tame s b a -> Keep s b w (fire a w).
Proof.
  intros Ha. destruct a as [n|n c|n c]; simpl in *.
  - now apply Keep_remove.
  - apply Keep_classList_add. destruct s; simpl in *; tauto.
  - apply Keep_classList_remove. destruct s; simpl in *; tauto.
Qed.

Lemma Keep_advance (s : bool) (b : nat) (d : Z) (w : World) :
  fit s b w -> Keep s b w (advance d w).
Proof.
  intros Hok. pose proof Hok as (_ & Ht & _). unfold advance. cbv zeta.
  eapply Keep_then; [exact Hok | |].
  - apply Keep_same_nodes; auto.
    intros _. unfold tame_timers in *. simpl. rewrite List.Forall_forall in *.
    intros ta Hta. apply Ht. eapply due_rest_incl; eauto.
  - intros Hok'. apply Keep_for_each; [exact Hok'|].
    intros ta w' Hta _. apply Keep_fire.
    unfold tame_timers in Ht. rewrite List.Forall_forall in Ht.
    apply Ht. eapply due_prefix_incl; eauto.
Qed.

(** *** Clicks *)

Lemma Keep_createRippleEffect (s : bool) (b : nat) (el : node_id) (e : MouseEvent)
    (w : World) :
  fit s b w -> Keep s b w (createRippleEffect el e w).
Proof.
  intros Hok. pose proof Hok as (Hb & _ & _).
  unfold createRippleEffect, createElement, set_cssText, appendChild.
  destruct (prefersReducedMotion (this w)) eqn:Hm; [apply Keep_refl|].
  cbv beta iota zeta.
  repeat lazymatch goal with
  | |- Keep _ _ ?w ?w => apply Keep_refl
  | |- Keep _ _ ?w (?g ?w) => idtac
  | |- Keep _ _ ?w (?g ?w') =>
      apply (Keep_trans _ _ w w' (g w'));
      [|first
         [ apply Keep_setTimeout; intros _; exact Hb
         | apply Keep_upd_style; first [intros Hlt; exfalso; lia | gentle_write]
         | apply Keep_upd_above; exact Hb ]]
  end.
  apply Keep_alloc. exact Hm.
Qed.

(** *** The cursor classes *)

Lemma owned_cursor (s : bool) (b : nat) (w : World) (c : node_id) :
  fit s b w -> cursor (this w) = Some c -> s = true -> b <= c.
Proof.
  intros (_ & _ & Ho) Hc Hs. specialize (Ho Hs). rewrite List.Forall_forall in Ho.
  apply Ho. unfold owned, roots. rewrite Hc. rewrite !in_app_iff. left. right. left. now left.
Qed.

Lemma owned_cursorDot (s : bool) (b : nat) (w : World) (d : node_id) :
  fit s b w -> cursorDot (this w) = Some d -> s = true -> b <= d.
Proof.
  intros (_ & _ & Ho) Hc Hs. specialize (Ho Hs). rewrite List.Forall_forall in Ho.
  apply Ho. unfold owned, roots. rewrite Hc. rewrite !in_app_iff.
  left. right. right. left. now left.
Qed.

Lemma owned_cursorTrail (s : bool) (b : nat) (w : World) (n : node_id) :
  fit s b w -> In n (cursorTrail (this w)) -> s = true -> b <= n.
Proof.
  intros (_ & _ & Ho) Hc Hs. specialize (Ho Hs). rewrite List.Forall_forall in Ho.
  apply Ho. unfold owned, roots. rewrite !in_app_iff. left. right. right. now right.
Qed.

Lemma owned_motionBackground (s : bool) (b : nat) (w : World) (n : node_id) :
  fit s b w -> motionBackground (this w) = Some n -> s = true -> b <= n.
Proof.
  intros (_ & _ & Ho) Hc Hs. specialize (Ho Hs). rewrite List.Forall_forall in Ho.
  apply Ho. unfold owned, roots. rewrite Hc. rewrite !in_app_iff. left. left. now left.
Qed.

(** A class of the cursor put on or taken off a node: free above the
    bound, and below it where the cursor classes may change. *)
Lemma Keep_cursor_class (s : bool) (b : nat) (n : node_id) (c : string) (w : World)
    (f : list string -> list string) :
  (f = token_add c \/ f = token_remove c) -> In c ["hover"; "active"] ->
  (s = true -> b <= n) ->
  Keep s b w (upd_node n (fun nd => set_classList (f (classList nd)) nd) w).
Proof.
  intros Hf Hc Hn. destruct s; [apply Keep_upd_above; auto|].
  apply Keep_upd_node. intros _ nd.
  destruct Hf as [-> | ->]; [apply Kn_class_add | apply Kn_class_remove];
    simpl in *; tauto.
Qed.

Lemma Keep_cursor_classes_add (s : bool) (b : nat) (c : string) (w : World) :
  In c ["hover"; "active"] -> fit s b w -> Keep s b w (cursor_classes classList_add c w).
Proof.
  intros Hc Hok. unfold cursor_classes.
  destruct (cursor (this w)) as [cur|] eqn:Ec; [|apply Keep_refl]. cbv zeta.
  assert (H1 : Keep s b w (classList_add cur c w)).
  { apply (Keep_cursor_class s b cur c w (token_add c)); auto.
    eapply owned_cursor; eauto. }
  change (cursorDot (this (classList_add cur c w))) with (cursorDot (this w)).
  destruct (cursorDot (this w)) as [dot|] eqn:Ed; [|exact H1].
  eapply Keep_trans; [exact H1|].
  apply (Keep_cursor_class s b dot c _ (token_add c)); auto.
  eapply owned_cursorDot; eauto.
Qed.

Lemma Keep_cursor_classes_remove (s : bool) (b : nat) (c : string) (w : World) :
  In c ["hover"; "active"] -> fit s b w -> Keep s b w (cursor_classes classList_remove c w).
Proof.
  intros Hc Hok. unfold cursor_classes.
  destruct (cursor (this w)) as [cur|] eqn:Ec; [|apply Keep_refl]. cbv zeta.
  assert (H1 : Keep s b w (classList_remove cur c w)).
  { apply (Keep_cursor_class s b cur c w (token_remove c)); auto.
    eapply owned_cursor; eauto. }
  change (cursorDot (this (classList_remove cur c w))) with (cursorDot (this w)).
  destruct (cursorDot (this w)) as [dot|] eqn:Ed; [|exact H1].
  eapply Keep_trans; [exact H1|].
  apply (Keep_cursor_class s b dot c _ (token_remove c)); auto.
  eapply owned_cursorDot; eauto.
Qed.

Lemma Keep_on_mouseenter (s : bool) (b : nat) (el : node_id) (w : World) :
  fit s b w -> Keep s b w (on_mouseenter el w).
Proof.
  intros Hok. unfold on_mouseenter.
  eapply Keep_then; [exact Hok | keep | apply Keep_cursor_classes_add; in_list].
Qed.

Lemma Keep_on_mousedown (s : bool) (b : nat) (el : node_id) (w : World) :
  fit s b w -> Keep s b w (on_mousedown el w).
Proof.
  intros Hok. unfold on_mousedown.
  eapply Keep_then; [exact Hok | keep | apply Keep_cursor_classes_add; in_list].
Qed.

Lemma Keep_on_mouseleave (s : bool) (b : nat) (el : node_id) (w : World) :
  fit s b w -> Keep s b w (on_mouseleave el w).
Proof.
  intros Hok. unfold on_mouseleave.
  eapply Keep_then; [exact Hok | keep | apply Keep_cursor_classes_remove; in_list].
Qed.

Lemma Keep_on_mouseup (s : bool) (b : nat) (el : node_id) (w : World) :
  fit s b w -> Keep s b w (on_mouseup el w).
Proof.
  intros Hok. unfold on_mouseup.
  eapply Keep_then; [exact Hok | keep | apply Keep_cursor_classes_remove; in_list].
Qed.

Lemma Keep_dispatch (s : bool) (b : nat) (handler : node_id -> World -> World)
    (path : list node_id) (w : World) :
  (forall n w', fit s b w' -> Keep s b w' (handler n w')) ->
  fit s b w -> Keep s b w (dispatch handler path w).
Proof.
  intros Hh Hok. unfold dispatch. apply Keep_for_each; [exact Hok|].
  intros n w' _ Hok'. apply Keep_iter; [exact Hok'|]. intros. now apply Hh.
Qed.

Lemma Keep_at_document (s : bool) (b : nat) (target : node_id) (f : World -> World)
    (w : World) :
  Keep s b w (f w) -> Keep s b w (at_document target f w).
Proof.
  intros H. unfold at_document.
  destruct (docListening w && in_document w target); [exact H | apply Keep_refl].
Qed.

(** *** Teardown *)

Lemma Keep_destroy (s : bool) (b : nat) (w : World) : fit s b w -> Keep s b w (destroy w).
Proof.
  intros Hok. unfold destroy.
  set (w1 := match animationFrameId (this w) with
             | Some (S _ as id) => cancelAnimationFrame id w
             | _ => w
             end).
  assert (H1 : Keep s b w w1).
  { subst w1. destruct (animationFrameId (this w)) as [[|id]|]; try apply Keep_refl.
    apply Keep_same_nodes; auto. }
  assert (E1 : this w1 = this w).
  { subst w1. now destruct (animationFrameId (this w)) as [[|id]|]. }
  clearbody w1. cbv zeta.
  set (w2 := if intersectionObserver (this w1) then with_ioObserved [] w1 else w1).
  assert (H2 : Keep s b w1 w2).
  { subst w2. destruct (intersectionObserver (this w1)); [|apply Keep_refl].
    apply Keep_same_nodes; auto. }
  assert (E2 : this w2 = this w1).
  { subst w2. now destruct (intersectionObserver (this w1)). }
  clearbody w2.
  set (w3 := match cursor (this w2) with Some c => remove c w2 | None => w2 end).
  assert (Hok2 : fit s b w2) by (eapply Keep_fit; [|exact H2]; eapply Keep_fit; eauto).
  assert (H3 : Keep s b w2 w3).
  { subst w3. destruct (cursor (this w2)) as [c|] eqn:E; [|apply Keep_refl].
    apply Keep_remove. eapply owned_cursor; eauto. }
  assert (E3 : this w3 = this w2).
  { subst w3. now destruct (cursor (this w2)). }
  clearbody w3.
  set (w4 := match cursorDot (this w3) with Some d => remove d w3 | None => w3 end).
  assert (Hok3 : fit s b w3) by (eapply Keep_fit; eauto).
  assert (H4 : Keep s b w3 w4).
  { subst w4. destruct (cursorDot (this w3)) as [c|] eqn:E; [|apply Keep_refl].
    apply Keep_remove. eapply owned_cursorDot; eauto. }
  assert (E4 : this w4 = this w3).
  { subst w4. now destruct (cursorDot (this w3)). }
  clearbody w4.
  assert (Hok4 : fit s b w4) by (eapply Keep_fit; eauto).
  set (w5 := for_each (cursorTrail (this w4)) remove w4).
  assert (H5 : Keep s b w4 w5).
  { subst w5. apply Keep_for_each; [exact Hok4|].
    intros n w' Hn _. apply Keep_remove. eapply owned_cursorTrail; eauto. }
  clearbody w5.
  assert (Hok5 : fit s b w5) by (eapply Keep_fit; eauto).
  assert (H6 : Keep s b w5 match motionBackground (this w5) with
                           | Some mb => remove mb w5
                           | None => w5
                           end).
  { destruct (motionBackground (this w5)) as [mb|] eqn:E; [|apply Keep_refl].
    apply Keep_remove. eapply owned_motionBackground; eauto. }
  repeat (eapply Keep_trans; [eassumption|]). apply Keep_refl.
Qed.

(** *** Every operation *)

Lemma Keep_step (s : bool) (b : nat) (o : op) (w : World) :
  fit s b w -> Keep s b w (step o w).
Proof.
  intros Hok. destruct o; cbn [step].
  - now apply Keep_run_frame.
  - now apply Keep_advance.
  - destruct (docListening w); [|apply Keep_refl].
    eapply Keep_then; [exact Hok | now apply Keep_handleMouseMove
                      | apply Keep_handleCardHover].
  - keep.
  - keep.
  - apply Keep_dispatch; [apply Keep_on_mouseenter | exact Hok].
  - apply Keep_dispatch; [apply Keep_on_mouseleave | exact Hok].
  - eapply Keep_then; [exact Hok | apply Keep_dispatch; [apply Keep_on_mousedown | exact Hok] |].
    intros Hok'. apply Keep_at_document. keep.
  - eapply Keep_then; [exact Hok | apply Keep_dispatch; [apply Keep_on_mouseup | exact Hok] |].
    intros Hok'. apply Keep_at_document. keep.
  - apply Keep_dispatch; [|exact Hok]. intros n w' Hw'. now apply Keep_createRippleEffect.
  - set (w1 := with_innerHeight height (with_innerWidth width w)).
    assert (H1 : Keep s b w w1) by (apply Keep_same_nodes; auto).
    destruct (docListening w1); [|exact H1].
    eapply Keep_then; [exact Hok | exact H1 | apply Keep_handleResize].
  - apply Keep_same_nodes; auto.
  - destruct (docListening w); [now apply Keep_handleThemeChange | apply Keep_refl].
  - now apply Keep_io_callback.
  - destruct (moActive w); [now apply Keep_mutation_callback | apply Keep_refl].
  - now apply Keep_addShimmerLoading.
  - now apply Keep_triggerPageTransition.
  - now apply Keep_destroy.
Qed.

Lemma Keep_run (s : bool) (b : nat) (ops : list op) (w : World) :
  fit s b w -> Keep s b w (run ops w).
Proof.
  intros Hok. unfold run. apply Keep_for_each; [exact Hok|].
  intros o w' _ Hw'. now apply Keep_step.
Qed.

(** *** The constructor *)

(** The fields once both builders have run on a page of [a] nodes. *)
Definition built_fields (a : nat) (t : MotionEffects) : MotionEffects :=
  cursor_fields (a + 53) 8 (background_fields a t).

Lemma builders_eq (h : World) :
  reducedMotionPref h = false ->
  exists sts r',
    length sts = 25
    /\ createCustomCursor (createMotionBackground (with_this (new_fields h) h))
       = setupInteractiveElements
           (with_randomPos r'
              (with_this (built_fields (length (nodes h)) (new_fields h))
                 (with_nodes
                    (nodes h
                     ++ background_nodes (length (nodes h)) (random h) (randomPos h) sts
                     ++ cursor_nodes 8) h))).
Proof.
  destruct h as [t ns rc iw ih ch rm ck tm rp rcn io mo dl rnd r].
  cbn [reducedMotionPref]. intros ->.
  destruct (createMotionBackground_at rc iw ih ch false ck tm rp rcn io mo dl rnd
              (fields_at iw ih false) ns r eq_refl) as (sts & r' & Hlen & E).
  exists sts, r'. split; [exact Hlen|].
  change (with_this _ _) with (at_ rc iw ih ch false ck tm rp rcn io mo dl rnd
                                   (fields_at iw ih false) ns r) at 1.
  rewrite E.
  apply (createCustomCursor_cps rc iw ih ch false ck tm rp rcn io mo dl rnd _ _ r'
           (fun W => W = _)); [reflexivity|].
  f_equal. rewrite length_app, length_background_nodes, Hlen.
  cbn [nodes random randomPos new_fields innerWidth innerHeight reducedMotionPref].
  change (maxTrailLength (background_fields (length ns) (fields_at iw ih false))) with 8.
  unfold at_, built_fields. cbn [with_randomPos with_this with_nodes].
  rewrite <- app_assoc. reflexivity.
Qed.

Lemma Keep_setupInteractiveElements (s : bool) (b : nat) (w : World) :
  fit s b w -> Keep s b w (setupInteractiveElements w).
Proof. intros Hok. unfold setupInteractiveElements, observeNewElements. keep. Qed.

(** Setting up the observer and the document listeners leaves the nodes and
    the timers alone and assigns three fields. *)
Lemma scroll_setup (w : World) :
  let w' := setupEventListeners (setupScrollAnimations w) in
  nodes w' = nodes w /\ timers w' = timers w
  /\ exists ae sg,
       this w' = set_staggerGroups sg
                   (set_animatedElements ae (set_intersectionObserver true (this w))).
Proof.
  intros w'. subst w'. unfold setupEventListeners, setupScrollAnimations. cbv zeta.
  set (w1 := upd_this _ (upd_this _ (upd_this _ w))).
  assert (H : forall l v, nodes v = nodes w1 /\ timers v = timers w1 /\ this v = this w1 ->
              let v' := for_each l io_observe v in
              nodes v' = nodes w1 /\ timers v' = timers w1 /\ this v' = this w1).
  { intros l v Hv. apply (for_each_inv (fun v' => nodes v' = nodes w1 /\ timers v' = timers w1
                                                  /\ this v' = this w1)); [|exact Hv].
    intros x v0 _ Hv0. unfold io_observe.
    destruct (bool_decide (x ∈ ioObserved v0)); exact Hv0. }
  pose proof (H (animatedElements (this w1)) w1 (conj eq_refl (conj eq_refl eq_refl))) as H1.
  cbv zeta in H1.
  pose proof (H (staggerGroups (this (for_each (animatedElements (this w1)) io_observe w1)))
                _ H1) as (H2 & H3 & H4).
  cbv zeta in H2, H3, H4.
  cbn [nodes timers this with_docListening].
  rewrite H2, H3, H4. repeat split. eexists _, _. reflexivity.
Qed.

Lemma fit_scroll_setup (s : bool) (b : nat) (w : World) :
  fit s b w -> fit s b (setupEventListeners (setupScrollAnimations w)).
Proof.
  intros (Hb & Ht & Ho). destruct (scroll_setup w) as (Hn & Htm & ae & sg & Hthis).
  unfold fit, tame_timers. rewrite Hn, Htm, Hthis. repeat split; auto.
Qed.

(** The constructor, from the point where the builders have run. *)
Lemma construct_init (h : World) :
  construct h
  = animatePageTransition
      (animate
         (setupEventListeners
            (setupScrollAnimations
               (createCustomCursor (createMotionBackground (with_this (new_fields h) h)))))).
Proof. reflexivity. Qed.

Lemma Keep_init_tail (s : bool) (b : nat) (w : World) :
  fit s b w -> Keep s b w (animatePageTransition (animate w)).
Proof.
  intros Hok. eapply Keep_then; [exact Hok | now apply Keep_animate|].
  apply Keep_animatePageTransition.
Qed.

(** What the builders leave behind, with or without reduced motion. *)
Lemma builders_fit (h : World) :
  pristine h ->
  let a := length (nodes h) in
  let w2 := createCustomCursor (createMotionBackground (with_this (new_fields h) h)) in
  fit true a w2
  /\ forall i nd, nodes h !! i = Some nd ->
       exists nd', nodes w2 !! i = Some nd' /\ Kn true nd nd'.
Proof.
  intros (Hlen & Htm & _) a w2.
  destruct (reducedMotionPref h) eqn:Hm.
  - assert (E : w2 = with_this (new_fields h) h).
    { subst w2. unfold createMotionBackground.
      change (prefersReducedMotion (this (with_this (new_fields h) h)))
        with (reducedMotionPref h).
      rewrite Hm. unfold createCustomCursor.
      change (prefersReducedMotion (this (with_this (new_fields h) h)))
        with (reducedMotionPref h).
      now rewrite Hm. }
    rewrite E. split.
    + split; [subst a; simpl; lia|]. split.
      * unfold tame_timers. simpl. rewrite Htm. constructor.
      * intros _. constructor.
    + intros i nd H. exists nd. split; [exact H | apply Kn_refl].
  - destruct (builders_eq h Hm) as (sts & r' & Hs & E). fold a in E.
    set (wp := with_randomPos r' _) in E.
    assert (Hp : fit true a wp).
    { split; [subst wp; simpl; rewrite length_app; lia|]. split.
      - unfold tame_timers. subst wp. simpl. rewrite Htm. constructor.
      - intros _. subst wp. cbn [this with_randomPos with_this].
        unfold built_fields, owned, roots, painted, cursor_fields, background_fields.
        cbn. repeat (constructor; [lia|]). constructor. }
    assert (HK : Keep true a wp w2).
    { subst w2. rewrite E. now apply Keep_setupInteractiveElements. }
    split; [eapply Keep_fit; eauto|].
    intros i nd H. apply (keep_nodes _ _ _ _ HK).
    + apply lookup_lt_Some in H. exact H.
    + subst wp. simpl. rewrite lookup_app_l; [exact H|]. eapply lookup_lt_Some; eauto.
Qed.

(** *** Every reachable state *)

Lemma tame_weaken (b b' : nat) (a : timer_action) : tame true b a -> tame false b' a.
Proof. destruct a; simpl; auto. discriminate. Qed.

Lemma construct_page (h : World) :
  pristine h ->
  fit true (length (nodes h)) (construct h)
  /\ forall i nd, nodes h !! i = Some nd ->
       exists nd', nodes (construct h) !! i = Some nd' /\ Kn true nd nd'.
Proof.
  intros Hp. destruct (builders_fit h Hp) as (Hf & Hn). cbv zeta in Hf, Hn.
  rewrite construct_init.
  set (w2 := createCustomCursor _) in *. clearbody w2.
  pose proof (fit_scroll_setup _ _ _ Hf) as Hf4.
  destruct (scroll_setup w2) as (E & _). cbv zeta in E.
  set (w4 := setupEventListeners _) in *. clearbody w4.
  pose proof (Keep_init_tail _ _ _ Hf4) as HK.
  split; [eapply Keep_fit; eauto|].
  intros i nd H. destruct (Hn i nd H) as (nd2 & H2 & K2).
  rewrite <- E in H2.
  destruct (keep_nodes _ _ _ _ HK i nd2) as (nd' & H' & K'); [|exact H2|].
  - apply lookup_lt_Some in H. exact H.
  - exists nd'. split; [exact H' | eapply Kn_trans; eauto].
Qed.

Lemma reachable_page (h : World) (ops : list op) :
  pristine h ->
  Keep true (length (nodes h)) (construct h) (run ops (construct h))
  /\ forall i nd, nodes h !! i = Some nd ->
       exists nd', nodes (run ops (construct h)) !! i = Some nd' /\ Kn true nd nd'.
Proof.
  intros Hp. destruct (construct_page h Hp) as (Hf & Hn).
  pose proof (Keep_run true _ ops _ Hf) as HK. split; [exact HK|].
  intros i nd H. destruct (Hn i nd H) as (nd2 & H2 & K2).
  destruct (keep_nodes _ _ _ _ HK i nd2) as (nd' & H' & K'); [|exact H2|].
  - apply lookup_lt_Some in H. exact H.
  - exists nd'. split; [exact H' | eapply Kn_trans; eauto].
Qed.

Lemma reachable_tame (h : World) (ops : list op) (b : nat) :
  pristine h -> tame_timers false b (run ops (construct h)).
Proof.
  intros Hp. destruct (construct_page h Hp) as (Hf & _).
  destruct (reachable_page h ops Hp) as (HK & _).
  pose proof (Keep_fit _ _ _ _ Hf HK) as (_ & Ht & _).
  unfold tame_timers in *. eapply List.Forall_impl; [|exact Ht].
  intros ta. apply tame_weaken.
Qed.

(** From any reachable state on, for all the nodes that exist in it. *)
Lemma reachable_later (h : World) (ops ops' : list op) :
  pristine h ->
  Keep false (length (nodes (run ops (construct h))))
       (run ops (construct h)) (run (ops ++ ops') (construct h)).
Proof.
  intros Hp. rewrite run_app. apply Keep_run.
  split; [lia|]. split; [now apply reachable_tame | discriminate].
Qed.

Lemma reachable_from_construct (h : World) (ops : list op) :
  pristine h ->
  Keep false (length (nodes (construct h))) (construct h) (run ops (construct h)).
Proof.
  intros Hp. apply Keep_run. split; [lia|]. split; [|discriminate].
  destruct (construct_page h Hp) as ((_ & Ht & _) & _).
  unfold tame_timers in *. eapply List.Forall_impl; [|exact Ht].
  intros ta. apply tame_weaken.
Qed.

(** The component leaves the nodes of the page where and as they are: in
    every state it can reach, a node of the page has its tag and its
    parent, and its inline [left], [top], [width], [height] and [transform]
    are those the page gave it; its inline [position] is the page's, or
    [relative] (after a click on it). *)
Theorem page_nodes_stay_as_placed (h : World) (ops : list op) (i : node_id) (nd : Node) :
  pristine h -> nodes h !! i = Some nd ->
  exists nd',
    nodes (run ops (construct h)) !! i = Some nd'
    /\ tag nd' = tag nd /\ parent nd' = parent nd
    /\ s_left (style nd') = s_left (style nd) /\ s_top (style nd') = s_top (style nd)
    /\ s_width (style nd') = s_width (style nd) /\ s_height (style nd') = s_height (style nd)
    /\ s_transform (style nd') = s_transform (style nd)
    /\ (s_position (style nd') = s_position (style nd)
        \/ s_position (style nd') = Some "relative").
Proof.
  intros Hp H. destruct (reachable_page h ops Hp) as (_ & Hn).
  destruct (Hn i nd H) as (nd' & H' & [T L P W Hh I O Q K A F]).
  exists nd'. repeat split; auto.
  destruct Q as [Q|[Q _]]; [exact Q | discriminate].
Qed.

Lemma page_nodes_stay_as_placed_witness :
  exists nd',
    nodes (run [OpClick 2 (mkMouseEvent 30 40); OpDestroy] (construct (sample_page false)))
      !! 2 = Some nd'
    /\ tag nd' = tag (el "button" [] 1) /\ parent nd' = parent (el "button" [] 1)
    /\ s_left (style nd') = s_left (style (el "button" [] 1))
    /\ s_top (style nd') = s_top (style (el "button" [] 1))
    /\ s_width (style nd') = s_width (style (el "button" [] 1))
    /\ s_height (style nd') = s_height (style (el "button" [] 1))
    /\ s_transform (style nd') = s_transform (style (el "button" [] 1))
    /\ (s_position (style nd') = s_position (style (el "button" [] 1))
        \/ s_position (style nd') = Some "relative").
Proof.
  exact (page_nodes_stay_as_placed (sample_page false)
           [OpClick 2 (mkMouseEvent 30 40); OpDestroy] 2 (el "button" [] 1)
           (sample_pristine false) eq_refl).
Defined.

(** The classes of a node of the page change only by the classes the
    component hands out: whatever the component has done, a class the page
    gave the node is still there unless it is [theme-transitioning] or
    [loading], and a class the node has that the page did not give it is
    one of [visible], [page-transition], [active], [theme-transitioning]
    and [loading]. *)
Theorem page_classes_change_by_five (h : World) (ops : list op) (i : node_id) (nd : Node) :
  pristine h -> nodes h !! i = Some nd ->
  exists nd',
    nodes (run ops (construct h)) !! i = Some nd'
    /\ (forall c, In c (classList nd) ->
          c <> "theme-transitioning" -> c <> "loading" -> In c (classList nd'))
    /\ (forall c, In c (classList nd') ->
          In c (classList nd)
          \/ In c ["visible"; "page-transition"; "active"; "theme-transitioning"; "loading"]).
Proof.
  intros Hp H. destruct (reachable_page h ops Hp) as (_ & Hn).
  destruct (Hn i nd H) as (nd' & H' & [T L P W Hh I O Q K A F]).
  exists nd'. split; [exact H'|]. split.
  - intros c Hc H1 H2. destruct (K c Hc) as [Hk|Hk]; [exact Hk|].
    simpl in Hk. destruct Hk as [<-|[<-|[]]]; congruence.
  - exact A.
Qed.

Lemma page_classes_change_by_five_witness :
  exists nd',
    nodes (run [OpThemeChange; OpAdvance 700] (construct (sample_page false))) !! 3 = Some nd'
    /\ (forall c, In c (classList (el "div" ["card"] 0)) ->
          c <> "theme-transitioning" -> c <> "loading" -> In c (classList nd'))
    /\ (forall c, In c (classList nd') ->
          In c (classList (el "div" ["card"] 0))
          \/ In c ["visible"; "page-transition"; "active"; "theme-transitioning"; "loading"]).
Proof.
  exact (page_classes_change_by_five (sample_page false) [OpThemeChange; OpAdvance 700] 3
           (el "div" ["card"] 0) (sample_pristine false) eq_refl).
Defined.

(** Once a node exists, be it of the page or made by the component, the
    component never changes its tag nor its inline [left], [top], [width]
    and [height], never takes a listener off it, and never gives it another
    parent: the node keeps its parent or is detached. *)
Theorem existing_nodes_keep_geometry (h : World) (ops ops' : list op) (i : node_id)
    (nd : Node) :
  pristine h -> nodes (run ops (construct h)) !! i = Some nd ->
  exists nd',
    nodes (run (ops ++ ops') (construct h)) !! i = Some nd'
    /\ tag nd' = tag nd
    /\ s_left (style nd') = s_left (style nd) /\ s_top (style nd') = s_top (style nd)
    /\ s_width (style nd') = s_width (style nd) /\ s_height (style nd') = s_height (style nd)
    /\ wired nd <= wired nd'
    /\ (parent nd' = parent nd \/ parent nd' = None).
Proof.
  intros Hp H. pose proof (reachable_later h ops ops' Hp) as HK.
  destruct (keep_nodes _ _ _ _ HK i nd) as (nd' & H' & [T L P W Hh I O Q K A F]);
    [apply lookup_lt_Some in H; exact H | exact H |].
  exists nd'. repeat split; auto. destruct Q as [Q|[_ Q]]; auto.
Qed.

Lemma existing_nodes_keep_geometry_witness :
  let nd := made ["particles"] (css "absolute" (Some (Px 0)) (Some (Px 0)) None None []) 8 in
  exists nd',
    nodes (run ([] ++ [OpMouseMove (mkMouseEvent 200 100); OpFrame; OpDestroy])
               (construct (sample_page false))) !! 14 = Some nd'
    /\ tag nd' = tag nd
    /\ s_left (style nd') = s_left (style nd) /\ s_top (style nd') = s_top (style nd)
    /\ s_width (style nd') = s_width (style nd) /\ s_height (style nd') = s_height (style nd)
    /\ wired nd <= wired nd'
    /\ (parent nd' = parent nd \/ parent nd' = None).
Proof.
  intros nd.
  apply (existing_nodes_keep_geometry (sample_page false) []
           [OpMouseMove (mkMouseEvent 200 100); OpFrame; OpDestroy] 14 nd
           (sample_pristine false)).
  vm_compute. reflexivity.
Defined.

(** Under reduced motion the component never makes a node: in every state
    it can reach, the document has exactly as many nodes as the page had. *)
Theorem reduced_motion_never_creates_nodes (h : World) (ops : list op) :
  pristine h -> reducedMotionPref h = true ->
  length (nodes (run ops (construct h))) = length (nodes h).
Proof.
  intros Hp Hm. destruct (construct_page h Hp) as (Hf & _).
  destruct (reachable_page h ops Hp) as (HK & _).
  assert (E2 : createCustomCursor (createMotionBackground (with_this (new_fields h) h))
               = with_this (new_fields h) h).
  { unfold createMotionBackground.
    change (prefersReducedMotion (this (with_this (new_fields h) h)))
      with (reducedMotionPref h).
    rewrite Hm. unfold createCustomCursor.
    change (prefersReducedMotion (this (with_this (new_fields h) h)))
      with (reducedMotionPref h).
    now rewrite Hm. }
  destruct (scroll_setup (with_this (new_fields h) h)) as (En & Et & ae & sg & Eth).
  cbv zeta in En, Et, Eth.
  assert (Hc : prefersReducedMotion (this (construct h)) = true
               /\ length (nodes (construct h)) = length (nodes h)).
  { rewrite construct_init, E2.
    set (w4 := setupEventListeners _) in *. clearbody w4.
    assert (Hr : prefersReducedMotion (this w4) = true) by (rewrite Eth; exact Hm).
    assert (Hf4 : fit false 0 w4).
    { split; [lia|]. split; [|discriminate].
      unfold tame_timers. rewrite Et. simpl.
      destruct Hp as (_ & -> & _). constructor. }
    pose proof (Keep_init_tail false 0 w4 Hf4) as [_ _ S _ C].
    split.
    - now rewrite (static_reduced _ _ S).
    - rewrite (C Hr), En. reflexivity. }
  destruct Hc as (Hr & Hl). rewrite <- Hl. exact (keep_count _ _ _ _ HK Hr).
Qed.

Lemma reduced_motion_never_creates_nodes_witness :
  length (nodes (run [OpClick 2 (mkMouseEvent 30 40); OpFrame; OpDestroy]
                     (construct (sample_page true))))
  = length (nodes (sample_page true)).
Proof.
  exact (reduced_motion_never_creates_nodes (sample_page true)
           [OpClick 2 (mkMouseEvent 30 40); OpFrame; OpDestroy]
           (sample_pristine true) eq_refl).
Defined.

(** *** The nodes of the instance *)

Lemma static_nodes (t t' : MotionEffects) :
  static_fields t' = static_fields t ->
  motionBackground t' = motionBackground t /\ gridElement t' = gridElement t
  /\ layers t' = layers t /\ particles t' = particles t
  /\ floatingShapes t' = floatingShapes t
  /\ cursor t' = cursor t /\ cursorDot t' = cursorDot t /\ cursorTrail t' = cursorTrail t
  /\ animatedElements t' = animatedElements t /\ staggerGroups t' = staggerGroups t
  /\ prefersReducedMotion t' = prefersReducedMotion t.
Proof. unfold static_fields. intros H. injection H. intros. repeat split; assumption. Qed.

Lemma len_animatePageTransition (w : World) :
  length (nodes (animatePageTransition w)) = length (nodes w).
Proof.
  unfold animatePageTransition.
  destruct (document_querySelector (sel_class "main") w); [|reflexivity].
  cbv zeta. unfold setTimeout, classList_add. simpl. apply length_alter.
Qed.

(** The page with the nodes of the builders appended, as the builders
    leave them. *)
Definition built_nodes (h : World) (sts : list Style) : list Node :=
  nodes h ++ background_nodes (length (nodes h)) (random h) (randomPos h) sts
  ++ cursor_nodes 8.

(** After the constructor, with animations on: the fields refer to the
    nodes of the builders by position, and these nodes are as built, up to
    what [Kn] allows. *)
Lemma construct_built (h : World) :
  pristine h -> reducedMotionPref h = false ->
  exists sts,
    length sts = 25
    /\ length (nodes (construct h)) = length (built_nodes h sts)
    /\ (exists ae sg,
          static_fields (this (construct h))
          = static_fields
              (set_staggerGroups sg
                 (set_animatedElements ae
                    (set_intersectionObserver true
                       (built_fields (length (nodes h)) (new_fields h))))))
    /\ forall i nd, built_nodes h sts !! i = Some nd ->
         exists nd', nodes (construct h) !! i = Some nd' /\ Kn false nd nd'.
Proof.
  intros Hp Hm. destruct (builders_eq h Hm) as (sts & r' & Hs & E).
  exists sts. split; [exact Hs|].
  rewrite construct_init, E. fold (built_nodes h sts).
  set (wp := with_randomPos r' _).
  assert (Ht : tame_timers false (length (built_nodes h sts)) wp).
  { unfold tame_timers. subst wp. simpl. destruct Hp as (_ & -> & _). constructor. }
  assert (Hp' : fit false (length (built_nodes h sts)) wp).
  { split; [subst wp; simpl; lia|]. split; [exact Ht | discriminate]. }
  pose proof (Keep_setupInteractiveElements _ _ _ Hp') as K2.
  pose proof (Keep_fit _ _ _ _ Hp' K2) as Hf2.
  pose proof (this_setupInteractiveElements wp) as T2.
  pose proof (len_setupInteractiveElements wp) as L2.
  set (w2 := setupInteractiveElements wp) in *. clearbody w2.
  pose proof (fit_scroll_setup _ _ _ Hf2) as Hf4.
  destruct (scroll_setup w2) as (En & _ & ae & sg & Eth). cbv zeta in En, Eth.
  set (w4 := setupEventListeners _) in *. clearbody w4.
  pose proof (Keep_init_tail _ _ _ Hf4) as K4.
  split; [|split].
  - pose proof (keep_length _ _ _ _ K4) as L4. rewrite En, L2 in L4.
    destruct Hf4 as (Hb & _).
    rewrite len_animatePageTransition, nodes_animate, length_apply_plan, En, L2.
    subst wp. reflexivity.
  - exists ae, sg. rewrite (keep_static _ _ _ _ K4), Eth, T2. reflexivity.
  - intros i nd H.
    destruct (keep_nodes _ _ _ _ K2 i nd) as (nd2 & H2 & R2);
      [apply lookup_lt_Some in H; exact H | exact H |].
    rewrite <- En in H2.
    destruct (keep_nodes _ _ _ _ K4 i nd2) as (nd' & H' & R');
      [apply lookup_lt_Some in H; exact H | exact H2 |].
    exists nd'. split; [exact H' | eapply Kn_trans; eauto].
Qed.

Lemma reachable_built (h : World) (ops : list op) :
  pristine h -> reducedMotionPref h = false ->
  exists sts,
    length sts = 25
    /\ static_fields (this (run ops (construct h))) = static_fields (this (construct h))
    /\ forall i nd, built_nodes h sts !! i = Some nd ->
         exists nd', nodes (run ops (construct h)) !! i = Some nd' /\ Kn false nd nd'.
Proof.
  intros Hp Hm. destruct (construct_built h Hp Hm) as (sts & Hs & Hl & _ & Hn).
  exists sts. split; [exact Hs|].
  pose proof (reachable_from_construct h ops Hp) as HK.
  split; [exact (keep_static _ _ _ _ HK)|].
  intros i nd H. destruct (Hn i nd H) as (nd2 & H2 & R2).
  destruct (keep_nodes _ _ _ _ HK i nd2) as (nd' & H' & R');
    [apply lookup_lt_Some in H2; exact H2 | exact H2 |].
  exists nd'. split; [exact H' | eapply Kn_trans; eauto].
Qed.

Lemma reachable_fields (h : World) (ops : list op) :
  pristine h -> reducedMotionPref h = false ->
  let a := length (nodes h) in
  let t := this (run ops (construct h)) in
  motionBackground t = Some a /\ gridElement t = Some (a + 1)
  /\ layers t = seq (a + 2) 4 /\ particles t = seq (a + 7) 20
  /\ floatingShapes t = Some (seq (a + 28) 25)
  /\ cursor t = Some (a + 53) /\ cursorDot t = Some (a + 54)
  /\ cursorTrail t = seq (a + 55) 8
  /\ prefersReducedMotion t = false.
Proof.
  intros Hp Hm a t.
  destruct (reachable_built h ops Hp Hm) as (_ & _ & S1 & _).
  destruct (construct_built h Hp Hm) as (_ & _ & _ & (ae & sg & S2) & _).
  rewrite S2 in S1. apply static_nodes in S1.
  destruct S1 as (E1 & E2 & E3 & E4 & E5 & E6 & E7 & E8 & _ & _ & E9).
  subst t. fold a in E1, E2, E3, E4, E5, E6, E7, E8, E9.
  rewrite E1, E2, E3, E4, E5, E6, E7, E8, E9.
  unfold built_fields, cursor_fields, background_fields. cbn.
  rewrite Hm. repeat split; repeat (f_equal; try lia).
Qed.

(** The instance refers to the same nodes for as long as it lives: with
    animations on, in every state the component can reach, the container of
    the background, the grid, the four layers, the 20 particles, the 25
    shapes, the ring, the dot and the eight trail dots are the 63 nodes the
    constructor appended to the page, in this order; not even [destroy]
    clears a field.  The lists of scroll-animated elements are those the
    constructor found. *)
Theorem instance_keeps_its_nodes (h : World) (ops : list op) :
  pristine h -> reducedMotionPref h = false ->
  let a := length (nodes h) in
  let t := this (run ops (construct h)) in
  motionBackground t = Some a /\ gridElement t = Some (a + 1)
  /\ layers t = seq (a + 2) 4 /\ particles t = seq (a + 7) 20
  /\ floatingShapes t = Some (seq (a + 28) 25)
  /\ cursor t = Some (a + 53) /\ cursorDot t = Some (a + 54)
  /\ cursorTrail t = seq (a + 55) 8
  /\ animatedElements t = animatedElements (this (construct h))
  /\ staggerGroups t = staggerGroups (this (construct h))
  /\ a + 63 <= length (nodes (run ops (construct h))).
Proof.
  intros Hp Hm a t.
  destruct (reachable_fields h ops Hp Hm) as (E1 & E2 & E3 & E4 & E5 & E6 & E7 & E8 & _).
  destruct (reachable_built h ops Hp Hm) as (sts & Hs & S1 & _).
  apply static_nodes in S1. destruct S1 as (_ & _ & _ & _ & _ & _ & _ & _ & A1 & A2 & _).
  repeat split; try assumption.
  destruct (construct_built h Hp Hm) as (sts' & Hs' & Hl & _).
  pose proof (keep_length _ _ _ _ (reachable_from_construct h ops Hp)) as L.
  rewrite Hl in L. unfold built_nodes in L.
  rewrite !length_app, length_background_nodes, Hs' in L. simpl in L. subst a. lia.
Qed.

Lemma instance_keeps_its_nodes_witness :
  let t := this (run [OpMouseMove (mkMouseEvent 200 100); OpFrame; OpDestroy]
                     (construct (sample_page false))) in
  motionBackground t = Some 8 /\ gridElement t = Some (8 + 1)
  /\ layers t = seq (8 + 2) 4 /\ particles t = seq (8 + 7) 20
  /\ floatingShapes t = Some (seq (8 + 28) 25)
  /\ cursor t = Some (8 + 53) /\ cursorDot t = Some (8 + 54)
  /\ cursorTrail t = seq (8 + 55) 8
  /\ animatedElements t = animatedElements (this (construct (sample_page false)))
  /\ staggerGroups t = staggerGroups (this (construct (sample_page false)))
  /\ 8 + 63 <= length (nodes (run [OpMouseMove (mkMouseEvent 200 100); OpFrame; OpDestroy]
                                  (construct (sample_page false)))).
Proof.
  exact (instance_keeps_its_nodes (sample_page false)
           [OpMouseMove (mkMouseEvent 200 100); OpFrame; OpDestroy]
           (sample_pristine false) eq_refl).
Defined.

(** *** Where a frame puts the ring, the dot and the trail *)

Lemma writes_to_const (k : node_id) (c : list transform_fn) (p : plan) :
  (forall f, In (k, f) p -> forall v, f v = c) ->
  forall g, (exists f, In (k, f) p) \/ (forall v, g v = c) ->
  forall v, writes_to k p g v = c.
Proof.
  induction p as [|[m f0] p IH]; intros Hc g Hg v.
  - destruct Hg as [(f & [])|Hg]. apply Hg.
  - change (writes_to k ((m, f0) :: p) g)
      with (writes_to k p (if decide (m = k) then fun v => f0 (g v) else g)).
    apply IH; [intros f Hf; apply Hc; now right|].
    destruct (decide (m = k)) as [->|Hne].
    + right. intros v0. apply (Hc f0). now left.
    + destruct Hg as [(f & [Hf|Hf])|Hg]; [congruence | left; eauto | now right].
Qed.

Lemma transform_after_plan (k : node_id) (c : list transform_fn) (p : plan)
    (ns : list Node) :
  k < length ns -> (exists f, In (k, f) p) ->
  (forall f, In (k, f) p -> forall v, f v = c) ->
  s_transform (style_in (apply_plan p ns) k) = c.
Proof.
  intros Hk He Hc. unfold style_in. rewrite lookup_apply_plan_id.
  destruct (lookup_lt_is_Some_2 ns k Hk) as [nd ->]. simpl.
  apply writes_to_const; [exact Hc | now left].
Qed.

Section Frame.

Variables (t : MotionEffects) (ns : list Node) (a : nat).

Hypothesis Hcursor : cursor t = Some (a + 53).
Hypothesis Hdot : cursorDot t = Some (a + 54).
Hypothesis Htrail : cursorTrail t = seq (a + 55) 8.
Hypothesis Hmotion : prefersReducedMotion t = false.
Hypothesis Hpainted : forall k, In k (painted t) -> k < a + 53.
Hypothesis Hleft : s_left (style_in ns (a + 53)) = Some (Px (-100)).
Hypothesis Htop : s_top (style_in ns (a + 53)) = Some (Px (-100)).
Hypothesis Hbare : forall j, j < 8 ->
  s_left (style_in ns (a + 55 + j)) = None /\ s_top (style_in ns (a + 55 + j)) = None.
Hypothesis Hlen : a + 63 <= length ns.

Let x : Q := mouseX t.
Let y : Q := mouseY t.

Definition ring_transform : list transform_fn :=
  [translate_px (-100 + (x - -100) * (1 # 10)) (-100 + (y - -100) * (1 # 10)); centred].

Definition follower_transform : list transform_fn :=
  [translate_px (x + (x - x) * (3 # 10)) (y + (y - y) * (3 # 10)); centred].

Lemma trail_write_entry (i : nat) (k : node_id)
    (f : list transform_fn -> list transform_fn) :
  1 <= i -> In (k, f) (trail_write t ns x y i) ->
  k = a + 55 + i /\ i < 8 /\ forall v, f v = follower_transform.
Proof.
  intros Hi. unfold trail_write. rewrite Htrail.
  destruct (seq (a + 55) 8 !! i) as [cur|] eqn:E1; [|intros []].
  destruct (seq (a + 55) 8 !! (i - 1)) as [prev|] eqn:E2; [|intros []].
  apply lookup_seq in E1 as [-> H1]. apply lookup_seq in E2 as [-> H2].
  cbv zeta. intros [H|[]]. injection H as <- <-.
  destruct (Hbare i H1) as [-> ->]. destruct (Hbare (i - 1) H2) as [-> ->].
  repeat split; auto.
Qed.

Lemma trail_write_at (i : nat) :
  1 <= i -> i < 8 -> exists f, In (a + 55 + i, f) (trail_write t ns x y i).
Proof.
  intros H1 H2. unfold trail_write. rewrite Htrail.
  rewrite (lookup_seq_lt (a + 55) 8 i H2).
  rewrite (lookup_seq_lt (a + 55) 8 (i - 1)) by lia.
  cbv zeta. eexists. now left.
Qed.

Lemma trail_plan_entry (k : node_id) (f : list transform_fn -> list transform_fn) :
  In (k, f) (trail_plan t ns x y) ->
  (k = a + 55 /\ forall v, f v = [translate_px x y; centred])
  \/ (exists i, 1 <= i /\ i < 8 /\ k = a + 55 + i /\ forall v, f v = follower_transform).
Proof.
  unfold trail_plan. rewrite in_app_iff. intros [H|H].
  - apply in_flat_map in H as (i & Hi & H). apply in_rev, in_seq in Hi.
    destruct (trail_write_entry i k f ltac:(lia) H) as (-> & Hlt & Hf).
    right. exists i. repeat split; auto; lia.
  - rewrite Htrail in H. rewrite (lookup_seq_lt (a + 55) 8 0) in H by lia.
    destruct H as [H|[]]. injection H as <- <-. left. split; [lia | reflexivity].
Qed.

Lemma frame_plan_entry (k : node_id) (f : list transform_fn -> list transform_fn) :
  In (k, f) (frame_plan t ns) ->
  k < a + 53
  \/ (k = a + 53 /\ forall v, f v = ring_transform)
  \/ (k = a + 54 /\ forall v, f v = [translate_px x y; centred])
  \/ (k = a + 55 /\ forall v, f v = [translate_px x y; centred])
  \/ (exists i, 1 <= i /\ i < 8 /\ k = a + 55 + i /\ forall v, f v = follower_transform).
Proof.
  unfold frame_plan. rewrite in_app_iff. intros [H|H].
  - unfold cursor_plan in H. rewrite Hcursor, Hdot, Hmotion in H. cbv zeta in H.
    rewrite Hleft, Htop in H.
    apply in_app_or in H as [[H|[H|[]]]|H].
    + injection H as <- <-. right. left. split; [reflexivity|]. intros v. reflexivity.
    + injection H as <- <-. right. right. left. split; [reflexivity|]. intros v. reflexivity.
    + right. right. right. now apply trail_plan_entry.
  - left. apply Hpainted, targets_bg_plan.
    apply in_map_iff. exists (k, f). split; [reflexivity | exact H].
Qed.

Lemma frame_transforms :
  let ns' := apply_plan (frame_plan t ns) ns in
  s_transform (style_in ns' (a + 53)) = ring_transform
  /\ s_transform (style_in ns' (a + 54)) = [translate_px x y; centred]
  /\ s_transform (style_in ns' (a + 55)) = [translate_px x y; centred]
  /\ forall j, 1 <= j -> j < 8 ->
       s_transform (style_in ns' (a + 55 + j)) = follower_transform.
Proof.
  intros ns'. subst ns'.
  assert (Hcp : cursor_plan t ns
                = [(a + 53, fun _ => ring_transform);
                   (a + 54, fun _ => [translate_px x y; centred])]
                  ++ trail_plan t ns x y).
  { unfold cursor_plan. rewrite Hcursor, Hdot, Hmotion. cbv zeta.
    rewrite Hleft, Htop. reflexivity. }
  assert (Hhead : In (a + 55, fun _ : list transform_fn => [translate_px x y; centred])
                     (trail_plan t ns x y)).
  { unfold trail_plan. apply in_or_app. right. rewrite Htrail.
    rewrite (lookup_seq_lt (a + 55) 8 0) by lia.
    replace (a + 55 + 0) with (a + 55) by lia. now left. }
  split; [|split; [|split]].
  - apply transform_after_plan; [lia | |].
    + eexists. unfold frame_plan. rewrite Hcp. now left.
    + intros f Hf. apply frame_plan_entry in Hf.
      destruct Hf as [Hf|[(_ & Hf)|[(Hk & _)|[(Hk & _)|(i & Hi & _ & Hk & _)]]]];
        first [exact Hf | lia].
  - apply transform_after_plan; [lia | |].
    + eexists. unfold frame_plan. rewrite Hcp. right. now left.
    + intros f Hf. apply frame_plan_entry in Hf.
      destruct Hf as [Hf|[(Hk & _)|[(_ & Hf)|[(Hk & _)|(i & Hi & _ & Hk & _)]]]];
        first [exact Hf | lia].
  - apply transform_after_plan; [lia | |].
    + eexists. unfold frame_plan. rewrite Hcp. apply in_or_app. left.
      apply in_or_app. right. exact Hhead.
    + intros f Hf. apply frame_plan_entry in Hf.
      destruct Hf as [Hf|[(Hk & _)|[(Hk & _)|[(_ & Hf)|(i & Hi & _ & Hk & _)]]]];
        first [exact Hf | lia].
  - intros j H1 H2. apply transform_after_plan; [lia | |].
    + destruct (trail_write_at j H1 H2) as (f & Hf). exists f.
      unfold frame_plan. rewrite Hcp. apply in_or_app. left. apply in_or_app. right.
      unfold trail_plan. apply in_or_app. left. apply in_flat_map.
      exists j. split; [|exact Hf]. apply in_rev. rewrite rev_involutive.
      apply in_seq. rewrite Htrail. simpl. lia.
    + intros f Hf. apply frame_plan_entry in Hf.
      destruct Hf as [Hf|[(Hk & _)|[(Hk & _)|[(Hk & _)|(i & _ & _ & Hk & Hf)]]]];
        first [exact Hf | lia].
Qed.

End Frame.

Lemma built_nodes_ring (h : World) (sts : list Style) :
  length sts = 25 ->
  built_nodes h sts !! (length (nodes h) + 53)
  = Some (made ["custom-cursor"] cursor_style body).
Proof.
  intros Hs. unfold built_nodes.
  rewrite lookup_app_r by lia. rewrite lookup_app_r by (rewrite length_background_nodes; lia).
  rewrite length_background_nodes, Hs.
  replace (length (nodes h) + 53 - length (nodes h) - (28 + 25)) with 0 by lia.
  reflexivity.
Qed.

Lemma built_nodes_trail (h : World) (sts : list Style) (j : nat) :
  length sts = 25 -> j < 8 ->
  built_nodes h sts !! (length (nodes h) + 55 + j) = Some trail_node.
Proof.
  intros Hs Hj. unfold built_nodes.
  rewrite lookup_app_r by lia. rewrite lookup_app_r by (rewrite length_background_nodes; lia).
  rewrite length_background_nodes, Hs.
  replace (length (nodes h) + 55 + j - length (nodes h) - (28 + 25)) with (2 + j) by lia.
  unfold cursor_nodes. rewrite lookup_app_r by (simpl; lia).
  replace (2 + j - length [made ["custom-cursor"] cursor_style body;
                           made ["custom-cursor-dot"] cursor_style body]) with j
    by (simpl; lia).
  do 8 (destruct j as [|j]; [reflexivity|]). lia.
Qed.

Lemma painted_below (t : MotionEffects) (a k : nat) :
  gridElement t = Some (a + 1) -> layers t = seq (a + 2) 4 ->
  particles t = seq (a + 7) 20 -> floatingShapes t = Some (seq (a + 28) 25) ->
  In k (painted t) -> k < a + 53.
Proof.
  intros H1 H2 H3 H4. unfold painted. rewrite H1, H2, H3, H4. cbn [option_list default].
  rewrite !in_app_iff, !in_seq. simpl. lia.
Qed.

(** Where a frame puts the cursor, in general.  With animations on, in
    every state the component can reach, a frame leaves the ring at
    [-100 + (x + 100) / 10] between its off-screen home and the pointer
    [(x, y)], whatever its position was before; the dot and every one of the
    eight trail dots are put at the pointer itself. *)
Theorem frame_places_cursor_by_pointer_alone (h : World) (ops : list op) :
  pristine h -> reducedMotionPref h = false ->
  let w := run ops (construct h) in
  rafPending w <> [] ->
  let w' := step OpFrame w in
  let x := mouseX (this w) in
  let y := mouseY (this w) in
  at_point (ring_position w') (-100 + (x - -100) * (1 # 10)) (-100 + (y - -100) * (1 # 10))
  /\ at_point (dot_position w') x y
  /\ Forall (fun n => at_point (translation w' n) x y) (cursorTrail (this w'))
  /\ length (cursorTrail (this w')) = 8.
Proof.
  intros Hp Hm w Hraf w' x y.
  destruct (reachable_fields h ops Hp Hm) as (F1 & F2 & F3 & F4 & F5 & F6 & F7 & F8 & F9).
  destruct (reachable_built h ops Hp Hm) as (sts & Hs & _ & Hn).
  pose proof (keep_length _ _ _ _ (reachable_from_construct h ops Hp)) as L.
  destruct (construct_built h Hp Hm) as (sts' & Hs' & Hl & _).
  rewrite Hl in L. unfold built_nodes in L.
  rewrite !length_app, length_background_nodes, Hs' in L. simpl in L.
  pose proof (reachable_scheduled h ops Hp) as Hsch.
  fold w in F1, F2, F3, F4, F5, F6, F7, F8, F9, Hn, L, Hsch.
  clearbody w. set (a := length (nodes h)) in *.
  assert (E : step OpFrame w = animate (with_rafPending [] w)).
  { destruct Hsch as [H|(id & H1 & _)]; [contradiction|].
    cbn [step]. unfold run_frame. now rewrite H1. }
  subst w'. rewrite E. clear E.
  assert (Hring : s_left (style_in (nodes w) (a + 53)) = Some (Px (-100))
                  /\ s_top (style_in (nodes w) (a + 53)) = Some (Px (-100))).
  { destruct (Hn _ _ (built_nodes_ring h sts Hs)) as (nd' & H' & K).
    unfold style_in. fold a in H'. rewrite H'.
    rewrite (kn_left _ _ _ K), (kn_top _ _ _ K). split; reflexivity. }
  assert (Hbare : forall j, j < 8 ->
            s_left (style_in (nodes w) (a + 55 + j)) = None
            /\ s_top (style_in (nodes w) (a + 55 + j)) = None).
  { intros j Hj. destruct (Hn _ _ (built_nodes_trail h sts j Hs Hj)) as (nd' & H' & K).
    unfold style_in. fold a in H'. rewrite H'.
    rewrite (kn_left _ _ _ K), (kn_top _ _ _ K). split; reflexivity. }
  destruct Hring as (Hleft & Htop).
  pose proof (frame_transforms (this w) (nodes w) a F6 F7 F8 F9
                (fun k => painted_below (this w) a k F2 F3 F4 F5)
                Hleft Htop Hbare ltac:(lia)) as (T1 & T2 & T3 & T4).
  cbv zeta in T1, T2, T3, T4.
  assert (Et : this (animate (with_rafPending [] w))
               = set_animationFrameId (Some (S (rafCounter w))) (this w)).
  { rewrite animate_eq. reflexivity. }
  assert (En : nodes (animate (with_rafPending [] w))
               = apply_plan (frame_plan (this w) (nodes w)) (nodes w)).
  { rewrite nodes_animate. reflexivity. }
  set (w1 := animate (with_rafPending [] w)) in *. clearbody w1.
  assert (St : forall n, translation w1 n
                 = match s_transform (style_in (nodes w1) n) with
                   | Translate (Px x0) (Px y0) :: _ => Some (x0, y0)
                   | _ => None
                   end) by reflexivity.
  unfold ring_position, dot_position. rewrite Et.
  cbn [cursor cursorDot cursorTrail set_animationFrameId].
  rewrite F6, F7, F8, !St, En, T1, T2.
  split; [|split; [|split]].
  - simpl. split; reflexivity.
  - simpl. split; reflexivity.
  - apply List.Forall_forall. intros n Hin. apply in_seq in Hin.
    rewrite St, En.
    destruct (decide (n = a + 55)) as [->|Hne].
    + rewrite T3. simpl. split; reflexivity.
    + replace n with (a + 55 + (n - (a + 55))) by lia.
      rewrite T4 by lia. unfold follower_transform, translate_px, at_point.
      cbv beta iota. subst x y. split; ring.
  - reflexivity.
Qed.

Lemma frame_places_cursor_by_pointer_alone_witness :
  let w := run [OpAdvance 100; OpMouseMove (mkMouseEvent 200 100); OpFrame;
                OpAdvance 100; OpMouseMove (mkMouseEvent 300 100)]
               (construct (sample_page false)) in
  let w' := step OpFrame w in
  let x := mouseX (this w) in
  let y := mouseY (this w) in
  at_point (ring_position w') (-100 + (x - -100) * (1 # 10)) (-100 + (y - -100) * (1 # 10))
  /\ at_point (dot_position w') x y
  /\ Forall (fun n => at_point (translation w' n) x y) (cursorTrail (this w'))
  /\ length (cursorTrail (this w')) = 8.
Proof.
  apply (frame_places_cursor_by_pointer_alone (sample_page false)
           [OpAdvance 100; OpMouseMove (mkMouseEvent 200 100); OpFrame;
            OpAdvance 100; OpMouseMove (mkMouseEvent 300 100)]
           (sample_pristine false) eq_refl).
  vm_compute. discriminate.
Defined.

(** ** The cursor classes follow the last event *)

(** The ring and the dot exist and the instance refers to them. *)
Definition has_cursor (r d : node_id) (w : World) : Prop :=
  cursor (this w) = Some r /\ cursorDot (this w) = Some d
  /\ r < length (nodes w) /\ d < length (nodes w).

Definition both (c : string) (r d : node_id) (w : World) : bool :=
  matches (sel_class c) w r && matches (sel_class c) w d.

Definition neither (c : string) (r d : node_id) (w : World) : bool :=
  negb (matches (sel_class c) w r) && negb (matches (sel_class c) w d).

Lemma token_added_shows (c : string) (l : list string) (nd : Node) :
  sel_class c (set_classList (token_add c l) nd) = true.
Proof.
  unfold sel_class, has_class. apply bool_decide_eq_true. simpl.
  apply list_elem_of_In, In_token_add_self.
Qed.

Lemma token_removed_hides (c : string) (l : list string) (nd : Node) :
  sel_class c (set_classList (token_remove c l) nd) = false.
Proof.
  unfold sel_class, has_class. apply bool_decide_eq_false. simpl. intros H.
  apply list_elem_of_In in H. unfold token_remove in H. apply filter_In in H as [_ H].
  rewrite String.eqb_refl in H. discriminate.
Qed.

Lemma cursor_classes_add (c : string) (r d : node_id) (w : World) :
  has_cursor r d w ->
  let w' := cursor_classes classList_add c w in
  has_cursor r d w' /\ both c r d w' = true /\ this w' = this w.
Proof.
  intros (Hr & Hd & Lr & Ld) w'. subst w'. unfold cursor_classes. rewrite Hr. cbv zeta.
  change (cursorDot (this (classList_add r c w))) with (cursorDot (this w)). rewrite Hd.
  split; [|split; [|reflexivity]].
  - unfold has_cursor. cbn [this classList_add upd_node with_nodes nodes].
    rewrite !length_alter. auto.
  - unfold both, matches, classList_add, upd_node. cbn [nodes with_nodes].
    destruct (lookup_lt_is_Some_2 (nodes w) r Lr) as [nr Er].
    destruct (lookup_lt_is_Some_2 (nodes w) d Ld) as [nd Ed].
    rewrite !list_lookup_alter.
    repeat (destruct (decide _); try congruence);
      rewrite ?list_lookup_alter, ?Er, ?Ed;
      repeat (destruct (decide _); try congruence);
      rewrite ?Er, ?Ed; simpl; now rewrite ?token_added_shows.
Qed.

Lemma cursor_classes_remove (c : string) (r d : node_id) (w : World) :
  has_cursor r d w ->
  let w' := cursor_classes classList_remove c w in
  has_cursor r d w' /\ neither c r d w' = true /\ this w' = this w.
Proof.
  intros (Hr & Hd & Lr & Ld) w'. subst w'. unfold cursor_classes. rewrite Hr. cbv zeta.
  change (cursorDot (this (classList_remove r c w))) with (cursorDot (this w)). rewrite Hd.
  split; [|split; [|reflexivity]].
  - unfold has_cursor. cbn [this classList_remove upd_node with_nodes nodes].
    rewrite !length_alter. auto.
  - unfold neither, matches, classList_remove, upd_node. cbn [nodes with_nodes].
    destruct (lookup_lt_is_Some_2 (nodes w) r Lr) as [nr Er].
    destruct (lookup_lt_is_Some_2 (nodes w) d Ld) as [nd Ed].
    rewrite !list_lookup_alter.
    repeat (destruct (decide _); try congruence);
      rewrite ?list_lookup_alter, ?Er, ?Ed;
      repeat (destruct (decide _); try congruence);
      rewrite ?Er, ?Ed; simpl; now rewrite ?token_removed_hides.
Qed.

(** An event that reaches an element with a listener leaves behind what its
    listener establishes, however often and wherever else along the path
    the listener runs. *)
Lemma dispatch_establishes (handler : node_id -> World -> World) (I P : World -> Prop)
    (el : node_id) (rest : list node_id) (w : World) :
  (forall n v, I v -> I (handler n v) /\ P (handler n v)) ->
  I w -> 0 < wired_of w el ->
  I (dispatch handler (el :: rest) w) /\ P (dispatch handler (el :: rest) w).
Proof.
  intros Hh Hi Hw. unfold dispatch. rewrite for_each_cons.
  assert (Hiter : forall k v, I v -> I (Nat.iter k (handler el) v)).
  { intros k v Hv. induction k as [|k IH]; [exact Hv|]. simpl. now apply Hh. }
  assert (H1 : I (Nat.iter (wired_of w el) (handler el) w)
               /\ P (Nat.iter (wired_of w el) (handler el) w)).
  { destruct (wired_of w el) as [|k]; [lia|]. simpl. apply Hh. now apply Hiter. }
  apply (for_each_inv (fun v => I v /\ P v)); [|exact H1].
  intros n v _ Hv. generalize (wired_of v n). intros k.
  induction k as [|k IH]; [exact Hv|]. simpl. apply Hh. apply IH.
Qed.

Lemma reachable_has_cursor (h : World) (ops : list op) :
  pristine h -> reducedMotionPref h = false ->
  has_cursor (length (nodes h) + 53) (length (nodes h) + 54) (run ops (construct h)).
Proof.
  intros Hp Hm.
  destruct (reachable_fields h ops Hp Hm) as (_ & _ & _ & _ & _ & F6 & F7 & _).
  pose proof (keep_length _ _ _ _ (reachable_from_construct h ops Hp)) as L.
  destruct (construct_built h Hp Hm) as (sts & Hs & Hl & _).
  rewrite Hl in L. unfold built_nodes in L.
  rewrite !length_app, length_background_nodes, Hs in L. simpl in L.
  repeat split; [exact F6 | exact F7 | lia | lia].
Qed.

Lemma has_cursor_upd_this (r d : node_id) (f : MotionEffects -> MotionEffects) (w : World) :
  cursor (f (this w)) = cursor (this w) -> cursorDot (f (this w)) = cursorDot (this w) ->
  has_cursor r d w -> has_cursor r d (upd_this f w).
Proof. intros H1 H2 (Hr & Hd & L). unfold has_cursor. simpl. rewrite H1, H2. auto. Qed.

(** The classes [hover] and [active] of the cursor record the last event,
    not whether the pointer is over an interactive element.  With
    animations on, in every state the component can reach and for every
    element that carries its listeners: after a [mouseenter] on the element
    the ring and the dot both carry [hover]; after a [mouseleave] neither
    does, although the pointer may still be inside another interactive
    element entered before; likewise [mousedown] and [mouseup] for
    [active].  The flags [cursorHover] and [cursorActive] go along. *)
Theorem cursor_classes_follow_last_event (h : World) (ops : list op) (el : node_id) :
  pristine h -> reducedMotionPref h = false ->
  let a := length (nodes h) in
  let w := run ops (construct h) in
  0 < wired_of w el ->
  (both "hover" (a + 53) (a + 54) (step (OpMouseEnter el) w) = true
   /\ cursorHover (this (step (OpMouseEnter el) w)) = true)
  /\ (neither "hover" (a + 53) (a + 54) (step (OpMouseLeave el) w) = true
      /\ cursorHover (this (step (OpMouseLeave el) w)) = false)
  /\ (both "active" (a + 53) (a + 54) (step (OpMouseDown el) w) = true
      /\ cursorActive (this (step (OpMouseDown el) w)) = true)
  /\ (neither "active" (a + 53) (a + 54) (step (OpMouseUp el) w) = true
      /\ cursorActive (this (step (OpMouseUp el) w)) = false).
Proof.
  intros Hp Hm a w Hw.
  pose proof (reachable_has_cursor h ops Hp Hm) as Hc. fold a w in Hc. clearbody w.
  set (r := a + 53) in *. set (d := a + 54) in *.
  assert (Henter : forall n v, has_cursor r d v ->
            has_cursor r d (on_mouseenter n v)
            /\ (both "hover" r d (on_mouseenter n v) = true
                /\ cursorHover (this (on_mouseenter n v)) = true)).
  { intros n v Hv. unfold on_mouseenter.
    destruct (cursor_classes_add "hover" r d (upd_this (set_cursorHover true) v))
      as (H1 & H2 & H3); [now apply has_cursor_upd_this|].
    cbv zeta in H1, H2, H3. rewrite H3. auto. }
  assert (Hleave : forall n v, has_cursor r d v ->
            has_cursor r d (on_mouseleave n v)
            /\ (neither "hover" r d (on_mouseleave n v) = true
                /\ cursorHover (this (on_mouseleave n v)) = false)).
  { intros n v Hv. unfold on_mouseleave.
    destruct (cursor_classes_remove "hover" r d (upd_this (set_cursorHover false) v))
      as (H1 & H2 & H3); [now apply has_cursor_upd_this|].
    cbv zeta in H1, H2, H3. rewrite H3. auto. }
  assert (Hdown : forall n v, has_cursor r d v ->
            has_cursor r d (on_mousedown n v)
            /\ (both "active" r d (on_mousedown n v) = true
                /\ cursorActive (this (on_mousedown n v)) = true)).
  { intros n v Hv. unfold on_mousedown.
    destruct (cursor_classes_add "active" r d (upd_this (set_cursorActive true) v))
      as (H1 & H2 & H3); [now apply has_cursor_upd_this|].
    cbv zeta in H1, H2, H3. rewrite H3. auto. }
  assert (Hup : forall n v, has_cursor r d v ->
            has_cursor r d (on_mouseup n v)
            /\ (neither "active" r d (on_mouseup n v) = true
                /\ cursorActive (this (on_mouseup n v)) = false)).
  { intros n v Hv. unfold on_mouseup.
    destruct (cursor_classes_remove "active" r d (upd_this (set_cursorActive false) v))
      as (H1 & H2 & H3); [now apply has_cursor_upd_this|].
    cbv zeta in H1, H2, H3. rewrite H3. auto. }
  split; [|split; [|split]].
  - cbn [step].
    exact (proj2 (dispatch_establishes on_mouseenter (has_cursor r d)
                    (fun v => both "hover" r d v = true /\ cursorHover (this v) = true)
                    el [] w Henter Hc Hw)).
  - cbn [step].
    exact (proj2 (dispatch_establishes on_mouseleave (has_cursor r d)
                    (fun v => neither "hover" r d v = true /\ cursorHover (this v) = false)
                    el [] w Hleave Hc Hw)).
  - cbn [step]. cbv zeta. unfold event_path.
    destruct (dispatch_establishes on_mousedown (has_cursor r d)
                (fun v => both "active" r d v = true /\ cursorActive (this v) = true)
                el (ancestors_of w el) w Hdown Hc Hw) as (_ & H1 & H2).
    unfold at_document. destruct (docListening _ && in_document _ el); auto.
  - cbn [step]. cbv zeta. unfold event_path.
    destruct (dispatch_establishes on_mouseup (has_cursor r d)
                (fun v => neither "active" r d v = true /\ cursorActive (this v) = false)
                el (ancestors_of w el) w Hup Hc Hw) as (_ & H1 & H2).
    unfold at_document. destruct (docListening _ && in_document _ el); auto.
Qed.

Lemma cursor_classes_follow_last_event_witness :
  let w := run [OpMouseEnter 3; OpMouseEnter 2; OpMouseDown 2]
               (construct (sample_page false)) in
  (both "hover" (8 + 53) (8 + 54) (step (OpMouseEnter 3) w) = true
   /\ cursorHover (this (step (OpMouseEnter 3) w)) = true)
  /\ (neither "hover" (8 + 53) (8 + 54) (step (OpMouseLeave 3) w) = true
      /\ cursorHover (this (step (OpMouseLeave 3) w)) = false)
  /\ (both "active" (8 + 53) (8 + 54) (step (OpMouseDown 3) w) = true
      /\ cursorActive (this (step (OpMouseDown 3) w)) = true)
  /\ (neither "active" (8 + 53) (8 + 54) (step (OpMouseUp 3) w) = true
      /\ cursorActive (this (step (OpMouseUp 3) w)) = false).
Proof.
  apply (cursor_classes_follow_last_event (sample_page false)
           [OpMouseEnter 3; OpMouseEnter 2; OpMouseDown 2] 3
           (sample_pristine false) eq_refl).
  vm_compute. lia.
Defined.

(** ** Click ripples: one for the clicked element (C5) *)

(** *** Removal timers are for nodes that exist *)

(** A timer holds a reference to a node; in the store this is the id of a
    node that has been made. *)
Definition aimed (w : World) : Prop :=
  Forall (fun ta => forall n, snd ta = TRemoveNode n -> n < length (nodes w)) (timers w).

(** [Aim w w']: the store has not shrunk and the removal timers still
    refer to nodes of the store. *)
Definition Aim (w w' : World) : Prop :=
  length (nodes w) <= length (nodes w') /\ (aimed w -> aimed w').

Lemma Aim_refl (w : World) : Aim w w.
Proof. split; auto. Qed.

Lemma Aim_trans (w1 w2 w3 : World) : Aim w1 w2 -> Aim w2 w3 -> Aim w1 w3.
Proof. intros [L1 A1] [L2 A2]. split; [lia | auto]. Qed.

(** No node is lost and no timer is added. *)
Lemma Aim_same (w w' : World) :
  length (nodes w) <= length (nodes w') ->
  (forall ta, In ta (timers w') -> In ta (timers w)) ->
  Aim w w'.
Proof.
  intros Hl Ht. split; [exact Hl|]. unfold aimed. rewrite !List.Forall_forall.
  intros H ta Hin n Hn. specialize (H ta (Ht ta Hin) n Hn). lia.
Qed.

Lemma Aim_upd_node (n : node_id) (f : Node -> Node) (w : World) : Aim w (upd_node n f w).
Proof. apply Aim_same; [rewrite length_upd_node; lia | auto]. Qed.

Lemma Aim_alloc (nd : Node) (w : World) : Aim w (with_nodes (nodes w ++ [nd]) w).
Proof. apply Aim_same; [simpl; rewrite length_app; lia | auto]. Qed.

Lemma Aim_setTimeout (a : timer_action) (d : Z) (w : World) :
  (forall n, a = TRemoveNode n -> n < length (nodes w)) -> Aim w (setTimeout a d w).
Proof.
  intros Ha. split; [simpl; lia|]. unfold aimed, setTimeout. simpl.
  intros H. apply Forall_enqueue; [exact Ha | exact H].
Qed.

Lemma Aim_for_each {A : Type} (l : list A) (f : A -> World -> World) (w : World) :
  (forall x v, In x l -> Aim v (f x v)) -> Aim w (for_each l f w).
Proof.
  intros Hf. apply (for_each_inv (fun v => Aim w v) l f); [|apply Aim_refl].
  intros x v Hx Hv. eapply Aim_trans; [exact Hv | now apply Hf].
Qed.

Lemma Aim_iter (n : nat) (f : World -> World) (w : World) :
  (forall v, Aim v (f v)) -> Aim w (Nat.iter n f w).
Proof.
  intros Hf. apply (iter_inv (fun v => Aim w v) n f); [|apply Aim_refl].
  intros v Hv. eapply Aim_trans; [exact Hv | apply Hf].
Qed.

Create HintDb aim.

Ltac aim_prim :=
  idtac;
  lazymatch goal with
  | |- Aim ?w ?w => apply Aim_refl
  | |- Aim _ (upd_node _ _ _) => apply Aim_upd_node
  | |- Aim _ (classList_add _ _ _) => apply Aim_upd_node
  | |- Aim _ (classList_remove _ _ _) => apply Aim_upd_node
  | |- Aim _ (remove _ _) => apply Aim_upd_node
  | |- Aim _ (addInteractiveListeners _ _) => apply Aim_upd_node
  | |- Aim _ (upd_style _ _ _) => apply Aim_upd_node
  | |- Aim _ (set_cssText _ _ _) => apply Aim_upd_node
  | |- Aim _ (set_className _ _ _) => apply Aim_upd_node
  | |- Aim _ (appendChild _ _ _) => apply Aim_upd_node
  | |- Aim _ (setTimeout _ _ _) => apply Aim_setTimeout; intros ? ?; discriminate
  | |- Aim _ (with_nodes (nodes _ ++ [_]) _) => apply Aim_alloc
  | _ => first [ solve [auto with aim]
               | apply Aim_same; [apply Nat.eq_le_incl; reflexivity | intros ? ?; assumption] ]
  end.

Ltac aim :=
  cbv beta iota;
  lazymatch goal with
  | |- Aim ?w ?w => apply Aim_refl
  | |- Aim ?w (let x := ?v in @?body x) =>
      lazymatch type of v with
      | World =>
          apply (Aim_trans w v (body v)); [aim | generalize v; intros ?; aim]
      | _ => change (Aim w (body v)); aim
      end
  | |- Aim _ (if ?c then _ else _) => destruct c; aim
  | |- Aim _ (match (if ?c then _ else _) with _ => _ end) => destruct c; aim
  | |- Aim _ (match ?x with _ => _ end) => destruct x; aim
  | |- Aim _ (match ?x with _ => _ end _) => destruct x; aim
  | |- Aim ?w (for_each _ _ ?w) => apply Aim_for_each; intros; aim
  | |- Aim ?w (Nat.iter _ _ ?w) => apply Aim_iter; intros; aim
  | |- Aim ?w (?g ?w) => aim_prim
  | |- Aim ?w (?g ?w') =>
      apply (Aim_trans w w' (g w')); [aim | generalize w'; intros ?; aim]
  end.

Lemma Aim_handleMouseMove (e : MouseEvent) (w : World) : Aim w (handleMouseMove e w).
Proof. unfold handleMouseMove. aim. Qed.

Lemma Aim_handleCardHover (e : MouseEvent) (w : World) : Aim w (handleCardHover e w).
Proof. unfold handleCardHover, card_hover. aim. Qed.

Lemma Aim_checkElementsInViewport (w : World) : Aim w (checkElementsInViewport w).
Proof. unfold checkElementsInViewport. aim. Qed.

#[local] Hint Extern 1 (Aim _ (checkElementsInViewport _)) => apply Aim_checkElementsInViewport : aim.

Lemma Aim_handleResize (w : World) : Aim w (handleResize w).
Proof. unfold handleResize. aim. Qed.

Lemma Aim_handleThemeChange (w : World) : Aim w (handleThemeChange w).
Proof. unfold handleThemeChange. aim. Qed.

Lemma Aim_io_callback (entries : list (node_id * bool)) (w : World) :
  Aim w (io_callback entries w).
Proof. unfold io_callback, io_entry. aim. Qed.

Lemma Aim_mutation_callback (added : list node_id) (w : World) :
  Aim w (mutation_callback added w).
Proof.
  revert w. induction added as [|node rest IH]; intros w; simpl; [apply Aim_refl|].
  destruct (matches sel_interactive w node); [apply Aim_refl|].
  eapply Aim_trans; [|apply IH]. aim.
Qed.

Lemma Aim_addShimmerLoading (el : node_id) (w : World) : Aim w (addShimmerLoading el w).
Proof. unfold addShimmerLoading. aim. Qed.

Lemma Aim_triggerPageTransition (w : World) : Aim w (triggerPageTransition w).
Proof. unfold triggerPageTransition. aim. Qed.

Lemma Aim_animatePageTransition (w : World) : Aim w (animatePageTransition w).
Proof. unfold animatePageTransition. aim. Qed.

Lemma Aim_setupInteractiveElements (w : World) : Aim w (setupInteractiveElements w).
Proof. unfold setupInteractiveElements, observeNewElements. aim. Qed.

Lemma Aim_setupScrollAnimations (w : World) : Aim w (setupScrollAnimations w).
Proof. unfold setupScrollAnimations, io_observe. aim. Qed.

Lemma Aim_animate (w : World) : Aim w (animate w).
Proof.
  rewrite animate_eq. apply Aim_same.
  - cbn [nodes upd_this with_this with_rafCounter with_rafPending paint with_nodes].
    rewrite length_apply_plan. lia.
  - auto.
Qed.

Lemma Aim_run_frame (w : World) : Aim w (run_frame w).
Proof.
  unfold run_frame.
  apply (Aim_trans w (with_rafPending [] w)); [aim_prim|].
  apply Aim_for_each. intros _ v _. apply Aim_animate.
Qed.

Lemma Aim_advance (d : Z) (w : World) : Aim w (advance d w).
Proof.
  unfold advance. cbv zeta.
  eapply Aim_trans.
  - apply (Aim_same w (with_timers (due_rest (clock w + d) (timers w))
                         (with_clock (clock w + d) w))); [simpl; lia|].
    intros ta Hta. simpl in Hta. eapply due_rest_incl; exact Hta.
  - apply Aim_for_each. intros ta v _. destruct (snd ta); apply Aim_upd_node.
Qed.

Lemma len_createRippleEffect (el : node_id) (e : MouseEvent) (w : World) :
  prefersReducedMotion (this w) = false ->
  length (nodes (createRippleEffect el e w)) = S (length (nodes w)).
Proof.
  intros Hm. unfold createRippleEffect. rewrite Hm.
  unfold createElement, set_cssText, upd_style, appendChild, setTimeout, upd_node.
  cbn [nodes with_nodes with_timers]. rewrite !length_alter, length_app. simpl. lia.
Qed.

(** The ripple's removal timer is for the ripple, which has just been
    made. *)
Lemma Aim_createRippleEffect (el : node_id) (e : MouseEvent) (w : World) :
  Aim w (createRippleEffect el e w).
Proof.
  destruct (prefersReducedMotion (this w)) eqn:Hm.
  - unfold createRippleEffect. rewrite Hm. apply Aim_refl.
  - pose proof (len_createRippleEffect el e w Hm) as Hl.
    destruct (timers_createRippleEffect el e w Hm) as (Ht & _).
    split; [lia|]. unfold aimed. rewrite Ht, Hl. intros Ha.
    apply Forall_enqueue.
    + intros n [= <-]. lia.
    + rewrite List.Forall_forall in *. intros ta Hin n Hn.
      specialize (Ha ta Hin n Hn). lia.
Qed.

Lemma Aim_cursor_classes (f : node_id -> string -> World -> World) (c : string) (w : World) :
  (forall n v, Aim v (f n c v)) -> Aim w (cursor_classes f c w).
Proof.
  intros Hf. unfold cursor_classes.
  destruct (cursor (this w)); [|apply Aim_refl]. cbv zeta.
  destruct (cursorDot _); [|apply Hf].
  eapply Aim_trans; apply Hf.
Qed.

Lemma Aim_dispatch (handler : node_id -> World -> World) (path : list node_id) (w : World) :
  (forall n v, Aim v (handler n v)) -> Aim w (dispatch handler path w).
Proof.
  intros Hh. unfold dispatch. apply Aim_for_each. intros n v _. apply Aim_iter. apply Hh.
Qed.

Lemma Aim_on (f : node_id -> string -> World -> World) (c : string)
    (g : MotionEffects -> MotionEffects) (w : World) :
  (forall n v, Aim v (f n c v)) -> Aim w (cursor_classes f c (upd_this g w)).
Proof.
  intros Hf. apply (Aim_trans w (upd_this g w)); [aim_prim | now apply Aim_cursor_classes].
Qed.

Lemma Aim_destroy (w : World) : Aim w (destroy w).
Proof. unfold destroy, cancelAnimationFrame. aim. Qed.

Lemma Aim_step (o : op) (w : World) : Aim w (step o w).
Proof.
  destruct o; cbn [step].
  - apply Aim_run_frame.
  - apply Aim_advance.
  - destruct (docListening w); [|apply Aim_refl].
    eapply Aim_trans; [apply Aim_handleMouseMove | apply Aim_handleCardHover].
  - aim.
  - aim.
  - apply Aim_dispatch. intros n v. apply (Aim_on classList_add). intros; apply Aim_upd_node.
  - apply Aim_dispatch. intros n v. apply (Aim_on classList_remove).
    intros; apply Aim_upd_node.
  - cbv zeta. apply (Aim_trans w (dispatch on_mousedown (event_path w target) w)).
    + apply Aim_dispatch. intros n v. apply (Aim_on classList_add).
      intros; apply Aim_upd_node.
    + unfold at_document. destruct (docListening _ && in_document _ target); aim.
  - cbv zeta. apply (Aim_trans w (dispatch on_mouseup (event_path w target) w)).
    + apply Aim_dispatch. intros n v. apply (Aim_on classList_remove).
      intros; apply Aim_upd_node.
    + unfold at_document. destruct (docListening _ && in_document _ target); aim.
  - apply Aim_dispatch. intros n v. apply Aim_createRippleEffect.
  - cbv zeta. apply (Aim_trans w (with_innerHeight height (with_innerWidth width w))).
    + apply Aim_same; [apply Nat.eq_le_incl; reflexivity | auto].
    + destruct (docListening _); [apply Aim_handleResize | apply Aim_refl].
  - aim_prim.
  - destruct (docListening w); [apply Aim_handleThemeChange | apply Aim_refl].
  - apply Aim_io_callback.
  - destruct (moActive w); [apply Aim_mutation_callback | apply Aim_refl].
  - apply Aim_addShimmerLoading.
  - apply Aim_triggerPageTransition.
  - apply Aim_destroy.
Qed.

Lemma Aim_run (ops : list op) (w : World) : Aim w (run ops w).
Proof. unfold run. apply Aim_for_each. intros o v _. apply Aim_step. Qed.

Lemma construct_aimed (h : World) : pristine h -> aimed (construct h).
Proof.
  intros Hp. pose proof Hp as (_ & Htm & _).
  rewrite construct_init.
  assert (H2 : aimed (createCustomCursor
                        (createMotionBackground (with_this (new_fields h) h)))).
  { destruct (reducedMotionPref h) eqn:Hm.
    - unfold createMotionBackground.
      change (prefersReducedMotion (this (with_this (new_fields h) h)))
        with (reducedMotionPref h).
      rewrite Hm. unfold createCustomCursor.
      change (prefersReducedMotion (this (with_this (new_fields h) h)))
        with (reducedMotionPref h).
      rewrite Hm. unfold aimed. simpl. rewrite Htm. constructor.
    - destruct (builders_eq h Hm) as (sts & r' & _ & ->).
      apply Aim_setupInteractiveElements. unfold aimed. simpl. rewrite Htm. constructor. }
  set (w2 := createCustomCursor _) in *. clearbody w2.
  apply Aim_animatePageTransition, Aim_animate.
  unfold setupEventListeners.
  apply (Aim_trans w2 (setupScrollAnimations w2)); [apply Aim_setupScrollAnimations | | exact H2].
  aim_prim.
Qed.

Lemma reachable_aimed (h : World) (ops : list op) :
  pristine h -> aimed (run ops (construct h)).
Proof. intros Hp. apply Aim_run. now apply construct_aimed. Qed.

(** *** What a click leaves behind *)

Lemma due_prefix_enqueue (now t : Z) (a : timer_action) (q : list (Z * timer_action))
    (ta : Z * timer_action) :
  In ta (due_prefix now q) -> In ta (due_prefix now (enqueue t a q)).
Proof.
  induction q as [|[t' a'] q IH]; simpl; [intros []|].
  destruct (t' <=? now)%Z eqn:E; [|intros []].
  destruct (t' <=? t)%Z eqn:E'; simpl.
  - rewrite E. intros [H|H]; [now left | right; now apply IH].
  - apply Z.leb_le in E. apply Z.leb_gt in E'.
    replace (t <=? now)%Z with true by (symmetry; apply Z.leb_le; lia).
    rewrite (proj2 (Z.leb_le t' now) E). intros H. right. exact H.
Qed.

Lemma this_createRippleEffect (el : node_id) (e : MouseEvent) (w : World) :
  this (createRippleEffect el e w) = this w.
Proof. unfold createRippleEffect. now destruct (prefersReducedMotion (this w)). Qed.

(** A timer changes the parent of a node only by removing the node. *)
Lemma parent_of_fire_other (a : timer_action) (n : node_id) (w : World) :
  a <> TRemoveNode n -> parent_of (fire a w) n = parent_of w n.
Proof.
  intros Ha. unfold parent_of.
  destruct a as [m|m c|m c]; cbn [fire];
    unfold remove, classList_add, classList_remove; rewrite lookup_upd_node;
    (destruct (decide (m = n)) as [->|]; [|reflexivity]).
  - congruence.
  - now destruct (nodes w !! n).
  - now destruct (nodes w !! n).
Qed.

Lemma parent_of_fire_some (a : timer_action) (n p : node_id) (w : World) :
  parent_of (fire a w) n = Some p -> parent_of w n = Some p.
Proof.
  destruct a as [m|m c|m c]; try (rewrite parent_of_fire_other by discriminate; tauto).
  destruct (decide (m = n)) as [->|Hne].
  - cbn [fire]. now rewrite parent_of_remove_hit.
  - rewrite parent_of_fire_other by congruence. tauto.
Qed.

Lemma parent_of_fired_other (due : list (Z * timer_action)) (n : node_id) (w : World) :
  Forall (fun ta => snd ta <> TRemoveNode n) due ->
  parent_of (for_each due (fun ta => fire (snd ta)) w) n = parent_of w n.
Proof.
  intros H. revert w. induction H as [|ta due Hta _ IH]; intros w; [reflexivity|].
  rewrite for_each_cons, IH. now apply parent_of_fire_other.
Qed.

Lemma parent_of_fired_some (due : list (Z * timer_action)) (n p : node_id) (w : World) :
  parent_of (for_each due (fun ta => fire (snd ta)) w) n = Some p -> parent_of w n = Some p.
Proof.
  revert w. induction due as [|ta due IH]; intros w; [auto|].
  rewrite for_each_cons. intros H. apply IH in H. now apply parent_of_fire_some in H.
Qed.

(** Time passing gives no node a parent. *)
Lemma parent_of_advance_some (d : Z) (n p : node_id) (w : World) :
  parent_of (advance d w) n = Some p -> parent_of w n = Some p.
Proof. unfold advance. cbv zeta. intros H. now apply parent_of_fired_some in H. Qed.

(** What the click has done when it has run through the listeners of the
    target, once, and of its ancestors: the first node made is the ripple
    of the target, the nodes made after it hang elsewhere, and every timer
    that is new is due 600 ms from now. *)
Record clicked (target : node_id) (e : MouseEvent) (w v : World) : Prop := mkClicked {
  cl_ripple : nodes v !! length (nodes w) = Some (ripple_node target e w);
  cl_others : forall n, length (nodes w) < n -> parent_of v n <> Some target;
  cl_clock : clock v = clock w;
  cl_due : forall now, (clock w + 600 <= now)%Z ->
           In ((clock w + 600)%Z, TRemoveNode (length (nodes w)))
              (due_prefix now (timers v));
  cl_timers : forall ta, In ta (timers v) ->
                In ta (timers w) \/ fst ta = (clock w + 600)%Z;
  cl_motion : prefersReducedMotion (this v) = false;
  cl_wired : forall n, wired_of v n = wired_of w n;
  cl_length : length (nodes w) < length (nodes v)
}.

Lemma clicked_first (target : node_id) (e : MouseEvent) (w : World) :
  prefersReducedMotion (this w) = false -> target < length (nodes w) ->
  clicked target e w (createRippleEffect target e w).
Proof.
  intros Hm Ht.
  pose proof (nodes_createRippleEffect target e w Hm Ht) as Hn.
  destruct (timers_createRippleEffect target e w Hm) as (Htm & Hc).
  split.
  - rewrite Hn. apply list_lookup_middle. now rewrite length_alter.
  - intros n Hlt. unfold parent_of. rewrite Hn.
    rewrite lookup_ge_None_2; [discriminate|].
    rewrite length_app, length_alter. simpl. lia.
  - exact Hc.
  - intros now Hnow. rewrite Htm. now apply enqueue_due.
  - intros ta. rewrite Htm. intros H. apply In_enqueue_inv in H as [->|H]; auto.
  - now rewrite this_createRippleEffect.
  - intros n. apply wired_of_createRippleEffect.
  - rewrite Hn, length_app, length_alter. simpl. lia.
Qed.

(** A further ripple, made for another element that was there before the
    click. *)
Lemma clicked_next (target a : node_id) (e : MouseEvent) (w v : World) :
  a <> target -> a < length (nodes w) ->
  clicked target e w v -> clicked target e w (createRippleEffect a e v).
Proof.
  intros Hne Ha [R O C T Ts M W L].
  assert (Hav : a < length (nodes v)) by lia.
  pose proof (nodes_createRippleEffect a e v M Hav) as Hn.
  destruct (timers_createRippleEffect a e v M) as (Htm & Hc).
  split.
  - rewrite Hn, lookup_app_l by (rewrite length_alter; lia).
    rewrite list_lookup_alter_ne by lia. exact R.
  - intros n Hlt. unfold parent_of. rewrite Hn.
    destruct (decide (n < length (nodes v))) as [Hn1|Hn1].
    + rewrite lookup_app_l by (rewrite length_alter; lia).
      rewrite list_lookup_alter_ne by lia. exact (O n Hlt).
    + destruct (decide (n = length (nodes v))) as [->|Hn2].
      * rewrite list_lookup_middle by (now rewrite length_alter).
        simpl. congruence.
      * rewrite lookup_ge_None_2; [discriminate|].
        rewrite length_app, length_alter. simpl. lia.
  - now rewrite Hc.
  - intros now Hnow. rewrite Htm. apply due_prefix_enqueue. now apply T.
  - intros ta. rewrite Htm. intros H. apply In_enqueue_inv in H as [->|H]; [|auto].
    right. simpl. now rewrite C.
  - now rewrite this_createRippleEffect.
  - intros n. rewrite wired_of_createRippleEffect. apply W.
  - rewrite Hn, length_app, length_alter. simpl. lia.
Qed.

Lemma wired_exists (w : World) (n : node_id) : 0 < wired_of w n -> n < length (nodes w).
Proof.
  unfold wired_of. destruct (nodes w !! n) eqn:E; [|lia].
  intros _. eapply lookup_lt_Some; eauto.
Qed.

Lemma click_clicked (target : node_id) (e : MouseEvent) (w : World) :
  prefersReducedMotion (this w) = false ->
  wired_of w target = 1 ->
  ~ In target (ancestors_of w target) ->
  clicked target e w (step (OpClick target e) w).
Proof.
  intros Hm H1 Hanc. cbn [step]. unfold dispatch, event_path, on_click.
  rewrite for_each_cons, H1. cbn [Nat.iter].
  assert (Ht : target < length (nodes w)) by (apply wired_exists; lia).
  pose proof (clicked_first target e w Hm Ht) as Hfirst.
  apply (for_each_inv (clicked target e w)); [|exact Hfirst].
  intros a v Ha Hv.
  assert (Hne : a <> target) by (intros ->; contradiction).
  rewrite (cl_wired _ _ _ _ Hv a).
  destruct (wired_of w a) as [|k] eqn:Hk; [exact Hv|].
  assert (Hal : a < length (nodes w)) by (apply wired_exists; lia).
  apply (iter_inv (clicked target e w)); [|exact Hv].
  intros v' Hv'. now apply clicked_next.
Qed.

(** C5, as the code has it.  With reduced motion inactive, in every state
    the component can reach, a click on an element that carries the
    component's click listener once, whether an ancestor carries one or
    not, appends exactly one node to the element (the document is a tree:
    the element is not among its own ancestors): the first node the click
    makes is a child of the clicked element, its width and height are the
    larger side of the element's bounding box and its centre is the click
    point, and no other node made by the click hangs under the element.
    The node stays a child of the element as long as less than 600 ms have
    passed, and is detached once 600 ms have passed; so at no time does
    more than one node made by the click hang under the element. *)
Theorem click_spawns_one_ripple (h : World) (ops : list op) (target : node_id)
    (e : MouseEvent) (d : Z) :
  pristine h ->
  let w := run ops (construct h) in
  prefersReducedMotion (this w) = false ->
  wired_of w target = 1 ->
  ~ In target (ancestors_of w target) ->
  let w' := step (OpClick target e) w in
  let r := length (nodes w) in
  let rect := rects w target in
  let size := Qmax (rect_width rect) (rect_height rect) in
  (exists nd x y,
     nodes w' !! r = Some nd /\ parent nd = Some target
     /\ s_width (style nd) = Some (Px size) /\ s_height (style nd) = Some (Px size)
     /\ s_left (style nd) = Some (Px x) /\ s_top (style nd) = Some (Px y)
     /\ (x + size / 2 == clientX e - rect_left rect)%Q
     /\ (y + size / 2 == clientY e - rect_top rect)%Q)
  /\ (forall n, r <= n -> parent_of w' n = Some target -> n = r)
  /\ In ((clock w + 600)%Z, TRemoveNode r) (timers w')
  /\ ((d < 600)%Z -> parent_of (advance d w') r = Some target)
  /\ ((600 <= d)%Z -> parent_of (advance d w') r = None)
  /\ (forall n, r <= n -> parent_of (advance d w') n = Some target -> n = r).
Proof.
  intros Hp w Hm H1 Hanc w' r rect size.
  pose proof (reachable_aimed h ops Hp) as Haim. fold w in Haim. clearbody w.
  pose proof (click_clicked target e w Hm H1 Hanc) as [R O C T Ts M W L].
  fold w' r in R, O, C, T, Ts, M, W, L. clearbody w'.
  assert (Honly : forall n, r <= n -> parent_of w' n = Some target -> n = r).
  { intros n Hn Hpar. destruct (decide (n = r)) as [|Hne]; [assumption|].
    exfalso. apply (O n); [lia | exact Hpar]. }
  split; [|split; [exact Honly | split; [|split; [|split]]]].
  - exists (ripple_node target e w),
      (clientX e - rect_left rect - size / 2)%Q, (clientY e - rect_top rect - size / 2)%Q.
    split; [exact R|]. repeat split; try reflexivity; field.
  - apply (due_prefix_incl (clock w + 600)%Z). apply T. lia.
  - intros Hd. unfold advance. cbv zeta. rewrite parent_of_fired_other.
    + unfold parent_of. cbn [nodes with_timers with_clock]. now rewrite R.
    + apply List.Forall_forall. intros ta Hin Hta.
      pose proof (due_prefix_due _ _ _ Hin) as Hdue.
      apply due_prefix_incl in Hin. destruct (Ts ta Hin) as [Hold|Hnew].
      * unfold aimed in Haim. rewrite List.Forall_forall in Haim.
        specialize (Haim ta Hold r Hta). subst r. lia.
      * rewrite C in Hdue. lia.
  - intros Hd. unfold advance. cbv zeta. apply (fired_detached _ (clock w + 600)%Z). left.
    apply T. rewrite C. lia.
  - intros n Hn Hpar. apply Honly; [exact Hn|]. now apply parent_of_advance_some in Hpar.
Qed.

(** A page with a button inside a card: both carry the listeners. *)
Definition nested_page : World :=
  with_nodes [mkNode "body" [] no_style None 0; el "div" ["card"] 0; el "button" [] 1]
             (sample_page false).

Lemma nested_pristine : pristine nested_page.
Proof.
  repeat split; simpl; try lia.
  intros n nd H.
  do 3 (destruct n as [|n]; [injection H as <-; reflexivity|]).
  discriminate.
Qed.

(** A click on the button of [nested_page], after a theme change: the card
    gets a ripple of its own, and the button exactly one. *)
Lemma click_spawns_one_ripple_witness :
  let w := run [OpThemeChange] (construct nested_page) in
  let w' := step (OpClick 2 (mkMouseEvent 50 35)) w in
  let r := length (nodes w) in
  let rect := rects w 2 in
  let size := Qmax (rect_width rect) (rect_height rect) in
  wired_of w 1 = 1
  /\ (exists nd x y,
        nodes w' !! r = Some nd /\ parent nd = Some 2
        /\ s_width (style nd) = Some (Px size) /\ s_height (style nd) = Some (Px size)
        /\ s_left (style nd) = Some (Px x) /\ s_top (style nd) = Some (Px y)
        /\ (x + size / 2 == clientX (mkMouseEvent 50 35) - rect_left rect)%Q
        /\ (y + size / 2 == clientY (mkMouseEvent 50 35) - rect_top rect)%Q)
  /\ (forall n, r <= n -> parent_of w' n = Some 2 -> n = r)
  /\ In ((clock w + 600)%Z, TRemoveNode r) (timers w')
  /\ ((599 < 600)%Z -> parent_of (advance 599 w') r = Some 2)
  /\ ((600 <= 599)%Z -> parent_of (advance 599 w') r = None)
  /\ (forall n, r <= n -> parent_of (advance 599 w') n = Some 2 -> n = r).
Proof.
  split; [vm_compute; reflexivity|].
  apply (click_spawns_one_ripple nested_page [OpThemeChange] 2
           (mkMouseEvent 50 35) 599 nested_pristine).
  - reflexivity.
  - vm_compute. reflexivity.
  - vm_compute. intros [H|[H|[]]]; discriminate H.
Defined.

(** The claim C5 as stated: every click on a wired element appends exactly
    one ripple to the element. *)
Definition one_ripple_per_click : Prop :=
  forall (h : World) (ops : list op) (target : node_id) (e : MouseEvent),
    pristine h ->
    let w := run ops (construct h) in
    prefersReducedMotion (this w) = false ->
    0 < wired_of w target ->
    let w' := step (OpClick target e) w in
    exists r, forall n, length (nodes w) <= n ->
                        (parent_of w' n = Some target <-> n = r).

(** Against C5 as stated: the page moves the container of the button
    (node 1) within the document.  The mutation observer attaches the
    listeners to the button (node 2) a second time, and one click then
    appends two ripples to it, the nodes 71 and 72. *)
Lemma rewired_click_spawns_two_ripples : ~ one_ripple_per_click.
Proof.
  intros H.
  specialize (H (sample_page false) [OpMutation [1]] 2 (mkMouseEvent 50 35)
                (sample_pristine false)).
  cbv zeta in H.
  assert (Hm : prefersReducedMotion
                 (this (run [OpMutation [1]] (construct (sample_page false)))) = false)
    by (vm_compute; reflexivity).
  assert (Hw : 0 < wired_of (run [OpMutation [1]] (construct (sample_page false))) 2)
    by (vm_compute; lia).
  destruct (H Hm Hw) as (r & Hr).
  assert (H71 : 71 = r).
  { apply (Hr 71); [vm_compute; lia | vm_compute; reflexivity]. }
  assert (H72 : 72 = r).
  { apply (Hr 72); [vm_compute; lia | vm_compute; reflexivity]. }
  congruence.
Qed.
